(* ===== verification/_CoqProject ===== *)
-Q . S2P
Prelude.v
Utils.v
Bytes.v
Paths.v
Data.v
Text.v
Platform.v
Monad.v
Sim.v
Logging.v
Cli.v
Signalfd.v
Control.v
Service.v
Registry.v
Ledger.v
Handlers.v
Reload.v
Status.v
Supervisor.v
Fuel.v
Startup.v
Exits.v
Deadlines.v
Idempotence.v
Policy.v
Refinement.v
Convergence.v
Shutdown.v
Images.v
Typing.v
Run.v
