(* ===== verification/Prelude.v ===== *)
(** * svlopp: a verification library for the process supervisor

    svlopp (src/src/, about 1900 lines of Rust) supervises a set of
    configured services.  One thread waits on an epoll set of three
    descriptors: a signalfd (SIGHUP reloads the configuration, SIGCHLD reaps
    children, SIGTERM and SIGINT request a shutdown), a one-second timerfd
    (kill deadlines, pending and fallback actions) and a control FIFO (start,
    stop and restart requests).  All handlers change one registry of
    services; after the handlers the registry is written to a status file.

    ** Files and sources

    - [Prelude], [Utils], [Bytes]: results, generic list and map lemmas, the
      hint database and tactics; constants, [cvt] and [is_crash_signal] of
      utils.rs; little-endian codecs and buffers.
    - [Paths]: the components of a path, by which std compares [PathBuf]s.
    - [Data], [Text]: the types of service.rs with their pure operations
      ([ExitReason], [ServiceStopReason], [ServiceState], [StopSignal],
      [ServiceConfig], [ServiceIdGen], [ServicePendingAction], [Service]) and
      their [Display] texts.
    - [Platform]: [sysop], the signature of every call the program makes
      outside its sources, with the type it returns; the class [Platform]
      interprets it over an abstract platform state, and [PlatformLaws] and
      [WriteProgress] state the documented behaviour the proofs use.  A
      theorem takes only the laws it needs.
    - [Monad]: computations with a mutable state, errors, panics and a trace
      of the calls made; weakest preconditions; the ledger, which replays a
      trace and keeps the set of forked and unreaped processes; computations
      that leave the ledger alone.
    - [Sim]: a simulated kernel with scripted answers.  It satisfies every
      law, so no theorem is vacuous, and it runs the model: the witnesses and
      examples are evaluated on it.
    - [Logging], [Cli]: logging.rs and cli.rs.  [LOG_LEVEL] is a field of the
      world; every [svlogg!] of the sources is a call of [svlogg] in the
      definition that models its function.  [parse] decodes each argument as
      [std::env::args] does, with its panic on one that is not Unicode.
    - [Signalfd]: signalfd.rs and timerfd.rs.
    - [Control]: control.rs, the wire frames and the FIFO.
    - [Service]: service.rs on one service: [Service::new], [update_config],
      [start_service] with the child's side of the fork ([child_setup],
      [child_exec]), [stop_service], [force_kill_service_process].
    - [Registry]: [ServiceRegistry] of service.rs, its two maps as finite
      maps; the invariant [registry_wf] (the two maps are inverse to each
      other, ids key their own services) and its dynamic part [reg_inv] (the
      registered pids are unreaped children and are the ledger's); the
      abstract life cycle [lifecycle], [evolves].
    - [Ledger]: what the ledger means for a trace.
    - [Handlers]: [apply_control_op], [handle_sigchld] and the loops of main.rs
      over the registry: initial start, timer tick, shutdown request.
    - [Reload]: [from_config_file], [service_ids], [reload_services].
    - [Status]: status.rs, [write_all], [format_status], [flush_status_file].
    - [Supervisor]: main.rs, a definition per branch of the loop ([handle_hup],
      [handle_chld], [handle_term]; [handle_sfd], [handle_tfd], [handle_pfd];
      [run_loop], [setup], [run], [main]); its invariant [sv_inv] and its
      triples.
    - [Fuel]: what the fuel of the loops means: [m ⊑ m'] when [m] is [m'] cut
      short.
    - [Startup]: what a successful [setup] did, the load of the configuration.
    - [Exits]: a process leaves the program's code only as a forked child, or
      for want of a stderr.
    - [Deadlines]: where the deadline of a stopping service comes from, and
      when process groups are killed; a second invariant, kept by every
      handler next to the registry's.
    - [Idempotence]: a second reload of the same configuration.
    - [Policy]: the abstract specification of the event loop, a machine whose
      state is one [entry] per service and whose steps react to events; it
      shares the data types of the sources and none of their operations.
    - [Refinement]: the abstraction [policy_of] from the supervisor's state to
      the machine's, and [acts], the handlers as sequences of its steps.
    - [Convergence]: what lasts of a reload, first for one entry of the
      machine, then for the services.
    - [Shutdown]: the rounds of the loop, and when it is left.
    - [Images]: where the vectors of a service come from; an invariant pass
      that follows the child's side of the forks.
    - [Typing]: the ranges of the Rust types that the model's own types do
      not have, for all that the supervisor keeps.
    - [Run]: the theorems on the whole program.

    ** How state and effects correspond to the code

    What a Rust function borrows as [&mut] is the state of the computation
    that models it, and survives its errors.  [?] is [bind] on an error,
    [expect] and slice indexing are panics, a match on a [Result] is [catch].
    A call outside the sources is [sys op]; it is answered by the platform and
    appended to the trace.  [fork] returns twice: the child's arm of
    [start_service] ends in [Gone], the exec of a new image or the exit of the
    child; the rest of the computation is the parent's.  The arms are chosen
    by what the platform returns, so a theorem about all platforms is about
    both; the child's arm is the subject of [child_exec_follows_plan].  A
    panic that the program's own text can raise is the outcome [Panic], which
    the theorems exclude, but for one: an argument that is not Unicode, at
    the start of [main] (see [main_exits]).  The panic of [eprintln!], when stderr cannot be
    written, ends the process at the environment's choice: it is a [Gone] of
    its own ([ProcPanic], [stderr_lost]), about which weakest preconditions say
    nothing, and which the theorems on the ends of [run] and [main] list.  A
    hash map is a [gmap]; each iteration over one visits its entries in an
    order the platform chooses.  Machine integers are [Z] with their bounds
    written out, file descriptors and [sigset_t] values are opaque numbers, an
    [Instant] is its nanoseconds, with the overflow check of [Add].  Strings
    and paths are byte strings; two [ServiceConfig]s are compared by [≡], which
    takes the components of their paths, as the derived [PartialEq] does, so a
    reload that only respells a path changes nothing ([respelled_path_kept]).

    ** The theorems

    - The whole program (Run): safety of [run] for any input and any number of
      iterations, only own unreaped children are ever signalled, SIGKILL
      only after the stop signal and the configured timeout, the process
      group of a child killed exactly when its end is reported, the pid map
      is the set of unreaped children, no process is made before the setup is
      complete, a child ends on its plan under the mask svlopp was started
      with and executes only configured command lines, all that is kept is in
      the range of its Rust type, and the exit codes of [main].
    - The specification (Policy, Refinement, Run): [run_refines_policy], a
      simulation: whatever the run did to its services, the policy does on
      the events of the run.  The policy says what has to happen to a service,
      and that it is left undone only where a call made for it was refused;
      the same justification by events is in what the theorems on the handlers
      say of each service ([did_fork], [stop_answered], [start_refused] and
      [reload_refused] in Service).
    - Progress (Shutdown, Convergence): the loop is left in the round in which
      the last child is reaped after a shutdown was requested; what a reload
      could not do at once is done when the processes have ended.
    - The events (Handlers, Reload, Idempotence, Supervisor): for each handler
      its complete effect on every service, the signals it sends, the panics
      it cannot reach, and when the loop is left; reloading twice is reloading
      once.
    - One service and one registry (Service, Registry, Data): the branches of
      start, stop and update with the errors and what they leave behind, the
      child's plan, the pid index, stop reasons, the id generator.
    - Input and output (Control, Signalfd, Status, Cli, Logging): round trips
      of frames, batches and texts, partial reads and writes, atomic
      replacement of the status file, the grammar of the command line.
    - Termination: [run_loop] serves for ever, and its [fuel] counts epoll
      waits; theorems hold for every [fuel], and the lemma [fuel_only_cuts]
      shows that a run with less is a beginning of the run with more.
      [bound] limits the wait loop of one SIGCHLD and the writes of one flush.
      [write_all_complete] shows that the length of the text is enough for a
      flush on a platform that satisfies [WriteProgress].  The wait loop runs
      as long as [wait] delivers statuses ([handle_sigchld_drains]), so a
      bound above their number is enough; no number is enough for every
      platform, since svlopp is a subreaper and the orphans it adopts and
      kills in the loop deliver statuses too.  All other loops are
      structural.

    The examples ending the files run the model on scenarios; several show
    behaviours worth knowing: [restart_during_shutdown],
    [interrupted_wait_ends_loop] (Supervisor), [readded_service_removed]
    (Reload), [update_config_not_atomic] (Service), [newline_in_name] (Status)
    and [crash_while_stopping_restarts] (Handlers).

    ** Not modelled

    The deserialization derived by serde and toml, a parameter
    [toml_from_str]; the texts that the C library and rustix give errors, pids
    and wait statuses in log messages, parameters as well; closing descriptors
    on drop; what a service does after its exec.  The supervisor has one thread, so handlers do not
    interleave; what the outside does between two calls is the platform's
    answer to the next one.

    ** What does not hold

    That every shutdown ends whatever the services do is not a property of the
    program: see [restart_during_shutdown].  A failed reload is not undone: see
    [reload_services_safe] for what it leaves. *)

From stdpp Require Export base tactics list gmap strings fin_maps sets pretty.

Declare Scope svlopp_scope.
Delimit Scope svlopp_scope with svlopp.

(** [result E A] is Rust's [Result<A, E>]. *)
Inductive result (E A : Type) : Type :=
| ROk (a : A)
| RErr (e : E).
Arguments ROk {E A} a.
Arguments RErr {E A} e.

#[global] Instance result_eq_dec `{EqDecision E, EqDecision A} :
  EqDecision (result E A).
Proof. solve_decision. Defined.

(** [r.map_err(f)]. *)
Definition map_err {E F A} (f : E → F) (r : result E A) : result F A :=
  match r with ROk a => ROk a | RErr e => RErr (f e) end.

(** [o.ok_or_else(|| e)]. *)
Definition ok_or {E A} (o : option A) (e : E) : result E A :=
  match o with Some a => ROk a | None => RErr e end.

(** The trait [fmt::Display] of the standard library: [display x] is what
    [format!("{}", x)] yields. *)
Class Display (A : Type) := display : A → string.
#[global] Instance display_string : Display string := λ s, s.
#[global] Instance display_Z : Display Z := pretty.

(** * Hint databases and tactics *)

(** Facts about the registry and the worlds a handler can reach; every
    component file adds its preservation lemmas. *)
Create HintDb svlopp.

(** Eliminate existentials and conjunctions of the context. *)
Ltac decompose_ctx :=
  repeat match goal with
  | H : ∃ _, _ |- _ => destruct H
  | H : _ ∧ _ |- _ => destruct H
  end.

(** Case analysis on the scrutinee of the first match of the goal. *)
Ltac case_goal :=
  match goal with
  | |- context [match ?x with _ => _ end] => destruct x eqn:?
  end.

(** * Generic lemmas *)

Section lists.
Context {A B : Type}.
Implicit Types l : list A.

(** The elements left to visit and the ones visited partition a
    duplicate-free list. *)
Lemma NoDup_app_cons_notin l1 x l2 :
  NoDup (l1 ++ (x :: l2)) → x ∉ l1 ∧ x ∉ l2.
Proof.
  intros (_ & Hd & Hc)%NoDup_app. apply NoDup_cons in Hc as [Hx _].
  split; [|done]. intros Hin. apply (Hd x Hin). left.
Qed.
End lists.

(** The values of a map whose lookups are injective have no duplicates. *)
Lemma NoDup_fmap_fst_inj (ids : gmap string Z) (names : list (string * Z)) :
  (names ≡ₚ map_to_list ids) →
  (∀ n1 n2 k, ids !! n1 = Some k → ids !! n2 = Some k → n1 = n2) →
  NoDup names.*2.
Proof.
  intros Hp Hinj. rewrite Hp.
  assert (Hl : ∀ n k, (n, k) ∈ map_to_list ids → ids !! n = Some k)
    by (intros n k; by rewrite elem_of_map_to_list).
  pose proof (NoDup_map_to_list ids) as Hnd. clear Hp. revert Hl Hnd.
  generalize (map_to_list ids). intros l Hl. induction l as [|[n k] l IH]; [constructor|].
  intros [Hn Hnd]%NoDup_cons. apply NoDup_cons. split.
  - intros ([n' k'] & Heq & Hin)%list_elem_of_fmap. simpl in Heq. subst k'. apply Hn.
    assert (n = n') as ->; [|done]. apply (Hinj _ _ k); apply Hl; set_solver.
  - apply IH; [|done]. intros n' k' Hin. apply Hl. by right.
Qed.
