(* ===== verification/Utils.v ===== *)
(** utils.rs and the numeric constants of [libc] and [rustix] the sources
    name: error codes, signal numbers, the crash-signal test and the
    conversion of raw return codes. *)
From S2P Require Import Prelude.
Local Open Scope Z_scope.

(** * Constants of the C library (x86-64 and aarch64 Linux) *)

Definition EINTR : Z := 4.
Definition EIO : Z := 5.
Definition ECHILD : Z := 10.
Definition EAGAIN : Z := 11.
Definition EEXIST : Z := 17.
Definition ESRCH : Z := 3.
Definition ENOENT : Z := 2.

Definition SIGHUP : Z := 1.
Definition SIGINT : Z := 2.
Definition SIGQUIT : Z := 3.
Definition SIGILL : Z := 4.
Definition SIGABRT : Z := 6.
Definition SIGBUS : Z := 7.
Definition SIGFPE : Z := 8.
Definition SIGKILL : Z := 9.
Definition SIGUSR1 : Z := 10.
Definition SIGSEGV : Z := 11.
Definition SIGUSR2 : Z := 12.
Definition SIGTERM : Z := 15.
Definition SIGCHLD : Z := 17.

(** * Errors *)

(** [io::Error] as the sources build and inspect it: an operating system
    error code, [io::Error::other(msg)], or the conversion of a
    [NulError] of [CString::new]. *)
Inductive io_error : Type :=
| OsError (errno : Z)
| Other (msg : string)
| NulError (pos : nat).

#[global] Instance io_error_eq_dec : EqDecision io_error.
Proof. solve_decision. Defined.

(** [RetCode::is_error], for [i32] and [isize] alike. *)
Definition is_error (ret : Z) : bool := bool_decide (ret = -1).

(** [cvt]: [errno] is the value of [*libc::__errno_location()]. *)
Definition cvt (ret errno : Z) : result Z Z :=
  if is_error ret then RErr errno else ROk ret.

(** [is_crash_signal]. *)
Definition is_crash_signal (sig : Z) : bool :=
  bool_decide (sig = SIGSEGV) || bool_decide (sig = SIGABRT) ||
  bool_decide (sig = SIGFPE) || bool_decide (sig = SIGILL) ||
  bool_decide (sig = SIGBUS).

Lemma is_crash_signal_spec sig :
  is_crash_signal sig = true ↔ sig ∈ [SIGSEGV; SIGABRT; SIGFPE; SIGILL; SIGBUS].
Proof.
  unfold is_crash_signal. rewrite !orb_true_iff, !bool_decide_eq_true.
  set_solver.
Qed.

(** * Machine integers *)

Definition u64_max : Z := 2 ^ 64 - 1.
Definition is_u64 (z : Z) : Prop := 0 <= z <= u64_max.
Definition is_u32 (z : Z) : Prop := 0 <= z < 2 ^ 32.

(** [u64::checked_add]. *)
Definition checked_add_u64 (a b : Z) : option Z :=
  if bool_decide (a + b <= u64_max) then Some (a + b) else None.

(** [u32::cast_signed]. *)
Definition cast_signed (z : Z) : Z := if bool_decide (z < 2 ^ 31) then z else z - 2 ^ 32.

(** * Time: [std::time::Duration] and [std::time::Instant]

    Both are counted in nanoseconds.  On Linux an [Instant] is a pair of a
    signed 64-bit second and a nanosecond below 10^9, so [Instant + Duration]
    panics exactly when the seconds of the sum leave the [i64] range. *)

Definition nanos_per_sec : Z := 10 ^ 9.
Definition nanos_per_milli : Z := 10 ^ 6.
Definition i64_max : Z := 2 ^ 63 - 1.

(** The instants that can be represented. *)
Definition is_instant (t : Z) : Prop := 0 <= t < 2 ^ 63 * nanos_per_sec.

(** [Duration::from_millis]. *)
Definition duration_from_millis (ms : Z) : Z := ms * nanos_per_milli.

(** [Instant::checked_add], which [+] unwraps. *)
Definition instant_checked_add (t d : Z) : option Z :=
  let t' := t + d in
  if bool_decide (t' / nanos_per_sec <= i64_max) then Some t' else None.

(** A deadline never overflows: a [u64] count of milliseconds is far below
    the range of the seconds of an [Instant]. *)
Lemma instant_add_no_overflow t ms :
  0 <= t < 2 ^ 62 * nanos_per_sec → is_u64 ms →
  instant_checked_add t (duration_from_millis ms) =
    Some (t + duration_from_millis ms).
Proof.
  unfold is_u64, u64_max, instant_checked_add, duration_from_millis,
    nanos_per_milli, nanos_per_sec, i64_max.
  intros Ht Hms. rewrite bool_decide_true; [done|].
  apply Z.lt_succ_r. apply Z.div_lt_upper_bound; lia.
Qed.

Lemma is_instant_add t ms :
  0 <= t < 2 ^ 62 * nanos_per_sec → is_u64 ms → is_instant (t + duration_from_millis ms).
Proof.
  unfold is_u64, u64_max, is_instant, duration_from_millis, nanos_per_milli, nanos_per_sec. lia.
Qed.
