(* ===== verification/Bytes.v ===== *)
(** Byte buffers: the little-endian codec of [u32]/[u64]::[from_le_bytes] and
    [from_ne_bytes] on a little-endian machine, writing the result of a
    [read] into a buffer, and the bytes of a string. *)
From S2P Require Import Prelude Utils.
Local Open Scope Z_scope.

Definition is_byte (b : Z) : Prop := 0 <= b < 256.

(** [uN::from_le_bytes]. *)
Definition le_decode (bs : list Z) : Z := foldr (λ b acc, b + 256 * acc) 0 bs.

(** [uN::to_le_bytes], on [n] bytes. *)
Fixpoint le_encode (n : nat) (z : Z) : list Z :=
  match n with
  | O => []
  | S n' => z `mod` 256 :: le_encode n' (z / 256)
  end.

(** [buf[..bs.len()].copy_from_slice(bs)]: the rest of the buffer is kept. *)
Definition overwrite (bs buf : list Z) : list Z := bs ++ drop (length bs) buf.

(** [s.as_bytes()]. *)
Definition byte_of_ascii (c : Ascii.ascii) : Z := Z.of_N (Ascii.N_of_ascii c).
Fixpoint as_bytes (s : string) : list Z :=
  match s with
  | "" => []
  | String c s' => byte_of_ascii c :: as_bytes s'
  end.

Lemma length_le_encode n z : length (le_encode n z) = n.
Proof. revert z. induction n; intros; simpl; auto. Qed.

Lemma le_encode_bytes n z : Forall is_byte (le_encode n z).
Proof.
  revert z. induction n; intros z; simpl; constructor; [|done].
  by apply Z.mod_pos_bound.
Qed.

Lemma le_decode_encode n z :
  0 <= z < 256 ^ Z.of_nat n → le_decode (le_encode n z) = z.
Proof.
  revert z. induction n as [|n IH]; intros z Hz; simpl.
  - change (256 ^ Z.of_nat 0) with 1 in Hz. lia.
  - rewrite Nat2Z.inj_succ, Z.pow_succ_r in Hz by lia.
    unfold le_decode in *. rewrite IH.
    + pose proof (Z.div_mod z 256). lia.
    + split; [apply Z.div_pos; lia|apply Z.div_lt_upper_bound; lia].
Qed.

Lemma le_decode_cons b bs : le_decode (b :: bs) = b + 256 * le_decode bs.
Proof. done. Qed.

Lemma le_encode_decode bs :
  Forall is_byte bs → le_encode (length bs) (le_decode bs) = bs.
Proof.
  unfold is_byte. induction 1 as [|b bs Hb Hbs IH]; [done|]. simpl length.
  rewrite le_decode_cons. simpl.
  rewrite (Z.mul_comm 256), Z.mod_add, Z.mod_small, Z.div_add, Z.div_small by lia.
  by rewrite Z.add_0_l, IH.
Qed.

Lemma le_decode_bounds bs :
  Forall is_byte bs → 0 <= le_decode bs < 256 ^ Z.of_nat (length bs).
Proof.
  unfold is_byte. induction 1 as [|b bs Hb Hbs IH]; [done|].
  rewrite le_decode_cons. simpl length. rewrite Nat2Z.inj_succ, Z.pow_succ_r by lia. lia.
Qed.

Lemma length_overwrite bs buf :
  (length bs ≤ length buf)%nat → length (overwrite bs buf) = length buf.
Proof. intros Hl. unfold overwrite. rewrite length_app, length_drop. lia. Qed.

Lemma take_overwrite n bs buf :
  (n ≤ length bs)%nat → take n (overwrite bs buf) = take n bs.
Proof. intros Hl. unfold overwrite. by rewrite take_app_le. Qed.

Lemma as_bytes_is_byte s : Forall is_byte (as_bytes s).
Proof.
  induction s as [|c s IH]; simpl; constructor; [|done].
  unfold is_byte, byte_of_ascii. pose proof (Ascii.N_ascii_bounded c). lia.
Qed.

#[global] Arguments le_encode : simpl never.
#[global] Arguments le_decode : simpl never.
