(* ===== verification/Paths.v ===== *)
(** What the sources use of the equality of [std::path::PathBuf]: two paths
    are equal when they have the same components, not the same text. *)
From S2P Require Import Prelude.

Definition slash : Ascii.ascii := Ascii.ascii_of_nat 47.
Definition dot : Ascii.ascii := Ascii.ascii_of_nat 46.

(** [s] cut at each [sep]. *)
Fixpoint split_on (sep : Ascii.ascii) (s : string) : list string :=
  match s with
  | "" => [""]
  | String c s' =>
      if bool_decide (c = sep) then "" :: split_on sep s'
      else match split_on sep s' with
           | part :: parts => String c part :: parts
           | [] => [String c ""]
           end
  end.

(** [std::path::Component], on Unix. *)
Inductive component : Type :=
| RootDir
| CurDir
| ParentDir
| Normal (name : string).

#[global] Instance component_eq_dec : EqDecision component.
Proof. solve_decision. Defined.

(** A part of a path that is not its first: repeated separators, those at
    the end and [.] do not count. *)
Definition component_of (part : string) : option component :=
  if bool_decide (part = "") || bool_decide (part = ".") then None
  else if bool_decide (part = "..") then Some ParentDir
  else Some (Normal part).

(** [Path::components]. *)
Definition components (path : string) : list component :=
  match split_on slash path with
  | first :: parts =>
      (if bool_decide (path = "") then []
       else if bool_decide (first = "") then [RootDir]
       else if bool_decide (first = ".") then [CurDir]
       else option_list (component_of first)) ++ omap component_of parts
  | [] => []
  end.

Example components_respelled :
  components "/a/b" = [RootDir; Normal "a"; Normal "b"] ∧
  components "/a//b/" = components "/a/b" ∧ components "/./a/./b/." = components "/a/b" ∧
  components "a/b" ≠ components "/a/b" ∧ components "./a" ≠ components "a" ∧
  components "/a/../b" ≠ components "/b" ∧ components "" = [] ∧ components "//" = [RootDir].
Proof. vm_compute. done. Qed.
