(* ===== verification/Data.v ===== *)
(** The data of service.rs: exit and stop reasons, service states, stop
    signals, configurations, the id generator, pending actions and the
    [Service] record, with their pure operations and [Display] instances. *)
From S2P Require Import Prelude Utils Paths.
Local Open Scope Z_scope.

(** [DEFAULT_STOP_TIMEOUT_MS] and the serde default that returns it. *)
Definition DEFAULT_STOP_TIMEOUT_MS : Z := 5000.
Definition default_stop_timeout_ms : Z := DEFAULT_STOP_TIMEOUT_MS.

(** * Exit reasons *)

Inductive exit_reason : Type :=
| Exited (code : Z)
| Signaled (sig : Z).

#[global] Instance exit_reason_eq_dec : EqDecision exit_reason.
Proof. solve_decision. Defined.

#[global] Instance display_exit_reason : Display exit_reason := λ er,
  match er with
  | Exited i => "exited(" +:+ display i +:+ ")"
  | Signaled i => "signaled(" +:+ display i +:+ ")"
  end.

(** The derived [Debug]. *)
Definition exit_reason_debug (er : exit_reason) : string :=
  match er with
  | Exited i => "Exited(" +:+ display i +:+ ")"
  | Signaled i => "Signaled(" +:+ display i +:+ ")"
  end.

(** * Stop reasons *)

Inductive service_stop_reason : Type :=
| NeverStarted
| SupervisorTerminated (er : exit_reason)
| Success
| Error (code : Z)
| Crashed (sig : Z)
| Killed (sig : Z).

#[global] Instance service_stop_reason_eq_dec : EqDecision service_stop_reason.
Proof. solve_decision. Defined.

#[global] Instance display_stop_reason : Display service_stop_reason := λ r,
  match r with
  | NeverStarted => "never_started"
  | SupervisorTerminated er => "supervisor_terminated(" +:+ display er +:+ ")"
  | Success => "success"
  | Error e => "error(" +:+ display e +:+ ")"
  | Crashed s => "crashed(" +:+ display s +:+ ")"
  | Killed s => "killed(" +:+ display s +:+ ")"
  end.

(** * Service states.  A [Pid] is its raw integer, an [Instant] its
    nanoseconds. *)

Inductive service_state : Type :=
| Stopped (r : service_stop_reason)
| Running (p : Z)
| Stopping (p : Z) (kill_deadline : Z).

#[global] Instance service_state_eq_dec : EqDecision service_state.
Proof. solve_decision. Defined.

(** [ServiceState::default]. *)
Definition service_state_default : service_state := Stopped NeverStarted.

#[global] Instance display_service_state : Display service_state := λ st,
  match st with
  | Stopped r => "stopped " +:+ display r
  | Running p => "running " +:+ display p
  | Stopping p _ => "stopping " +:+ display p
  end.

(** [matches!(st, ServiceState::Stopping(_, _))] and the like. *)
Definition state_is_stopping (st : service_state) : bool :=
  match st with Stopping _ _ => true | _ => false end.
Definition state_is_running (st : service_state) : bool :=
  match st with Running _ => true | _ => false end.
Definition state_is_stopped (st : service_state) : bool :=
  match st with Stopped _ => true | _ => false end.

(** [ServiceStopReason::from_exit_reason_and_service_state]. *)
Definition from_exit_reason_and_service_state
    (er : exit_reason) (svc_state : service_state) : service_stop_reason :=
  match er with
  | Exited code =>
      if state_is_stopping svc_state then SupervisorTerminated er
      else if bool_decide (code = 0) then Success
      else Error code
  | Signaled sig =>
      if is_crash_signal sig then Crashed sig
      else if state_is_stopping svc_state then SupervisorTerminated er
      else Killed sig
  end.

(** The values these types can have: an exit status is a byte, a signal
    number is not zero and below 128, and each reason has the codes it is
    given for. *)
Definition exit_reason_typed (er : exit_reason) : Prop :=
  match er with Exited code => 0 ≤ code < 256 | Signaled sig => 0 < sig < 128 end.

Definition stop_reason_typed (r : service_stop_reason) : Prop :=
  match r with
  | NeverStarted | Success => True
  | SupervisorTerminated er => exit_reason_typed er ∧ ∀ sig, er = Signaled sig → is_crash_signal sig = false
  | Error code => 0 < code < 256
  | Crashed sig => 0 < sig < 128 ∧ is_crash_signal sig = true
  | Killed sig => 0 < sig < 128 ∧ is_crash_signal sig = false
  end.

(** * Stop signals *)

Inductive stop_signal : Type :=
| SigTerm | SigInt | SigQuit | SigHup | SigUsr1 | SigUsr2.

#[global] Instance stop_signal_eq_dec : EqDecision stop_signal.
Proof. solve_decision. Defined.

(** [impl From<StopSignal> for Signal]; a [Signal] is its number. *)
Definition signal_of_stop_signal (s : stop_signal) : Z :=
  match s with
  | SigTerm => SIGTERM
  | SigInt => SIGINT
  | SigQuit => SIGQUIT
  | SigHup => SIGHUP
  | SigUsr1 => SIGUSR1
  | SigUsr2 => SIGUSR2
  end.

(** * Pending actions *)

Module ServicePendingAction.
Inductive service_pending_action : Type := None | Restart | Remove.

#[global] Instance service_pending_action_eq_dec :
  EqDecision service_pending_action.
Proof. solve_decision. Defined.

Definition is_none (a : service_pending_action) : bool :=
  match a with None => true | _ => false end.
End ServicePendingAction.
Abbreviation service_pending_action := ServicePendingAction.service_pending_action.

(** * Configurations *)

Record user_group_ids : Type := UserGroup { ug_uid : Z; ug_gid : Z }.

#[global] Instance user_group_ids_eq_dec : EqDecision user_group_ids.
Proof. solve_decision. Defined.

Record service_config : Type := ServiceConfig {
  command : string;
  args : list string;
  env : option (gmap string string);
  cfg_working_directory : option string;
  cfg_log_file_path : option string;
  cfg_user_group : option user_group_ids;
  cfg_fallback_pending_action : service_pending_action;
  cfg_stop_signal : stop_signal;
  stop_timeout_ms : Z
}.

(** [ServiceConfig] derives [PartialEq]: two configurations are equal when
    their fields are, but a [PathBuf] is compared by its components; two hash
    maps are equal when they have the same entries.  This is [≡], which is
    coarser than [=]. *)
Definition compared (cfg : service_config) :=
  (command cfg, args cfg, env cfg,
   components <$> cfg_working_directory cfg, components <$> cfg_log_file_path cfg,
   cfg_user_group cfg, cfg_fallback_pending_action cfg, cfg_stop_signal cfg,
   stop_timeout_ms cfg).

#[global] Instance service_config_equiv : Equiv service_config :=
  λ cfg cfg', compared cfg = compared cfg'.
#[global] Instance service_config_equivalence : Equivalence (≡@{service_config}).
Proof. split; [done|by intros ??|intros ???; apply eq_trans]. Qed.
#[global] Instance service_config_equiv_dec : RelDecision (≡@{service_config}).
Proof. intros cfg cfg'. unfold equiv, service_config_equiv. apply _. Defined.

(** The integer fields are in the range of their types, [u64] and [u32]. *)
Definition config_wf (cfg : service_config) : Prop :=
  is_u64 (stop_timeout_ms cfg) ∧
  match cfg_user_group cfg with
  | Some ug => is_u32 (ug_uid ug) ∧ is_u32 (ug_gid ug)
  | None => True
  end.

(** [CString::new]: an interior zero byte is refused, at its position. *)
Fixpoint nul_position (s : string) : option nat :=
  match s with
  | "" => None
  | String c s' => if bool_decide (c = Ascii.zero) then Some 0%nat else S <$> nul_position s'
  end.

Definition cstring_new (s : string) : result io_error string :=
  match nul_position s with
  | Some n => RErr (NulError n)
  | None => ROk s
  end.

(** A loop that pushes [CString::new(x)?] for each element. *)
Fixpoint cstrings_new (l : list string) : result io_error (list string) :=
  match l with
  | [] => ROk []
  | s :: l' =>
      match cstring_new s with
      | RErr e => RErr e
      | ROk c =>
          match cstrings_new l' with
          | RErr e => RErr e
          | ROk cs => ROk (c :: cs)
          end
      end
  end.

(** What the type [CString] promises, and the two vectors of a service: the
    first is never empty. *)
Definition is_cstring (s : string) : Prop := nul_position s = None.
Definition argv_wf (argv : list string) : Prop := argv ≠ [] ∧ Forall is_cstring argv.
Definition envp_wf (envp : option (list string)) : Prop :=
  match envp with Some l => Forall is_cstring l | None => True end.

(** [ServiceConfig::build_svc_argv]: the command, then the arguments. *)
Definition build_svc_argv (cfg : service_config) : result io_error (list string) :=
  match cstring_new (command cfg) with
  | RErr e => RErr e
  | ROk c =>
      match cstrings_new (args cfg) with
      | RErr e => RErr e
      | ROk cs => ROk (c :: cs)
      end
  end.

(** The strings [format!("{key}={value}")] of [build_svc_envp], for the
    entries of the map in the order the iteration yields them. *)
Definition env_strings (entries : list (string * string)) : list string :=
  (λ kv, kv.1 +:+ "=" +:+ kv.2) <$> entries.

(** The environment vector of a configuration: its entries in some order, or
    the inherited environment. *)
Definition environment_of (cfg : service_config) (envp : option (list string)) : Prop :=
  match env cfg, envp with
  | None, None => True
  | Some vars, Some l => ∃ entries, (entries ≡ₚ map_to_list vars) ∧ l = env_strings entries
  | _, _ => False
  end.

(** [argv] and [envp] are vectors that a configuration was turned into. *)
Definition built (cfg : service_config) (argv : list string) (envp : option (list string)) : Prop :=
  build_svc_argv cfg = ROk argv ∧ environment_of cfg envp ∧ envp_wf envp.

(** The strings of the two vectors; they can be built when all of them are C
    strings. *)
Definition strings_of (cfg : service_config) : list string :=
  command cfg :: args cfg ++ env_strings (from_option map_to_list [] (env cfg)).
Definition buildable (cfg : service_config) : Prop := Forall is_cstring (strings_of cfg).

(** * The id generator: [ServiceIdGen(u64)] *)

Definition service_id_gen : Type := Z.
Definition service_id_gen_new : service_id_gen := 0.

(** [ServiceIdGen::nextval]: the new state of the generator and the value;
    on overflow the [?] returns before the state is written. *)
Definition nextval (gen : service_id_gen) : service_id_gen * option Z :=
  match checked_add_u64 gen 1 with
  | Some gen' => (gen', Some gen)
  | None => (gen, None)
  end.

(** * Services *)

Record service : Type := Service {
  s_id : Z;
  s_name : string;
  s_config : service_config;
  s_argv : list string;
  s_envp : option (list string);
  s_state : service_state;
  s_pending_action : service_pending_action
}.

Definition set_state (st : service_state) (svc : service) : service :=
  Service (s_id svc) (s_name svc) (s_config svc) (s_argv svc) (s_envp svc)
    st (s_pending_action svc).
Definition set_pending_action (a : service_pending_action) (svc : service) : service :=
  Service (s_id svc) (s_name svc) (s_config svc) (s_argv svc) (s_envp svc)
    (s_state svc) a.
Definition set_argv (argv : list string) (svc : service) : service :=
  Service (s_id svc) (s_name svc) (s_config svc) argv (s_envp svc)
    (s_state svc) (s_pending_action svc).
Definition set_envp (envp : option (list string)) (svc : service) : service :=
  Service (s_id svc) (s_name svc) (s_config svc) (s_argv svc) envp
    (s_state svc) (s_pending_action svc).
Definition set_config (cfg : service_config) (svc : service) : service :=
  Service (s_id svc) (s_name svc) cfg (s_argv svc) (s_envp svc)
    (s_state svc) (s_pending_action svc).

(** [Service::pid], [is_stopped] and the accessors of the configuration. *)
Definition state_pid (st : service_state) : option Z :=
  match st with
  | Running p => Some p
  | Stopping p _ => Some p
  | Stopped _ => None
  end.
Definition pid (svc : service) : option Z := state_pid (s_state svc).
Definition is_stopped (svc : service) : bool := state_is_stopped (s_state svc).
Definition working_directory (svc : service) : option string :=
  cfg_working_directory (s_config svc).
Definition log_file_path (svc : service) : option string :=
  cfg_log_file_path (s_config svc).
Definition user_group (svc : service) : option user_group_ids :=
  cfg_user_group (s_config svc).
Definition fallback_pending_action (svc : service) : service_pending_action :=
  cfg_fallback_pending_action (s_config svc).
Definition stop_signal_of (svc : service) : Z :=
  signal_of_stop_signal (cfg_stop_signal (s_config svc)).
Definition stop_timeout (svc : service) : Z :=
  duration_from_millis (stop_timeout_ms (s_config svc)).

(** [Service::take_pending_action]. *)
Definition take_pending_action (svc : service) : service_pending_action * service :=
  (s_pending_action svc, set_pending_action ServicePendingAction.None svc).

(** [Service::format_status_line]: what it writes. *)
Definition format_status_line (svc : service) : string :=
  display (s_name svc) +:+ " " +:+ display (s_id svc) +:+ " " +:+ display (s_state svc).

(** * Properties *)

(** The stop reason says how the process ended, and whether the
    supervisor asked for it: a crash signal is always a crash; any other end
    of a service that was being stopped is [SupervisorTerminated], with the
    exit reason; otherwise code 0 is a success, another code an error,
    another signal a kill.  A process never yields [NeverStarted]. *)
Lemma stop_reason_classification er st :
  let r := from_exit_reason_and_service_state er st in
  (∀ sig, r = Crashed sig ↔ er = Signaled sig ∧ is_crash_signal sig = true) ∧
  (∀ er', r = SupervisorTerminated er' ↔
     er' = er ∧ state_is_stopping st = true ∧
     ∀ sig, er = Signaled sig → is_crash_signal sig = false) ∧
  (r = Success ↔ er = Exited 0 ∧ state_is_stopping st = false) ∧
  (∀ c, r = Error c ↔ er = Exited c ∧ c ≠ 0 ∧ state_is_stopping st = false) ∧
  (∀ sig, r = Killed sig ↔
     er = Signaled sig ∧ is_crash_signal sig = false ∧ state_is_stopping st = false) ∧
  r ≠ NeverStarted.
Proof.
  destruct er as [c|sig]; simpl.
  - destruct (state_is_stopping st); [|case_bool_decide]; naive_solver.
  - destruct (is_crash_signal sig) eqn:Hc; [|destruct (state_is_stopping st)];
      split_and!; naive_solver congruence.
Qed.

(** What [n] successive calls of [nextval] return. *)
Fixpoint nextvals (n : nat) (gen : service_id_gen) : list (option Z) :=
  match n with
  | O => []
  | S n' => (nextval gen).2 :: nextvals n' (nextval gen).1
  end.

Lemma stop_reason_of_exit er st :
  exit_reason_typed er → stop_reason_typed (from_exit_reason_and_service_state er st).
Proof.
  destruct er as [code|sig]; simpl; intros Her.
  - destruct (state_is_stopping st); [by split|]. case_bool_decide; simpl; [done|lia].
  - destruct (is_crash_signal sig) eqn:Hc; [done|]. destruct (state_is_stopping st); [|done].
    split; [done|]. by intros sig' [= <-].
Qed.

Lemma cstring_new_is s c : cstring_new s = ROk c → c = s.
Proof. unfold cstring_new. destruct (nul_position s); congruence. Qed.
Lemma cstrings_new_is l cs : cstrings_new l = ROk cs → cs = l.
Proof.
  revert cs. induction l as [|s l IH]; simpl; intros cs; [congruence|].
  destruct (cstring_new s) as [c|] eqn:Hc; [|done]. destruct (cstrings_new l) as [cs'|]; [|done].
  intros [= <-]. by rewrite (cstring_new_is _ _ Hc), (IH cs').
Qed.

Lemma build_svc_argv_is cfg argv : build_svc_argv cfg = ROk argv → argv = command cfg :: args cfg.
Proof.
  unfold build_svc_argv. destruct (cstring_new (command cfg)) as [c|] eqn:Hc; [|done].
  destruct (cstrings_new (args cfg)) as [cs|] eqn:Hcs; [|done]. intros [= <-].
  apply cstring_new_is in Hc as ->. by apply cstrings_new_is in Hcs as ->.
Qed.

Lemma cstrings_new_typed l cs : cstrings_new l = ROk cs → Forall is_cstring cs.
Proof.
  revert cs. induction l as [|s l IH]; simpl; intros cs; [by intros [= <-]|].
  unfold cstring_new. destruct (nul_position s) eqn:Hs; [done|].
  destruct (cstrings_new l); [|done]. intros [= <-]. constructor; [done|by apply IH].
Qed.

Lemma build_svc_argv_typed cfg argv : build_svc_argv cfg = ROk argv → argv_wf argv.
Proof.
  unfold build_svc_argv, cstring_new. destruct (nul_position (command cfg)) eqn:Hc; [done|].
  destruct (cstrings_new (args cfg)) as [cs|] eqn:Hcs; [|done]. intros [= <-].
  split; [done|]. constructor; [done|by eapply cstrings_new_typed].
Qed.

(** What [CString::new] refuses makes a configuration unfit. *)
Lemma cstrings_new_refused l e : cstrings_new l = RErr e → ¬ Forall is_cstring l.
Proof.
  revert e. induction l as [|s l IH]; simpl; intros e; [done|].
  rewrite Forall_cons. unfold cstring_new, is_cstring.
  destruct (nul_position s) eqn:Hs; [by intros _ [? _]|].
  destruct (cstrings_new l) as [|e']; [done|]. intros _ [_ Hl]. by apply (IH e').
Qed.

Lemma build_svc_argv_refused cfg e : build_svc_argv cfg = RErr e → ¬ buildable cfg.
Proof.
  unfold build_svc_argv, buildable, strings_of, cstring_new. rewrite Forall_cons, Forall_app.
  unfold is_cstring at 1. destruct (nul_position (command cfg)); [by intros _ [? _]|].
  destruct (cstrings_new (args cfg)) as [|e'] eqn:Ha; [done|].
  apply cstrings_new_refused in Ha. tauto.
Qed.

Lemma buildable_env cfg vars entries :
  env cfg = Some vars → (entries ≡ₚ map_to_list vars) → buildable cfg →
  Forall is_cstring (env_strings entries).
Proof.
  unfold buildable, strings_of, env_strings. intros -> Hp. rewrite Hp, Forall_cons, Forall_app. tauto.
Qed.

Lemma built_buildable cfg argv envp : built cfg argv envp → buildable cfg.
Proof.
  unfold buildable, strings_of. intros (Hargv & Henv & Htyped).
  pose proof (build_svc_argv_typed _ _ Hargv) as [_ Ha].
  apply build_svc_argv_is in Hargv as ->. apply Forall_cons in Ha as [Hc Ha].
  constructor; [done|]. apply Forall_app. split; [done|]. unfold environment_of, envp_wf in *.
  destruct (env cfg) as [vars|], envp as [l|]; simpl; try done.
  destruct Henv as (entries & Hp & ->). unfold env_strings in *. by rewrite <- Hp.
Qed.

Lemma nextval_cases gen :
  0 ≤ gen ≤ u64_max →
  nextval gen = if bool_decide (gen = u64_max) then (gen, None) else (gen + 1, Some gen).
Proof.
  intros Hg. unfold nextval, checked_add_u64. repeat case_bool_decide; try done; lia.
Qed.

Lemma nextvals_from n gen :
  0 ≤ gen ≤ u64_max →
  nextvals n gen = (λ i, let v := gen + Z.of_nat i in
                         if bool_decide (v < u64_max) then Some v else None) <$> seq 0 n.
Proof.
  revert gen. induction n as [|n IH]; intros gen Hg; [done|].
  cbn [nextvals seq]. rewrite nextval_cases by done. rewrite <- fmap_S_seq, fmap_cons.
  rewrite <- list_fmap_compose. case_bool_decide as Hmax; cbn [fst snd].
  - rewrite IH by done. f_equal; [by rewrite bool_decide_false by lia|].
    apply list_fmap_ext. intros i j _. unfold compose.
    by rewrite !bool_decide_false by lia.
  - rewrite IH by (unfold u64_max in *; lia).
    f_equal; [rewrite bool_decide_true by (unfold u64_max in *; lia); f_equal; lia|].
    apply list_fmap_ext. intros i j _. unfold compose.
    by replace (gen + 1 + Z.of_nat j) with (gen + Z.of_nat (S j)) by lia.
Qed.

(** C35.  The id generator never repeats an id and never wraps: the [n] first
    calls return 0, 1, 2, and so on, below the largest [u64], and from then
    on every call reports the overflow. *)
Theorem nextval_sequence n :
  nextvals n service_id_gen_new =
    (λ i, if bool_decide (Z.of_nat i < u64_max) then Some (Z.of_nat i) else None) <$> seq 0 n.
Proof. apply (nextvals_from n 0). unfold u64_max. lia. Qed.
