(* ===== verification/Text.v ===== *)
(** Strings: the characters of a text, cutting a text at a separator, the
    digits of a number; and what a status line of service.rs says: the line
    of a service determines the name, the id and the state it shows. *)
From S2P Require Import Prelude Utils Data.
Local Open Scope Z_scope.

#[local] Arguments String.append !_ _ / : simpl nomatch.

(** * Texts without a character *)

Fixpoint free_of (c : Ascii.ascii) (s : string) : bool :=
  match s with
  | "" => true
  | String d s' => negb (bool_decide (c = d)) && free_of c s'
  end.

Lemma free_of_app c s t : free_of c (s +:+ t) = free_of c s && free_of c t.
Proof. induction s as [|d s IH]; simpl; [done|]. by rewrite IH, andb_assoc. Qed.

(** A text is cut in one way at the first occurrence of a character. *)
Lemma cut_unique c s t s' t' :
  free_of c s = true → free_of c s' = true →
  s +:+ String c t = s' +:+ String c t' → s = s' ∧ t = t'.
Proof.
  revert s'. induction s as [|d s IH]; intros [|d' s']; simpl.
  - by intros _ _ [= ->].
  - intros _ [Hd _]%andb_true_iff [= -> _].
    by rewrite bool_decide_true in Hd.
  - intros [Hd _]%andb_true_iff _ [= -> _].
    by rewrite bool_decide_true in Hd.
  - intros [_ Hs]%andb_true_iff [_ Hs']%andb_true_iff [= -> Heq].
    destruct (IH s' Hs Hs' Heq) as [-> ->]. done.
Qed.

Lemma length_string_app s t : String.length (s +:+ t) = (String.length s + String.length t)%nat.
Proof. induction s as [|c s IH]; simpl; [done|]. by rewrite IH. Qed.

Lemma app_inv_tail_string s s' t : s +:+ t = s' +:+ t → s = s'.
Proof.
  revert s'. induction s as [|d s IH]; intros [|d' s'] Heq; simpl in *; [done|..].
  - apply (f_equal String.length) in Heq. simpl in Heq. rewrite length_string_app in Heq. lia.
  - apply (f_equal String.length) in Heq. simpl in Heq. rewrite length_string_app in Heq. lia.
  - injection Heq as -> Heq. by rewrite (IH _ Heq).
Qed.

(** ** Numbers *)

Lemma free_of_digit c n :
  free_of c "0123456789" = true → bool_decide (c = pretty_N_char n) = false.
Proof.
  simpl. intros Hc. repeat (apply andb_true_iff in Hc as [? Hc]).
  repeat match goal with H : negb _ = true |- _ =>
    apply negb_true_iff, bool_decide_eq_false in H end.
  apply bool_decide_eq_false. unfold pretty_N_char. by repeat case_match.
Qed.

Lemma free_of_pretty_N_go c n s :
  free_of c "0123456789" = true → free_of c s = true → free_of c (pretty_N_go n s) = true.
Proof.
  intros Hc. revert s. induction (N.lt_wf_0 n) as [n _ IH]; intros s Hs.
  destruct (decide (n = 0%N)) as [->|Hn]; [done|].
  rewrite pretty_N_go_step by lia. apply IH; [apply N.div_lt; lia|].
  simpl. by rewrite free_of_digit.
Qed.

Lemma free_of_pretty_Z c (z : Z) :
  free_of c "-0123456789" = true → free_of c (pretty z) = true.
Proof.
  intros [Hd Hc]%andb_true_iff. fold free_of in Hc.
  assert (Hpos : ∀ p : positive, free_of c (pretty p) = true).
  { intros p. change (pretty p) with (pretty_N_go (N.pos p) "").
    by apply free_of_pretty_N_go. }
  destruct z as [|p|p]; simpl.
  - by apply andb_true_iff in Hc as [-> _].
  - apply Hpos.
  - by rewrite Hd, Hpos.
Qed.

(** * Status lines *)

(** What a status line shows of a state: everything but the deadline. *)
Definition visible (st : service_state) : service_state :=
  match st with Stopping p _ => Stopping p 0 | _ => st end.

Lemma display_Z_inj (z z' : Z) t : display z +:+ t = display z' +:+ t → z = z'.
Proof. intros H%app_inv_tail_string. by apply (inj pretty). Qed.

Lemma display_exit_reason_inj (er er' : exit_reason) : display er = display er' → er = er'.
Proof.
  destruct er, er'; simpl; intros Heq; simplify_eq/=;
    match goal with H : _ = _ |- _ => by apply display_Z_inj in H as -> end.
Qed.

Lemma display_stop_reason_inj (r r' : service_stop_reason) : display r = display r' → r = r'.
Proof.
  destruct r, r'; simpl; intros Heq; simplify_eq/=; try done;
    match goal with H : _ = _ |- _ => apply app_inv_tail_string in H end;
    f_equal; first [by apply display_exit_reason_inj|by apply (inj pretty)].
Qed.

Lemma display_service_state_inj (st st' : service_state) :
  display st = display st' → visible st = visible st'.
Proof.
  destruct st, st'; simpl; intros Heq; simplify_eq/=; f_equal;
    first [by apply display_stop_reason_inj|by apply (inj pretty)].
Qed.

Definition space : Ascii.ascii := Ascii.ascii_of_nat 32.
Definition newline_char : Ascii.ascii := Ascii.ascii_of_nat 10.

Lemma free_of_display_reason (r : service_stop_reason) : free_of newline_char (display r) = true.
Proof.
  destruct r as [|[]| | | |]; simpl; rewrite ?free_of_app; simpl;
    rewrite ?free_of_app, ?free_of_pretty_Z by done; done.
Qed.

Lemma free_of_display_state (st : service_state) : free_of newline_char (display st) = true.
Proof.
  destruct st; simpl; [apply free_of_display_reason|apply free_of_pretty_Z; done..].
Qed.

Lemma format_status_line_cut svc svc' :
  free_of space (s_name svc) = true → free_of space (s_name svc') = true →
  format_status_line svc = format_status_line svc' →
  s_name svc = s_name svc' ∧ s_id svc = s_id svc' ∧
  visible (s_state svc) = visible (s_state svc').
Proof.
  intros Hn Hn' Heq. unfold format_status_line in Heq.
  apply (cut_unique space) in Heq as [Hname Heq]; [|done..].
  apply (cut_unique space) in Heq as [Hid Hst]; [|by apply free_of_pretty_Z..].
  split_and!; [done|by apply (inj pretty)|by apply display_service_state_inj].
Qed.

Lemma free_of_status_line svc :
  free_of newline_char (s_name svc) = true →
  free_of newline_char (format_status_line svc) = true.
Proof.
  intros Hn. unfold format_status_line. rewrite free_of_app. simpl. rewrite free_of_app. simpl.
  apply andb_true_iff. split; [done|]. apply andb_true_iff.
  split; [by apply free_of_pretty_Z|apply free_of_display_state].
Qed.
