(* ===== verification/Platform.v ===== *)
(** What svlopp runs on.

    - [sysop] is the signature of the calls the program makes outside its
      own sources (libc, rustix, the parts of std that reach the kernel),
      with the type each returns; class [Platform] is a handler for it, over
      an abstract platform state, together with the hash-map iteration
      order, the TOML parser and the accessors of a wait status.
    - [PlatformLaws] states the documented behaviour the proofs rely on. *)
From S2P Require Import Prelude Utils Data.
Local Open Scope Z_scope.

(** * The calls *)

(** [rustix::fs::OFlags], the bits used. *)
Inductive oflag : Type :=
| RDONLY | WRONLY | RDWR | CLOEXEC | NONBLOCK | CREATE | TRUNC | APPEND.

(** [TimerfdClockId]. *)
Inductive clock_id : Type := Realtime | Monotonic.

(** The first argument of [sigprocmask]. *)
Inductive sig_how : Type := SIG_BLOCK | SIG_SETMASK.

(** File descriptors, process ids, signal numbers and [sigset_t] values are
    integers; a byte buffer is a [list Z].  A libc call that returns a code
    and sets [errno] yields both. *)
Inductive sysop : Type → Type :=
(* std *)
| SReadToString (path : string) : sysop (result io_error string)
| SNow : sysop Z
| SRemoveDirAll (path : string) : sysop (result io_error unit)
| SEprintln (msg : string) : sysop (result Z unit)
(* rustix *)
| SOpen (path : string) (flags : list oflag) (mode : Z) : sysop (result Z Z)
| SRead (fd : Z) (cap : nat) : sysop (result Z (list Z))
| SWrite (fd : Z) (buf : list Z) : sysop (result Z nat)
| SFsync (fd : Z) : sysop (result Z unit)
| SRename (from to : string) : sysop (result Z unit)
| SMkdir (path : string) (mode : Z) : sysop (result Z unit)
| SClockRealtime : sysop (Z * Z)
| SMkfifo (path : string) (mode : Z) : sysop (result Z unit)
| SKill (pid sig : Z) : sysop (result Z unit)
| SKillPg (pid sig : Z) : sysop (result Z unit)
| SWait : sysop (result Z (option (Z * Z)))
| SSetpgid : sysop (result Z unit)
| SChdir (path : string) : sysop (result Z unit)
| SDup2 (fd target : Z) : sysop (result Z unit)
| SSubreaper : sysop (result Z unit)
| STimerfdCreate (clock : clock_id) (flags : list oflag) : sysop (result Z Z)
| STimerfdSettime (fd interval_s interval_ns value_s value_ns : Z) :
    sysop (result Z unit)
| SEpollCreate (flags : list oflag) : sysop (result Z Z)
(* registration for [EventFlags::IN] *)
| SEpollAdd (epfd fd data : Z) : sysop (result Z unit)
| SEpollWait (epfd : Z) (cap : nat) : sysop (result Z (list Z))
(* libc: return code, errno (and the set written, for the set calls) *)
| SFork : sysop (Z * Z)
| SSigemptyset : sysop (Z * Z * Z)
| SSigaddset (raw sig : Z) : sysop (Z * Z * Z)
| SSigprocmask (how : sig_how) (set : option Z) : sysop (Z * Z * Z)
| SSignalfd (raw : Z) (flags : Z) : sysop (Z * Z)
| SSetgid (gid : Z) : sysop (Z * Z)
| SSetuid (uid : Z) : sysop (Z * Z)
(* [true]: the image was replaced, the call does not return *)
| SExecvp (file : string) (argv : list string) : sysop bool
| SExecvpe (file : string) (argv envp : list string) : sysop bool.

Class Platform (K : Type) : Type := {
  handle : ∀ {A : Type}, sysop A → K → A * K;
  (** the order in which a hash map with these entries is iterated *)
  order : ∀ {A : Type}, list A → K → list A * K;
  (** [toml::from_str::<ServiceConfigData>], and [e.message()] on failure *)
  toml_from_str : string → result string (gmap string service_config);
  (** [rustix::process::WaitStatus] *)
  ws_exited : Z → bool;
  ws_exit_status : Z → option Z;
  ws_signaled : Z → bool;
  ws_terminating_signal : Z → option Z;
  (** the texts of the log messages that others format: [strerror] of the C
      library; [Display] of [Errno] and [Pid], [Debug] of [Pid] and
      [WaitStatus] in rustix *)
  strerror : Z → string;
  errno_text : Z → string;
  pid_text : Z → string;
  pid_debug : Z → string;
  wait_status_debug : Z → string
}.

(** The calls that can change which children are waiting to be reaped. *)
Definition quiet {A} (op : sysop A) : bool :=
  match op with SFork | SWait => false | _ => true end.

(** A status that ends the child, for the accessors above. *)
Definition ws_final {K} `{Platform K} (st : Z) : bool :=
  ws_exited st || ws_signaled st.

Class PlatformLaws (K : Type) `{Platform K} : Type := {
  (** ghost: the pids of the children that have not been reaped *)
  children : K → gset Z;
  (** a [pid_t] is an [i32]; the pid of a process is positive *)
  children_range k p : p ∈ children k → 0 < p < 2 ^ 31;
  order_perm {A} (l : list A) k : (order l k).1 ≡ₚ l;
  order_children {A} (l : list A) k : children k ⊆ children (order l k).2;
  (** a child stays in the set until it is reaped (adopted ones may enter) *)
  quiet_children {A} (op : sysop A) k :
    quiet op = true → children k ⊆ children (handle op k).2;
  (** fork(2): the pid is the one of no unreaped child *)
  fork_fresh k p e k' :
    handle SFork k = ((p, e), k') → 0 < p →
    p ∉ children k ∧ {[p]} ∪ children k ⊆ children k';
  fork_failed k p e k' :
    handle SFork k = ((p, e), k') → p ≤ 0 → children k ⊆ children k';
  (** waitpid(2): only a child whose end is reported leaves the set *)
  wait_reaped k p st k' :
    handle SWait k = (ROk (Some (p, st)), k') →
    children k ∖ (if ws_final st then {[p]} else ∅) ⊆ children k';
  wait_nothing k r k' :
    handle SWait k = (r, k') → (∀ x, r ≠ ROk (Some x)) → children k ⊆ children k';
  exit_status_some st : ws_exited st = true → is_Some (ws_exit_status st);
  terminating_signal_some st :
    ws_signaled st = true → is_Some (ws_terminating_signal st);
  (** an exit status is a byte; signal numbers are in 1 .. 127 *)
  exit_status_range st c : ws_exit_status st = Some c → 0 ≤ c < 256;
  terminating_signal_range st sig : ws_terminating_signal st = Some sig → 0 < sig < 128;
  (** the monotonic clock counts from boot *)
  now_range k : 0 ≤ (handle SNow k).1 < 2 ^ 62 * nanos_per_sec;
  (** [read] fills at most the buffer *)
  read_fits k fd cap bs k' :
    handle (SRead fd cap) k = (ROk bs, k') →
    (length bs ≤ cap)%nat ∧ Forall (λ b, 0 ≤ b < 256) bs;
  (** [write] consumes at most the buffer *)
  write_fits k fd buf n k' :
    handle (SWrite fd buf) k = (ROk n, k') → (n ≤ length buf)%nat;
  (** the integers are deserialized into their types *)
  toml_wf txt m : toml_from_str txt = ROk m → map_Forall (λ _, config_wf) m
}.

(** The calls of a log message. *)
Definition log_call {A} (op : sysop A) : bool :=
  match op with SClockRealtime | SEprintln _ => true | _ => false end.

(** The calls that the SIGCHLD handler makes between two waits. *)
Definition between_waits {A} (op : sysop A) : bool :=
  match op with SKillPg _ _ => true | _ => log_call op end.

(** write(2) to a regular file with a non-empty buffer writes something or
    fails. *)
Class WriteProgress (K : Type) `{Platform K} : Prop := {
  write_progress k fd buf n k' :
    handle (SWrite fd buf) k = (ROk n, k') → buf ≠ [] → (0 < n)%nat
}.
