(* ===== verification/Monad.v ===== *)
(** The monad the functions of the program are written in, and the rules to
    reason about them.

    [M S E A] is a computation with a mutable state [S] (what the Rust
    function borrows as [&mut]), errors [E] and result [A], over a [world]:
    the platform's state and the trace of the calls made so far.  What a
    computation did to its state survives an error, as it does through a
    [&mut] borrow.  [wp m Φ s w] is the weakest precondition of [m] from the
    state [s] and the world [w]; there is one rule per way of building a
    computation, and a rule for loops over the elements of a list. *)
From S2P Require Import Prelude Utils Data Platform.
Local Open Scope Z_scope.

(** * Worlds *)

Inductive event : Type :=
| Ev {A : Type} (op : sysop A) (r : A).

Record world (K : Type) : Type := World {
  kst : K;
  trace : list event;
  (** the static [LOG_LEVEL] of logging.rs *)
  log_max : Z
}.
Arguments World {K} _ _ _.
Arguments kst {K} _.
Arguments trace {K} _.
Arguments log_max {K} _.

(** The world after an event. *)
Abbreviation extend w k ev := (World k (trace w ++ [ev]) (log_max w)).

(** The events between two worlds. *)
Definition events {K} (w w' : world K) : list event :=
  drop (length (trace w)) (trace w').

Lemma events_app {K} (w w' : world K) evs : trace w' = trace w ++ evs → events w w' = evs.
Proof. unfold events. intros ->. by rewrite drop_app_length. Qed.

Lemma events_prefix {K} (w w' : world K) :
  trace w `prefix_of` trace w' → trace w' = trace w ++ events w w'.
Proof. intros [evs Htr]. by rewrite (events_app _ _ evs). Qed.

Lemma events_sub {K} (w w1 w2 w' : world K) :
  trace w `prefix_of` trace w1 → trace w1 `prefix_of` trace w2 →
  trace w2 `prefix_of` trace w' → events w1 w2 ⊆ events w w'.
Proof.
  intros [a Ha] [b Hb] [c Hc]. rewrite (events_app w1 w2 b) by done.
  rewrite (events_app w w' (a ++ b ++ c)); [set_solver|].
  by rewrite Hc, Hb, Ha, <- !app_assoc.
Qed.

(** * Computations *)

(** The process is replaced ([exec]) or ends: by [exit], or because [eprintln!]
    panicked, which it does when stderr cannot be written.  The program has
    one thread and catches no panic, so this is its end. *)
Inductive process_end : Type :=
| ProcExit (code : Z)
| ProcExec (file : string) (argv : list string) (envp : option (list string))
| ProcPanic (msg : string).

(** How a computation ends: a value, an [Err], a panic that the program's own
    text can raise ([expect], a slice out of range), a loop that used up its
    fuel, or the end of the process image that runs it. *)
Inductive outcome (E A : Type) : Type :=
| Ok (a : A)
| Err (e : E)
| Panic (msg : string)
| OutOfFuel
| Gone (p : process_end).
Arguments Ok {E A} _.
Arguments Err {E A} _.
Arguments Panic {E A} _.
Arguments OutOfFuel {E A}.
Arguments Gone {E A} _.

Definition M {K : Type} (S E A : Type) : Type :=
  S → world K → outcome E A * S * world K.

Section monad.
Context {K : Type} `{!Platform K}.
Abbreviation M := (@M K).

Definition ret {S E A} (a : A) : M S E A := λ s w, (Ok a, s, w).

Definition bind {S E A B} (m : M S E A) (k : A → M S E B) : M S E B :=
  λ s w,
    let '(o, s', w') := m s w in
    match o with
    | Ok a => k a s' w'
    | Err e => (Err e, s', w')
    | Panic msg => (Panic msg, s', w')
    | OutOfFuel => (OutOfFuel, s', w')
    | Gone p => (Gone p, s', w')
    end.

Definition throw {S E A} (e : E) : M S E A := λ s w, (Err e, s, w).
Definition panic {S E A} (msg : string) : M S E A := λ s w, (Panic msg, s, w).
Definition out_of_fuel {S E A} : M S E A := λ s w, (OutOfFuel, s, w).
Definition gone {S E A} (p : process_end) : M S E A := λ s w, (Gone p, s, w).

Definition get {S E} : M S E S := λ s w, (Ok s, s, w).
Definition modify {S E} (f : S → S) : M S E unit := λ s w, (Ok tt, f s, w).

(** [r?] *)
Definition lift {S E A} (r : result E A) : M S E A :=
  match r with ROk a => ret a | RErr e => throw e end.
(** [o.expect(msg)] *)
Definition expect {S E A} (o : option A) (msg : string) : M S E A :=
  match o with Some a => ret a | None => panic msg end.
(** The [Result] of a computation as a value, for a caller that matches on it. *)
Definition catch {S E F A} (m : M S E A) : M S F (result E A) :=
  λ s w,
    let '(o, s', w') := m s w in
    (match o with
     | Ok a => Ok (ROk a)
     | Err e => Ok (RErr e)
     | Panic msg => Panic msg
     | OutOfFuel => OutOfFuel
     | Gone p => Gone p
     end, s', w').
(** [?] through a [From] conversion of the error *)
Definition with_err {S E F A} (f : E → F) (m : M S E A) : M S F A :=
  λ s w,
    let '(o, s', w') := m s w in
    (match o with
     | Ok a => Ok a
     | Err e => Err (f e)
     | Panic msg => Panic msg
     | OutOfFuel => OutOfFuel
     | Gone p => Gone p
     end, s', w').

(** A call, recorded in the trace with what it returned. *)
Definition sys {S E A} (op : sysop A) : M S E A := λ s w,
  let '(r, k) := handle op (kst w) in
  (Ok r, s, extend w k (Ev op r)).
(** A rustix call under [?]: its [Errno] becomes an [io::Error]. *)
Definition sys_try {S A} (op : sysop (result Z A)) : M S io_error A :=
  bind (sys op) (λ r, lift (map_err OsError r)).
(** A libc call under [cvt(..)?] *)
Definition sys_cvt {S} (op : sysop (Z * Z)) : M S io_error Z :=
  bind (sys op) (λ r, lift (map_err OsError (cvt r.1 r.2))).
(** The elements of a hash map, in the order this iteration takes. *)
Definition in_order {S E A} (l : list A) : M S E (list A) := λ s w,
  let '(l', k) := order l (kst w) in (Ok l', s, World k (trace w) (log_max w)).

(** [m] on a component of the state. *)
Definition zoom {S T E A} (g : S → T) (p : T → S → S) (m : M T E A) : M S E A :=
  λ s w, let '(o, t, w') := m (g s) w in (o, p t s, w').
(** [m] on a local variable, whose final value is returned. *)
Definition with_local {S T E A} (t : T) (m : M T E A) : M S E (A * T) :=
  λ s w,
    let '(o, t', w') := m t w in
    (match o with
     | Ok a => Ok (a, t')
     | Err e => Err e
     | Panic msg => Panic msg
     | OutOfFuel => OutOfFuel
     | Gone p => Gone p
     end, s, w').

(** [for x in l { f(x) }] *)
Fixpoint for_each {S E A} (l : list A) (f : A → M S E unit) : M S E unit :=
  match l with
  | [] => ret tt
  | x :: l' => bind (f x) (λ _, for_each l' f)
  end.
End monad.

Notation "'let!' x ':=' m 'in' k" := (bind m (λ x, k))
  (at level 10, x pattern, m at level 100, k at level 200,
   format "'[v' 'let!'  x  ':='  m  'in' '/' k ']'") : svlopp_scope.
Notation "m ';;!' k" := (bind m (λ _, k))
  (at level 100, k at level 200, right associativity,
   format "'[v' m  ';;!' '/' k ']'") : svlopp_scope.

(** * Weakest preconditions *)

Section wp.
Context {K : Type} `{!Platform K}.
Abbreviation M := (@M K).
Local Open Scope svlopp_scope.

(** [Φ] holds of the way [m] ends.  Nothing is asked when the process that
    runs [m] is no longer this program: it is then the forked child, whose
    image is replaced or which has exited, or it lost its stderr. *)
Definition wp {S E A} (m : M S E A) (Φ : outcome E A → S → world K → Prop)
    (s : S) (w : world K) : Prop :=
  let '(o, s', w') := m s w in
  match o with Gone _ => True | _ => Φ o s' w' end.

(** The postcondition of the first part of a sequence. *)
Definition bind_post {S E A B} (k : A → M S E B)
    (Φ : outcome E B → S → world K → Prop) : outcome E A → S → world K → Prop :=
  λ o s w,
    match o with
    | Ok a => wp (k a) Φ s w
    | Err e => Φ (Err e) s w
    | Panic msg => Φ (Panic msg) s w
    | OutOfFuel => Φ OutOfFuel s w
    | Gone _ => True
    end.

Lemma wp_bind {S E A B} (m : M S E A) (k : A → M S E B) Φ s w :
  wp m (bind_post k Φ) s w → wp (bind m k) Φ s w.
Proof. unfold wp, bind. destruct (m s w) as [[[] s'] w']; done. Qed.

Lemma wp_mono {S E A} (m : M S E A) (Φ Ψ : outcome E A → S → world K → Prop) s w :
  wp m Φ s w → (∀ o s' w', Φ o s' w' → Ψ o s' w') → wp m Ψ s w.
Proof. unfold wp. destruct (m s w) as [[[] s'] w']; eauto. Qed.

Lemma wp_and {S E A} (m : M S E A) (Φ Ψ : outcome E A → S → world K → Prop) s w :
  wp m Φ s w → wp m Ψ s w → wp m (λ o s w, Φ o s w ∧ Ψ o s w) s w.
Proof. unfold wp. destruct (m s w) as [[[] s'] w']; done. Qed.

Lemma wp_ret {S E A} (a : A) (Φ : outcome E A → S → world K → Prop) s w :
  Φ (Ok a) s w → wp (ret a) Φ s w.
Proof. done. Qed.
Lemma wp_throw {S E A} (e : E) (Φ : outcome E A → S → world K → Prop) s w :
  Φ (Err e) s w → wp (throw e) Φ s w.
Proof. done. Qed.
Lemma wp_panic {S E A} msg (Φ : outcome E A → S → world K → Prop) s w :
  Φ (Panic msg) s w → wp (panic msg) Φ s w.
Proof. done. Qed.
Lemma wp_gone {S E A} p (Φ : outcome E A → S → world K → Prop) s w :
  wp (gone p) Φ s w.
Proof. done. Qed.
Lemma wp_get {S E} (Φ : outcome E S → S → world K → Prop) s w :
  Φ (Ok s) s w → wp get Φ s w.
Proof. done. Qed.
Lemma wp_modify {S E} f (Φ : outcome E unit → S → world K → Prop) s w :
  Φ (Ok tt) (f s) w → wp (modify f) Φ s w.
Proof. done. Qed.
Lemma wp_lift {S E A} (r : result E A) (Φ : outcome E A → S → world K → Prop) s w :
  (∀ a, r = ROk a → Φ (Ok a) s w) → (∀ e, r = RErr e → Φ (Err e) s w) →
  wp (lift r) Φ s w.
Proof. destruct r; unfold wp; simpl; eauto. Qed.

Lemma wp_sys {S E A} (op : sysop A) (Φ : outcome E A → S → world K → Prop) s w :
  (∀ r k, handle op (kst w) = (r, k) → Φ (Ok r) s (extend w k (Ev op r))) →
  wp (sys op) Φ s w.
Proof. unfold wp, sys. destruct (handle op (kst w)) as [r k]. eauto. Qed.

Lemma wp_sys_try {S A} (op : sysop (result Z A))
    (Φ : outcome io_error A → S → world K → Prop) s w :
  (∀ a k, handle op (kst w) = (ROk a, k) →
     Φ (Ok a) s (extend w k (Ev op (ROk a)))) →
  (∀ e k, handle op (kst w) = (RErr e, k) →
     Φ (Err (OsError e)) s (extend w k (Ev op (RErr e)))) →
  wp (sys_try op) Φ s w.
Proof.
  intros Hok Herr. apply wp_bind, wp_sys. intros [a|e] k Hk; [by apply Hok|by apply Herr].
Qed.

Lemma wp_catch {S E F A} (m : M S E A) (Φ : outcome F (result E A) → S → world K → Prop) s w :
  wp m (λ o s w,
    match o with
    | Ok a => Φ (Ok (ROk a)) s w
    | Err e => Φ (Ok (RErr e)) s w
    | Panic msg => Φ (Panic msg) s w
    | OutOfFuel => Φ OutOfFuel s w
    | Gone _ => True
    end) s w →
  wp (catch m) Φ s w.
Proof. unfold wp, catch. destruct (m s w) as [[[] s'] w']; done. Qed.

Lemma wp_zoom {S T E A} (g : S → T) (p : T → S → S) (m : M T E A)
    (Φ : outcome E A → S → world K → Prop) s w :
  wp m (λ o t w, Φ o (p t s) w) (g s) w → wp (zoom g p m) Φ s w.
Proof. unfold wp, zoom. destruct (m (g s) w) as [[[] s'] w']; done. Qed.

Lemma wp_with_local {S T E A} (t : T) (m : M T E A)
    (Φ : outcome E (A * T) → S → world K → Prop) s w :
  wp m (λ o t w,
    match o with
    | Ok a => Φ (Ok (a, t)) s w
    | Err e => Φ (Err e) s w
    | Panic msg => Φ (Panic msg) s w
    | OutOfFuel => Φ OutOfFuel s w
    | Gone _ => True
    end) t w →
  wp (with_local t m) Φ s w.
Proof. unfold wp, with_local. destruct (m t w) as [[[] s'] w']; done. Qed.

(** A loop over a list: [I] relates the elements already visited, the ones
    left and the state. *)
Lemma wp_for_each {S E A} (I : list A → list A → S → world K → Prop)
    (f : A → M S E unit) (Φ : outcome E unit → S → world K → Prop) l s w :
  I [] l s w →
  (∀ done x rest s w, l = done ++ x :: rest → I done (x :: rest) s w →
    wp (f x) (λ o s w, match o with Ok _ => I (done ++ [x]) rest s w
                                  | o => Φ o s w end) s w) →
  (∀ s w, I l [] s w → Φ (Ok tt) s w) →
  wp (for_each l f) Φ s w.
Proof.
  intros H0 Hstep Hend.
  enough (Hgen : ∀ rest done s w, l = done ++ rest → I done rest s w →
    wp (for_each rest f) Φ s w) by (by apply (Hgen l [])).
  clear H0 s w. induction rest as [|x rest IH]; intros done s w Hl HI; simpl.
  - rewrite app_nil_r in Hl. subst. by apply wp_ret, Hend.
  - apply wp_bind. eapply wp_mono; [by eapply Hstep|].
    intros [[]| | | |] s' w' HΦ; simpl; try done.
    apply (IH (done ++ [x])); [by rewrite <- app_assoc|done].
Qed.
End wp.

(** * Computations that move along a relation of worlds *)

Section moves.
Context {K : Type} `{!Platform K}.
Abbreviation M := (@M K).
Context (R : relation (world K)) `{!PreOrder R}.

(** However [m] ends, its worlds are related by [R]. *)
Definition moves {S E A} (m : M S E A) : Prop := ∀ s w, wp m (λ _ _ w', R w w') s w.

Lemma moves_ret {S E A} (a : A) : moves (ret a : M S E A).
Proof. intros s w. by apply wp_ret. Qed.
Lemma moves_throw {S E A} (e : E) : moves (throw e : M S E A).
Proof. intros s w. by apply wp_throw. Qed.
Lemma moves_panic {S E A} msg : moves (panic msg : M S E A).
Proof. intros s w. by apply wp_panic. Qed.
Lemma moves_fuel {S E A} : moves (out_of_fuel : M S E A).
Proof. intros s w. by apply (reflexivity w). Qed.
Lemma moves_gone {S E A} p : moves (gone p : M S E A).
Proof. intros s w. apply wp_gone. Qed.
Lemma moves_get {S E} : moves (get : M S E S).
Proof. intros s w. by apply wp_get. Qed.
Lemma moves_modify {S E} f : moves (modify f : M S E unit).
Proof. intros s w. by apply wp_modify. Qed.
Lemma moves_lift {S E A} (r : result E A) : moves (lift r : M S E A).
Proof. intros s w. by apply wp_lift. Qed.
Lemma moves_expect {S E A} (o : option A) msg : moves (expect o msg : M S E A).
Proof. destruct o; [apply moves_ret|apply moves_panic]. Qed.
Lemma moves_sys {S E A} (op : sysop A) :
  (∀ w r k, handle op (kst w) = (r, k) → R w (extend w k (Ev op r))) →
  moves (sys op : M S E A).
Proof. intros Hop s w. apply wp_sys. intros r k. apply Hop. Qed.

Lemma moves_bind {S E A B} (m : M S E A) (k : A → M S E B) :
  moves m → (∀ a, moves (k a)) → moves (bind m k).
Proof.
  intros Hm Hk s w. apply wp_bind. eapply wp_mono; [apply Hm|].
  intros o s1 w1 Hr. destruct o as [a|e| | |]; simpl; try done.
  eapply wp_mono; [apply Hk|]. intros o s2 w2 Hr2. simpl in *. by etrans.
Qed.
Lemma moves_catch {S E F A} (m : M S E A) : moves m → moves (catch m : M S F (result E A)).
Proof. intros Hm s w. apply wp_catch. eapply wp_mono; [apply Hm|]. by intros []. Qed.
Lemma moves_zoom {S T E A} (g : S → T) (p : T → S → S) (m : M T E A) :
  moves m → moves (zoom g p m).
Proof. intros Hm s w. apply wp_zoom. by eapply wp_mono; [apply Hm|]. Qed.
Lemma moves_with_local {S T E A} (t : T) (m : M T E A) :
  moves m → moves (with_local t m : M S E (A * T)).
Proof. intros Hm s w. apply wp_with_local. eapply wp_mono; [apply Hm|]. by intros []. Qed.
Lemma moves_for_each {S E A} (l : list A) (f : A → M S E unit) :
  (∀ x, moves (f x)) → moves (for_each l f).
Proof. intros Hf. induction l; simpl; [apply moves_ret|]. by apply moves_bind. Qed.
Lemma moves_sys_try {S A} (op : sysop (result Z A)) :
  moves (sys op : M S io_error _) → moves (sys_try op : M S io_error A).
Proof. intros Hop. apply moves_bind; [done|]. intros r. apply moves_lift. Qed.
Lemma moves_sys_cvt {S} (op : sysop (Z * Z)) :
  moves (sys op : M S io_error _) → moves (sys_cvt op : M S io_error Z).
Proof. intros Hop. apply moves_bind; [done|]. intros r. apply moves_lift. Qed.
End moves.

(** Between the two worlds there were only events in [P]. *)
Definition only {K} (P : event → Prop) (w w' : world K) : Prop :=
  ∃ evs, trace w' = trace w ++ evs ∧ Forall P evs.

#[global] Instance only_preorder {K} P : PreOrder (@only K P).
Proof.
  split.
  - intros w. exists []. by rewrite app_nil_r.
  - intros w1 w2 w3 (evs & Ht1 & Hp1) (evs' & Ht2 & Hp2). exists (evs ++ evs').
    rewrite Ht2, Ht1, app_assoc. split; [done|by apply Forall_app].
Qed.

Lemma only_one {K} P (w : world K) k ev : P ev → only P w (extend w k ev).
Proof. intros Hev. exists [ev]. split; [done|by apply Forall_singleton]. Qed.

Section only.
Context {K : Type} `{!Platform K} (P : event → Prop).
Abbreviation M := (@M K).

Lemma moves_only_sys {S E A} (op : sysop A) :
  (∀ r, P (Ev op r)) → moves (only P) (sys op : M S E A).
Proof. intros Hop. apply moves_sys. intros w r k _. by apply only_one. Qed.
Lemma moves_only_order {S E A} (l : list A) : moves (only P) (in_order l : M S E (list A)).
Proof.
  intros s w. unfold wp, in_order. destruct (order l (kst w)) as [l' k].
  exists []. simpl. by rewrite app_nil_r.
Qed.
End only.

#[export] Hint Resolve moves_ret moves_throw moves_panic moves_fuel moves_gone moves_get moves_modify
  moves_lift moves_expect moves_only_order : svlopp.

(** Follow the structure of a computation; calls are left. *)
Ltac moving :=
  repeat first
    [ solve [eauto with svlopp typeclass_instances]
    | match goal with
      | |- moves _ (bind _ _) => apply moves_bind; [apply _| |intros ?]
      | |- moves _ (catch _) => apply moves_catch
      | |- moves _ (zoom _ _ _) => apply moves_zoom
      | |- moves _ (with_local _ _) => apply moves_with_local
      | |- moves _ (for_each _ _) => apply moves_for_each; [apply _|intros ?]
      | |- moves _ (sys_try _) => apply moves_sys_try; [apply _|]
      | |- moves _ (sys_cvt _) => apply moves_sys_cvt; [apply _|]
      | |- moves _ (match ?x with _ => _ end) => destruct x
      end ].

(** * Signals sent *)

(** The process and the signal of a [kill_process]. *)
Definition kill_of {A} (op : sysop A) : option (Z * Z) :=
  match op with SKill p sig => Some (p, sig) | _ => None end.
Definition kills {K} (w : world K) : list (Z * Z) :=
  omap (λ ev, let 'Ev op _ := ev in kill_of op) (trace w).

(** ** The ledger of the children

    What the trace says about the processes: the pids forked and not yet
    reported dead by [wait], and whether every [kill_process] so far was
    aimed at one of them. *)
Definition ledger : Type := gset Z * bool.

Definition account {K} `{Platform K} (l : ledger) (ev : event) : ledger :=
  match ev with
  | Ev op r =>
      match op in sysop A return A → ledger with
      | SFork => λ r, if bool_decide (0 < r.1) then ({[r.1]} ∪ l.1, l.2) else l
      | SWait => λ r,
          match r with
          | ROk (Some (p, st)) => if ws_final st then (l.1 ∖ {[p]}, l.2) else l
          | _ => l
          end
      | SKill p _ => λ _, (l.1, l.2 && bool_decide (p ∈ l.1))
      | _ => λ _, l
      end r
  end.

Definition ledger_of {K} `{Platform K} (w : world K) : ledger :=
  foldl account (∅, true) (trace w).

Lemma ledger_snoc {K} `{Platform K} (w : world K) k ev :
  ledger_of (extend w k (ev)) = account (ledger_of w) ev.
Proof. unfold ledger_of. simpl. by rewrite foldl_app. Qed.

(** Neither a fork, nor a wait, nor a signal. *)
Definition calm {A} (op : sysop A) : bool :=
  quiet op && match op with SKill _ _ | SKillPg _ _ => false | _ => true end.

(** * The laws in terms of [wp] *)

Section laws.
Context {K : Type} `{!Platform K} `{!PlatformLaws K}.
Abbreviation M := (@M K).

(** Worlds in order: no child disappears, the trace is extended, the
    ledger is the same, so that only children were sent signals. *)
Definition world_le (w w' : world K) : Prop :=
  children (kst w) ⊆ children (kst w') ∧ trace w `prefix_of` trace w' ∧
  ledger_of w' = ledger_of w.

#[global] Instance world_le_preorder : PreOrder world_le.
Proof.
  split; [by intros w; split_and!|].
  intros w1 w2 w3 (? & ? & H1) (? & ? & H2). split_and!; [set_solver|by etrans|by rewrite H2].
Qed.

(** The target of a signal is a child. *)
Definition permitted {A} (op : sysop A) (w : world K) : Prop :=
  match kill_of op with Some (p, _) => p ∈ (ledger_of w).1 | None => True end.

Lemma world_le_sys {A} (op : sysop A) w r k :
  quiet op = true → permitted op w → handle op (kst w) = (r, k) →
  world_le w (extend w k (Ev op r)).
Proof.
  intros Hq Hp Hk. split_and!; simpl; [|by apply prefix_app_r|].
  - pose proof (quiet_children op (kst w) Hq) as Hc. by rewrite Hk in Hc.
  - rewrite ledger_snoc. unfold permitted in Hp. destruct op; simpl in *; try done.
    rewrite bool_decide_true, andb_true_r by done. by destruct (ledger_of w).
Qed.

(** Worlds in order between which no process was sent a signal. *)
Definition world_calm (w w' : world K) : Prop :=
  world_le w w' ∧ kills w' = kills w.

#[global] Instance world_calm_preorder : PreOrder world_calm.
Proof.
  split; [by intros w; split|].
  intros w1 w2 w3 [? H1] [? H2]. split; [by etrans|by rewrite H2].
Qed.

Lemma world_calm_sys {A} (op : sysop A) w r k :
  calm op = true → handle op (kst w) = (r, k) →
  world_calm w (extend w k (Ev op r)).
Proof.
  intros [Hq Hn]%andb_true_iff Hk.
  assert (Hop : kill_of op = None) by by destruct op.
  split; [apply world_le_sys; [done| |done]; unfold permitted; by rewrite Hop|].
  unfold kills. simpl. rewrite omap_app. simpl. by rewrite Hop, app_nil_r.
Qed.

Lemma wp_sys_calm {S E A} (op : sysop A) (Φ : outcome E A → S → world K → Prop) s w :
  calm op = true →
  (∀ r w', world_calm w w' → Φ (Ok r) s w') →
  wp (sys op) Φ s w.
Proof. intros Hq HΦ. apply wp_sys. intros r k Hk. by eapply HΦ, world_calm_sys. Qed.

Lemma wp_sys_try_calm {S A} (op : sysop (result Z A))
    (Φ : outcome io_error A → S → world K → Prop) s w :
  calm op = true →
  (∀ a w', world_calm w w' → Φ (Ok a) s w') →
  (∀ e w', world_calm w w' → Φ (Err e) s w') →
  wp (sys_try op) Φ s w.
Proof.
  intros Hq Hok Herr. apply wp_sys_try; intros a k Hk.
  - by eapply Hok, world_calm_sys.
  - by eapply Herr, world_calm_sys.
Qed.

Lemma wp_in_order {S E A} (l : list A) (Φ : outcome E (list A) → S → world K → Prop) s w :
  (∀ l' w', (l' ≡ₚ l) → world_calm w w' → trace w' = trace w → Φ (Ok l') s w') →
  wp (in_order l) Φ s w.
Proof.
  intros HΦ. unfold wp, in_order.
  pose proof (order_perm l (kst w)) as Hp. pose proof (order_children l (kst w)) as Hc.
  destruct (order l (kst w)) as [l' k]. apply HΦ; [done| |done].
  split; [|done]. split_and!; simpl; [done|reflexivity|done].
Qed.
End laws.

(** * Quiet computations *)

Section quietly.
Context {K : Type} `{!Platform K} `{!PlatformLaws K}.
Abbreviation M := (@M K).

Definition settled {E A} (o : outcome E A) : Prop :=
  match o with Ok _ | Err _ => True | _ => False end.

(** [m] makes only calls that are neither forks, waits nor signals, leaves
    the state alone when [pure] is set, and returns or fails. *)
Definition quietly (pure : bool) {S E A} (m : M S E A) : Prop :=
  ∀ s w, wp m (λ o s' w', (pure = true → s' = s) ∧ world_calm w w' ∧ settled o) s w.

Lemma quietly_ret {S E A} b (a : A) : quietly b (ret a : M S E A).
Proof. intros s w. by apply wp_ret. Qed.
Lemma quietly_throw {S E A} b (e : E) : quietly b (throw e : M S E A).
Proof. intros s w. by apply wp_throw. Qed.
Lemma quietly_get {S E} b : quietly b (get : M S E S).
Proof. intros s w. by apply wp_get. Qed.
Lemma quietly_modify {S E} f : quietly false (modify f : M S E unit).
Proof. intros s w. by apply wp_modify. Qed.
Lemma quietly_lift {S E A} b (r : result E A) : quietly b (lift r : M S E A).
Proof. intros s w. by apply wp_lift. Qed.
Lemma quietly_sys {S E A} b (op : sysop A) : calm op = true → quietly b (sys op : M S E A).
Proof. intros Hc s w. by apply wp_sys_calm. Qed.
Lemma quietly_sys_try {S A} b (op : sysop (result Z A)) :
  calm op = true → quietly b (sys_try op : M S io_error A).
Proof. intros Hc s w. by apply wp_sys_try_calm. Qed.

Lemma quietly_bind {S E A B} b (m : M S E A) (k : A → M S E B) :
  quietly b m → (∀ a, quietly b (k a)) → quietly b (bind m k).
Proof.
  intros Hm Hk s w. apply wp_bind. eapply wp_mono; [apply Hm|].
  intros o s1 w1 (Hs1 & Hw1 & Ho). destruct o as [a|e| | |]; simpl; try done.
  eapply wp_mono; [apply Hk|]. intros o s2 w2 (Hs2 & Hw2 & Ho2).
  split_and!; [|by etrans|done]. intros Hb. by rewrite Hs2, Hs1.
Qed.

Lemma quietly_sys_cvt {S} b (op : sysop (Z * Z)) :
  calm op = true → quietly b (sys_cvt op : M S io_error Z).
Proof. intros Hc. apply quietly_bind; [by apply quietly_sys|]. intros r. apply quietly_lift. Qed.

Lemma quietly_with_local {S T E A} b (t : T) (m : M T E A) :
  quietly false m → quietly b (with_local t m : M S E (A * T)).
Proof.
  intros Hm s w. apply wp_with_local. eapply wp_mono; [apply Hm|].
  intros o t' w' (_ & Hw & Ho). by destruct o.
Qed.
End quietly.

#[export] Hint Resolve quietly_ret quietly_throw quietly_get quietly_modify quietly_lift
  quietly_sys quietly_sys_try quietly_sys_cvt : svlopp.
#[export] Hint Extern 1 (calm _ = true) => reflexivity : svlopp.

(** Prove that a computation is quiet by following its structure. *)
Ltac quiet :=
  repeat first
    [ solve [auto with svlopp]
    | apply quietly_bind; [|intros ?]
    | apply quietly_with_local
    | match goal with |- quietly _ (match ?x with _ => _ end) => destruct x end ].

(** One step of a computation under [wp]: the rule for its head. *)
Ltac wp_step :=
  lazymatch goal with
  | |- wp (bind _ _) _ _ _ => apply wp_bind
  | |- wp (ret _) _ _ _ => apply wp_ret
  | |- wp (throw _) _ _ _ => apply wp_throw
  | |- wp (panic _) _ _ _ => apply wp_panic
  | |- wp (gone _) _ _ _ => apply wp_gone
  | |- wp get _ _ _ => apply wp_get
  | |- wp (modify _) _ _ _ => apply wp_modify
  | |- wp (zoom _ _ _) _ _ _ => apply wp_zoom
  | |- wp (catch _) _ _ _ => apply wp_catch
  | |- wp (with_local _ _) _ _ _ => apply wp_with_local
  | |- bind_post _ _ _ _ _ => unfold bind_post
  end; cbn beta iota.
Ltac wp_steps := repeat wp_step.
