(* ===== verification/Sim.v ===== *)
(** A concrete platform: a small simulated kernel whose answers are scripted
    by its state.  It satisfies [PlatformLaws], so the hypotheses of the
    theorems can hold, and it is executable, so the program can be run on
    concrete scenarios by computation. *)
From S2P Require Import Prelude Utils Data Platform Monad.
Local Open Scope Z_scope.

(** [sim_children] are the unreaped children, [sim_statuses] the wait
    statuses to deliver, [sim_reads] and [sim_epolls] what the next reads and
    epoll waits return, [sim_write_max] how much one write accepts beyond its
    first byte. *)
Record sim : Type := Sim {
  sim_children : list Z;
  sim_statuses : list (Z * Z);
  sim_clock : Z;
  sim_config : string;
  sim_reads : list (result Z (list Z));
  sim_epolls : list (result Z (list Z));
  sim_write_max : nat;
  sim_missing : list string;
  sim_unkillable : list Z;
  sim_fork_fails : bool;
  sim_in_child : bool
}.

Definition sim_init : sim :=
  Sim [] [] 0 "" [] [] 4096 [] [] false false.

Definition sim_set_children l k :=
  Sim l (sim_statuses k) (sim_clock k) (sim_config k) (sim_reads k) (sim_epolls k)
    (sim_write_max k) (sim_missing k) (sim_unkillable k) (sim_fork_fails k) (sim_in_child k).
Definition sim_set_statuses l k :=
  Sim (sim_children k) l (sim_clock k) (sim_config k) (sim_reads k) (sim_epolls k)
    (sim_write_max k) (sim_missing k) (sim_unkillable k) (sim_fork_fails k) (sim_in_child k).
Definition sim_set_clock t k :=
  Sim (sim_children k) (sim_statuses k) t (sim_config k) (sim_reads k) (sim_epolls k)
    (sim_write_max k) (sim_missing k) (sim_unkillable k) (sim_fork_fails k) (sim_in_child k).
Definition sim_set_config s k :=
  Sim (sim_children k) (sim_statuses k) (sim_clock k) s (sim_reads k) (sim_epolls k)
    (sim_write_max k) (sim_missing k) (sim_unkillable k) (sim_fork_fails k) (sim_in_child k).
Definition sim_set_reads l k :=
  Sim (sim_children k) (sim_statuses k) (sim_clock k) (sim_config k) l (sim_epolls k)
    (sim_write_max k) (sim_missing k) (sim_unkillable k) (sim_fork_fails k) (sim_in_child k).
Definition sim_set_epolls l k :=
  Sim (sim_children k) (sim_statuses k) (sim_clock k) (sim_config k) (sim_reads k) l
    (sim_write_max k) (sim_missing k) (sim_unkillable k) (sim_fork_fails k) (sim_in_child k).
Definition sim_set_write_max n k :=
  Sim (sim_children k) (sim_statuses k) (sim_clock k) (sim_config k) (sim_reads k)
    (sim_epolls k) n (sim_missing k) (sim_unkillable k) (sim_fork_fails k) (sim_in_child k).
Definition sim_set_fork_fails b k :=
  Sim (sim_children k) (sim_statuses k) (sim_clock k) (sim_config k) (sim_reads k)
    (sim_epolls k) (sim_write_max k) (sim_missing k) (sim_unkillable k) b (sim_in_child k).
Definition sim_set_in_child b k :=
  Sim (sim_children k) (sim_statuses k) (sim_clock k) (sim_config k) (sim_reads k)
    (sim_epolls k) (sim_write_max k) (sim_missing k) (sim_unkillable k) (sim_fork_fails k) b.

(** ** Wait statuses, in the encoding of Linux *)

Definition sim_ws_exited (st : Z) : bool := bool_decide (Z.land st 127 = 0).
Definition sim_ws_exit_status (st : Z) : option Z :=
  if sim_ws_exited st then Some (Z.land (Z.shiftr st 8) 255) else None.
Definition sim_ws_signaled (st : Z) : bool :=
  negb (bool_decide (Z.land st 127 = 0)) && negb (bool_decide (Z.land st 127 = 127)).
Definition sim_ws_terminating_signal (st : Z) : option Z :=
  if sim_ws_signaled st then Some (Z.land st 127) else None.
Definition sim_ws_final (st : Z) : bool := sim_ws_exited st || sim_ws_signaled st.

(** ** Configurations: the text names one of these *)

Definition sim_service (cmd : string) (on_exit : service_pending_action) : service_config :=
  ServiceConfig cmd ["10"] None None None None on_exit SigTerm default_stop_timeout_ms.

(** The same, with a log file. *)
Definition sim_logged (path : string) : service_config :=
  ServiceConfig "sleep" ["10"] None None (Some path) None ServicePendingAction.None SigTerm
    default_stop_timeout_ms.

Definition sim_toml (txt : string) : result string (gmap string service_config) :=
  if bool_decide (txt = "") then ROk ∅
  else if bool_decide (txt = "a") then
    ROk {["a" := sim_service "sleep" ServicePendingAction.None]}
  else if bool_decide (txt = "a'") then
    ROk {["a" := sim_service "pause" ServicePendingAction.None]}
  else if bool_decide (txt = "ab") then
    ROk (<["a" := sim_service "sleep" ServicePendingAction.None]>
         {["b" := sim_service "sleep" ServicePendingAction.Restart]})
  else if bool_decide (txt = "log") then ROk {["a" := sim_logged "/var/log/a"]}
  else if bool_decide (txt = "log'") then ROk {["a" := sim_logged "/var/log//a/"]}
  else if bool_decide (txt = "log2") then ROk {["a" := sim_logged "/var/log/a2"]}
  else RErr "expected a table".

(** ** The calls *)

Definition sim_fresh (l : list Z) : Z := 1 + foldr Z.max 99 l.

Definition sim_fork (k : sim) : (Z * Z) * sim :=
  if sim_in_child k then ((0, 0), k)
  else if sim_fork_fails k || bool_decide (2 ^ 31 <= sim_fresh (sim_children k))
  then ((-1, EAGAIN), k)
  else
    let p := sim_fresh (sim_children k) in
    ((p, 0), sim_set_children (p :: sim_children k) k).

Definition sim_wait (k : sim) : result Z (option (Z * Z)) * sim :=
  match sim_statuses k with
  | (p, st) :: l =>
      (ROk (Some (p, st)),
       sim_set_statuses l
         (if sim_ws_final st
          then sim_set_children (filter (λ q, q ≠ p) (sim_children k)) k else k))
  | [] => (match sim_children k with [] => RErr ECHILD | _ => ROk None end, k)
  end.

(** Three seconds pass between two readings of the clock. *)
Definition sim_now (k : sim) : Z * sim :=
  (Z.max 0 (Z.min (sim_clock k) (2 ^ 62 * nanos_per_sec - 1)),
   sim_set_clock (sim_clock k + 3 * nanos_per_sec) k).

Definition sim_read (cap : nat) (k : sim) : result Z (list Z) * sim :=
  match sim_reads k with
  | ROk bs :: l => (ROk (take cap ((λ b, b `mod` 256) <$> bs)), sim_set_reads l k)
  | RErr e :: l => (RErr e, sim_set_reads l k)
  | [] => (RErr EAGAIN, k)
  end.

Definition sim_epoll (cap : nat) (k : sim) : result Z (list Z) * sim :=
  match sim_epolls k with
  | ROk evs :: l => (ROk (take cap evs), sim_set_epolls l k)
  | RErr e :: l => (RErr e, sim_set_epolls l k)
  | [] => (RErr EINTR, k)
  end.

Definition sim_handle {A} (op : sysop A) : sim → A * sim :=
  match op in sysop A return sim → A * sim with
  | SReadToString _ => λ k, (ROk (sim_config k), k)
  | SNow => sim_now
  | SRemoveDirAll _ => λ k, (ROk tt, k)
  | SEprintln _ => λ k,
      (if bool_decide ("stderr" ∈ sim_missing k) then RErr EIO else ROk tt, k)
  | SMkdir _ _ => λ k, (ROk tt, k)
  | SClockRealtime => λ k, ((1700000000, 0), k)
  | SOpen path _ _ => λ k,
      (if bool_decide (path ∈ sim_missing k) then RErr ENOENT else ROk 10, k)
  | SRead _ cap => sim_read cap
  | SWrite _ buf => λ k, (ROk (Nat.min (length buf) (S (sim_write_max k))), k)
  | SFsync _ => λ k, (ROk tt, k)
  | SRename _ _ => λ k, (ROk tt, k)
  | SMkfifo _ _ => λ k, (ROk tt, k)
  | SKill p _ => λ k, (if bool_decide (p ∈ sim_unkillable k) then RErr ESRCH else ROk tt, k)
  | SKillPg p _ => λ k, (RErr ESRCH, k)
  | SWait => sim_wait
  | SSetpgid => λ k, (ROk tt, k)
  | SChdir path => λ k,
      (if bool_decide (path ∈ sim_missing k) then RErr ENOENT else ROk tt, k)
  | SDup2 _ _ => λ k, (ROk tt, k)
  | SSubreaper => λ k, (ROk tt, k)
  | STimerfdCreate _ _ => λ k, (ROk 12, k)
  | STimerfdSettime _ _ _ _ _ => λ k, (ROk tt, k)
  | SEpollCreate _ => λ k, (ROk 13, k)
  | SEpollAdd _ _ _ => λ k, (ROk tt, k)
  | SEpollWait _ cap => sim_epoll cap
  | SFork => sim_fork
  | SSigemptyset => λ k, ((0, 0, 0), k)
  | SSigaddset raw sig => λ k, ((0, 0, Z.lor raw (Z.shiftl 1 (sig - 1))), k)
  | SSigprocmask _ _ => λ k, ((0, 0, 0), k)
  | SSignalfd _ _ => λ k, ((11, 0), k)
  | SSetgid _ => λ k, ((0, 0), k)
  | SSetuid _ => λ k, ((0, 0), k)
  | SExecvp file _ => λ k, (negb (bool_decide (file ∈ sim_missing k)), k)
  | SExecvpe file _ _ => λ k, (negb (bool_decide (file ∈ sim_missing k)), k)
  end.

#[global] Instance sim_platform : Platform sim := {|
  handle := @sim_handle;
  order := λ A l k, (l, k);
  toml_from_str := sim_toml;
  ws_exited := sim_ws_exited;
  ws_exit_status := sim_ws_exit_status;
  ws_signaled := sim_ws_signaled;
  ws_terminating_signal := sim_ws_terminating_signal;
  strerror := λ e, "error " +:+ display e;
  errno_text := λ e, "errno " +:+ display e;
  pid_text := display;
  pid_debug := λ p, "Pid(" +:+ display p +:+ ")";
  wait_status_debug := λ st, "WaitStatus(" +:+ display st +:+ ")"
|}.

(** ** The laws *)

Lemma sim_fresh_notin l : sim_fresh l ∉ l.
Proof.
  assert (Hlt : ∀ x, x ∈ l → x < sim_fresh l).
  { unfold sim_fresh. intros x. induction 1; simpl in *; lia. }
  intros Hin. specialize (Hlt _ Hin). lia.
Qed.

Lemma sim_toml_wf txt m : sim_toml txt = ROk m → map_Forall (λ _, config_wf) m.
Proof.
  unfold sim_toml. intros Hm.
  assert (Hwf : ∀ c a, config_wf (sim_service c a)) by (intros; done).
  assert (Hlog : ∀ path, config_wf (sim_logged path)) by (intros; done).
  repeat case_bool_decide; inv Hm;
    repeat first [apply map_Forall_empty | apply map_Forall_singleton, Hwf
                 | apply map_Forall_singleton, Hlog
                 | apply map_Forall_insert_2; [apply Hwf|]].
Qed.

(** The children, as far as their pids are pids. *)
Definition sim_pids (l : list Z) : gset Z := list_to_set (filter (λ p, 0 < p < 2 ^ 31) l).

Lemma elem_of_sim_pids p l : p ∈ sim_pids l ↔ p ∈ l ∧ 0 < p < 2 ^ 31.
Proof. unfold sim_pids. rewrite elem_of_list_to_set, list_elem_of_filter. tauto. Qed.

Lemma sim_wait_reaped k p st k' :
  sim_wait k = (ROk (Some (p, st)), k') →
  sim_pids (sim_children k) ∖ (if sim_ws_final st then {[p]} else ∅) ⊆
    sim_pids (sim_children k').
Proof.
  unfold sim_wait. destruct (sim_statuses k) as [|[q s] l].
  - by destruct (sim_children k).
  - intros [= -> -> <-]. destruct (sim_ws_final st); simpl; [|set_solver].
    intros x [Hx Hne]%elem_of_difference.
    apply elem_of_sim_pids in Hx as [Hx ?].
    apply elem_of_sim_pids. split; [|done]. apply list_elem_of_filter. set_solver.
Qed.

Lemma sim_wait_status_range st c : sim_ws_exit_status st = Some c → 0 ≤ c < 256.
Proof.
  unfold sim_ws_exit_status. destruct (sim_ws_exited st); [|done]. intros [= <-].
  rewrite (Z.land_ones _ 8) by lia. by apply Z.mod_pos_bound.
Qed.

Lemma sim_wait_signal_range st sig : sim_ws_terminating_signal st = Some sig → 0 < sig < 128.
Proof.
  unfold sim_ws_terminating_signal, sim_ws_signaled.
  assert (Hr : 0 ≤ Z.land st 127 < 128)
    by (rewrite (Z.land_ones _ 7) by lia; by apply Z.mod_pos_bound).
  repeat case_bool_decide; simpl; try done. intros [= <-]. lia.
Qed.

Lemma sim_fork_cases k :
  (∃ p e, sim_fork k = ((p, e), k) ∧ p ≤ 0) ∨
  sim_fork k = ((sim_fresh (sim_children k), 0),
    sim_set_children (sim_fresh (sim_children k) :: sim_children k) k) ∧
  0 < sim_fresh (sim_children k) < 2 ^ 31.
Proof.
  unfold sim_fork. destruct (sim_in_child k); [by left; exists 0, 0|].
  destruct (sim_fork_fails k); [by left; exists (-1), EAGAIN|].
  case_bool_decide as Hp; [by left; exists (-1), EAGAIN|]. right. split; [done|].
  split; [|lia]. unfold sim_fresh. clear Hp. induction (sim_children k); simpl; lia.
Qed.

#[global, program] Instance sim_laws : PlatformLaws sim := {|
  children := λ k, sim_pids (sim_children k)
|}.
Next Obligation. by intros k p [_ ?]%elem_of_sim_pids. Qed.
Next Obligation. done. Qed.
Next Obligation. done. Qed.
Next Obligation.
  intros A op k Hq. destruct op; simpl in *; try done;
    unfold sim_read, sim_epoll, sim_now; repeat case_match; done.
Qed.
Next Obligation.
  intros k p e k' Hf Hp. destruct (sim_fork_cases k) as [(p' & e' & Heq & ?)|[Heq Hr]];
    cbn [handle sim_platform sim_handle] in Hf; rewrite Heq in Hf; injection Hf as <- <- <-;
    [lia|]. split.
  - intros [Hin _]%elem_of_sim_pids. by apply sim_fresh_notin in Hin.
  - intros x [->%elem_of_singleton|[Hx ?]%elem_of_sim_pids]%elem_of_union;
      apply elem_of_sim_pids; simpl; set_solver.
Qed.
Next Obligation.
  intros k p e k' Hf Hp. destruct (sim_fork_cases k) as [(p' & e' & Heq & ?)|[Heq Hr]];
    cbn [handle sim_platform sim_handle] in Hf; rewrite Heq in Hf; injection Hf as <- <- <-;
    [done|lia].
Qed.
Next Obligation. apply sim_wait_reaped. Qed.
Next Obligation.
  intros k r k'. simpl. unfold sim_wait.
  destruct (sim_statuses k) as [|x l]; [by intros [= <- <-]|].
  destruct x as [p st]. intros [= <- <-] Hr. by destruct (Hr (p, st)).
Qed.
Next Obligation. intros st. simpl. unfold sim_ws_exit_status. intros ->. by eexists. Qed.
Next Obligation. intros st. simpl. unfold sim_ws_terminating_signal. intros ->. by eexists. Qed.
Next Obligation. apply sim_wait_status_range. Qed.
Next Obligation. apply sim_wait_signal_range. Qed.
Next Obligation. intros k. simpl. unfold nanos_per_sec. lia. Qed.
Next Obligation.
  intros k fd cap bs k'. simpl. unfold sim_read.
  destruct (sim_reads k) as [|[l|e] rs]; intros [= <- <-]. split; [rewrite length_take; lia|].
  apply Forall_take, Forall_fmap, Forall_true. intros b. by apply Z.mod_pos_bound.
Qed.
Next Obligation. intros k fd buf n k'. simpl. intros [= <- <-]. lia. Qed.
Next Obligation. apply sim_toml_wf. Qed.

#[global] Instance sim_write_progress : WriteProgress sim.
Proof.
  split. intros k fd buf n k'. simpl. intros [= <- <-] Hbuf. destruct buf; [done|]. simpl. lia.
Qed.
