(* ===== verification/Logging.v ===== *)
(** logging.rs and [timestamp] of utils.rs: the log levels, the global level,
    the filter of [log_inner] and the macro [svlogg!], which the other
    components call; what a message prints and what it leaves alone. *)
From S2P Require Import Prelude Utils Platform Monad Sim.
Local Open Scope Z_scope.
Local Open Scope svlopp_scope.

(** [LogLevel], with its [repr(u8)] discriminants and derived [Debug]. *)
Module LogLevel.
Inductive log_level : Type := Error | Warn | Info | Debug.

#[global] Instance log_level_eq_dec : EqDecision log_level.
Proof. solve_decision. Defined.

Definition to_u8 (level : log_level) : Z :=
  match level with Error => 1 | Warn => 2 | Info => 3 | Debug => 4 end.

Definition debug (level : log_level) : string :=
  match level with
  | Error => "Error" | Warn => "Warn" | Info => "Info" | Debug => "Debug"
  end.
End LogLevel.
Abbreviation log_level := LogLevel.log_level.

(** [LOG_LEVEL]: an atomic byte; the supervisor has one thread. *)
Definition LOG_LEVEL_init : Z := LogLevel.to_u8 LogLevel.Info.

Section logging.
Context {K : Type} `{!Platform K}.
Abbreviation M := (@M K).

(** [timestamp]. *)
Definition timestamp {S E} : M S E (Z * Z) := sys SClockRealtime.

(** [LOG_LEVEL.load] and [LOG_LEVEL.store]. *)
Definition load_log_level {S E} : M S E Z := λ s w, (Ok (log_max w), s, w).
Definition store_log_level {S E} (v : Z) : M S E unit :=
  λ s w, (Ok tt, s, World (kst w) (trace w) v).

(** [set_log_level]. *)
Definition set_log_level {S E} (level : log_level) : M S E unit :=
  store_log_level (LogLevel.to_u8 level).

(** [eprintln!], which panics when the line cannot be written. *)
Definition eprintln {S E} (msg : string) : M S E unit :=
  let! r := sys (SEprintln msg) in
  match r with
  | ROk _ => ret tt
  | RErr _ => gone (ProcPanic "failed printing to stderr")
  end.

(** [log_inner]. *)
Definition log_inner {S E} (level : log_level) (msg : string) : M S E unit :=
  let! max := load_log_level in
  if bool_decide (LogLevel.to_u8 level > max) then ret tt
  else
    let! (secs, nsecs) := timestamp in
    eprintln ("[" +:+ display secs +:+ "." +:+ display nsecs +:+ "][" +:+
                    LogLevel.debug level +:+ "] " +:+ msg).

(** The macro [svlogg!], on the text its arguments format to. *)
Definition svlogg {S E} (level : log_level) (msg : string) : M S E unit :=
  log_inner level msg.

(** What a sequence of log calls prints. *)
Definition log_all {S E} (l : list (log_level * string)) : M S E unit :=
  for_each l (λ e, svlogg e.1 e.2).

(** [Display] of an [io::Error]. *)
Definition io_error_text (e : io_error) : string :=
  match e with
  | OsError n => strerror n +:+ " (os error " +:+ display n +:+ ")"
  | Other msg => msg
  | NulError _ => "data provided contains a nul byte"
  end.
End logging.

(** The lines printed by some events. *)
Definition printed_by (ev : event) : option string :=
  match ev with
  | Ev op r =>
      match op in sysop A return A → option string with
      | SEprintln msg => λ r, match r with ROk _ => Some msg | RErr _ => None end
      | _ => λ _, None
      end r
  end.
Definition printed {K} (w : world K) : list string := omap printed_by (trace w).

(** The last call tried to print and failed. *)
Definition print_failed {K} (w : world K) : Prop :=
  ∃ msg e, last (trace w) = Some (Ev (SEprintln msg) (RErr e)).

(** The process ended because a line could not be printed. *)
Definition stderr_lost {K} (p : process_end) (w : world K) : Prop :=
  p = ProcPanic "failed printing to stderr" ∧ print_failed w.

(** A log line, for a time stamp. *)
Definition log_line (level : log_level) (msg : string) (t : Z * Z) : string :=
  "[" +:+ display t.1 +:+ "." +:+ display t.2 +:+ "][" +:+ LogLevel.debug level +:+ "] " +:+ msg.

(** A message is shown at a level at least as severe as the maximum. *)
Definition shown (max : Z) (level : log_level) : bool :=
  bool_decide (LogLevel.to_u8 level ≤ max).

(** The lines of the messages that are shown, for their time stamps. *)
Definition log_lines (max : Z) (l : list (log_level * string)) (ts : list (Z * Z)) :
    list string :=
  zip_with (λ e t, log_line e.1 e.2 t) (filter (λ e, shown max e.1) l) ts.

Section filter.
Context {K : Type} `{!Platform K}.
Abbreviation M := (@M K).

Lemma printed_extend (w : world K) (k : K) ev :
  printed (extend w k ev) = printed w ++ option_list (printed_by ev).
Proof. unfold printed. simpl. rewrite omap_app. simpl. by destruct (printed_by ev). Qed.

(** A log call, on every path: the line and its time stamp, nothing at all
    for a message below the level, or the end of the process. *)
Lemma svlogg_cases {S E} level msg (s : S) (w : world K) :
  let '(o, s', w') := (svlogg level msg : M S E unit) s w in
  s' = s ∧ log_max w' = log_max w ∧
  match o with
  | Ok _ => if shown (log_max w) level
            then ∃ t, printed w' = printed w ++ [log_line level msg t] else w' = w
  | Gone p => shown (log_max w) level = true ∧ stderr_lost p w' ∧ printed w' = printed w
  | _ => False
  end.
Proof.
  unfold svlogg, log_inner, load_log_level, timestamp, eprintln, shown, bind, sys.
  case_bool_decide as Hgt; simpl.
  { split_and!; [done|done|]. by rewrite bool_decide_false by lia. }
  rewrite bool_decide_true by lia. destruct (handle SClockRealtime (kst w)) as [[secs nsecs] k].
  simpl. destruct (handle _ k) as [[[]|e] k']; simpl.
  - split_and!; [done|done|]. exists (secs, nsecs). unfold printed. simpl.
    by rewrite !omap_app, app_nil_r.
  - split_and!; [done|done|done|split; [done|eexists _, e; apply last_snoc]|].
    unfold printed. simpl. by rewrite !omap_app, !app_nil_r.
Qed.

Lemma log_all_cases {S E} l (s : S) (w : world K) :
  let '(o, s', w') := (log_all l : M S E unit) s w in
  s' = s ∧ log_max w' = log_max w ∧
  ∃ ts, printed w' = printed w ++ log_lines (log_max w) l ts ∧
    match o with
    | Ok _ => length ts = length (filter (λ e, shown (log_max w) e.1) l)
    | Gone p => stderr_lost p w'
    | _ => False
    end.
Proof.
  unfold log_all, log_lines. revert w. induction l as [|[level msg] l IH]; intros w.
  - simpl. split_and!; [done|done|]. exists []. by rewrite app_nil_r.
  - cbn [for_each fst snd]. unfold bind at 1.
    pose proof (svlogg_cases (E:=E) level msg s w) as Hlog.
    destruct (svlogg level msg s w) as [[o s1] w1]. destruct Hlog as (-> & Hmax & Ho).
    specialize (IH w1). rewrite Hmax in IH. rewrite filter_cons. cbn [fst] in *.
    destruct o as [[]|?| | |p]; simpl; try done.
    + destruct (for_each l _ s w1) as [[o s2] w2]. destruct IH as (-> & -> & ts & Hts & Ho2).
      split_and!; [done|done|]. destruct (shown (log_max w) level).
      * rewrite decide_True by done. destruct Ho as [t Ht]. exists (t :: ts).
        split; [by rewrite Hts, Ht, <- app_assoc|]. destruct o; simpl; auto.
      * rewrite decide_False by (by intros []). subst w1. by exists ts.
    + destruct Ho as (Hs & Hp & Hpr). split_and!; [done|done|]. exists []. split; [|done].
      by rewrite Hpr, zip_with_nil_r, app_nil_r.
Qed.

(** A relation that the calls of a message respect. *)
Lemma moves_svlogg (R : relation (world K)) `{!PreOrder R} {S E} level msg :
  (∀ A (op : sysop A) w r k, log_call op = true → handle op (kst w) = (r, k) →
     R w (extend w k (Ev op r))) →
  moves R (svlogg level msg : M S E unit).
Proof.
  intros HR. unfold svlogg, log_inner, timestamp, eprintln.
  apply moves_bind; [apply _|by intros s w; apply (reflexivity w)|]. intros max. moving;
    apply moves_sys; intros w r k; by apply HR.
Qed.
End filter.

(** ** Log calls inside other computations *)

(** The events of a log message. *)
Definition log_event (ev : event) : bool := match ev with Ev op _ => log_call op end.

Section logged.
Context {K : Type} `{!Platform K} `{!PlatformLaws K}.
Abbreviation M := (@M K).

(** Between the two worlds there were only log messages. *)
Definition logged (w w' : world K) : Prop :=
  children (kst w) ⊆ children (kst w') ∧ log_max w' = log_max w ∧
  ∃ evs, trace w' = trace w ++ evs ∧ Forall (λ ev, log_event ev = true) evs.

#[global] Instance logged_preorder : PreOrder logged.
Proof.
  split.
  - intros w. split_and!; [done|done|]. exists []. by rewrite app_nil_r.
  - intros w1 w2 w3 (? & ? & evs & Ht1 & ?) (? & ? & evs' & Ht2 & ?).
    split_and!; [set_solver|congruence|]. exists (evs ++ evs').
    rewrite Ht2, Ht1, app_assoc. split; [done|by apply Forall_app].
Qed.

Lemma logged_sys {A} (op : sysop A) (w : world K) r k :
  log_event (Ev op r) = true → handle op (kst w) = (r, k) → logged w (extend w k (Ev op r)).
Proof.
  intros Hop Hk. assert (Hq : quiet op = true) by by destruct op.
  split_and!; [|done|by exists [Ev op r]; rewrite Forall_singleton].
  pose proof (quiet_children op (kst w) Hq) as Hc. by rewrite Hk in Hc.
Qed.

(** One message: what it prints. *)
Definition says (level : log_level) (msg : string) (w w' : world K) : Prop :=
  logged w w' ∧
  if shown (log_max w) level then ∃ t, printed w' = printed w ++ [log_line level msg t]
  else w' = w.

Lemma wp_svlogg {S E} level msg (s : S) (w : world K) (Φ : outcome E unit → S → world K → Prop) :
  (∀ w', says level msg w w' → Φ (Ok tt) s w') → wp (svlogg level msg) Φ s w.
Proof.
  intros HΦ. pose proof (svlogg_cases (E:=E) level msg s w) as Hlog.
  assert (Hwp : moves logged (svlogg level msg : M S E unit)).
  { apply moves_svlogg; [apply _|]. intros A op w1 r k. apply logged_sys. }
  specialize (Hwp s w).
  unfold wp in *. destruct (svlogg level msg s w) as [[o s'] w'].
  destruct Hlog as (-> & _ & Ho). destruct o as [[]|?| | |p]; try done. by apply HΦ.
Qed.

(** A log message is no fork, wait or signal. *)
Lemma logged_calm w w' : logged w w' → world_calm w w'.
Proof.
  intros (Hc & _ & evs & Htr & Hevs). unfold world_calm, world_le, ledger_of, kills.
  rewrite Htr, foldl_app, omap_app.
  assert (Hl : ∀ l, foldl account l evs = l ∧ omap (λ ev, let 'Ev op _ := ev in kill_of op) evs = []).
  { clear Htr Hc. induction evs as [|[A op r] evs IH]; intros l; [done|].
    apply Forall_cons in Hevs as [Hev Hevs]. by destruct op; simpl in *; try done; apply IH. }
  destruct (Hl (foldl account (∅, true) (trace w))) as [-> ->].
  split_and!; [done|by apply prefix_app_r|done|by rewrite app_nil_r].
Qed.
Lemma says_logged level msg w w' : says level msg w w' → logged w w'.
Proof. by intros [? _]. Qed.
Lemma says_calm level msg w w' : says level msg w w' → world_calm w w'.
Proof. intros ?%says_logged. by apply logged_calm. Qed.

(** [m] only logs. *)
Definition talks {S E} (m : M S E unit) : Prop :=
  ∀ s w (Φ : outcome E unit → S → world K → Prop),
    (∀ w', logged w w' → Φ (Ok tt) s w') → wp m Φ s w.

Lemma talks_ret {S E} : talks (ret tt : M S E unit).
Proof. intros s w Φ HΦ. apply wp_ret. by apply HΦ. Qed.
Lemma talks_svlogg {S E} level msg : talks (svlogg level msg : M S E unit).
Proof. intros s w Φ HΦ. apply wp_svlogg. intros w' Hw. by eapply HΦ, says_logged. Qed.

Lemma quietly_svlogg {S E} b level msg : quietly b (svlogg level msg : M S E unit).
Proof. intros s w. apply wp_svlogg. intros w' Hw. split_and!; [done|by eapply says_calm|done]. Qed.
End logged.

#[export] Hint Resolve says_logged says_calm logged_calm talks_ret talks_svlogg quietly_svlogg : svlopp.

(** * Properties *)

Section properties.
Context {K : Type} `{!Platform K}.
Abbreviation M := (@M K).

(** C40.  After [set_log_level], a sequence of log calls prints exactly the
    messages whose level is at most the chosen one, one line each, in
    their order, and nothing else; the level stays what was set.  The only
    other end is the panic of [eprintln!] at a line that cannot be written,
    after the lines of the messages before it. *)
Theorem log_level_filters {S E} max l (s : S) (w : world K) :
  let '(o, s', w') := (set_log_level max ;;! log_all l : M S E unit) s w in
  s' = s ∧ log_max w' = LogLevel.to_u8 max ∧
  ∃ ts, printed w' = printed w ++ log_lines (LogLevel.to_u8 max) l ts ∧
    match o with
    | Ok _ => length ts = length (filter (λ e, shown (LogLevel.to_u8 max) e.1) l)
    | Gone p => stderr_lost p w'
    | _ => False
    end.
Proof.
  unfold set_log_level, store_log_level, bind at 1.
  apply (log_all_cases l s (World (kst w) (trace w) (LogLevel.to_u8 max))).
Qed.
End properties.

(** A supervisor whose stderr has lost its reader dies of a log message. *)
Example log_dies_without_stderr :
  let k := Sim [] [] 0 "" [] [] 4096 ["stderr"] [] false false in
  (svlogg (E:=unit) LogLevel.Info "x" tt (World k [] 3)).1.1 =
    Gone (ProcPanic "failed printing to stderr").
Proof. reflexivity. Qed.
