(* ===== verification/Cli.v ===== *)
(** cli.rs: the command line. *)
From S2P Require Import Prelude Utils Platform Monad Sim Logging.
Local Open Scope Z_scope.
Local Open Scope svlopp_scope.

Definition DEFAULT_RUN_DIR : string := "/run/svlopp".

Record cli_args : Type := CliArgs {
  config_path : string;
  run_dir : string;
  cli_log_level : log_level
}.

(** The values of [--log-level]. *)
Definition log_level_of_string (s : string) : option log_level :=
  if bool_decide (s = "error") then Some LogLevel.Error
  else if bool_decide (s = "warn") then Some LogLevel.Warn
  else if bool_decide (s = "info") then Some LogLevel.Info
  else if bool_decide (s = "debug") then Some LogLevel.Debug
  else None.

Definition usage_line : string :=
  "usage: svlopp [--run-dir PATH --log-level LEVEL] <config_file>".

(** * Unicode

    An argument of the process is a sequence of bytes; [std::env::args]
    yields a [String], which is valid UTF-8, and panics when it gets to an
    argument that is not. *)

(** One byte of a text in UTF-8: the state is the ranges of the bytes that
    still belong to the current scalar value. *)
Definition utf8_cont : Z * Z := (128, 191).
Definition utf8_lead (b : Z) : option (list (Z * Z)) :=
  if b <? 128 then Some []
  else if (194 <=? b) && (b <=? 223) then Some [utf8_cont]
  else if b =? 224 then Some [(160, 191); utf8_cont]
  else if b =? 237 then Some [(128, 159); utf8_cont]
  else if (225 <=? b) && (b <=? 239) then Some [utf8_cont; utf8_cont]
  else if b =? 240 then Some [(144, 191); utf8_cont; utf8_cont]
  else if (241 <=? b) && (b <=? 243) then Some [utf8_cont; utf8_cont; utf8_cont]
  else if b =? 244 then Some [(128, 143); utf8_cont; utf8_cont]
  else None.
Definition utf8_step (pending : list (Z * Z)) (b : Z) : option (list (Z * Z)) :=
  match pending with
  | [] => utf8_lead b
  | (lo, hi) :: pending' => if (lo <=? b) && (b <=? hi) then Some pending' else None
  end.
Fixpoint utf8_from (pending : list (Z * Z)) (s : string) : bool :=
  match s with
  | "" => bool_decide (pending = [])
  | String c s' =>
      match utf8_step pending (Z.of_N (Ascii.N_of_ascii c)) with
      | Some pending' => utf8_from pending' s'
      | None => false
      end
  end.
Definition is_unicode (s : string) : bool := utf8_from [] s.

(** Plain text, two and four bytes; a stray continuation byte, an overlong
    encoding, a surrogate and an incomplete character. *)
Example is_unicode_cases :
  let bytes l := fold_right (λ n s, String (Ascii.ascii_of_N n) s) "" l in
  is_unicode "sv.toml" = true ∧ is_unicode (bytes [195; 169]%N) = true ∧
  is_unicode (bytes [240; 159; 166; 128]%N) = true ∧ is_unicode (bytes [128]%N) = false ∧
  is_unicode (bytes [192; 175]%N) = false ∧ is_unicode (bytes [237; 160; 128]%N) = false ∧
  is_unicode (bytes [195]%N) = false.
Proof. vm_compute. done. Qed.

(** What [Result::unwrap] says of a string that is not Unicode; the bytes of
    the string, which follow, are left out. *)
Definition not_unicode : string := "called `Result::unwrap()` on an `Err` value".

Section cli.
Context {K : Type} `{!Platform K}.
Abbreviation M := (@M K).

(** [usage]: it does not return. *)
Definition usage {S E A} : M S E A :=
  eprintln usage_line ;;!
  gone (ProcExit 1).

(** [Args::next], when there is an argument: it becomes a [String]. *)
Definition into_string {S E} (arg : string) : M S E string :=
  if is_unicode arg then ret arg else panic not_unicode.

(** The loop of [parse] over the arguments, and what follows it; the
    parameters are its three local variables. *)
Fixpoint parse_args {S E} (args : list string) (cfg dir : option string)
    (level : option log_level) : M S E cli_args :=
  match args with
  | [] =>
      let! config_path := match cfg with Some c => ret c | None => usage end in
      ret (CliArgs config_path (default DEFAULT_RUN_DIR dir) (default LogLevel.Info level))
  | arg :: args' =>
      let! arg := into_string arg in
      if bool_decide (arg = "--run-dir") then
        match args' with
        | v :: args'' =>
            let! v := into_string v in
            parse_args args'' cfg (Some v) level
        | [] => eprintln "--run-dir requires a value" ;;! usage
        end
      else if bool_decide (arg = "--help") then usage
      else if bool_decide (arg = "--log-level") then
        match args' with
        | v :: args'' =>
            let! v := into_string v in
            match log_level_of_string v with
            | Some l => parse_args args'' cfg dir (Some l)
            | None => eprintln ("invalid log level: " +:+ v) ;;! usage
            end
        | [] => eprintln "--log-level requires a value" ;;! usage
        end
      else if String.prefix "-" arg then
        eprintln ("unknown option: " +:+ arg) ;;! usage
      else
        match cfg with
        | Some _ => eprintln ("unexpected argument: " +:+ arg) ;;! usage
        | None => parse_args args' (Some arg) dir level
        end
  end.

(** [parse], on the arguments of the process.  [skip(1)] takes the first
    one, the program, from the iterator as well. *)
Definition parse {S E} (argv : list string) : M S E cli_args :=
  match argv with
  | prog :: args => into_string prog ;;! parse_args args None None None
  | [] => parse_args [] None None None
  end.
End cli.

(** * The accepted command lines *)

(** One option or argument of a command line. *)
Inductive cli_item : Type :=
| RunDir (dir : string)
| Level (level : log_level)
| Config (path : string).

Definition string_of_log_level (l : log_level) : string :=
  match l with
  | LogLevel.Error => "error" | LogLevel.Warn => "warn"
  | LogLevel.Info => "info" | LogLevel.Debug => "debug"
  end.

Definition render_item (i : cli_item) : list string :=
  match i with
  | RunDir d => ["--run-dir"; d]
  | Level l => ["--log-level"; string_of_log_level l]
  | Config p => [p]
  end.
Definition render (items : list cli_item) : list string := concat (render_item <$> items).

(** A path that is not taken for an option. *)
Definition item_ok (i : cli_item) : Prop :=
  match i with Config p => String.prefix "-" p = false | _ => True end.

Definition item_config (i : cli_item) : option string :=
  match i with Config p => Some p | _ => None end.
Definition item_dir (i : cli_item) : option string :=
  match i with RunDir d => Some d | _ => None end.
Definition item_level (i : cli_item) : option log_level :=
  match i with Level l => Some l | _ => None end.

(** The arguments that a command line gives: one configuration file, the
    last directory and the last level. *)
Definition denotes (items : list cli_item) (a : cli_args) : Prop :=
  omap item_config items = [config_path a] ∧
  run_dir a = default DEFAULT_RUN_DIR (last (omap item_dir items)) ∧
  cli_log_level a = default LogLevel.Info (last (omap item_level items)).

Section accepted.
Context {K : Type} `{!Platform K}.
Abbreviation M := (@M K).

Lemma log_level_of_to_string l : log_level_of_string (string_of_log_level l) = Some l.
Proof. by destruct l. Qed.

Lemma log_level_of_string_inv s l : log_level_of_string s = Some l → s = string_of_log_level l.
Proof. unfold log_level_of_string. repeat case_bool_decide; by intros [= <-]. Qed.

(** The last of some elements, or the value before them. *)
Definition last_or {A} (l : list A) (a : option A) : option A :=
  match last l with Some x => Some x | None => a end.

Lemma last_or_cons {A} (x : A) l a : last_or (x :: l) a = last_or l (Some x).
Proof.
  unfold last_or. rewrite last_cons. by destruct (last l).
Qed.

(** What the loop accepts from some values of its variables. *)
Definition accepts (items : list cli_item) (cfg dir : option string)
    (level : option log_level) (a : cli_args) : Prop :=
  option_list cfg ++ omap item_config items = [config_path a] ∧
  run_dir a = default DEFAULT_RUN_DIR (last_or (omap item_dir items) dir) ∧
  cli_log_level a = default LogLevel.Info (last_or (omap item_level items) level).

(** Arguments that [std::env::args] yields. *)
Definition unicode (args : list string) : Prop := Forall (λ arg, is_unicode arg = true) args.

Lemma into_string_unicode {S E A} arg (k : string → M S E A) s w :
  is_unicode arg = true → (let! x := into_string arg in k x) s w = k arg s w.
Proof. unfold into_string, bind. by intros ->. Qed.

Lemma parse_render {S E} items cfg dir level a (s : S) (w : world K) :
  unicode (render items) → Forall item_ok items → accepts items cfg dir level a →
  (parse_args (render items) cfg dir level : M S E cli_args) s w = (Ok a, s, w).
Proof.
  intros Hu Hok. revert cfg dir level. induction Hok as [|i items Hi Hok IH];
    intros cfg dir level (Hc & Hd & Hl); simpl in *.
  - destruct cfg as [c|]; simpl in *; [|done]. destruct a. simpl in *.
    injection Hc as ->. unfold bind, ret. by rewrite Hd, Hl.
  - apply Forall_app in Hu as [Hui Hu]. specialize (IH Hu).
    destruct i as [d|l|p]; simpl in *; repeat (apply Forall_cons in Hui as [? Hui]);
      rewrite into_string_unicode by done; simpl.
    + rewrite into_string_unicode by done.
      apply IH. unfold accepts. by rewrite <- (last_or_cons d _ dir).
    + rewrite into_string_unicode by done.
      rewrite log_level_of_to_string. apply IH. unfold accepts. by rewrite <- (last_or_cons l _ level).
    + rewrite !bool_decide_false by (by intros ->). rewrite Hi.
      destruct cfg as [c|]; [done|]. by apply IH.
Qed.

(** The process exits with code 1, having said why, or ends because it could
    not. *)
Definition refuses {S E A} (m : M S E A) (s : S) (w : world K) : Prop :=
  ∃ p w', m s w = (Gone p, s, w') ∧ (p = ProcExit 1 ∨ stderr_lost p w').

Lemma refuses_eprintln {S E A} msg (m : M S E A) s w :
  (∀ w', refuses m s w') → refuses (eprintln msg ;;! m) s w.
Proof.
  intros Hm. unfold refuses, eprintln, bind, sys. destruct (handle _ (kst w)) as [[[]|e] k].
  - apply Hm.
  - eexists _, _. split; [done|]. right. split; [done|]. exists msg, e. apply last_snoc.
Qed.
Lemma usage_refuses {S E A} (s : S) (w : world K) : refuses (usage : M S E A) s w.
Proof. apply refuses_eprintln. intros w'. eexists _, w'. split; [done|by left]. Qed.
Lemma eprintln_usage_refuses {S E A} msg (s : S) (w : world K) :
  refuses (eprintln msg ;;! usage : M S E A) s w.
Proof. apply refuses_eprintln. intros w'. apply usage_refuses. Qed.

(** The panic of [std::env::args]: before it printed anything, [m] got to an
    argument that is not Unicode. *)
Definition stops_at {S E A} (args : list string) (m : M S E A) (s : S) (w : world K) : Prop :=
  m s w = (Panic not_unicode, s, w) ∧
  ∃ before bad after, args = before ++ bad :: after ∧ unicode before ∧ is_unicode bad = false.

Lemma into_string_cases {S E A} arg (k : string → M S E A) s w :
  is_unicode arg = true ∧ (let! x := into_string arg in k x) s w = k arg s w ∨
  is_unicode arg = false ∧ (let! x := into_string arg in k x) s w = (Panic not_unicode, s, w).
Proof. unfold into_string, bind. destruct (is_unicode arg); auto. Qed.

Lemma stops_here {S E A} before bad after (m : M S E A) s w :
  unicode before → is_unicode bad = false → m s w = (Panic not_unicode, s, w) →
  stops_at (before ++ bad :: after) m s w.
Proof. intros ???. split; [done|]. by exists before, bad, after. Qed.

Lemma stops_at_cons {S E A} arg args (m : M S E A) s w :
  is_unicode arg = true → stops_at args m s w → stops_at (arg :: args) m s w.
Proof.
  intros Ha (Hm & before & bad & after & -> & Hu & Hb). split; [done|].
  exists (arg :: before), bad, after. split_and!; [done|by constructor|done].
Qed.

(** The three ends of the loop. *)
Definition parses {S E} args cfg dir level (m : M S E cli_args) (s : S) (w : world K) : Prop :=
  (∃ items a, args = render items ∧ unicode args ∧ Forall item_ok items ∧
     accepts items cfg dir level a ∧ m s w = (Ok a, s, w)) ∨
  refuses m s w ∨ stops_at args m s w.

Lemma parses_refused {S E} args cfg dir level (m m' : M S E cli_args) s w :
  m s w = m' s w → refuses m' s w → parses args cfg dir level m s w.
Proof. unfold parses, refuses. intros ->. auto. Qed.

(** One item of a command line, and the rest. *)
Lemma parses_item {S E} i args cfg dir level cfg' dir' level' (m m' : M S E cli_args) s w :
  item_ok i → unicode (render_item i) → m s w = m' s w →
  (∀ items a, accepts items cfg' dir' level' a → accepts (i :: items) cfg dir level a) →
  parses args cfg' dir' level' m' s w → parses (render_item i ++ args) cfg dir level m s w.
Proof.
  unfold parses, refuses, stops_at. intros Hi Hui -> Hacc
    [(items & a & -> & Hu & Hok & Ha & ->)|[?|(-> & before & bad & after & -> & Hu & Hb)]].
  - left. exists (i :: items), a. split_and!; [done|by apply Forall_app|by constructor|auto|done].
  - by right; left.
  - right; right. split; [done|]. exists (render_item i ++ before), bad, after.
    split_and!; [by rewrite <- app_assoc|by apply Forall_app|done].
Qed.

(** Every command line is accepted or refused, or not text. *)
Lemma parse_args_cases {S E} args cfg dir level (s : S) (w : world K) :
  parses args cfg dir level (parse_args args cfg dir level : M S E cli_args) s w.
Proof.
  remember (length args) as n eqn:Hn. revert args cfg dir level Hn.
  induction (lt_wf n) as [n _ IH]; intros [|arg args] cfg dir level ->; cbn [parse_args length] in *.
  { destruct cfg as [c|]; [left|right; left].
    - exists [], (CliArgs c (default DEFAULT_RUN_DIR dir) (default LogLevel.Info level)).
      split_and!; [done|by constructor|done..].
    - destruct (usage_refuses (E:=E) (A:=string) s w) as (p & w' & Hw & Hp).
      exists p, w'. unfold bind. by rewrite Hw. }
  match goal with |- parses _ _ _ _ (bind _ ?k) _ _ =>
    destruct (into_string_cases arg k s w) as [[Ha Hm]|[Ha Hm]] end;
    [|right; right; apply (stops_here []); [constructor|done..]].
  cbv beta in Hm. case_bool_decide as H1.
  { subst. destruct args as [|v args]; [eapply (parses_refused _ _ _ _ _ _ _ _ Hm), eprintln_usage_refuses|].
    match type of Hm with _ = (bind _ ?k) _ _ =>
      destruct (into_string_cases v k s w) as [[Hv Hm']|[Hv Hm']] end; rewrite Hm' in Hm; cbv beta in Hm;
      [|right; right; apply (stops_here ["--run-dir"]); [by repeat constructor|done..]].
    apply (parses_item (RunDir v) args cfg dir level cfg (Some v) level _ _ _ _ I
      ltac:(by repeat constructor) Hm); [|apply (IH (length args)); simpl; lia || done].
    intros items a (Hc & Hd & Hl). split_and!; [done| |done]. by rewrite Hd, <- (last_or_cons v _ dir). }
  case_bool_decide as H2; [eapply (parses_refused _ _ _ _ _ _ _ _ Hm), usage_refuses|].
  case_bool_decide as H3.
  { subst. destruct args as [|v args]; [eapply (parses_refused _ _ _ _ _ _ _ _ Hm), eprintln_usage_refuses|].
    match type of Hm with _ = (bind _ ?k) _ _ =>
      destruct (into_string_cases v k s w) as [[Hv Hm']|[Hv Hm']] end; rewrite Hm' in Hm; cbv beta in Hm;
      [|right; right; apply (stops_here ["--log-level"]); [by repeat constructor|done..]].
    destruct (log_level_of_string v) as [l|] eqn:Hl; [|eapply (parses_refused _ _ _ _ _ _ _ _ Hm), eprintln_usage_refuses].
    apply log_level_of_string_inv in Hl as ->.
    apply (parses_item (Level l) args cfg dir level cfg dir (Some l) _ _ _ _ I
      ltac:(by repeat constructor) Hm); [|apply (IH (length args)); simpl; lia || done].
    intros items a (Hc & Hd & Hl). split_and!; [done|done|]. by rewrite Hl, <- (last_or_cons l _ level). }
  destruct (String.prefix "-" arg) eqn:Hpre; [eapply (parses_refused _ _ _ _ _ _ _ _ Hm), eprintln_usage_refuses|].
  destruct cfg as [c|]; [eapply (parses_refused _ _ _ _ _ _ _ _ Hm), eprintln_usage_refuses|].
  apply (parses_item (Config arg) args None dir level (Some arg) dir level _ _ _ _ Hpre
    ltac:(by repeat constructor) Hm); [done|]. by apply (IH (length args)); simpl; lia || done.
Qed.
End accepted.

(** * Properties *)

Section properties.
Context {K : Type} `{!Platform K}.
Abbreviation M := (@M K).

Lemma accepts_denotes items a : accepts items None None None a ↔ denotes items a.
Proof.
  unfold accepts, denotes, last_or.
  by destruct (last (omap item_dir items)), (last (omap item_level items)).
Qed.

(** The three ends of [parse]. *)
Lemma parse_cases {S E} argv (s : S) (w : world K) :
  (∃ prog items a, argv = prog :: render items ∧ unicode argv ∧ Forall item_ok items ∧
     denotes items a ∧ (parse argv : M S E cli_args) s w = (Ok a, s, w)) ∨
  refuses (parse argv : M S E cli_args) s w ∨
  stops_at argv (parse argv : M S E cli_args) s w.
Proof.
  destruct argv as [|prog args]; simpl.
  { right. left. destruct (usage_refuses (E:=E) (A:=string) s w) as (p & w' & Hw & Hp).
    exists p, w'. unfold bind. by rewrite Hw. }
  destruct (into_string_cases prog (λ _, parse_args args None None None : M S E cli_args) s w)
    as [[Hprog Hm]|[Hprog Hm]]; [|right; right; apply (stops_here []); [constructor|done..]].
  unfold refuses, stops_at. rewrite Hm.
  destruct (parse_args_cases (S:=S) (E:=E) args None None None s w)
    as [(items & a & -> & Hu & Hok & Ha%accepts_denotes & Hp)|[Hr|Hs]]; [left|by right; left|].
  - exists prog, items, a. split_and!; [done|by constructor|done..].
  - right. right. rewrite <- Hm. apply (stops_at_cons prog args); [done|]. destruct Hs as [Hs ?].
    split; [by rewrite Hm|done].
Qed.
(** C38.  Every well-formed command line is understood: with options and
    the configuration path in any order and options repeated at will, the
    arguments are the path, the last directory and the last level, with
    the defaults for the options left out, and nothing is printed.  The
    arguments, the name of the program included, have to be Unicode. *)
Theorem parse_accepts {S E} prog items a (s : S) (w : world K) :
  unicode (prog :: render items) → Forall item_ok items → denotes items a →
  (parse (prog :: render items) : M S E cli_args) s w = (Ok a, s, w).
Proof.
  intros [Hprog Hu]%Forall_cons Hok Ha%accepts_denotes. unfold parse.
  rewrite into_string_unicode by done. by apply parse_render.
Qed.

(** C39.  [parse] accepts nothing else, whatever the arguments are, of which
    there may be none.  It returns the arguments of a well-formed command
    line, which the vector spells in Unicode; or the process exits with code
    1, or ends in the panic of [eprintln!] when the reason cannot be printed;
    or it panics, without having printed anything, because
    [std::env::args] got to an argument that is not Unicode. *)
Theorem parse_total {S E} argv (s : S) (w : world K) :
  (∃ prog items a, argv = prog :: render items ∧ unicode argv ∧ Forall item_ok items ∧
     denotes items a ∧ (parse argv : M S E cli_args) s w = (Ok a, s, w)) ∨
  refuses (parse argv : M S E cli_args) s w ∨
  stops_at argv (parse argv : M S E cli_args) s w.
Proof. apply parse_cases. Qed.
End properties.

Lemma parse_accepts_witness :
  let items := [Level LogLevel.Warn; Config "sv.toml"; Level LogLevel.Debug] in
  (parse ("svlopp" :: render items) : @M sim unit unit cli_args) tt (World sim_init [] 3) =
    (Ok (CliArgs "sv.toml" "/run/svlopp" LogLevel.Debug), tt, World sim_init [] 3).
Proof.
  apply (parse_accepts "svlopp"); [repeat constructor|repeat constructor|split_and!; reflexivity].
Defined.
