(* ===== verification/Signalfd.v ===== *)
(** signalfd.rs and timerfd.rs: signal sets, the signal mask, the signalfd
    and its batched reads, the one-second periodic timer. *)
From S2P Require Import Prelude Utils Bytes Data Platform Monad Sim.
Local Open Scope Z_scope.
Local Open Scope svlopp_scope.

(** [SignalfdFlags]: the bits [SFD_NONBLOCK] and [SFD_CLOEXEC]. *)
Definition SFD_NONBLOCK : Z := 2048.
Definition SFD_CLOEXEC : Z := 524288.

(** [size_of::<SignalfdSiginfo>()], the size of [signalfd_siginfo]. *)
Definition siginfo_size : nat := 128.

(** A [SignalfdSiginfo] is its bytes; [SignalfdSiginfo::empty] is zeroed. *)
Definition siginfo : Type := list Z.
Definition siginfo_empty : siginfo := replicate siginfo_size 0.

(** [SignalfdSiginfo::signal]: the leading [u32] field [ssi_signo]. *)
Definition siginfo_signal (info : siginfo) : Z := le_decode (take 4 info).
(** [code], [pid] and [uid]: the fields [ssi_code] ([i32]), [ssi_pid] and
    [ssi_uid] ([u32]) of [signalfd_siginfo]. *)
Definition siginfo_code (info : siginfo) : Z := cast_signed (le_decode (take 4 (drop 8 info))).
Definition siginfo_pid (info : siginfo) : Z := le_decode (take 4 (drop 12 info)).
Definition siginfo_uid (info : siginfo) : Z := le_decode (take 4 (drop 16 info)).

(** [[SignalfdSiginfo::empty(); n]], as the bytes it is read into. *)
Definition siginfo_buffer (n : nat) : list Z := concat (replicate n siginfo_empty).

(** [&buf[..n]]. *)
Definition siginfos (n : nat) (buf : list Z) : list siginfo :=
  (λ i, take siginfo_size (drop (i * siginfo_size) buf)) <$> seq 0 n.

(** A [SigSet] is its raw [sigset_t]. *)
Definition sig_set : Type := Z.

Section signalfd.
Context {K : Type} `{!Platform K}.
Abbreviation M := (@M K).

(** [SigSet::empty], [SigSet::current]. *)
Definition sigset_empty {S} : M S io_error sig_set :=
  let! (r, errno, raw) := sys SSigemptyset in
  lift (map_err OsError (cvt r errno)) ;;! ret raw.
Definition sigset_current {S} : M S io_error sig_set :=
  let! (r, errno, raw) := sys (SSigprocmask SIG_SETMASK None) in
  lift (map_err OsError (cvt r errno)) ;;! ret raw.
(** [SigSet::add], on the set. *)
Definition sigset_add (signal : Z) : M sig_set io_error unit :=
  let! raw := get in
  let! (r, errno, raw') := sys (SSigaddset raw signal) in
  lift (map_err OsError (cvt r errno)) ;;! modify (λ _, raw').

Definition block_thread_signals {S} (sigset : Z) : M S io_error unit :=
  let! (r, errno, _) := sys (SSigprocmask SIG_BLOCK (Some sigset)) in
  lift (map_err OsError (cvt r errno)) ;;! ret tt.
Definition set_thread_signal_mask {S} (sigset : Z) : M S io_error unit :=
  let! (r, errno, _) := sys (SSigprocmask SIG_SETMASK (Some sigset)) in
  lift (map_err OsError (cvt r errno)) ;;! ret tt.

(** [signalfd(sigset, flags)]. *)
Definition signalfd {S} (sigset flags : Z) : M S io_error Z :=
  sys_cvt (SSignalfd sigset flags).

(** [read_signalfd_batch(fd, buf)]: the state is the buffer. *)
Definition read_signalfd_batch (fd : Z) : M (list Z) io_error nat :=
  let! buf := get in
  if bool_decide (length buf = 0%nat) then ret 0%nat
  else
    let! r := sys (SRead fd (length buf)) in
    match r with
    | ROk bs =>
        modify (overwrite bs) ;;!
        if bool_decide (length bs = 0%nat) then ret 0%nat
        else if bool_decide (length bs `mod` siginfo_size = 0)%nat then
          ret (length bs `div` siginfo_size)%nat
        else throw (OsError EIO)
    | RErr e =>
        if bool_decide (e = EAGAIN) then ret 0%nat else throw (OsError e)
    end.

(** [create_timerfd_1s_periodic] and [read_timerfd]. *)
Definition create_timerfd_1s_periodic {S} : M S io_error Z :=
  let! fd := sys_try (STimerfdCreate Monotonic [CLOEXEC; NONBLOCK]) in
  sys_try (STimerfdSettime fd 1 0 1 0) ;;!
  ret fd.
Definition read_timerfd {S} (fd : Z) : M S io_error Z :=
  let! buf := sys_try (SRead fd 8) in
  if bool_decide (length buf = 8%nat) then ret (le_decode buf)
  else throw (OsError EIO).
End signalfd.

(** * The items of a batch *)

Lemma concat_siginfos n buf : concat (siginfos n buf) = take (n * siginfo_size) buf.
Proof.
  unfold siginfos. induction n as [|n IH]; [done|].
  rewrite seq_S, fmap_app, concat_app, IH. simpl fmap. simpl concat. rewrite app_nil_r.
  rewrite take_take_drop. f_equal. lia.
Qed.

Lemma length_siginfo_buffer n : length (siginfo_buffer n) = (n * siginfo_size)%nat.
Proof.
  unfold siginfo_buffer. induction n as [|n IH]; [done|].
  change (concat (replicate (S n) siginfo_empty))
    with (siginfo_empty ++ concat (replicate n siginfo_empty)).
  rewrite length_app, IH. unfold siginfo_empty. by rewrite length_replicate.
Qed.

(** A buffer of [n] items. *)
Definition buffer_wf (n : nat) (buf : list Z) : Prop :=
  length buf = (n * siginfo_size)%nat ∧ Forall is_byte buf.

Lemma siginfo_buffer_wf n : buffer_wf n (siginfo_buffer n).
Proof.
  split; [apply length_siginfo_buffer|]. apply Forall_concat, Forall_replicate.
  by apply Forall_replicate.
Qed.

Section batch.
Context {K : Type} `{!Platform K} `{!PlatformLaws K}.

(** One read into a buffer of [len] items: the items returned are exactly
    the bytes read; a size that is no multiple of an item's is an error,
    and nothing to read is an empty batch. *)
Definition batch_post (fd : Z) (len : nat) (buf : list Z) (w : world K)
    (o : outcome io_error nat) (buf' : list Z) (w' : world K) : Prop :=
  world_calm w w' ∧ length buf' = (len * siginfo_size)%nat ∧
  ∃ r, trace w' = trace w ++ [Ev (SRead fd (length buf)) r] ∧
    match r with
    | ROk bs =>
        match o with
        | Ok n => (n ≤ len)%nat ∧ concat (siginfos n buf') = bs
        | Err e => e = OsError EIO ∧ (length bs `mod` siginfo_size ≠ 0)%nat
        | _ => False
        end
    | RErr e => buf' = buf ∧ o = if bool_decide (e = EAGAIN) then Ok 0%nat else Err (OsError e)
    end.

Lemma wp_read_signalfd_batch fd len buf (w : world K) :
  (0 < len)%nat → length buf = (len * siginfo_size)%nat →
  wp (read_signalfd_batch fd) (batch_post fd len buf w) buf w.
Proof.
  intros Hlen Hbuf. unfold read_signalfd_batch, batch_post. wp_steps.
  rewrite bool_decide_false by (unfold siginfo_size in *; lia).
  wp_step. apply wp_sys. intros r k Hk.
  pose proof (world_calm_sys (SRead fd (length buf)) w _ _ eq_refl Hk) as Hw.
  wp_step. destruct r as [bs|e].
  - apply read_fits in Hk as [Hfits _]. wp_steps.
    assert (Hl : length (overwrite bs buf) = (len * siginfo_size)%nat)
      by by rewrite length_overwrite.
    case_bool_decide as H0; [|case_bool_decide as Hm]; wp_step;
      (split_and!; [done|done|]); eexists; (split; [reflexivity|]); [..|done].
    + destruct bs; [|done]. split; [lia|done].
    + assert (Hb : (length bs = length bs `div` siginfo_size * siginfo_size)%nat).
      { pose proof (Nat.div_mod_eq (length bs) siginfo_size). lia. }
      split; [apply Nat.Div0.div_le_upper_bound; rewrite Hbuf in Hfits; lia|].
      rewrite concat_siginfos, <- Hb. rewrite take_overwrite by done. by apply take_ge.
  - case_bool_decide as He; wp_step; (split_and!; [done|done|]); eexists;
      (split; [reflexivity|]); simpl; by case_bool_decide.
Qed.

(** Whatever is read, the buffer holds bytes. *)
Lemma wp_batch_bytes fd buf (w : world K) :
  Forall is_byte buf → wp (read_signalfd_batch fd) (λ _ buf' _, Forall is_byte buf') buf w.
Proof.
  intros Hbuf. unfold read_signalfd_batch. wp_steps. case_bool_decide; [by wp_step|].
  wp_step. apply wp_sys. intros r k Hk. wp_step. destruct r as [bs|e].
  - apply read_fits in Hk as [_ Hbs]. wp_steps.
    assert (Forall is_byte (overwrite bs buf)) by (apply Forall_app; split; [done|by apply Forall_drop]).
    by repeat case_bool_decide; wp_step.
  - by case_bool_decide; wp_step.
Qed.
End batch.

(** * Properties *)

Section properties.
Context {K : Type} `{!Platform K} `{!PlatformLaws K}.

(** C33.  A batch read into a buffer of [len] items makes one read and
    returns at most [len], so that slicing the buffer at the result cannot
    panic; the items up to the result are exactly the bytes that were
    read; a size that is no multiple of an item's size is [EIO]; a read
    that would block is an empty batch, and any other error is returned. *)
Theorem read_signalfd_batch_spec fd len buf (w : world K) :
  (0 < len)%nat → length buf = (len * siginfo_size)%nat →
  wp (read_signalfd_batch fd) (λ o buf' w', length buf' = length buf ∧
    ∃ r, trace w' = trace w ++ [Ev (SRead fd (length buf)) r] ∧
      match r with
      | ROk bs =>
          match o with
          | Ok n => (n ≤ len)%nat ∧ concat (siginfos n buf') = bs
          | Err e => e = OsError EIO ∧ (length bs `mod` siginfo_size ≠ 0)%nat
          | _ => False
          end
      | RErr e => buf' = buf ∧
          o = if bool_decide (e = EAGAIN) then Ok 0%nat else Err (OsError e)
      end) buf w.
Proof.
  intros Hlen Hbuf. eapply wp_mono; [by eapply wp_read_signalfd_batch|].
  intros o buf' w' (_ & Hl & Hr). split; [by rewrite Hl, Hbuf|done].
Qed.
End properties.

Lemma read_signalfd_batch_spec_witness :
  let k := sim_set_reads [ROk (replicate 256 17)] sim_init in
  let '(o, buf, _) := read_signalfd_batch 11 (siginfo_buffer 16) (World k [] 3) in
  o = Ok 2%nat ∧ concat (siginfos 2 buf) = replicate 256 17 ∧
  wp (read_signalfd_batch 11) (λ _ buf' _, length buf' = 2048%nat) (siginfo_buffer 16) (World k [] 3).
Proof.
  split_and!; [vm_compute; reflexivity..|].
  eapply wp_mono; [apply (read_signalfd_batch_spec 11 16); [lia|reflexivity]|].
  intros o buf' w' [Hl _]. exact Hl.
Defined.
