(* ===== verification/Control.v ===== *)
(** control.rs: the control FIFO and its fixed-size command frames. *)
From S2P Require Import Prelude Utils Bytes Data Platform Monad Sim.
Local Open Scope Z_scope.
Local Open Scope svlopp_scope.

Definition OP_STOP : Z := 65.
Definition OP_START : Z := 66.
Definition OP_RESTART : Z := 67.
Definition WIRE_COMMAND_SIZE : nat := 9.

(** * Errors *)

Inductive control_protocol_error : Type :=
| InvalidOp (op : Z)
| PartialFrame (n : nat).

#[global] Instance control_protocol_error_eq_dec : EqDecision control_protocol_error.
Proof. solve_decision. Defined.

(** Two lowercase hexadecimal digits: the format [{:02x}] of a byte. *)
Definition hex_digit (n : Z) : string :=
  nth (Z.to_nat n) ["0"; "1"; "2"; "3"; "4"; "5"; "6"; "7";
                    "8"; "9"; "a"; "b"; "c"; "d"; "e"; "f"] "".
Definition hex_byte (b : Z) : string := hex_digit (b / 16) +:+ hex_digit (b `mod` 16).

#[global] Instance display_control_protocol_error : Display control_protocol_error := λ e,
  match e with
  | InvalidOp op => "invalid opcode: 0x" +:+ hex_byte op
  | PartialFrame n => "partial control frame (" +:+ display (Z.of_nat n) +:+ " bytes)"
  end.

Inductive control_error : Type :=
| ControlIo (e : io_error)
| InvalidCommand (e : control_protocol_error).

(** * Operations and commands *)

Module ControlOp.
Inductive control_op : Type := Stop | Start | Restart.

#[global] Instance control_op_eq_dec : EqDecision control_op.
Proof. solve_decision. Defined.

(** The [repr(u8)] discriminants. *)
Definition to_byte (op : control_op) : Z :=
  match op with Stop => OP_STOP | Start => OP_START | Restart => OP_RESTART end.

#[global] Instance display_control_op : Display control_op := λ op,
  match op with Stop => "stop" | Start => "start" | Restart => "restart" end.
End ControlOp.
Abbreviation control_op := ControlOp.control_op.

Record control_command : Type := ControlCommand { cmd_op : control_op; cmd_service_id : Z }.

#[global] Instance control_command_eq_dec : EqDecision control_command.
Proof. solve_decision. Defined.

(** The match on the opcode byte in [read_control_command]. *)
Definition control_op_of_byte (b : Z) : result control_protocol_error control_op :=
  if bool_decide (b = OP_STOP) then ROk ControlOp.Stop
  else if bool_decide (b = OP_START) then ROk ControlOp.Start
  else if bool_decide (b = OP_RESTART) then ROk ControlOp.Restart
  else RErr (InvalidOp b).

(** The body of the full-frame arm of [read_control_command]: the opcode is
    [buf[0]], the service id the little-endian integer of [buf[1..9]]. *)
Definition parse_frame (buf : list Z) : result control_protocol_error control_command :=
  match control_op_of_byte (nth 0 buf 0) with
  | RErr e => RErr e
  | ROk op => ROk (ControlCommand op (le_decode (take 8 (drop 1 buf))))
  end.

Section control.
Context {K : Type} `{!Platform K}.
Abbreviation M := (@M K).

(** [create_control_fifo]: the read end, then the write end that is kept
    open; an existing FIFO is reused. *)
Definition create_control_fifo {S} (path : string) : M S io_error (Z * Z) :=
  let! r := sys (SMkfifo path 384) in
  match r with
  | ROk _ => ret tt
  | RErr e => if bool_decide (e = EEXIST) then ret tt else throw (OsError e)
  end ;;!
  let! read_end_fd := sys_try (SOpen path [RDONLY; CLOEXEC; NONBLOCK] 0) in
  let! write_end_fd := sys_try (SOpen path [WRONLY; CLOEXEC; NONBLOCK] 0) in
  ret (read_end_fd, write_end_fd).

(** [read_control_command]: one read of one frame. *)
Definition read_control_command {S} (fd : Z) : M S control_error (option control_command) :=
  let! r := sys (SRead fd WIRE_COMMAND_SIZE) in
  match r with
  | ROk buf =>
      let n := length buf in
      if bool_decide (n = WIRE_COMMAND_SIZE) then
        let! cmd := lift (map_err InvalidCommand (parse_frame buf)) in
        ret (Some cmd)
      else if bool_decide (n = 0%nat) then ret None
      else throw (InvalidCommand (PartialFrame n))
  | RErr e =>
      if bool_decide (e = EAGAIN) then ret None else throw (ControlIo (OsError e))
  end.
End control.

(** * The wire format

    The frame a writer sends, from the documentation of the control FIFO: the
    opcode, then the id on eight bytes, least significant first. *)

Definition encode_command (cmd : control_command) : list Z :=
  ControlOp.to_byte (cmd_op cmd) :: le_encode 8 (cmd_service_id cmd).

Definition command_wf (cmd : control_command) : Prop := is_u64 (cmd_service_id cmd).

Lemma control_op_of_to_byte op : control_op_of_byte (ControlOp.to_byte op) = ROk op.
Proof. by destruct op. Qed.

Lemma control_op_of_byte_inv b op : control_op_of_byte b = ROk op → b = ControlOp.to_byte op.
Proof. unfold control_op_of_byte. repeat case_bool_decide; by intros [= <-]. Qed.

Lemma length_encode_command cmd : length (encode_command cmd) = WIRE_COMMAND_SIZE.
Proof. apply (f_equal S), length_le_encode. Qed.

Lemma parse_frame_encode cmd :
  command_wf cmd → parse_frame (encode_command cmd) = ROk cmd.
Proof.
  destruct cmd as [op id]. unfold command_wf, is_u64, u64_max. cbn [cmd_service_id]. intros Hid.
  change (encode_command (ControlCommand op id))
    with (ControlOp.to_byte op :: le_encode 8 id).
  unfold parse_frame. change (nth 0 (ControlOp.to_byte op :: le_encode 8 id) 0) with (ControlOp.to_byte op).
  change (drop 1 (ControlOp.to_byte op :: le_encode 8 id)) with (le_encode 8 id).
  assert (Htake : take 8 (le_encode 8 id) = le_encode 8 id)
    by (apply take_ge; rewrite length_le_encode; done).
  rewrite control_op_of_to_byte, Htake.
  rewrite le_decode_encode; [done|]. change (Z.of_nat 8) with 8. lia.
Qed.

(** The converse: a full frame that parses is the frame of its command, and
    the id is a [u64]. *)
Lemma encode_parse_frame buf cmd :
  length buf = WIRE_COMMAND_SIZE → Forall is_byte buf → parse_frame buf = ROk cmd →
  encode_command cmd = buf ∧ command_wf cmd.
Proof.
  intros Hlen Hbytes. destruct buf as [|b bs]; [done|].
  apply Forall_cons in Hbytes as [_ Hbs]. injection Hlen as Hlen.
  unfold parse_frame. change (nth 0 (b :: bs) 0) with b. change (drop 1 (b :: bs)) with bs.
  rewrite take_ge by lia.
  destruct (control_op_of_byte b) as [op|] eqn:Hop; intros [= <-].
  apply control_op_of_byte_inv in Hop as ->.
  unfold encode_command, command_wf, is_u64, u64_max. simpl. split.
  - f_equal. rewrite <- Hlen. by apply le_encode_decode.
  - pose proof (le_decode_bounds _ Hbs) as Hb. rewrite Hlen in Hb.
    change (Z.of_nat 8) with 8 in Hb. lia.
Qed.

Section reading.
Context {K : Type} `{!Platform K} `{!PlatformLaws K}.

(** What [read_control_command] returns, by what the read returned. *)
Definition command_of_read (r : result Z (list Z)) :
    outcome control_error (option control_command) :=
  match r with
  | RErr e => if bool_decide (e = EAGAIN) then Ok None else Err (ControlIo (OsError e))
  | ROk [] => Ok None
  | ROk (b :: bs) =>
      if bool_decide (length (b :: bs) = WIRE_COMMAND_SIZE) then
        match parse_frame (b :: bs) with
        | ROk cmd => Ok (Some cmd)
        | RErr e => Err (InvalidCommand e)
        end
      else Err (InvalidCommand (PartialFrame (length (b :: bs))))
  end.

Lemma wp_read_control_command {S} fd (s : S) (w : world K) :
  wp (read_control_command fd) (λ o s' w', s' = s ∧ world_calm w w' ∧
    ∃ r, trace w' = trace w ++ [Ev (SRead fd WIRE_COMMAND_SIZE) r] ∧
      o = command_of_read r ∧
      (∀ bs, r = ROk bs → (length bs ≤ WIRE_COMMAND_SIZE)%nat ∧ Forall is_byte bs)) s w.
Proof.
  unfold read_control_command. wp_step. apply wp_sys. intros r k Hk. wp_step.
  pose proof (world_calm_sys (SRead fd WIRE_COMMAND_SIZE) w r k eq_refl Hk) as Hw.
  assert (Hfits : ∀ bs, r = ROk bs →
    (length bs ≤ WIRE_COMMAND_SIZE)%nat ∧ Forall is_byte bs).
  { intros bs ->. by eapply read_fits. }
  destruct r as [[|b bs]|e]; cbv zeta.
  - rewrite bool_decide_false, bool_decide_true by done. wp_step. eauto 10.
  - rewrite (bool_decide_false (length (b :: bs) = 0%nat)) by done.
    case_bool_decide as Hn.
    + wp_step. apply wp_lift; intros x Hx; simpl; wp_steps; split_and!; try done;
        eexists; (split; [done|]); (split; [|done]); unfold command_of_read;
        rewrite bool_decide_true by done; destruct (parse_frame (b :: bs)); by inv Hx.
    + wp_step. split_and!; [done..|]. eexists; split; [done|]. split; [|done].
      unfold command_of_read. by rewrite bool_decide_false.
  - case_bool_decide as He; wp_step; (split_and!; [done..|]); eexists;
      (split; [done|]); (split; [|done]); simpl; by case_bool_decide.
Qed.

(** C31.  Reading the FIFO when a frame is available yields exactly the
    command that was written: the read of an encoded command returns it,
    and a command is only ever returned for its own frame.  A read of any
    other length, or a frame with another first byte, is reported as a
    protocol error and no command. *)
Theorem read_control_command_correct {S} fd (s : S) (w : world K) :
  wp (read_control_command fd) (λ o s' w', s' = s ∧
    ∃ r, trace w' = trace w ++ [Ev (SRead fd WIRE_COMMAND_SIZE) r] ∧
      (∀ cmd, command_wf cmd →
         o = Ok (Some cmd) ↔ r = ROk (encode_command cmd)) ∧
      (∀ buf, r = ROk buf → buf ≠ [] → length buf ≠ WIRE_COMMAND_SIZE →
         o = Err (InvalidCommand (PartialFrame (length buf)))) ∧
      (∀ b bs, r = ROk (b :: bs) → length (b :: bs) = WIRE_COMMAND_SIZE →
         b ∉ [OP_STOP; OP_START; OP_RESTART] →
         o = Err (InvalidCommand (InvalidOp b)))) s w.
Proof.
  eapply wp_mono; [apply wp_read_control_command|].
  intros o s' w' (-> & _ & r & Htr & -> & Hfits). split; [done|]. exists r.
  split; [done|]. split_and!.
  - intros cmd Hcmd. split.
    + destruct r as [[|b bs]|e]; simpl; try (repeat case_bool_decide; done).
      case_bool_decide as Hlen; [|done]. destruct (Hfits _ eq_refl) as [_ Hb].
      destruct (parse_frame (b :: bs)) eqn:Hp; intros [= ->].
      by apply encode_parse_frame in Hp as [<- _].
    + intros ->. pose proof (length_encode_command cmd) as Hlen.
      pose proof (parse_frame_encode cmd Hcmd) as Hp.
      destruct (encode_command cmd) as [|b bs]; [done|]. unfold command_of_read.
      by rewrite bool_decide_true, Hp.
  - intros [|b bs] -> Hne Hlen; [done|]. unfold command_of_read. by rewrite bool_decide_false.
  - intros b bs -> Hlen Hop. unfold command_of_read, parse_frame, control_op_of_byte.
    cbn [nth]. rewrite bool_decide_true by done.
    rewrite !(bool_decide_false (b = _)) by (intros ->; set_solver). done.
Qed.
End reading.

(** * The wire format, as a property *)

(** C30.  Every command survives the wire: parsing the frame of a command
    gives the command back, for every operation and every 64-bit id; and a
    frame of nine bytes that parses is the frame of the command it gives. *)
Theorem parse_encode_command cmd buf :
  command_wf cmd → length buf = WIRE_COMMAND_SIZE → Forall is_byte buf →
  parse_frame buf = ROk cmd ↔ buf = encode_command cmd.
Proof.
  intros Hcmd Hlen Hbytes. split.
  - intros Hp. by destruct (encode_parse_frame _ _ Hlen Hbytes Hp) as [-> _].
  - intros ->. by apply parse_frame_encode.
Qed.

Lemma parse_encode_command_witness :
  parse_frame [67; 1; 2; 0; 0; 0; 0; 0; 0] = ROk (ControlCommand ControlOp.Restart 513).
Proof.
  apply parse_encode_command; [done|done| |done].
  repeat constructor; unfold is_byte; lia.
Defined.

(** A [Stop] request for service 5 arrives. *)
Lemma read_control_command_correct_witness :
  let cmd := ControlCommand ControlOp.Stop 5 in
  let w := World (sim_set_reads [ROk (encode_command cmd)] sim_init) [] 3 in
  (read_control_command 10 tt w).1 = (Ok (Some cmd), tt) ∧
  wp (read_control_command 10) (λ o s' w', s' = tt ∧
    ∃ r, trace w' = [Ev (SRead 10 9) r] ∧ (o = Ok (Some cmd) ↔ r = ROk (encode_command cmd))) tt w.
Proof.
  split; [vm_compute; reflexivity|].
  eapply wp_mono; [apply (read_control_command_correct 10)|].
  intros o s' w' (-> & r & Htr & Hr & _). split; [done|]. exists r. split; [done|].
  apply Hr. by unfold command_wf, is_u64, u64_max; simpl.
Defined.
