(* ===== verification/Service.v ===== *)
(** The operations of service.rs on one [Service]: building and updating it,
    starting it (both arms of the fork), stopping it and killing its
    process; what each does on every path. *)
From S2P Require Import Prelude Utils Bytes Data Platform Monad Sim Logging.
From S2P Require Import Signalfd.
Local Open Scope Z_scope.
Local Open Scope svlopp_scope.

(** How a child process follows [child_exec]: the calls it makes, as data. *)
Inductive call : Type :=
| Call {A : Type} (op : sysop A).
Definition call_of (ev : event) : call := match ev with Ev op _ => Call op end.
Definition calls (evs : list event) : list call := call_of <$> evs.

(** The statuses that [wait] delivered, in order. *)
Definition wait_of (ev : event) : option (Z * Z) :=
  match ev with
  | Ev op r =>
      match op in sysop A return A → option (Z * Z) with
      | SWait => λ r, match r with ROk x => x | RErr _ => None end
      | _ => λ _, None
      end r
  end.
Definition waits (evs : list event) : list (Z * Z) := omap wait_of evs.

Section service.
Context {K : Type} `{!Platform K}.
Abbreviation M := (@M K).

(** [ExitReason::from_wait_status]. *)
Definition from_wait_status {S E} (status : Z) : M S E (option exit_reason) :=
  if ws_exited status then
    let! code := expect (ws_exit_status status) "`exited()` returned `true`" in
    ret (Some (Exited code))
  else if ws_signaled status then
    let! sig := expect (ws_terminating_signal status) "`signaled()` returned `true`" in
    ret (Some (Signaled sig))
  else ret None.

(** [ServiceConfig::build_svc_envp]: the loop runs over a hash map. *)
Definition build_svc_envp {S} (cfg : service_config) :
    M S io_error (option (list string)) :=
  match env cfg with
  | None => ret None
  | Some map =>
      let! entries := in_order (map_to_list map) in
      let! envp := lift (cstrings_new (env_strings entries)) in
      ret (Some envp)
  end.

(** [Service::new]. *)
Definition service_new {S} (id : Z) (name : string) (config : service_config) :
    M S io_error service :=
  let! argv := lift (build_svc_argv config) in
  let! envp := build_svc_envp config in
  ret (Service id name config argv envp (Stopped NeverStarted)
         ServicePendingAction.None).

(** [Service::update_config]. *)
Definition update_config (config : service_config) : M service io_error unit :=
  let! argv := lift (build_svc_argv config) in
  modify (set_argv argv) ;;!
  let! envp := build_svc_envp config in
  modify (set_envp envp) ;;!
  modify (set_config config).

(** [setup_child_stdio]: descriptors 0, 1 and 2. *)
Definition setup_child_stdio {S} (devnull_fd : Z) (log_fd : option Z) :
    M S io_error unit :=
  sys_try (SDup2 devnull_fd 0) ;;!
  match log_fd with
  | Some fd => sys_try (SDup2 fd 1) ;;! sys_try (SDup2 fd 2)
  | None => sys_try (SDup2 devnull_fd 1) ;;! sys_try (SDup2 devnull_fd 2)
  end.

(** [if m.is_err() { libc::_exit(111) }]. *)
Definition or_exit_111 {S E A} (m : M S io_error A) : M S E unit :=
  let! r := catch m in
  match r with ROk _ => ret tt | RErr _ => gone (ProcExit 111) end.

(** The setup part of [child_exec]: any failure exits with 111. *)
Definition child_setup {S E} (svc : service) (sigset devnull_fd : Z)
    (log_fd : option Z) : M S E unit :=
  or_exit_111 (set_thread_signal_mask sigset) ;;!
  or_exit_111 (sys_try SSetpgid) ;;!
  match user_group svc with
  | Some ug =>
      or_exit_111 (sys_cvt (SSetgid (ug_gid ug))) ;;!
      or_exit_111 (sys_cvt (SSetuid (ug_uid ug)))
  | None => ret tt
  end ;;!
  match working_directory svc with
  | Some cwd => or_exit_111 (sys_try (SChdir cwd))
  | None => ret tt
  end ;;!
  or_exit_111 (setup_child_stdio devnull_fd log_fd).

(** [child_exec]: the child's side of the fork.  It does not return.  The
    argument vector of a service starts with its command
    ([build_svc_argv_head]), so the last branch, a null file name, is never
    taken. *)
Definition child_exec {E A} (sigset devnull_fd : Z) (log_fd : option Z) :
    M service E A :=
  let! svc := get in
  child_setup svc sigset devnull_fd log_fd ;;!
  match s_argv svc with
  | file :: _ =>
      let! replaced :=
        match s_envp svc with
        | None => sys (SExecvp file (s_argv svc))
        | Some env => sys (SExecvpe file (s_argv svc) env)
        end in
      if (replaced : bool) then gone (ProcExec file (s_argv svc) (s_envp svc))
      else gone (ProcExit 127)
  | [] => gone (ProcExit 127)
  end.

(** The fork of [start_service]: its child, parent and error arms. *)
Definition fork_service (sigset devnull_fd : Z) (log_fd : option Z) :
    M service io_error unit :=
  let! (raw, errno) := sys SFork in
  if bool_decide (raw = 0) then child_exec sigset devnull_fd log_fd
  else if bool_decide (raw > 0) then modify (set_state (Running raw))
  else throw (OsError errno).

(** [start_service]. *)
Definition start_service (sigset : Z) : M service io_error unit :=
  let! devnull_fd := sys_try (SOpen "/dev/null" [RDWR; CLOEXEC] 0) in
  let! svc := get in
  let! log_fd :=
    match log_file_path svc with
    | None => ret None
    | Some p =>
        let! fd := sys_try (SOpen p [WRONLY; CREATE; APPEND; CLOEXEC] 420) in
        ret (Some fd)
    end in
  fork_service sigset devnull_fd log_fd.

(** [stop_service]: a no-op unless the service is running. *)
Definition stop_service : M service io_error unit :=
  let! svc := get in
  match s_state svc with
  | Running p =>
      sys_try (SKill p (stop_signal_of svc)) ;;!
      let! now := sys SNow in
      let! deadline := expect (instant_checked_add now (stop_timeout svc))
                         "overflow when adding duration to instant" in
      modify (set_state (Stopping p deadline))
  | _ => ret tt
  end.

(** [force_kill_service_process]. *)
Definition force_kill_service_process {S} (p : Z) : M S io_error unit :=
  sys_try (SKill p SIGKILL) ;;! ret tt.

(** [svc.pid().expect("running service must have a pid")]. *)
Definition running_pid {E} : M service E Z :=
  let! svc := get in
  expect (pid svc) "running service must have a pid".
End service.

(** * What the child does *)

(** The calls of a setup that meets no failure, in order: restore the signal
    mask, leave the process group, drop the group before the user, change
    directory, redirect the standard descriptors. *)
Definition setup_plan (svc : service) (sigset devnull_fd : Z) (log_fd : option Z) :
    list call :=
  let out := default devnull_fd log_fd in
  [Call (SSigprocmask SIG_SETMASK (Some sigset))] ++ [Call SSetpgid] ++
  match user_group svc with
  | Some ug => [Call (SSetgid (ug_gid ug))] ++ [Call (SSetuid (ug_uid ug))]
  | None => []
  end ++
  match working_directory svc with Some cwd => [Call (SChdir cwd)] | None => [] end ++
  [Call (SDup2 devnull_fd 0); Call (SDup2 out 1); Call (SDup2 out 2)].

(** The call that replaces the image. *)
Definition exec_call (svc : service) : call :=
  let file := default "" (head (s_argv svc)) in
  match s_envp svc with
  | None => Call (SExecvp file (s_argv svc))
  | Some env => Call (SExecvpe file (s_argv svc) env)
  end.

(** Whether a call of the child did its work: a libc call returned no
    error code, a rustix or std call returned [Ok], an exec replaced the
    image. *)
Definition succeeded (ev : event) : bool :=
  match ev with
  | Ev op r =>
      match op in sysop A return A → bool with
      | SSigprocmask _ _ => λ r, bool_decide (r.1.1 ≠ -1)
      | SSetgid _ => λ r, bool_decide (r.1 ≠ -1)
      | SSetuid _ => λ r, bool_decide (r.1 ≠ -1)
      | SSetpgid => λ r, if r is ROk _ then true else false
      | SChdir _ => λ r, if r is ROk _ then true else false
      | SDup2 _ _ => λ r, if r is ROk _ then true else false
      | SExecvp _ _ => λ r, r
      | SExecvpe _ _ _ => λ r, r
      | _ => λ _, false
      end r
  end.

(** All the calls of a plan were made, and succeeded. *)
Definition carried_out (plan : list call) (evs : list event) : Prop :=
  calls evs = plan ∧ Forall (λ ev, succeeded ev = true) evs.

(** The calls were made up to the first that failed. *)
Definition broke_off (plan : list call) (evs : list event) : Prop :=
  ∃ done ev, evs = done ++ [ev] ∧ calls evs `prefix_of` plan ∧
    Forall (λ ev, succeeded ev = true) done ∧ succeeded ev = false.

Lemma carried_out_app plan1 plan2 evs1 evs2 :
  carried_out plan1 evs1 → carried_out plan2 evs2 → carried_out (plan1 ++ plan2) (evs1 ++ evs2).
Proof.
  intros [<- H1] [<- H2]. split; [by unfold calls; rewrite fmap_app|by apply Forall_app].
Qed.
Lemma broke_off_app plan1 plan2 evs : broke_off plan1 evs → broke_off (plan1 ++ plan2) evs.
Proof.
  intros (done & ev & Heq & Hpre & H). exists done, ev. split_and!; try apply H; [done|].
  by apply prefix_app_r.
Qed.
Lemma broke_off_later plan1 plan2 evs1 evs2 :
  carried_out plan1 evs1 → broke_off plan2 evs2 → broke_off (plan1 ++ plan2) (evs1 ++ evs2).
Proof.
  intros [<- H1] (done & ev & -> & Hpre & H2 & Hev). exists (evs1 ++ done), ev.
  split_and!; [by rewrite app_assoc| |by apply Forall_app|done].
  unfold calls in *. rewrite fmap_app. by apply prefix_app.
Qed.

Section child.
Context {K : Type} `{!Platform K}.
Abbreviation M := (@M K).

(** [m] leaves the state alone and makes the calls [cs] as long as they
    succeed; at the first that fails it returns the error, which only a
    [fallible] computation does, or exits with 111. *)
Definition follows (fallible : bool) {S E A} (m : M S E A) (cs : list call) : Prop :=
  ∀ s w, ∃ o w' evs,
    m s w = (o, s, w') ∧ trace w' = trace w ++ evs ∧
    match o with
    | Ok _ => carried_out cs evs
    | Err _ => fallible = true ∧ broke_off cs evs
    | Gone (ProcExit c) => c = 111 ∧ broke_off cs evs
    | _ => False
    end.

Lemma follows_ret {S E A} b (a : A) : follows b (ret a : M S E A) [].
Proof. intros s w. exists (Ok a), w, []. rewrite app_nil_r. by split_and!; [..|split; [|constructor]]. Qed.

Lemma calls_app evs1 evs2 : calls (evs1 ++ evs2) = calls evs1 ++ calls evs2.
Proof. apply fmap_app. Qed.

Lemma follows_bind {S E A B} b (m : M S E A) (k : A → M S E B) cs1 cs2 :
  follows b m cs1 → (∀ a, follows b (k a) cs2) → follows b (bind m k) (cs1 ++ cs2).
Proof.
  intros H1 H2 s w. destruct (H1 s w) as (o & w1 & d1 & Hm & Hc & Ho).
  unfold bind. rewrite Hm. destruct o as [a|e| | |p]; try done.
  - destruct (H2 a s w1) as (o2 & w2 & d2 & Hk & Hc2 & Ho2).
    exists o2, w2, (d1 ++ d2). rewrite Hk, Hc2, Hc, app_assoc. split_and!; [done..|].
    destruct o2 as [| | | |[]]; try done;
      naive_solver eauto using carried_out_app, broke_off_later.
  - exists (Err e), w1, d1. naive_solver eauto using broke_off_app.
  - exists (Gone p), w1, d1. destruct p; try done. naive_solver eauto using broke_off_app.
Qed.

(** One call whose result [f] reads. *)
Lemma follows_sys_result {S A B} (op : sysop A) (f : A → result io_error B) :
  (∀ r, succeeded (Ev op r) = if f r is ROk _ then true else false) →
  follows true (bind (sys op) (λ r, lift (f r)) : M S io_error B) [Call op].
Proof.
  intros Hf s w. unfold bind, sys, lift. destruct (handle op (kst w)) as [r k].
  specialize (Hf r). destruct (f r); eexists _, _, [Ev op r]; (split_and!; [done|done|]).
  - split; [done|]. by constructor.
  - split; [done|]. by exists [], (Ev op r).
Qed.

Lemma follows_sys_try {S A} (op : sysop (result Z A)) :
  (∀ r, succeeded (Ev op r) = if r is ROk _ then true else false) →
  follows true (sys_try op : M S io_error A) [Call op].
Proof. intros Hop. apply follows_sys_result. intros r. rewrite Hop. by destruct r. Qed.

Lemma follows_sys_cvt {S} (op : sysop (Z * Z)) :
  (∀ r, succeeded (Ev op r) = bool_decide (r.1 ≠ -1)) →
  follows true (sys_cvt op : M S io_error Z) [Call op].
Proof.
  intros Hop. apply follows_sys_result. intros r. rewrite Hop. unfold cvt, is_error.
  rewrite bool_decide_not. by case_bool_decide.
Qed.

Lemma follows_or_exit_111 {S E A} (m : M S io_error A) cs :
  follows true m cs → follows false (or_exit_111 m : M S E unit) cs.
Proof.
  intros Hm s w. destruct (Hm s w) as (o & w' & d & Heq & Hc & Ho).
  unfold or_exit_111, bind, catch. rewrite Heq.
  destruct o as [a|e| | |[]]; try done; eexists _, _, d; naive_solver.
Qed.

Lemma follows_mask {S} sigset :
  follows true (set_thread_signal_mask sigset : M S io_error unit)
    [Call (SSigprocmask SIG_SETMASK (Some sigset))].
Proof.
  intros s w. unfold set_thread_signal_mask, bind, sys, lift.
  destruct (handle _ (kst w)) as [[[r errno] o] k].
  set (ev := Ev (SSigprocmask SIG_SETMASK (Some sigset)) (r, errno, o)).
  assert (Hev : succeeded ev = negb (is_error r)) by by simpl; rewrite bool_decide_not.
  unfold cvt. destruct (is_error r); eexists _, _, [ev]; (split_and!; [done|done|]).
  - split; [done|]. by exists [], ev.
  - split; [done|]. by constructor.
Qed.

Lemma follows_stdio {S} devnull_fd log_fd :
  let out := default devnull_fd log_fd in
  follows true (setup_child_stdio devnull_fd log_fd : M S io_error unit)
    [Call (SDup2 devnull_fd 0); Call (SDup2 out 1); Call (SDup2 out 2)].
Proof.
  destruct log_fd; simpl; (apply (follows_bind _ _ _ [_] [_; _]); [by apply follows_sys_try|]);
    intros _; (apply (follows_bind _ _ _ [_] [_]); [|intros _]); by apply follows_sys_try.
Qed.

Lemma follows_child_setup {S E} svc sigset devnull_fd log_fd :
  follows false (child_setup svc sigset devnull_fd log_fd : M S E unit)
    (setup_plan svc sigset devnull_fd log_fd).
Proof.
  unfold child_setup, setup_plan.
  apply follows_bind; [apply follows_or_exit_111, follows_mask|intros _].
  apply follows_bind; [by apply follows_or_exit_111, follows_sys_try|intros _].
  apply follows_bind.
  { destruct (user_group svc); [|apply follows_ret].
    apply follows_bind; [|intros _]; by apply follows_or_exit_111, follows_sys_cvt. }
  intros _. apply follows_bind.
  { destruct (working_directory svc); [|apply follows_ret].
    by apply follows_or_exit_111, follows_sys_try. }
  intros _. apply follows_or_exit_111, follows_stdio.
Qed.

(** The whole setup succeeded and was followed by the exec call alone, which
    replaced the image or not. *)
Definition exec_made (svc : service) (plan : list call) (replaced : bool) (evs : list event) : Prop :=
  ∃ setup ev, evs = setup ++ [ev] ∧ carried_out plan setup ∧ call_of ev = exec_call svc ∧
    succeeded ev = replaced.

(** How the process of the child ends, and what happened until then. *)
Definition child_end (svc : service) (sigset devnull_fd : Z) (log_fd : option Z)
    (p : process_end) (evs : list event) : Prop :=
  let plan := setup_plan svc sigset devnull_fd log_fd in
  match p with
  | ProcExit c =>
      c = 111 ∧ broke_off plan evs ∨
      c = 127 ∧ (if s_argv svc then carried_out plan evs else exec_made svc plan false evs)
  | ProcExec file argv envp =>
      exec_made svc plan true evs ∧
      head (s_argv svc) = Some file ∧ argv = s_argv svc ∧ envp = s_envp svc
  | ProcPanic _ => False
  end.

Lemma exec_made_calls svc plan b evs :
  exec_made svc plan b evs → calls evs = plan ++ [exec_call svc].
Proof.
  intros (setup & ev & -> & [<- _] & <- & _). unfold calls. by rewrite fmap_app.
Qed.

Lemma child_exec_ends {E A} svc sigset devnull_fd log_fd w :
  ∃ p w' evs,
    (child_exec sigset devnull_fd log_fd : M service E A) svc w = (Gone p, svc, w') ∧
    trace w' = trace w ++ evs ∧ child_end svc sigset devnull_fd log_fd p evs.
Proof.
  destruct (follows_child_setup (E:=E) svc sigset devnull_fd log_fd svc w)
    as (o & w1 & evs & Hm & Hc & Ho).
  unfold child_exec, child_end, get, bind at 1, bind at 1. rewrite Hm.
  destruct o as [[]|e| | |[c| |]]; try naive_solver.
  assert (Hx : ∀ file rest, s_argv svc = file :: rest →
    exec_call svc = match s_envp svc with
                    | None => Call (SExecvp file (s_argv svc))
                    | Some env => Call (SExecvpe file (s_argv svc) env) end).
  { intros file rest Hfile. unfold exec_call. by rewrite Hfile. }
  destruct (s_argv svc) as [|file rest].
  { exists (ProcExit 127), w1, evs. split_and!; [done..|]. by right. }
  specialize (Hx _ _ eq_refl). unfold exec_made.
  unfold bind, sys. destruct (s_envp svc) as [env|]; simpl in *;
    destruct (handle _ (kst w1)) as [[] k]; eexists _, _, (evs ++ [_]);
    (split_and!; [done|by rewrite Hc, <- app_assoc|]);
    try (right; split; [done|]); try (split; [|done]); by eexists evs, _.
Qed.
End child.

(** * What the kernel answered *)

(** [fork] made the process [p]. *)
Definition did_fork (p : Z) (evs : list event) : Prop := ∃ errno, Ev SFork (p, errno) ∈ evs.

(** The stop signal of a configuration was sent to [p], and answered. *)
Definition stop_answered (cfg : service_config) (p : Z) (r : result Z unit)
    (evs : list event) : Prop :=
  Ev (SKill p (signal_of_stop_signal (cfg_stop_signal cfg))) r ∈ evs.

(** One of the calls of [start_service] failed. *)
Inductive start_refused (cfg : service_config) (evs : list event) : Prop :=
| refused_null e :
    Ev (SOpen "/dev/null" [RDWR; CLOEXEC] 0) (RErr e) ∈ evs → start_refused cfg evs
| refused_log path e :
    cfg_log_file_path cfg = Some path →
    Ev (SOpen path [WRONLY; CREATE; APPEND; CLOEXEC] 420) (RErr e) ∈ evs → start_refused cfg evs
| refused_fork raw errno :
    raw < 0 → Ev SFork (raw, errno) ∈ evs → start_refused cfg evs.

Lemma did_fork_mono p evs evs' : evs ⊆ evs' → did_fork p evs → did_fork p evs'.
Proof. intros Hsub [errno Hin]. exists errno. by apply Hsub. Qed.
Lemma stop_answered_mono cfg p r evs evs' :
  evs ⊆ evs' → stop_answered cfg p r evs → stop_answered cfg p r evs'.
Proof. intros Hsub. apply Hsub. Qed.
Lemma start_refused_mono cfg evs evs' :
  evs ⊆ evs' → start_refused cfg evs → start_refused cfg evs'.
Proof.
  intros Hsub [e He|path e Hp He|raw errno Hr He];
    [eapply refused_null|eapply refused_log|eapply refused_fork]; eauto.
Qed.

(** Why a reload fails once it has its configuration; [gen] is the next id. *)
Inductive reload_refused (configs : gmap string service_config) (gen : Z)
    (evs : list event) : Prop :=
| refused_signal p sig e : Ev (SKill p sig) (RErr e) ∈ evs → reload_refused configs gen evs
| refused_strings n cfg :
    configs !! n = Some cfg → ¬ buildable cfg → reload_refused configs gen evs
| refused_start n cfg :
    configs !! n = Some cfg → start_refused cfg evs → reload_refused configs gen evs
| refused_id : gen = u64_max → reload_refused configs gen evs.

Lemma reload_refused_mono configs gen evs evs' :
  evs ⊆ evs' → reload_refused configs gen evs → reload_refused configs gen evs'.
Proof.
  intros Hsub [p sig e He|n cfg ? ?|n cfg ? ?|?];
    [eapply refused_signal, Hsub, He|by eapply refused_strings|
     eapply refused_start; [done|by eapply start_refused_mono]|by apply refused_id].
Qed.

(** * Starting, stopping and updating a service *)

Section operations.
Context {K : Type} `{!Platform K} `{!PlatformLaws K}.
Abbreviation M := (@M K).

(** What holds of a service in the registry besides its state: the integer
    fields of its configuration are in range, its two vectors hold C strings,
    and there is a file to execute. *)
Definition service_wf (svc : service) : Prop :=
  config_wf (s_config svc) ∧ argv_wf (s_argv svc) ∧ envp_wf (s_envp svc).

Lemma build_svc_argv_head cfg argv :
  build_svc_argv cfg = ROk argv → head argv = Some (command cfg).
Proof.
  unfold build_svc_argv, cstring_new.
  destruct (nul_position (command cfg)), (cstrings_new (args cfg)); naive_solver.
Qed.

Lemma wp_child_exec {E A} sigset devnull_fd log_fd svc w
    (Φ : outcome E A → service → world K → Prop) :
  wp (child_exec sigset devnull_fd log_fd) Φ svc w.
Proof.
  unfold wp. by destruct (child_exec_ends (E:=E) (A:=A) svc sigset devnull_fd log_fd w)
    as (p & w' & made & -> & _).
Qed.

(** Between the two worlds a child with a fresh pid was forked. *)
Definition forked (p : Z) (w w' : world K) : Prop :=
  p ∉ children (kst w) ∧ {[p]} ∪ children (kst w) ⊆ children (kst w') ∧
  trace w `prefix_of` trace w' ∧
  ledger_of w' = ({[p]} ∪ (ledger_of w).1, (ledger_of w).2).

Lemma forked_le p w w1 w' : world_le w w1 → forked p w1 w' → forked p w w'.
Proof.
  intros (Hc & Ht & Hl) (Hf & Hc' & Ht' & Hl').
  split_and!; [by intros Hin; apply Hf, Hc|by etrans; [|done]; apply union_mono_l|by etrans|].
  by rewrite Hl', Hl.
Qed.

Lemma forked_calm p w w1 w' : forked p w w1 → world_calm w1 w' → forked p w w'.
Proof.
  intros (Hf & Hc & Ht & Hl) [(Hc' & Ht' & Hl') _].
  split_and!; [done|set_solver|by etrans|congruence].
Qed.

(** What [start_service] guarantees to the supervisor. *)
Definition start_post (svc : service) (w : world K) (o : outcome io_error unit)
    (svc' : service) (w' : world K) : Prop :=
  kills w' = kills w ∧
  match o with
  | Ok _ => ∃ p, 0 < p ∧ did_fork p (events w w') ∧
      svc' = set_state (Running p) svc ∧ forked p w w'
  | Err _ => svc' = svc ∧ start_refused (s_config svc) (events w w') ∧ world_le w w'
  | _ => False
  end.

Lemma start_post_le svc w w1 o svc' w' :
  world_calm w w1 → start_post svc w1 o svc' w' → start_post svc w o svc' w'.
Proof.
  intros [Hle Hk] (Hk' & H). split; [by rewrite Hk'|].
  destruct o as [[]|e| | |]; [..|done|done|done].
  - destruct H as (p & ? & Hfork & ? & Hf). exists p.
    split_and!; [done|eapply did_fork_mono; [|done]|done|by eapply forked_le].
    apply events_sub; [apply Hle|apply Hf|done].
  - destruct H as (-> & Hr & Hle'). split_and!; [done|eapply start_refused_mono; [|done]|by etrans].
    apply events_sub; [apply Hle|apply Hle'|done].
Qed.

Lemma wp_fork_service sigset devnull_fd log_fd svc w :
  wp (fork_service sigset devnull_fd log_fd) (start_post svc w) svc w.
Proof.
  unfold fork_service. wp_step. apply wp_sys. intros [raw errno] k Hk. wp_steps.
  assert (Hkills : kills (extend w k (Ev SFork (raw, errno))) = kills w).
  { unfold kills. simpl. by rewrite omap_app, app_nil_r. }
  case_bool_decide as H0; [apply wp_child_exec|].
  assert (Hev : events w (extend w k (Ev SFork (raw, errno))) = [Ev SFork (raw, errno)])
    by by apply events_app.
  case_bool_decide as Hp; wp_step; (split; [done|]);
    assert (Hled := ledger_snoc w k (Ev SFork (raw, errno))); simpl in Hled.
  - rewrite bool_decide_true in Hled by lia. exists raw.
    apply fork_fresh in Hk as [Hf Hc]; [|lia].
    split_and!; [lia|exists errno; rewrite Hev; by left|done|].
    split_and!; [done..|by apply prefix_app_r|done].
  - rewrite bool_decide_false in Hled by lia. apply fork_failed in Hk; [|lia].
    split; [done|]. split.
    { apply (refused_fork _ _ raw errno); [lia|rewrite Hev; by left]. }
    split_and!; [done|by apply prefix_app_r|done].
Qed.

(** A failed open, before the fork. *)
Lemma start_post_refused svc w w1 (op : sysop (result Z Z)) e k :
  world_calm w w1 → calm op = true → handle op (kst w1) = (RErr e, k) →
  (∀ evs, Ev op (RErr e) ∈ evs → start_refused (s_config svc) evs) →
  start_post svc w (Err (OsError e)) svc (extend w1 k (Ev op (RErr e))).
Proof.
  intros Hw Hop Hk Href. apply (start_post_le svc w w1); [done|].
  destruct (world_calm_sys op w1 _ _ Hop Hk) as [Hle Hkills]. split_and!; [done..| |done].
  apply Href. rewrite (events_app w1 _ [Ev op (RErr e)]) by done. by left.
Qed.

Lemma wp_start_service sigset svc w :
  wp (start_service sigset) (start_post svc w) svc w.
Proof.
  unfold start_service. wp_step. apply wp_sys_try; [intros devnull_fd k1 Hk1|intros e k1 Hk1];
    [|by apply start_post_refused; [..|intros evs; apply refused_null]].
  apply world_calm_sys in Hk1; [|done].
  wp_steps. destruct (log_file_path svc) as [p|] eqn:Hlog.
  - wp_step. apply wp_sys_try; [intros fd k2 Hk2|intros e k2 Hk2].
    + wp_steps. eapply wp_mono; [apply wp_fork_service|].
      apply world_calm_sys in Hk2; [|done].
      intros o svc' w'. apply start_post_le. by etrans.
    + apply start_post_refused; [done..|]. intros evs. by apply refused_log.
  - wp_steps. eapply wp_mono; [apply wp_fork_service|].
    intros o svc' w'. by apply start_post_le.
Qed.

(** What [stop_service] does, by the state it finds. *)
Definition stop_post (svc : service) (w : world K) (o : outcome io_error unit)
    (svc' : service) (w' : world K) : Prop :=
  world_le w w' ∧
  match s_state svc, o with
  | Running p, Ok _ => ∃ t, is_instant (t + stop_timeout svc) ∧
      svc' = set_state (Stopping p (t + stop_timeout svc)) svc ∧
      trace w' = trace w ++ [Ev (SKill p (stop_signal_of svc)) (ROk tt); Ev SNow t]
  | Running p, Err (OsError e) =>
      svc' = svc ∧ trace w' = trace w ++ [Ev (SKill p (stop_signal_of svc)) (RErr e)]
  | Running _, _ => False
  | _, Ok _ => svc' = svc ∧ w' = w
  | _, _ => False
  end.

(** The process of a service is a child. *)
Definition pid_owned (svc : service) (w : world K) : Prop :=
  ∀ p, pid svc = Some p → p ∈ (ledger_of w).1.

(** The deadline cannot overflow, so [stop_service] never panics. *)
Lemma wp_stop_service svc w :
  is_u64 (stop_timeout_ms (s_config svc)) → pid_owned svc w → wp stop_service (stop_post svc w) svc w.
Proof.
  intros Hwf Hown. unfold stop_service, stop_post. wp_steps.
  destruct (s_state svc) as [r|p|p d] eqn:Hst; [by wp_step| |by wp_step].
  unfold pid_owned, pid in Hown. rewrite Hst in Hown. specialize (Hown p eq_refl).
  wp_step. apply wp_sys_try; intros x k Hk; [|split; [by eapply world_le_sys|done]].
  wp_steps. apply wp_sys. intros t k' Hk'.
  assert (Ht : 0 ≤ t < 2 ^ 62 * nanos_per_sec).
  { pose proof (now_range k) as Hr. simpl in Hk'. by rewrite Hk' in Hr. }
  wp_steps. unfold stop_timeout. rewrite instant_add_no_overflow by done. simpl.
  wp_steps. split.
  - etrans; [by eapply world_le_sys; [..|exact Hk]|].
    by eapply (world_le_sys _ (extend w k _)); [..|exact Hk'].
  - exists t. destruct x. split; [by apply is_instant_add|]. by rewrite <- app_assoc.
Qed.

(** [update_config]: on success exactly the configuration and the two
    vectors built from it change; on failure the configuration is the old
    one, but the argument vector may already be the new one. *)
Definition update_post (cfg : service_config) (svc : service) (w : world K)
    (o : outcome io_error unit) (svc' : service) (w' : world K) : Prop :=
  world_calm w w' ∧
  match o with
  | Ok _ => ∃ argv envp, built cfg argv envp ∧
      svc' = set_config cfg (set_envp envp (set_argv argv svc))
  | Err _ => ¬ buildable cfg ∧ (svc' = svc ∨
      ∃ argv, build_svc_argv cfg = ROk argv ∧ svc' = set_argv argv svc)
  | _ => False
  end.

Lemma wp_build_svc_envp {S} cfg (s : S) w :
  wp (build_svc_envp cfg) (λ o s' w', s' = s ∧ world_calm w w' ∧ (∀ m, o ≠ Panic m) ∧
    o ≠ OutOfFuel ∧ (∀ x, o = Ok x → environment_of cfg x ∧ envp_wf x) ∧
    (∀ e, o = Err e → ¬ buildable cfg)) s w.
Proof.
  unfold build_svc_envp, environment_of. destruct (env cfg) as [m|] eqn:Hm.
  - wp_step. apply wp_in_order. intros l' w' Hl Hw _. wp_steps.
    apply wp_lift; intros x Hx; simpl; last first.
    { split_and!; try done. intros e _ Hb. by eapply cstrings_new_refused, buildable_env. }
    pose proof (cstrings_new_is _ _ Hx) as ->. apply cstrings_new_typed in Hx.
    wp_steps. split_and!; try done. intros y [= <-]. split; [by exists l'|done].
  - wp_step. split_and!; try done. by intros y [= <-].
Qed.

Lemma wp_update_config cfg svc w :
  wp (update_config cfg) (update_post cfg svc w) svc w.
Proof.
  unfold update_config, update_post. wp_step. apply wp_lift; intros argv Hargv; simpl.
  - wp_steps. eapply wp_mono; [apply wp_build_svc_envp|].
    intros o s' w' (-> & Hw & Hp & Hf & Henv & Hno).
    destruct o as [envp|e| | |]; simpl; try naive_solver.
    destruct (Henv envp eq_refl). wp_steps. split; [done|]. by exists argv, envp.
  - split; [done|]. split; [by eapply build_svc_argv_refused|by left].
Qed.

(** [Service::new]: a stopped service without pending action, with the
    vectors of its configuration, or an error. *)
Definition new_post (id : Z) (name : string) (cfg : service_config) (w : world K)
    {S} (s : S) (o : outcome io_error service) (s' : S) (w' : world K) : Prop :=
  s' = s ∧ world_calm w w' ∧
  match o with
  | Ok svc => ∃ argv envp, built cfg argv envp ∧
      svc = Service id name cfg argv envp (Stopped NeverStarted) ServicePendingAction.None
  | Err _ => ¬ buildable cfg
  | _ => False
  end.

Lemma wp_service_new {S} id name cfg (s : S) w :
  wp (service_new id name cfg) (new_post id name cfg w s) s w.
Proof.
  unfold service_new, new_post. wp_step.
  apply wp_lift; intros argv Hargv; simpl; [|split_and!; [done..|by eapply build_svc_argv_refused]].
  wp_steps. eapply wp_mono; [apply wp_build_svc_envp|].
  intros o s' w' (-> & Hw & Hp & Hf & Henv & Hno). destruct o as [envp|e| | |]; simpl; try naive_solver.
  destruct (Henv envp eq_refl). wp_steps. split_and!; [done..|]. by exists argv, envp.
Qed.

(** Log messages report no status. *)
Lemma logged_more (w w1 w' : world K) evs :
  trace w1 = trace w ++ evs → logged w1 w' →
  ∃ evs', trace w' = trace w ++ evs' ∧ waits evs' = waits evs.
Proof.
  intros Htr (_ & _ & more & Htr' & Hmore). exists (evs ++ more).
  rewrite Htr', Htr, app_assoc. split; [done|]. unfold waits. rewrite omap_app.
  assert (Hnil : omap wait_of more = []); [|by rewrite Hnil, app_nil_r].
  clear Htr'. induction Hmore as [|[A op r] more Hev Hmore IH]; [done|]. by destruct op.
Qed.

Lemma logged_waits (w w' : world K) : logged w w' → waits (trace w') = waits (trace w).
Proof.
  intros Hw. destruct (logged_more (World (kst w) [] 0) w w' (trace w)) as (evs & -> & Hevs);
    done.
Qed.

Lemma wp_running_pid {E} svc w p (Φ : outcome E Z → service → world K → Prop) :
  pid svc = Some p → Φ (Ok p) svc w → wp running_pid Φ svc w.
Proof. intros Hp HΦ. unfold running_pid. wp_steps. rewrite Hp. simpl. by wp_step. Qed.

(** The exit reason of a status. *)
Definition exit_reason_of (st : Z) : option exit_reason :=
  if ws_exited st then Exited <$> ws_exit_status st
  else if ws_signaled st then Signaled <$> ws_terminating_signal st
  else None.

Lemma exit_reason_of_final st : is_Some (exit_reason_of st) ↔ ws_final st = true.
Proof.
  unfold exit_reason_of, ws_final. destruct (ws_exited st) eqn:He; simpl.
  - destruct (exit_status_some _ He) as [c ->]. by split; [|eexists].
  - destruct (ws_signaled st) eqn:Hs.
    + destruct (terminating_signal_some _ Hs) as [c ->]. by split; [|eexists].
    + by split; [intros [? ?]|].
Qed.

Lemma exit_reason_of_typed st er : exit_reason_of st = Some er → exit_reason_typed er.
Proof.
  unfold exit_reason_of. destruct (ws_exited st).
  - destruct (ws_exit_status st) as [c|] eqn:Hc; [|done]. intros [= <-].
    by apply exit_status_range in Hc.
  - destruct (ws_signaled st); [|done].
    destruct (ws_terminating_signal st) as [c|] eqn:Hc; [|done]. intros [= <-].
    by apply terminating_signal_range in Hc.
Qed.

(** [from_wait_status] never panics: the [expect]s are guarded. *)
Lemma wp_from_wait_status {S E} st (s : S) w (Φ : outcome E (option exit_reason) → S → world K → Prop) :
  Φ (Ok (exit_reason_of st)) s w → wp (from_wait_status st) Φ s w.
Proof.
  intros HΦ. unfold from_wait_status, exit_reason_of in *. destruct (ws_exited st) eqn:He.
  - destruct (exit_status_some _ He) as [c Hc]. rewrite Hc in *. wp_step. by simpl; wp_steps.
  - destruct (ws_signaled st) eqn:Hs; [|by wp_step].
    destruct (terminating_signal_some _ Hs) as [c Hc]. rewrite Hc in *. wp_step.
    by simpl; wp_steps.
Qed.
End operations.

(** * Properties *)

Section properties.
Context {K : Type} `{!Platform K} `{!PlatformLaws K}.
Abbreviation M := (@M K).

(** C21.  The child never returns into the supervisor's code, whatever the
    calls answer, and every answer is heeded.  It exits with 111 when a call
    of the setup failed, and that was its last call; those before it
    succeeded.  Otherwise the whole setup was made and every call of it
    succeeded, in its order (the signal mask and process group first, the
    group before the user, the standard descriptors last), then the one exec
    call: when that replaced the image, it runs the service's argument
    vector and environment, and when not, the child exits with 127. *)
Theorem child_exec_follows_plan {E A} svc sigset devnull_fd log_fd (w : world K) :
  s_argv svc ≠ [] →
  let plan := setup_plan svc sigset devnull_fd log_fd in
  ∃ p w' evs,
    (child_exec sigset devnull_fd log_fd : M service E A) svc w = (Gone p, svc, w') ∧
    trace w' = trace w ++ evs ∧
    match p with
    | ProcExit c =>
        (c = 111 ∧ ∃ done failed, evs = done ++ [failed] ∧ calls evs `prefix_of` plan ∧
           Forall (λ ev, succeeded ev = true) done ∧ succeeded failed = false) ∨
        (c = 127 ∧ ∃ made exec, evs = made ++ [exec] ∧ calls made = plan ∧
           Forall (λ ev, succeeded ev = true) made ∧
           call_of exec = exec_call svc ∧ succeeded exec = false)
    | ProcExec file argv envp =>
        (∃ made exec, evs = made ++ [exec] ∧ calls made = plan ∧
           Forall (λ ev, succeeded ev = true) made ∧
           call_of exec = exec_call svc ∧ succeeded exec = true) ∧
        head (s_argv svc) = Some file ∧ argv = s_argv svc ∧ envp = s_envp svc
    | ProcPanic _ => False
    end.
Proof.
  intros Hargv plan. destruct (child_exec_ends (E:=E) (A:=A) svc sigset devnull_fd log_fd w)
    as (p & w' & made & Hm & Hc & Hend).
  exists p, w', made. split_and!; [done..|].
  unfold child_end, exec_made, carried_out, broke_off in Hend.
  destruct (s_argv svc); [done|]. destruct p; naive_solver.
Qed.

(** C20.  [start_service] on any service: on success the service is running
    under the positive pid that its fork returned, which no unreaped child
    had and which is now one of the children, and nothing else of the
    service changed; on failure one of its opens or the fork failed, the
    service is untouched and no child was made.  There is no other end
    in the supervisor's process, and no signal is sent. *)
Theorem start_service_spec sigset svc (w : world K) :
  wp (start_service sigset) (λ o svc' w', kills w' = kills w ∧
    match o with
    | Ok _ => ∃ p, 0 < p ∧ did_fork p (events w w') ∧ svc' = set_state (Running p) svc ∧
        p ∉ children (kst w) ∧ {[p]} ∪ children (kst w) ⊆ children (kst w') ∧
        ledger_of w' = ({[p]} ∪ (ledger_of w).1, (ledger_of w).2)
    | Err _ => svc' = svc ∧ start_refused (s_config svc) (events w w') ∧
        ledger_of w' = ledger_of w
    | _ => False
    end) svc w.
Proof.
  eapply wp_mono; [apply wp_start_service|]. intros o svc' w' [Hk Ho]. split; [done|].
  destruct o as [[]|e| | |]; try done.
  - destruct Ho as (p & ? & ? & ? & ? & ? & _ & ?). by exists p.
  - by destruct Ho as (? & ? & _ & _ & ?).
Qed.

(** C19.  [stop_service] sends the configured signal to a running service
    and, when that succeeds, records the deadline [stop_timeout_ms] after
    an instant read after the signal was sent; a signal that cannot be sent
    is reported and leaves the service running.  In any other state it does
    nothing.  The deadline is in the range of an [Instant], so the addition
    never panics. *)
Theorem stop_service_spec svc (w : world K) :
  is_u64 (stop_timeout_ms (s_config svc)) →
  (∀ p, pid svc = Some p → p ∈ (ledger_of w).1) →
  wp stop_service (λ o svc' w',
    match s_state svc, o with
    | Running p, Ok _ => ∃ t, is_instant (t + stop_timeout_ms (s_config svc) * 10 ^ 6) ∧
        svc' = set_state (Stopping p (t + stop_timeout_ms (s_config svc) * 10 ^ 6)) svc ∧
        trace w' = trace w ++ [Ev (SKill p (stop_signal_of svc)) (ROk tt); Ev SNow t]
    | Running p, Err (OsError e) =>
        svc' = svc ∧ trace w' = trace w ++ [Ev (SKill p (stop_signal_of svc)) (RErr e)]
    | Running _, _ => False
    | _, Ok _ => svc' = svc ∧ w' = w
    | _, _ => False
    end) svc w.
Proof.
  intros Hwf Hown. eapply wp_mono; [by apply wp_stop_service|]. by intros o svc' w' [_ Ho].
Qed.

(** C34.  [update_config] succeeds exactly when every string of the new
    command line and of the new environment is a C string; it then
    changes the configuration and the two vectors built from it and nothing
    else.  On failure the configuration is still the old one, but when it
    is the environment that cannot be built the argument vector is already
    the new one. *)
Theorem update_config_spec cfg svc (w : world K) :
  wp (update_config cfg) (λ o svc' w', kills w' = kills w ∧
    match build_svc_argv cfg, o with
    | ROk argv, Ok _ => buildable cfg ∧ ∃ envp, environment_of cfg envp ∧
        svc' = set_config cfg (set_envp envp (set_argv argv svc))
    | ROk argv, Err _ => ¬ buildable cfg ∧ is_Some (env cfg) ∧ svc' = set_argv argv svc
    | RErr e, Err e' => ¬ buildable cfg ∧ e' = e ∧ svc' = svc
    | _, _ => False
    end) svc w.
Proof.
  unfold update_config. wp_step. apply wp_lift; intros x Hx; rewrite Hx; simpl;
    [|split_and!; [done|by eapply build_svc_argv_refused|done..]].
  wp_steps. unfold build_svc_envp. destruct (env cfg) as [m|] eqn:Hm.
  - wp_step. apply wp_in_order. intros l' w' Hl [_ Hk] _. wp_steps.
    apply wp_lift; intros y Hy; simpl; wp_steps; (split; [done|]); last first.
    { split_and!; [|done..]. intros Hb. by eapply cstrings_new_refused, buildable_env. }
    pose proof (cstrings_new_typed _ _ Hy) as Ht. apply cstrings_new_is in Hy as ->.
    assert (Henv : environment_of cfg (Some (env_strings l')))
      by (unfold environment_of; rewrite Hm; by exists l').
    split; [by eapply built_buildable; split_and!|by eexists].
  - assert (Henv : environment_of cfg None) by (unfold environment_of; by rewrite Hm).
    wp_steps. split; [done|]. split; [by eapply built_buildable; split_and!|by eexists].
Qed.
End properties.

(** A service under the simulated platform. *)
Definition sim_svc (st : service_state) (a : service_pending_action) : service :=
  Service 0 "a" (sim_service "sleep" ServicePendingAction.None) ["sleep"; "10"] None st a.

Lemma sim_svc_wf st a : service_wf (sim_svc st a).
Proof. split_and!; repeat constructor; done. Qed.

(** The world in which it runs: its process, if any, was forked. *)
Definition sim_world_of (svc : service) : world sim :=
  match pid svc with
  | Some p => World (sim_set_children [p] sim_init) [Ev SFork (p, 0)] 3
  | None => World sim_init [] 3
  end.

(** In a directory that cannot be entered, the child exits. *)
Example child_exec_refused_directory :
  let cfg := ServiceConfig "sleep" ["10"] None (Some "/missing") None None
    ServicePendingAction.None SigTerm default_stop_timeout_ms in
  let svc := set_config cfg (sim_svc (Stopped NeverStarted) ServicePendingAction.None) in
  let k := Sim [] [] 0 "" [] [] 4096 ["/missing"] [] false false in
  let '(o, _, w') := (child_exec 0 3 None : @M sim service io_error unit) svc (World k [] 3) in
  o = Gone (ProcExit 111) ∧ last (calls (trace w')) = Some (Call (SChdir "/missing")).
Proof. vm_compute. done. Qed.

Lemma child_exec_follows_plan_witness :
  let svc := sim_svc (Stopped NeverStarted) ServicePendingAction.None in
  ∃ p w',
    (child_exec 0 3 (Some 4) : @M sim service io_error unit) svc (World sim_init [] 3) =
      (Gone p, svc, w') ∧
    match p with
    | ProcExit c => (c = 111 ∨ c = 127) ∧ ∃ ev, ev ∈ trace w' ∧ succeeded ev = false
    | ProcExec file argv envp => file = "sleep" ∧ argv = ["sleep"; "10"] ∧ envp = None ∧
        ∀ ev, ev ∈ trace w' → succeeded ev = true
    | ProcPanic _ => False
    end.
Proof.
  cbv zeta. set (svc := sim_svc (Stopped NeverStarted) ServicePendingAction.None).
  destruct (child_exec_follows_plan (E:=io_error) (A:=unit) svc 0 3 (Some 4) (World sim_init [] 3))
    as (p & w' & evs & Hrun & Htr & Hp); [done|].
  exists p, w'. split; [done|]. rewrite Htr. destruct p as [c|file argv envp|]; [..|done].
  - destruct Hp as [(Hc & d & ev & -> & _ & _ & Hev)|(Hc & d & ev & -> & _ & _ & _ & Hev)];
      (split; [by auto|]); exists ev; (split; [|done]);
      apply elem_of_app; right; apply elem_of_app; right; by apply list_elem_of_singleton.
  - destruct Hp as ((d & ev & -> & _ & Hd & _ & Hev) & [= <-] & -> & ->).
    split_and!; [done..|]. intros x [Hx|[Hx|Hx%list_elem_of_singleton]%elem_of_app]%elem_of_app.
    + by apply elem_of_nil in Hx.
    + by eapply Forall_forall in Hd.
    + by subst.
Defined.

Lemma start_service_spec_witness :
  wp (start_service 0) (λ o svc' w', ∀ u, o = Ok u → ∃ p, 0 < p ∧
    svc' = sim_svc (Running p) ServicePendingAction.None)
    (sim_svc (Stopped NeverStarted) ServicePendingAction.None) (World sim_init [] 3).
Proof.
  eapply wp_mono; [apply (start_service_spec 0)|].
  intros o svc' w' [_ Ho] u ->. destruct Ho as (p & Hp & _ & -> & _). by exists p.
Defined.

Lemma stop_service_spec_witness :
  let svc := sim_svc (Running 100) ServicePendingAction.None in
  wp stop_service (λ o svc' w', ∀ u, o = Ok u → ∃ t,
    svc' = sim_svc (Stopping 100 (t + 5000 * 10 ^ 6)) ServicePendingAction.None) svc
    (sim_world_of svc).
Proof.
  cbv zeta. eapply wp_mono.
  { apply stop_service_spec.
    - unfold is_u64, u64_max. simpl. unfold default_stop_timeout_ms, DEFAULT_STOP_TIMEOUT_MS. lia.
    - intros p [= <-]. vm_compute. done. }
  intros o svc' w' Ho u ->. destruct Ho as (t & _ & -> & _). by exists t.
Defined.

Lemma update_config_spec_witness :
  let svc := sim_svc (Running 100) ServicePendingAction.None in
  wp (update_config (sim_service "pause" ServicePendingAction.None)) (λ o svc' w',
    ∀ u, o = Ok u → s_argv svc' = ["pause"; "10"]) svc (World sim_init [] 3).
Proof.
  cbv zeta. eapply wp_mono; [apply update_config_spec|].
  intros o svc' w' [_ Ho] u ->. simpl in Ho. by destruct Ho as (_ & envp & _ & ->).
Defined.

(** On a failure the vectors and the configuration can disagree. *)
Example update_config_not_atomic :
  let bad := ServiceConfig "pause" [] (Some {["K" := String Ascii.zero ""]}) None None None
    ServicePendingAction.None SigTerm 5000 in
  let svc := sim_svc (Running 100) ServicePendingAction.None in
  let '(o, svc', _) := update_config bad svc (World sim_init [] 3) in
  o = Err (NulError 2) ∧ s_argv svc' = ["pause"] ∧ s_config svc' = s_config svc.
Proof. vm_compute. done. Qed.
