(* ===== verification/Registry.v ===== *)
(** The registry of service.rs: the two maps, their operations, the
    invariant that keeps them inverse to each other, and the abstract life
    cycle every service of the registry follows. *)
From S2P Require Import Prelude Utils Bytes Data Platform Monad Sim Logging.
From S2P Require Import Signalfd Service.
Local Open Scope Z_scope.
Local Open Scope svlopp_scope.

(** * [ServiceRegistry] *)

Record service_registry : Type := ServiceRegistry {
  services_map : gmap Z service;
  pids_map : gmap Z Z
}.

Definition registry_new : service_registry := ServiceRegistry ∅ ∅.

(** [insert_service]. *)
Definition insert_service (svc : service) (reg : service_registry) : service_registry :=
  ServiceRegistry (<[s_id svc := svc]> (services_map reg)) (pids_map reg).
(** [service] and [service_mut]: a borrow is the looked-up service, which
    [update_service] writes back. *)
Definition service_mut (reg : service_registry) (svc_id : Z) : option service :=
  services_map reg !! svc_id.
Definition update_service (svc_id : Z) (svc : service) (reg : service_registry) :
    service_registry :=
  ServiceRegistry (<[svc_id := svc]> (services_map reg)) (pids_map reg).
(** [register_pid]. *)
Definition register_pid (p svc_id : Z) (reg : service_registry) : service_registry :=
  ServiceRegistry (services_map reg) (<[p := svc_id]> (pids_map reg)).
(** [get_by_pid]. *)
Definition get_by_pid (reg : service_registry) (p : Z) : option service :=
  match pids_map reg !! p with
  | Some svc_id => services_map reg !! svc_id
  | None => None
  end.
(** [take_by_pid]: the id of the service borrowed, and the registry without
    the entry of the pid. *)
Definition take_by_pid (p : Z) (reg : service_registry) :
    option Z * service_registry :=
  match pids_map reg !! p with
  | None => (None, reg)
  | Some svc_id =>
      (match services_map reg !! svc_id with Some _ => Some svc_id | None => None end,
       ServiceRegistry (services_map reg) (delete p (pids_map reg)))
  end.
(** [remove_service]. *)
Definition remove_service (svc_id : Z) (reg : service_registry) : service_registry :=
  ServiceRegistry (delete svc_id (services_map reg)) (pids_map reg).

Section on_service.
Context {K : Type} `{!Platform K}.
Abbreviation M := (@M K).

(** [services], [services_mut]: the entries, in the order of one iteration. *)
Definition services {E} : M service_registry E (list (Z * service)) :=
  let! reg := get in in_order (map_to_list (services_map reg)).

(** [m] on the service borrowed mutably under [svc_id]; the callers have
    just looked it up. *)
Definition on_service {E A} (svc_id : Z) (m : M service E A) : M service_registry E A :=
  λ reg w,
    match service_mut reg svc_id with
    | Some svc =>
        let '(o, svc', w') := m svc w in (o, update_service svc_id svc' reg, w')
    | None => (Panic "dangling borrow", reg, w)
    end.

Lemma wp_on_service {E A} svc_id svc (m : M service E A)
    (Φ : outcome E A → service_registry → world K → Prop) reg w :
  services_map reg !! svc_id = Some svc →
  wp m (λ o svc' w', Φ o (update_service svc_id svc' reg) w') svc w →
  wp (on_service svc_id m) Φ reg w.
Proof.
  intros Hk. unfold wp, on_service, service_mut. rewrite Hk.
  destruct (m svc w) as [[[] ?] ?]; done.
Qed.

(** [start_service(svc, sigset)?] on a borrowed service, and the pid it then
    has. *)
Definition start_borrowed (svc_id sigset : Z) : M service_registry io_error Z :=
  on_service svc_id (start_service sigset ;;! running_pid).
End on_service.

Lemma moves_on_service {K} `{!Platform K} (R : relation (world K)) `{!PreOrder R} {E A} k
    (m : @M K service E A) :
  moves R m → moves R (on_service k m).
Proof.
  intros Hm reg w. unfold wp, on_service.
  destruct (service_mut reg k) as [svc|]; [|done]. specialize (Hm svc w). unfold wp in Hm.
  by destruct (m svc w) as [[[] ?] ?].
Qed.

(** * The abstract life cycle of a service

    What the supervisor promises about one registry entry, whatever events
    arrive: [None] is an id without a service. *)

Inductive lifecycle : option service_state → option service_state → Prop :=
| lc_create : lifecycle None (Some (Stopped NeverStarted))
| lc_start r p : 0 < p → lifecycle (Some (Stopped r)) (Some (Running p))
| lc_stop p d : is_instant d → lifecycle (Some (Running p)) (Some (Stopping p d))
| lc_exit st er p :
    state_pid st = Some p → exit_reason_typed er →
    lifecycle (Some st) (Some (Stopped (from_exit_reason_and_service_state er st)))
| lc_remove r : lifecycle (Some (Stopped r)) None.

Definition state_at (reg : service_registry) (k : Z) : option service_state :=
  s_state <$> services_map reg !! k.

(** Every entry went through steps of the life cycle. *)
Definition evolves (reg reg' : service_registry) : Prop :=
  ∀ k, rtc lifecycle (state_at reg k) (state_at reg' k).

#[global] Instance evolves_preorder : PreOrder evolves.
Proof. split; [by intros reg k|]. intros r1 r2 r3 H1 H2 k. etrans; [apply H1|apply H2]. Qed.

Lemma evolves_update reg k svc svc' :
  services_map reg !! k = Some svc →
  rtc lifecycle (Some (s_state svc)) (Some (s_state svc')) →
  evolves reg (update_service k svc' reg).
Proof.
  intros Hk Hs k'. unfold state_at, update_service. simpl.
  rewrite lookup_insert. case_decide; [subst; rewrite Hk; exact Hs|done].
Qed.

Lemma evolves_remove reg k svc :
  services_map reg !! k = Some svc → is_stopped svc = true →
  evolves reg (remove_service k reg).
Proof.
  intros Hk Hs k'. unfold state_at, remove_service. simpl.
  rewrite lookup_delete. case_decide; [|done]. subst. rewrite Hk. simpl.
  unfold is_stopped in Hs. destruct (s_state svc); try done. apply rtc_once, lc_remove.
Qed.

Lemma evolves_insert reg svc :
  services_map reg !! s_id svc = None →
  rtc lifecycle None (Some (s_state svc)) →
  evolves reg (insert_service svc reg).
Proof.
  intros Hk Hs k'. unfold state_at, insert_service. simpl.
  rewrite lookup_insert. case_decide; [subst; rewrite Hk; exact Hs|done].
Qed.

Lemma evolves_pids reg pids :
  evolves reg (ServiceRegistry (services_map reg) pids).
Proof. by intros k. Qed.

(** * The invariant *)

(** Every key is the id of its service, which the generator has already
    handed out; [pids_map] is exactly the inverse of [Service::pid]; no two
    services share a name. *)
Record registry_wf (gen : Z) (reg : service_registry) : Prop := {
  wf_keys k svc : services_map reg !! k = Some svc →
    s_id svc = k ∧ 0 ≤ k < gen ∧ service_wf svc;
  wf_pids p k : pids_map reg !! p = Some k ↔
    ∃ svc, services_map reg !! k = Some svc ∧ pid svc = Some p;
  wf_names k1 k2 svc1 svc2 :
    services_map reg !! k1 = Some svc1 → services_map reg !! k2 = Some svc2 →
    s_name svc1 = s_name svc2 → k1 = k2
}.

Section invariant.
Context {K : Type} `{!Platform K} `{!PlatformLaws K}.
Implicit Types (reg : service_registry) (w : world K).

(** With the platform and the trace: every registered pid is a child; the
    registered pids are exactly those forked and not yet reaped, and only
    such processes were ever sent a signal. *)
Definition reg_inv (gen : Z) reg w : Prop :=
  registry_wf gen reg ∧ dom (pids_map reg) ⊆ children (kst w) ∧
  ledger_of w = (dom (pids_map reg), true).

Lemma reg_inv_new gen w : ledger_of w = (∅, true) → reg_inv gen registry_new w.
Proof.
  intros Hw. split_and!; [|set_solver|by rewrite Hw]. split; [done| |done].
  intros p k. simpl. split; [done|]. by intros (svc & H & _).
Qed.

Lemma reg_inv_world gen reg w w' :
  world_le w w' → reg_inv gen reg w → reg_inv gen reg w'.
Proof. intros (Hc & _ & He) (Hwf & Hl & Hled). split_and!; [done|set_solver|congruence]. Qed.

Lemma reg_inv_gen gen gen' reg w : gen ≤ gen' → reg_inv gen reg w → reg_inv gen' reg w.
Proof.
  intros Hg ([Hk Hp Hn] & Hl). split; [|done]. split; [|done..].
  intros k svc H%Hk. naive_solver lia.
Qed.

Lemma reg_inv_service gen reg w k svc :
  reg_inv gen reg w → services_map reg !! k = Some svc →
  s_id svc = k ∧ 0 ≤ k < gen ∧ service_wf svc.
Proof. intros [Hwf _]. apply Hwf. Qed.

Lemma reg_inv_pid gen reg w k svc p :
  reg_inv gen reg w → services_map reg !! k = Some svc → pid svc = Some p →
  pids_map reg !! p = Some k ∧ p ∈ children (kst w) ∧ p ∈ (ledger_of w).1.
Proof.
  intros (Hwf & Hl & Hled) Hk Hp.
  assert (Hpk : pids_map reg !! p = Some k) by (apply (wf_pids _ _ Hwf); eauto).
  assert (Hdom : p ∈ dom (pids_map reg)) by by eapply elem_of_dom_2.
  rewrite Hled. split_and!; [done|by apply Hl|done].
Qed.

Lemma reg_inv_owned gen reg w k svc :
  reg_inv gen reg w → services_map reg !! k = Some svc →
  ∀ svc', s_state svc' = s_state svc → pid_owned svc' w.
Proof.
  intros Hi Hk svc' Hst p Hp. unfold pid in Hp. rewrite Hst in Hp.
  by destruct (reg_inv_pid _ _ _ _ _ _ Hi Hk Hp) as (_ & _ & ?).
Qed.

(** The names are untouched by rewriting a service under its own name. *)
Lemma names_update gen reg k svc svc' :
  registry_wf gen reg → services_map reg !! k = Some svc → s_name svc' = s_name svc →
  ∀ k1 k2 svc1 svc2,
    <[k := svc']> (services_map reg) !! k1 = Some svc1 →
    <[k := svc']> (services_map reg) !! k2 = Some svc2 →
    s_name svc1 = s_name svc2 → k1 = k2.
Proof.
  intros Hwf Hk Hn k1 k2 svc1 svc2.
  rewrite !lookup_insert_Some. intros [[<- <-]|[? ?]] [[<- <-]|[? ?]]; try done;
    intros Heq; eapply (wf_names _ _ Hwf); eauto; congruence.
Qed.

Lemma keys_update gen reg k svc svc' :
  registry_wf gen reg → services_map reg !! k = Some svc →
  s_id svc' = s_id svc → service_wf svc' →
  ∀ k1 svc1, <[k := svc']> (services_map reg) !! k1 = Some svc1 →
    s_id svc1 = k1 ∧ 0 ≤ k1 < gen ∧ service_wf svc1.
Proof.
  intros Hwf Hk Hid Hswf k1 svc1. rewrite lookup_insert_Some.
  intros [[<- <-]|[_ H]]; [|by apply (wf_keys _ _ Hwf)].
  destruct (wf_keys _ _ Hwf _ _ Hk) as (? & ? & ?). by rewrite Hid.
Qed.

(** A change that keeps the identity and the pid of a service. *)
Lemma reg_inv_update gen reg w k svc svc' :
  reg_inv gen reg w → services_map reg !! k = Some svc →
  s_id svc' = s_id svc → s_name svc' = s_name svc → pid svc' = pid svc →
  service_wf svc' → reg_inv gen (update_service k svc' reg) w.
Proof.
  intros [Hwf Hl] Hk Hid Hname Hpid Hswf. split; [split|done]; simpl.
  - by eapply keys_update.
  - intros p k'. rewrite (wf_pids _ _ Hwf).
    setoid_rewrite lookup_insert_Some. split; intros (s & Hs & Hp).
    + destruct (decide (k = k')) as [<-|]; [|by eauto].
      exists svc'. simplify_eq. rewrite Hpid. by auto.
    + destruct Hs as [[<- <-]|[_ Hs]]; [|by eauto]. exists svc. by rewrite <- Hpid.
  - by eapply names_update.
Qed.

(** A start: the service gets a pid that no unreaped child had. *)
Lemma reg_inv_start gen reg w w' k svc p :
  reg_inv gen reg w → services_map reg !! k = Some svc → is_stopped svc = true →
  forked p w w' →
  reg_inv gen (register_pid p k (update_service k (set_state (Running p) svc) reg)) w'.
Proof.
  intros (Hwf & Hl & Hled) Hk Hstop (Hfresh & Hc & _ & Hled').
  assert (Hnone : pid svc = None).
  { unfold pid, is_stopped in *. by destruct (s_state svc). }
  assert (Hnew : pids_map reg !! p = None).
  { apply not_elem_of_dom. set_solver. }
  split; [split|]; simpl.
  - eapply keys_update; [done..|]. by apply (wf_keys _ _ Hwf _ _ Hk).
  - intros q k'. setoid_rewrite lookup_insert_Some. split.
    + intros [[<- <-]|[Hq Hqk]]; [by eexists; split; [by left|]|].
      apply (wf_pids _ _ Hwf) in Hqk as (s & Hs & Hp).
      exists s. split; [right|done]. split; [|done]. intros ->. congruence.
    + intros (s & [[<- <-]|[Hne Hs]] & Hp); [left; by injection Hp as <-|].
      right. assert (pids_map reg !! q = Some k') by (apply (wf_pids _ _ Hwf); eauto).
      split; [|done]. congruence.
  - by eapply names_update.
  - rewrite dom_insert_L. split; [set_solver|]. by rewrite Hled', Hled.
Qed.

(** The end of a process: its pid leaves [pids_map], its service stops. *)
Lemma reg_inv_exit gen reg w w' k svc p r :
  reg_inv gen reg w → services_map reg !! k = Some svc →
  pids_map reg !! p = Some k → children (kst w) ∖ {[p]} ⊆ children (kst w') →
  ledger_of w' = ((ledger_of w).1 ∖ {[p]}, (ledger_of w).2) →
  reg_inv gen (update_service k (set_state (Stopped r) svc)
    (ServiceRegistry (services_map reg) (delete p (pids_map reg)))) w'.
Proof.
  intros (Hwf & Hl & Hled) Hk Hp Hc Hled'.
  assert (Hpid : pid svc = Some p).
  { apply (wf_pids _ _ Hwf) in Hp as (? & ? & ?). by simplify_eq. }
  split; [split|]; simpl.
  - eapply keys_update; [done..|]. by apply (wf_keys _ _ Hwf _ _ Hk).
  - intros q k'. rewrite lookup_delete_Some, (wf_pids _ _ Hwf).
    setoid_rewrite lookup_insert_Some. split.
    + intros (Hq & s & Hs & Hsp). exists s. split; [right|done]. split; [|done].
      intros ->. simplify_eq.
    + intros (s & [[<- <-]|[Hne Hs]] & Hsp); [done|]. split; [|by eauto].
      intros ->. assert (pids_map reg !! q = Some k') by (apply (wf_pids _ _ Hwf); eauto).
      congruence.
  - by eapply names_update.
  - rewrite dom_delete_L. split; [set_solver|]. by rewrite Hled', Hled.
Qed.

(** Removing a stopped service. *)
Lemma reg_inv_remove gen reg w k svc :
  reg_inv gen reg w → services_map reg !! k = Some svc → is_stopped svc = true →
  reg_inv gen (remove_service k reg) w.
Proof.
  intros [Hwf Hl] Hk Hstop. split; [split|done]; simpl.
  - intros k' svc1 [_ H]%lookup_delete_Some. by apply (wf_keys _ _ Hwf).
  - intros p k'. rewrite (wf_pids _ _ Hwf). setoid_rewrite lookup_delete_Some.
    split; [|naive_solver]. intros (s & Hs & Hp). exists s. split; [split|]; [|done..].
    intros ->. simplify_eq. unfold pid, is_stopped in *. by destruct (s_state svc).
  - intros k1 k2 svc1 svc2 [_ H1]%lookup_delete_Some [_ H2]%lookup_delete_Some.
    by apply (wf_names _ _ Hwf).
Qed.

(** Inserting a stopped service under a fresh id and a new name. *)
Lemma reg_inv_insert gen reg w svc :
  reg_inv gen reg w → 0 ≤ gen → s_id svc = gen → is_stopped svc = true → service_wf svc →
  (∀ k svc', services_map reg !! k = Some svc' → s_name svc' ≠ s_name svc) →
  reg_inv (gen + 1) (insert_service svc reg) w.
Proof.
  intros [Hwf Hl] Hg Hid Hstop Hswf Hnames.
  assert (Hfresh : services_map reg !! s_id svc = None).
  { destruct (services_map reg !! s_id svc) as [s|] eqn:H; [|done].
    apply (wf_keys _ _ Hwf) in H. lia. }
  split; [split|done]; simpl.
  - intros k' svc1. rewrite lookup_insert_Some.
    intros [[<- <-]|[_ H]]; [split_and!; [done|lia|lia|apply Hswf..]|].
    apply (wf_keys _ _ Hwf) in H. naive_solver lia.
  - intros p k'. rewrite (wf_pids _ _ Hwf). setoid_rewrite lookup_insert_Some. split.
    + intros (s & Hs & Hp). exists s. split; [right|done]. split; [|done].
      intros <-. congruence.
    + intros (s & [[<- <-]|[_ Hs]] & Hp); [|by eauto].
      exfalso. unfold pid, is_stopped in *. by destruct (s_state svc).
  - intros k1 k2 svc1 svc2. rewrite !lookup_insert_Some.
    intros [[<- <-]|[? H1]] [[<- <-]|[? H2]] Heq; try done.
    + by destruct (Hnames _ _ H2).
    + by destruct (Hnames _ _ H1).
    + by eapply (wf_names _ _ Hwf).
Qed.
End invariant.

(** * Safe computations on the registry *)

Section safe.
Context {K : Type} `{!Platform K} `{!PlatformLaws K}.
Implicit Types (reg : service_registry) (w : world K).

(** What every handler guarantees, however it ends: the invariant, the
    life cycle of each entry, a longer trace, no panic. *)
Definition safe {E A} (gen : Z) reg w (o : outcome E A) reg' w' : Prop :=
  reg_inv gen reg' w' ∧ evolves reg reg' ∧ trace w `prefix_of` trace w' ∧
  (∀ msg, o ≠ Panic msg).

Lemma safe_trans {E F A B} gen reg w (o1 : outcome E A) reg1 w1 (o : outcome F B) reg' w' :
  safe gen reg w o1 reg1 w1 → safe gen reg1 w1 o reg' w' → safe gen reg w o reg' w'.
Proof. intros (? & ? & ? & _) (? & ? & ? & ?). split_and!; [done|by etrans|by etrans|done]. Qed.

Lemma safe_events {E F A B} gen gen' reg w (o1 : outcome E A) reg1 w1 (o : outcome F B) reg' w' :
  safe gen reg w o1 reg1 w1 → safe gen' reg1 w1 o reg' w' →
  events w w1 ⊆ events w w' ∧ events w1 w' ⊆ events w w'.
Proof. intros (_ & _ & ? & _) (_ & _ & ? & _). by split; apply events_sub. Qed.

Lemma safe_refl {E A} gen reg w (o : outcome E A) :
  reg_inv gen reg w → (∀ msg, o ≠ Panic msg) → safe gen reg w o reg w.
Proof. done. Qed.

(** Only the way the computation ends differs. *)
Lemma safe_outcome {E F A B} gen reg w (o : outcome E A) (o' : outcome F B) reg' w' :
  safe gen reg w o reg' w' → (∀ msg, o' ≠ Panic msg) → safe gen reg w o' reg' w'.
Proof. intros (? & ? & ? & _) ?. done. Qed.

Lemma safe_world {E A} gen reg w (o : outcome E A) w' :
  reg_inv gen reg w → world_le w w' → (∀ msg, o ≠ Panic msg) → safe gen reg w o reg w'.
Proof.
  intros Hi Hle Ho. split_and!; [by eapply reg_inv_world|done|apply Hle|done].
Qed.

(** After other calls. *)
Lemma safe_base {E A} gen reg w w1 (o : outcome E A) reg' w' :
  world_le w w1 → safe gen reg w1 o reg' w' → safe gen reg w o reg' w'.
Proof. intros (_ & Ht & _) (? & ? & Ht' & ?). split_and!; [done|done|by etrans|done]. Qed.

(** After a log message. *)
Lemma wp_svlogg_reg {E A} gen level msg (k : @M K service_registry E A)
    (Φ : outcome E A → service_registry → world K → Prop) reg w :
  reg_inv gen reg w →
  (∀ w1, says level msg w w1 → reg_inv gen reg w1 → wp k Φ reg w1) →
  wp (svlogg level msg ;;! k) Φ reg w.
Proof.
  intros Hi Hk. wp_step. apply wp_svlogg. intros w1 Hw. apply Hk; [done|].
  destruct (says_calm _ _ _ _ Hw) as [Hle _]. by eapply reg_inv_world.
Qed.

(** The message is no part of what the events justify. *)
Lemma wp_svlogg_then {E A} gen level msg (k : @M K service_registry E A)
    (Q : list event → outcome E A → service_registry → Prop) reg w :
  (∀ evs evs' o reg', evs ⊆ evs' → Q evs o reg' → Q evs' o reg') →
  reg_inv gen reg w →
  (∀ w1, reg_inv gen reg w1 →
    wp k (λ o reg' w', safe gen reg w1 o reg' w' ∧ Q (events w1 w') o reg') reg w1) →
  wp (svlogg level msg ;;! k)
    (λ o reg' w', safe gen reg w o reg' w' ∧ Q (events w w') o reg') reg w.
Proof.
  intros Hmono Hi Hk. eapply wp_svlogg_reg; [done|]. intros w1 [Hle _]%says_calm Hi1.
  eapply wp_mono; [by apply Hk|]. intros o reg' w' [Hsafe HQ].
  split; [by eapply safe_base|]. eapply Hmono; [|done].
  apply events_sub; [apply Hle|apply Hsafe|done].
Qed.

(** Rewriting a borrowed service without changing its identity or pid. *)
Lemma safe_update {E A} gen reg w (o : outcome E A) k svc svc' w' :
  reg_inv gen reg w → services_map reg !! k = Some svc →
  s_id svc' = s_id svc → s_name svc' = s_name svc → pid svc' = pid svc →
  service_wf svc' →
  rtc lifecycle (Some (s_state svc)) (Some (s_state svc')) →
  world_le w w' → (∀ msg, o ≠ Panic msg) →
  safe gen reg w o (update_service k svc' reg) w'.
Proof.
  intros Hi Hk Hid Hname Hpid Hwf Hlc Hle Ho.
  split_and!; [|by eapply evolves_update|apply Hle|done].
  eapply reg_inv_world; [done|]. by eapply reg_inv_update.
Qed.

Lemma update_service_id reg k svc :
  services_map reg !! k = Some svc → update_service k svc reg = reg.
Proof.
  intros Hk. destruct reg as [services pids]. unfold update_service. simpl in *.
  by rewrite insert_id.
Qed.

Lemma update_service_twice reg k svc svc' :
  update_service k svc (update_service k svc' reg) = update_service k svc reg.
Proof. unfold update_service. simpl. by rewrite insert_insert_eq. Qed.

(** The registry after a successful start. *)
Definition started (k p : Z) (svc : service) reg : service_registry :=
  register_pid p k (update_service k (set_state (Running p) svc) reg).

Lemma safe_started {E A} gen reg w (o : outcome E A) k p svc w' :
  reg_inv gen reg w → services_map reg !! k = Some svc → is_stopped svc = true →
  0 < p → forked p w w' → (∀ msg, o ≠ Panic msg) →
  safe gen reg w o (started k p svc reg) w'.
Proof.
  intros Hi Hk Hs Hp Hf Ho. split_and!; [by eapply reg_inv_start| |apply Hf|done].
  etrans; [|apply evolves_pids]. eapply evolves_update; [done|]. unfold is_stopped in Hs.
  destruct (s_state svc); try done. by apply rtc_once, lc_start.
Qed.

(** [start_borrowed] on a stopped service: the pid is not registered yet. *)
Definition start_borrowed_post (k : Z) (svc : service) reg w
    (o : outcome io_error Z) reg' w' : Prop :=
  kills w' = kills w ∧
  match o with
  | Ok p => 0 < p ∧ did_fork p (events w w') ∧
      reg' = update_service k (set_state (Running p) svc) reg ∧ forked p w w'
  | Err _ => reg' = reg ∧ start_refused (s_config svc) (events w w') ∧ world_le w w'
  | _ => False
  end.

Lemma wp_start_borrowed k svc sigset reg w :
  services_map reg !! k = Some svc →
  wp (start_borrowed k sigset) (start_borrowed_post k svc reg w) reg w.
Proof.
  intros Hk. unfold start_borrowed. eapply wp_on_service; [done|].
  wp_step. eapply wp_mono; [apply wp_start_service|].
  intros o svc' w' (Hkills & Ho). destruct o as [[]|e| | |]; simpl; try done.
  - destruct Ho as (p & Hp & ? & -> & Hf). eapply wp_running_pid; [done|]. by split.
  - destruct Ho as (-> & ? & Hc). by rewrite update_service_id.
Qed.

(** A start of a stopped service, its pid registered. *)
Definition start_registered_post (k : Z) (svc : service) reg w
    (o : outcome io_error unit) reg' w' : Prop :=
  kills w' = kills w ∧
  match o with
  | Ok _ => ∃ p, 0 < p ∧ did_fork p (events w w') ∧ reg' = started k p svc reg
  | Err _ => reg' = reg ∧ start_refused (s_config svc) (events w w')
  | _ => False
  end.

(** The pid is registered at the end, whatever [announce] says first. *)
Lemma wp_start_registered gen k svc sigset (announce : Z → @M K service_registry io_error unit)
    reg w :
  reg_inv gen reg w → services_map reg !! k = Some svc → is_stopped svc = true →
  (∀ p, talks (announce p)) →
  wp (let! svc_pid := start_borrowed k sigset in
      announce svc_pid ;;! modify (register_pid svc_pid k))
    (λ o reg' w', safe gen reg w o reg' w' ∧ start_registered_post k svc reg w o reg' w')
    reg w.
Proof.
  intros Hi Hk Hs Htalks. wp_step. eapply wp_mono; [by apply wp_start_borrowed|].
  intros o reg1 w1 (Hkills & Ho). destruct o as [p|e| | |]; simpl; try done.
  - destruct Ho as (Hp & Hfork & -> & Hf). wp_step. apply Htalks. intros w2 Hw%logged_calm. wp_steps.
    split; [apply safe_started; try done; by eapply forked_calm|].
    split; [by rewrite (proj2 Hw)|]. exists p. split_and!; [done| |done].
    eapply did_fork_mono; [|done]. apply events_sub; [done|apply Hf|apply Hw].
  - destruct Ho as (-> & Href & Hc). split; [|done]. by apply safe_world.
Qed.

(** [stop_service] on a borrowed service, for a service that may have been
    touched ([svc1]) just before. *)
Lemma safe_stop gen reg w k svc svc1 o svc' w' :
  reg_inv gen reg w → services_map reg !! k = Some svc →
  s_id svc1 = s_id svc → s_name svc1 = s_name svc → s_state svc1 = s_state svc →
  service_wf svc1 →
  stop_post svc1 w o svc' w' → safe gen reg w o (update_service k svc' reg) w'.
Proof.
  intros Hi Hk Hid Hname Hst Hwf [Hle Hpost].
  assert (Hno : ∀ msg, o ≠ Panic msg).
  { intros msg ->. by destruct (s_state svc1). }
  destruct (s_state svc1) as [r|p|p d] eqn:Hst1; destruct o as [[]|[e| |]| | |]; try done;
    decompose_ctx; subst svc'; eapply safe_update; try done; unfold pid; rewrite ?Hst1, <- ?Hst;
    simpl; auto using rtc_refl, rtc_once, lc_stop.
  all: rewrite ?Hst1; done.
Qed.
End safe.

(** * Properties *)

(** C32.  Under the invariant the pid index is sound and complete: looking a
    pid up yields the one service that runs under it, and taking it yields
    that service and leaves an index that has exactly the other pids. *)
Theorem pid_index_spec gen reg p :
  registry_wf gen reg →
  (∀ svc, get_by_pid reg p = Some svc ↔
     services_map reg !! s_id svc = Some svc ∧ pid svc = Some p) ∧
  (∀ k, (take_by_pid p reg).1 = Some k ↔
     ∃ svc, services_map reg !! k = Some svc ∧ pid svc = Some p) ∧
  services_map (take_by_pid p reg).2 = services_map reg ∧
  (∀ q k, pids_map (take_by_pid p reg).2 !! q = Some k ↔
     q ≠ p ∧ ∃ svc, services_map reg !! k = Some svc ∧ pid svc = Some q).
Proof.
  intros Hwf. pose proof (wf_pids _ _ Hwf) as Hpids. unfold get_by_pid, take_by_pid.
  destruct (pids_map reg !! p) as [k|] eqn:Hp; simpl.
  - pose proof Hp as (svc & Hk & Hpid)%Hpids. rewrite Hk. split_and!; [| |done|].
    + intros svc'. split.
      * intros [= <-]. by destruct (wf_keys _ _ Hwf _ _ Hk) as [-> _].
      * intros [Hs' Hp']. assert (pids_map reg !! p = Some (s_id svc')) by (apply Hpids; eauto).
        simplify_eq. congruence.
    + intros k'. rewrite <- Hpids, Hp. done.
    + intros q k'. rewrite lookup_delete_Some, Hpids. naive_solver.
  - assert (Hnone : ∀ k svc, services_map reg !! k = Some svc → pid svc ≠ Some p).
    { intros k svc Hk Hs. assert (pids_map reg !! p = Some k) by (apply Hpids; eauto). congruence. }
    split_and!; [| |done|].
    + intros svc. split; [done|]. intros [Hk Hs]. by destruct (Hnone _ _ Hk).
    + intros k. split; [done|]. intros (svc & Hk & Hs). by destruct (Hnone _ _ Hk).
    + intros q k. rewrite Hpids. split; [|naive_solver]. intros (svc & Hk & Hs).
      split; [|by eauto]. intros ->. by destruct (Hnone _ _ Hk).
Qed.

(** * A registry of the simulated platform *)

(** One service, running under its pid if it has one. *)
Definition sim_reg (svc : service) : service_registry :=
  ServiceRegistry {[s_id svc := svc]}
    (match pid svc with Some p => {[p := s_id svc]} | None => ∅ end).

Lemma sim_reg_wf st a : registry_wf 1 (sim_reg (sim_svc st a)).
Proof.
  split; simpl.
  - intros k svc [<- <-]%lookup_singleton_Some. split_and!; [done|simpl; lia..|].
    apply sim_svc_wf.
  - intros p k. setoid_rewrite lookup_singleton_Some.
    destruct (pid (sim_svc st a)) as [q|] eqn:Hq.
    + rewrite lookup_singleton_Some. naive_solver congruence.
    + split; [done|]. naive_solver congruence.
  - by intros k1 k2 svc1 svc2 [<- <-]%lookup_singleton_Some [<- <-]%lookup_singleton_Some.
Qed.

Lemma sim_reg_inv st a :
  (∀ p, state_pid st = Some p → 0 < p < 2 ^ 31) →
  reg_inv 1 (sim_reg (sim_svc st a)) (sim_world_of (sim_svc st a)).
Proof.
  intros Hpos. split; [apply sim_reg_wf|]. unfold sim_reg, sim_world_of, pid. simpl.
  destruct (state_pid st) as [p|]; [|split; [set_solver|by rewrite dom_empty_L]].
  specialize (Hpos p eq_refl). rewrite dom_singleton_L. split.
  { intros q ->%elem_of_singleton. apply elem_of_sim_pids. split; [by left|done]. }
  unfold ledger_of. simpl. rewrite bool_decide_true by lia.
  f_equal. set_solver.
Qed.

Lemma pid_index_spec_witness :
  get_by_pid (sim_reg (sim_svc (Running 100) ServicePendingAction.None)) 100 =
    Some (sim_svc (Running 100) ServicePendingAction.None).
Proof.
  apply (pid_index_spec 1 (sim_reg (sim_svc (Running 100) ServicePendingAction.None)) 100).
  - apply sim_reg_wf.
  - split; reflexivity.
Defined.
