(* ===== verification/Ledger.v ===== *)
(** The ledger of the children, in terms of the trace: which processes it
    counts as unreaped, and that every signal went to one of them. *)
From S2P Require Import Prelude Utils Data Platform Monad Service.
Local Open Scope Z_scope.

Section ledger.
Context {K : Type} `{!Platform K}.

Abbreviation accounts := (foldl account (∅, true)).

(** [p] was forked, and [wait] did not report its end since. *)
Definition unreaped (p : Z) (evs : list event) : Prop :=
  ∃ before e since, evs = before ++ Ev SFork (p, e) :: since ∧ 0 < p ∧
    ∀ st, ws_final st = true → (p, st) ∉ waits since.

Lemma unreaped_app p evs ev :
  (∀ st, ws_final st = true → wait_of ev ≠ Some (p, st)) →
  unreaped p evs → unreaped p (evs ++ [ev]).
Proof.
  intros Hev (before & e & since & -> & Hp & Hs). exists before, e, (since ++ [ev]).
  rewrite <- app_assoc. split_and!; [done..|]. intros st Hst. unfold waits.
  rewrite omap_app, elem_of_app. intros [Hin|Hin]; [by apply (Hs st)|].
  simpl in Hin. apply (Hev st Hst). destruct (wait_of ev) as [x|]; set_solver.
Qed.

Lemma unreaped_snoc_inv p evs ev :
  unreaped p (evs ++ [ev]) →
  (∃ e, ev = Ev SFork (p, e) ∧ 0 < p) ∨
  unreaped p evs ∧ ∀ st, ws_final st = true → wait_of ev ≠ Some (p, st).
Proof.
  intros (before & e & since & Heq & Hp & Hs).
  destruct since as [|ev' since _] using rev_ind.
  - apply app_inj_tail in Heq as [_ ->]. left. by exists e.
  - rewrite app_comm_cons, app_assoc in Heq. apply app_inj_tail in Heq as [-> ->]. right.
    unfold waits in Hs. setoid_rewrite omap_app in Hs. split.
    + exists before, e, since. split_and!; [done..|]. intros st Hst Hin.
      apply (Hs st Hst), elem_of_app. by left.
    + intros st Hst Hw. apply (Hs st Hst), elem_of_app. right. simpl. rewrite Hw. by left.
Qed.

Lemma fork_event_inj (x y : Z * Z) : Ev SFork x = Ev SFork y → x = y.
Proof.
  intros Heq. apply (f_equal (λ ev,
    match ev with
    | Ev op r => match op in sysop A return A → option (Z * Z) with
                 | SFork => Some | _ => λ _, None end r
    end)) in Heq. by injection Heq.
Qed.

(** The first component of the ledger. *)
Lemma ledger_unreaped evs p : p ∈ (accounts evs).1 ↔ unreaped p evs.
Proof.
  induction evs as [|ev evs IH] using rev_ind.
  { simpl. split; [set_solver|]. intros (before & e & since & Heq & _). by destruct before. }
  rewrite foldl_app. simpl.
  assert (Hsame : (∀ st, ws_final st = true → wait_of ev ≠ Some (p, st)) →
    (∀ e, ev = Ev SFork (p, e) → ¬ 0 < p) →
    (p ∈ (account (accounts evs) ev).1 ↔ p ∈ (accounts evs).1) →
    p ∈ (account (accounts evs) ev).1 ↔ unreaped p (evs ++ [ev])).
  { intros Hw Hf ->. rewrite IH. split; [by apply unreaped_app|].
    intros [(e & He & Hp)|[? _]]%unreaped_snoc_inv; [by destruct (Hf e)|done]. }
  destruct ev as [A op r]. destruct op; try (apply Hsame; [done|done|done]).
  - (* wait *)
    destruct r as [[[q st]|]|e]; [|by apply Hsame..].
    destruct (decide (q = p ∧ ws_final st = true)) as [[-> Hst]|Hne].
    + simpl. rewrite Hst. simpl. split; [set_solver|].
      intros [(e & He & _)|[_ Hw]]%unreaped_snoc_inv; [done|]. by destruct (Hw st).
    + apply Hsame; [|done|].
      * intros st' Hst' [= -> ->]. by apply Hne.
      * simpl. destruct (ws_final st) eqn:Hst; [|done]. simpl.
        split; [set_solver|]. intros Hin. apply elem_of_difference. split; [done|].
        intros ->%elem_of_singleton. by apply Hne.
  - (* fork *)
    destruct r as [q e]. simpl. case_bool_decide as Hq.
    + simpl. destruct (decide (q = p)) as [->|Hne].
      * split; [|set_solver]. intros _. exists evs, e, []. split_and!; [done..|set_solver].
      * rewrite elem_of_union, elem_of_singleton, IH. split.
        -- intros [->|Hin]; [done|]. by apply unreaped_app.
        -- intros [(e' & [= -> ->]%fork_event_inj & _)|[? _]]%unreaped_snoc_inv; [done|by right].
    + rewrite IH. split; [by apply unreaped_app|].
      intros [(e' & [= -> ->]%fork_event_inj & ?)|[? _]]%unreaped_snoc_inv; [lia|done].
Qed.

(** The second component of the ledger. *)
Lemma ledger_targets evs :
  (accounts evs).2 = true →
  ∀ before p sig r since, evs = before ++ Ev (SKill p sig) r :: since → unreaped p before.
Proof.
  induction evs as [|ev evs IH] using rev_ind; [by intros _ [|]|].
  rewrite foldl_app. simpl. intros Hacc before p sig r since Heq.
  assert (Hprev : (accounts evs).2 = true).
  { destruct ev as [A op x]. destruct op; simpl in Hacc; try done.
    - by apply andb_true_iff in Hacc as [? _].
    - destruct x as [[[q st]|]|e]; try done. by destruct (ws_final st).
    - destruct x as [q e]. simpl in *. by case_bool_decide. }
  destruct since as [|ev' since _] using rev_ind.
  - apply app_inj_tail in Heq as [-> ->]. simpl in Hacc.
    apply andb_true_iff in Hacc as [_ Hin%bool_decide_eq_true]. by apply ledger_unreaped.
  - rewrite app_comm_cons, app_assoc in Heq. apply app_inj_tail in Heq as [-> _].
    by eapply IH.
Qed.
End ledger.
