(* ===== verification/Handlers.v ===== *)
(** The handlers that change the registry: control operations and the
    SIGCHLD handler of service.rs, and the three loops over the registry in
    [run] of main.rs (initial start, timer tick, shutdown request). *)
From S2P Require Import Prelude Utils Bytes Data Platform Monad Sim Logging.
From S2P Require Import Signalfd Control Service Registry.
Local Open Scope Z_scope.
Local Open Scope svlopp_scope.

Section handlers.
Context {K : Type} `{!Platform K}.
Abbreviation M := (@M K).

(** The start that [apply_control_op] asks for; the id is the one of the
    service it borrowed. *)
Definition start_requested (svc_id own_id sigset : Z) (name : string) :
    M service_registry io_error unit :=
  let! svc_pid := start_borrowed svc_id sigset in
  svlogg LogLevel.Info
    ("started service '" +:+ name +:+ "' with pid " +:+ pid_text svc_pid) ;;!
  modify (register_pid svc_pid own_id).

(** [apply_control_op]. *)
Definition apply_control_op (svc_id : Z) (op : control_op) (sigset : Z) :
    M service_registry io_error unit :=
  let! reg := get in
  match service_mut reg svc_id with
  | Some svc =>
      let own_id := s_id svc in
      match op with
      | ControlOp.Stop =>
          if state_is_running (s_state svc) then
            svlogg LogLevel.Info ("stopping service '" +:+ s_name svc +:+ "'") ;;!
            on_service svc_id stop_service
          else ret tt
      | ControlOp.Start =>
          if state_is_stopped (s_state svc) &&
             ServicePendingAction.is_none (s_pending_action svc)
          then start_requested svc_id own_id sigset (s_name svc)
          else ret tt
      | ControlOp.Restart =>
          match s_state svc with
          | Stopped _ =>
              if ServicePendingAction.is_none (s_pending_action svc)
              then start_requested svc_id own_id sigset (s_name svc)
              else ret tt
          | Running _ =>
              if ServicePendingAction.is_none (s_pending_action svc)
              then
                svlogg LogLevel.Info ("service '" +:+ s_name svc +:+ "' will be restarted") ;;!
                on_service svc_id
                  (modify (set_pending_action ServicePendingAction.Restart) ;;!
                   stop_service)
              else ret tt
          | Stopping _ _ => ret tt
          end
      end
  | None => svlogg LogLevel.Warn ("unkown service id: " +:+ display svc_id)
  end.

(** The arm of [handle_sigchld] for a status that ends a known service:
    its process group is killed (whatever the result), then it stops. *)
Definition reap_service (p : Z) (er : exit_reason) : M service io_error unit :=
  let! svc := get in
  let stop_reason := from_exit_reason_and_service_state er (s_state svc) in
  (if bool_decide (stop_reason = NeverStarted)
   then panic "reaped service that was never started" else ret tt) ;;!
  let! killed := sys (SKillPg p SIGKILL) in
  match killed with
  | ROk _ => ret tt
  | RErr e =>
      if bool_decide (e = ESRCH) then ret tt
      else svlogg LogLevel.Warn ("failed to clean service '" +:+ s_name svc +:+
                                 "' orphans: " +:+ errno_text e)
  end ;;!
  modify (set_state (Stopped stop_reason)) ;;!
  svlogg LogLevel.Info
    ("service '" +:+ s_name svc +:+ "' exited: " +:+ exit_reason_debug er).

(** The body of the loop of [handle_sigchld], for one reported status. *)
Definition handle_status (p status : Z) : M service_registry io_error unit :=
  let! er := from_wait_status status in
  match er with
  | Some exit_reason =>
      let! reg := get in
      let taken := take_by_pid p reg in
      modify (λ _, taken.2) ;;!
      match taken.1 with
      | Some svc_id => on_service svc_id (reap_service p exit_reason)
      | None => svlogg LogLevel.Info
          ("reaped unknown pid " +:+ pid_text p +:+ " (likely adopted descendant)")
      end
  | None =>
      let! reg := get in
      match get_by_pid reg p with
      | Some svc => svlogg LogLevel.Warn
          ("service '" +:+ s_name svc +:+ "' exited with status " +:+
           wait_status_debug status)
      | None => svlogg LogLevel.Warn ("`waitpid` got unknown pid: " +:+ pid_text p)
      end
  end.

(** [handle_sigchld]: [fuel] bounds the number of [wait] calls. *)
Fixpoint handle_sigchld (fuel : nat) : M service_registry io_error unit :=
  match fuel with
  | O => out_of_fuel
  | S fuel' =>
      let! r := sys SWait in
      match r with
      | ROk (Some (p, status)) => handle_status p status ;;! handle_sigchld fuel'
      | ROk None => ret tt
      | RErr e => if bool_decide (e = ECHILD) then ret tt else throw (OsError e)
      end
  end.

(** The keys of [services_map], in the order of one iteration. *)
Definition service_keys {E} : M service_registry E (list Z) :=
  let! entries := services in
  ret entries.*1.

(** [match start_service(svc, ..)] in a loop over the services: log and
    register the pid, or log the error.  The messages are the caller's. *)
Definition try_start {E} (ok_text : string → Z → string)
    (err_text : string → io_error → string) (svc_id sigset : Z) :
    M service_registry E unit :=
  let! r := catch (on_service svc_id (start_service sigset)) in
  let! svc := on_service svc_id get in
  match r with
  | ROk _ =>
      let! svc_pid := on_service svc_id running_pid in
      svlogg LogLevel.Info (ok_text (s_name svc) svc_pid) ;;!
      modify (register_pid svc_pid svc_id)
  | RErr e => svlogg LogLevel.Error (err_text (s_name svc) e)
  end.

(** The initial start of every service in [run]. *)
Definition start_all {E} (sigset : Z) : M service_registry E unit :=
  let! keys := service_keys in
  for_each keys (λ svc_id,
    try_start
      (λ name p, "started service '" +:+ name +:+ "' with pid " +:+ pid_debug p)
      (λ name e, "failed to start service '" +:+ name +:+ "': " +:+ io_error_text e)
      svc_id sigset).

(** The body of the loop of a shutdown request: a failure to stop is only
    logged. *)
Definition stop_entry {E} (svc_id : Z) : M service_registry E unit :=
  let! r := catch (on_service svc_id stop_service) in
  match r with
  | ROk _ => ret tt
  | RErr e =>
      let! svc := on_service svc_id get in
      svlogg LogLevel.Error
        ("failed to stop service '" +:+ s_name svc +:+ "': " +:+ io_error_text e)
  end.

(** The shutdown request of [run]. *)
Definition stop_all {E} : M service_registry E unit :=
  let! keys := service_keys in
  for_each keys stop_entry.

(** [run]'s choice between the pending action and the fallback. *)
Definition effective_action (stop_reason : service_stop_reason)
    (pending fallback : service_pending_action) : service_pending_action :=
  match pending with
  | ServicePendingAction.None =>
      match stop_reason with
      | NeverStarted | SupervisorTerminated _ => ServicePendingAction.None
      | _ => fallback
      end
  | p => p
  end.

(** The closure that [run] passes to [retain] on a timer tick; it returns
    whether the service is kept. *)
Definition tick_service {E} (now sigset svc_id : Z) (svc : service) :
    M service_registry E bool :=
  match s_state svc with
  | Stopping p kill_deadline =>
      if bool_decide (now >= kill_deadline) then
        let! r := catch (force_kill_service_process p) in
        match r with
        | ROk _ => ret tt
        | RErr e => svlogg LogLevel.Error
            ("failed to kill service '" +:+ s_name svc +:+ "': " +:+ io_error_text e)
        end ;;!
        ret true
      else ret true
  | Stopped stop_reason =>
      let pending := effective_action stop_reason (s_pending_action svc)
                       (fallback_pending_action svc) in
      on_service svc_id (modify (λ s, (take_pending_action s).2)) ;;!
      match pending with
      | ServicePendingAction.None => ret true
      | ServicePendingAction.Remove =>
          svlogg LogLevel.Info ("removed service '" +:+ s_name svc +:+ "'") ;;!
          ret false
      | ServicePendingAction.Restart =>
          try_start
            (λ name p, "restarted service '" +:+ name +:+ "', with pid " +:+ pid_text p)
            (λ name e, "failed to restart service '" +:+ name +:+ "': " +:+ io_error_text e)
            svc_id sigset ;;!
          ret true
      end
  | Running _ => ret true
  end.

(** [services_map.retain(..)] on a timer tick at [now]: an entry for which
    the closure returns [false] is removed. *)
Definition tick_entry {E} (now sigset svc_id : Z) : M service_registry E unit :=
  let! reg := get in
  match service_mut reg svc_id with
  | Some svc =>
      let! keep := tick_service now sigset svc_id svc in
      if (keep : bool) then ret tt else modify (remove_service svc_id)
  | None => ret tt
  end.

Definition handle_tick {E} (now sigset : Z) : M service_registry E unit :=
  let! keys := service_keys in
  for_each keys (tick_entry now sigset).
End handlers.

(** * Control operations *)

Section control_ops.
Context {K : Type} `{!Platform K} `{!PlatformLaws K}.

Lemma on_service_stop gen k svc f reg (w : world K) :
  reg_inv gen reg w → services_map reg !! k = Some svc →
  s_id (f svc) = s_id svc → s_name (f svc) = s_name svc →
  s_state (f svc) = s_state svc → (service_wf svc → service_wf (f svc)) →
  wp (on_service k (modify f ;;! stop_service))
    (λ o reg' w', safe gen reg w o reg' w' ∧
       ∃ svc', stop_post (f svc) w o svc' w' ∧ reg' = update_service k svc' reg) reg w.
Proof.
  intros Hi Hk Hid Hname Hst Hwf.
  destruct (reg_inv_service _ _ _ _ _ Hi Hk) as (_ & _ & Hsvc%Hwf).
  eapply wp_on_service; [done|]. wp_steps.
  eapply wp_mono;
    [apply wp_stop_service; [apply Hsvc|by eapply reg_inv_owned]|].
  intros o svc' w' Hpost. split; [|by eauto].
  by eapply safe_stop.
Qed.

(** A log message, then [stop_service] on the service, touched by [f]. *)
Lemma say_then_stop gen k svc f level msg reg (w : world K) :
  reg_inv gen reg w → services_map reg !! k = Some svc →
  s_id (f svc) = s_id svc → s_name (f svc) = s_name svc →
  s_state (f svc) = s_state svc → (service_wf svc → service_wf (f svc)) →
  wp (svlogg level msg ;;! on_service k (modify f ;;! stop_service))
    (λ o reg' w', safe gen reg w o reg' w' ∧
       ∃ w1 svc', says level msg w w1 ∧ stop_post (f svc) w1 o svc' w' ∧
         reg' = update_service k svc' reg) reg w.
Proof.
  intros Hi Hk ????. eapply wp_svlogg_reg; [done|]. intros w1 Hw Hi1.
  eapply wp_mono; [by apply (on_service_stop gen k svc f)|].
  intros o reg' w' [Hsafe (svc' & Hpost & ->)].
  destruct (says_calm _ _ _ _ Hw) as [Hle _].
  split; [by eapply safe_base|]. by exists w1, svc'.
Qed.

(** The effect of an operation on the service it names, by its state and
    its pending action. *)
Definition control_effect (op : control_op) (k : Z) (svc : service) reg (w : world K)
    (o : outcome io_error unit) reg' w' : Prop :=
  match op, s_state svc, s_pending_action svc with
  | ControlOp.Stop, Running _, _ =>
      ∃ w1 svc', says LogLevel.Info ("stopping service '" +:+ s_name svc +:+ "'") w w1 ∧
        stop_post svc w1 o svc' w' ∧ reg' = update_service k svc' reg
  | ControlOp.Start, Stopped _, ServicePendingAction.None
  | ControlOp.Restart, Stopped _, ServicePendingAction.None =>
      start_registered_post k svc reg w o reg' w'
  | ControlOp.Restart, Running _, ServicePendingAction.None =>
      ∃ w1 svc', says LogLevel.Info ("service '" +:+ s_name svc +:+ "' will be restarted") w w1 ∧
        stop_post (set_pending_action ServicePendingAction.Restart svc) w1 o svc' w' ∧
        reg' = update_service k svc' reg
  | _, _, _ => o = Ok tt ∧ reg' = reg ∧ w' = w
  end.

Lemma wp_apply_control_op gen k op sigset reg (w : world K) :
  reg_inv gen reg w →
  wp (apply_control_op k op sigset)
    (λ o reg' w', safe gen reg w o reg' w' ∧
       match services_map reg !! k with
       | Some svc => control_effect op k svc reg w o reg' w'
       | None => o = Ok tt ∧ reg' = reg ∧
           says LogLevel.Warn ("unkown service id: " +:+ display k) w w'
       end) reg w.
Proof.
  intros Hi. unfold apply_control_op. wp_steps. unfold service_mut.
  destruct (services_map reg !! k) as [svc|] eqn:Hk;
    [|apply wp_svlogg; intros w' Hw; split; [|done];
      by apply safe_world; [|apply (says_calm _ _ _ _ Hw)|]].
  destruct (reg_inv_service _ _ _ _ _ Hi Hk) as (-> & _ & _).
  unfold control_effect.
  destruct op, (s_state svc) as [r|p|p d] eqn:Hst, (s_pending_action svc) eqn:Hpend; simpl;
    try (wp_step; split; [by apply safe_refl|done]);
    try (apply wp_start_registered;
      [done..|unfold is_stopped; by rewrite Hst|intros p; apply talks_svlogg]);
    try (by apply (say_then_stop gen k svc));
    by apply (say_then_stop gen k svc (λ x, x)).
Qed.

(** A control operation leaves every other service alone, and of the
    service it names it changes at most the state and, for [Restart], the
    pending action. *)
Lemma control_effect_frame gen op k svc reg (w : world K) o reg' w' :
  reg_inv gen reg w → services_map reg !! k = Some svc →
  control_effect op k svc reg w o reg' w' →
  (∀ k', k' ≠ k → services_map reg' !! k' = services_map reg !! k') ∧
  ∃ svc', services_map reg' !! k = Some svc' ∧ s_config svc' = s_config svc ∧
    (op ≠ ControlOp.Restart ∨ s_pending_action svc ≠ ServicePendingAction.None →
      s_pending_action svc' = s_pending_action svc) ∧
    (is_stopped svc = true → s_pending_action svc ≠ ServicePendingAction.None → svc' = svc).
Proof.
  intros Hi Hk. unfold control_effect, start_registered_post, stop_post, is_stopped.
  destruct op, (s_state svc) as [r|p|p d] eqn:Hst, (s_pending_action svc) eqn:Hpend;
    simpl; rewrite ?Hst; intros Heff; destruct o as [[]|[e| |]| | |];
    decompose_ctx; subst; try done; simpl;
    (split; [intros k' Hk'; by rewrite ?lookup_insert_ne by done|]);
    (eexists; split; [first [apply lookup_insert_eq|exact Hk]|]); simpl;
    rewrite ?Hpend; intuition congruence.
Qed.
End control_ops.

(** * Reaping *)

Section sigchld.
Context {K : Type} `{!Platform K} `{!PlatformLaws K}.

(** The first end reported for a process. *)
Definition first_exit (p : Z) (reports : list (Z * Z)) : option exit_reason :=
  head (omap (λ r, if bool_decide (r.1 = p) then exit_reason_of r.2 else None) reports).

(** What a batch of reports makes of a service: it stops when the end of
    its process is among them, with the reason that its state gives. *)
Definition reap_of (reports : list (Z * Z)) (svc : service) : service :=
  match pid svc with
  | Some p =>
      match first_exit p reports with
      | Some er =>
          set_state (Stopped (from_exit_reason_and_service_state er (s_state svc))) svc
      | None => svc
      end
  | None => svc
  end.

Lemma reap_of_nil svc : reap_of [] svc = svc.
Proof. unfold reap_of. by destruct (pid svc). Qed.

Lemma reap_of_stopped reports svc : pid svc = None → reap_of reports svc = svc.
Proof. unfold reap_of. by intros ->. Qed.

Lemma reap_of_cons r reports svc :
  reap_of (r :: reports) svc = reap_of reports (reap_of [r] svc).
Proof.
  unfold reap_of at 1 3, first_exit. simpl.
  destruct (pid svc) as [p|] eqn:Hp; [|by rewrite reap_of_stopped].
  destruct (bool_decide (r.1 = p)), (exit_reason_of r.2); simpl;
    try (unfold reap_of; by rewrite Hp).
  by rewrite reap_of_stopped.
Qed.

Lemma stop_reason_never er st :
  from_exit_reason_and_service_state er st ≠ NeverStarted.
Proof. destruct er; simpl; repeat case_match; done. Qed.

(** The arm for one known service. *)
Lemma wp_reap_service p er svc (w : world K) (Φ : outcome io_error unit → service → world K → Prop) :
  (∀ w', world_le w w' → waits (trace w') = waits (trace w) →
    Φ (Ok tt) (set_state (Stopped (from_exit_reason_and_service_state er (s_state svc))) svc) w') →
  wp (reap_service p er) Φ svc w.
Proof.
  intros HΦ. unfold reap_service. wp_steps.
  rewrite bool_decide_false by apply stop_reason_never. wp_steps.
  apply wp_sys. intros r k Hk. wp_step. wp_step.
  match goal with |- wp ?m _ _ _ => assert (Htalk : talks m) end.
  { destruct r as [|e]; [|case_bool_decide]; auto with svlopp. }
  apply Htalk. intros w1 Hw1. wp_steps. apply wp_svlogg. intros w2 Hw2%says_logged.
  assert (Hw : logged (extend w k (Ev (SKillPg p SIGKILL) r)) w2) by by etrans.
  destruct (logged_calm _ _ Hw) as [Hle _]. apply HΦ.
  - etrans; [|exact Hle]. by eapply world_le_sys.
  - rewrite (logged_waits _ _ Hw). unfold waits. simpl. by rewrite omap_app, app_nil_r.
Qed.

(** One report, on the services. *)
Lemma reap_one gen reg (w : world K) p st :
  reg_inv gen reg w →
  services_map (take_by_pid p reg).2 = services_map reg ∧
  match pids_map reg !! p with
  | Some k => ∃ svc, services_map reg !! k = Some svc ∧ pid svc = Some p ∧
      ∀ er, exit_reason_of st = Some er →
      reap_of [(p, st)] <$> services_map reg =
      <[k := set_state (Stopped (from_exit_reason_and_service_state er (s_state svc))) svc]>
        (services_map reg)
  | None => reap_of [(p, st)] <$> services_map reg = services_map reg
  end.
Proof.
  intros (Hwf & _). unfold take_by_pid.
  assert (Hother : ∀ k svc, services_map reg !! k = Some svc → pid svc ≠ Some p →
    reap_of [(p, st)] svc = svc).
  { intros k svc Hk Hp. unfold reap_of, first_exit. simpl.
    destruct (pid svc) as [q|]; [|done]. by rewrite bool_decide_false by congruence. }
  destruct (pids_map reg !! p) as [k|] eqn:Hp; (split; [done|]).
  - pose proof Hp as (svc & Hk & Hpid)%(wf_pids _ _ Hwf). exists svc. split_and!; [done..|].
    intros er Her. apply map_eq. intros k'. rewrite lookup_fmap, lookup_insert.
    case_decide as Hkk; [subst; rewrite Hk|].
    + simpl. f_equal. unfold reap_of, first_exit. rewrite Hpid. simpl.
      by rewrite bool_decide_true, Her.
    + destruct (services_map reg !! k') as [s|] eqn:Hk'; [|done]. simpl. f_equal.
      eapply Hother; [done|]. intros Hs. apply Hkk.
      assert (Hpk : pids_map reg !! p = Some k') by (apply (wf_pids _ _ Hwf); eauto).
      congruence.
  - apply map_eq. intros k'. rewrite lookup_fmap.
    destruct (services_map reg !! k') as [s|] eqn:Hk'; [|done]. simpl. f_equal.
    eapply Hother; [done|]. intros Hs.
    assert (Hpk : pids_map reg !! p = Some k') by (apply (wf_pids _ _ Hwf); eauto).
    congruence.
Qed.

Lemma reap_of_not_final p st svc : exit_reason_of st = None → reap_of [(p, st)] svc = svc.
Proof.
  intros Hst. unfold reap_of, first_exit. simpl. rewrite Hst.
  destruct (pid svc) as [q|]; [|done]. by destruct (bool_decide (p = q)).
Qed.

(** Between the two worlds [wait] reported a status of a child. *)
Definition reported (p st : Z) (w w' : world K) : Prop :=
  children (kst w) ∖ (if ws_final st then {[p]} else ∅) ⊆ children (kst w') ∧
  trace w `prefix_of` trace w' ∧
  ledger_of w' = account (ledger_of w) (Ev SWait (ROk (Some (p, st)))).

Lemma reported_wait p st (w : world K) k :
  handle SWait (kst w) = (ROk (Some (p, st)), k) →
  reported p st w (extend w k (Ev SWait (ROk (Some (p, st))))).
Proof.
  intros Hk. split_and!; [by eapply wait_reaped|by apply prefix_app_r|apply ledger_snoc].
Qed.

(** A report that only the log sees. *)
Lemma reap_says gen reg (w w' : world K) (m : gmap Z service) reg' :
  logged w w' → reg_inv gen reg' w → m = services_map reg → services_map reg' = services_map reg →
  (Ok tt : outcome io_error unit) = Ok tt ∧ reg_inv gen reg' w' ∧ evolves reg reg' ∧
  trace w `prefix_of` trace w' ∧ waits (trace w') = waits (trace w) ∧ services_map reg' = m.
Proof.
  intros Hw Hi -> Heq. destruct (logged_calm _ _ Hw) as [Hle _].
  split_and!; [done|by eapply reg_inv_world| |apply Hle|by apply logged_waits|done].
  intros k. unfold state_at. by rewrite Heq.
Qed.

Lemma wp_handle_status gen reg (w0 w : world K) p st :
  reg_inv gen reg w0 → reported p st w0 w →
  wp (handle_status p st) (λ o reg' w', o = Ok tt ∧ reg_inv gen reg' w' ∧
    evolves reg reg' ∧ trace w `prefix_of` trace w' ∧ waits (trace w') = waits (trace w) ∧
    services_map reg' = reap_of [(p, st)] <$> services_map reg) reg w.
Proof.
  intros Hi (Hc & Htr0 & Hled). simpl in Hled.
  pose proof (reap_one gen reg w0 p st Hi) as [Hserv Hone].
  unfold handle_status. wp_step. apply wp_from_wait_status. simpl.
  pose proof (exit_reason_of_final st) as Hfinal.
  destruct (exit_reason_of st) as [er|] eqn:Her.
  - rewrite (proj1 Hfinal) in Hc, Hled by by eexists. wp_steps. unfold take_by_pid in *.
    destruct (pids_map reg !! p) as [k|] eqn:Hp; simpl in *.
    + destruct Hone as (svc & Hk & Hpid & Hreap). rewrite Hk.
      eapply wp_on_service; [done|]. apply wp_reap_service. intros w' (Hle & Htr & Hled') Hwaits.
      split_and!; [done| |etrans; [apply evolves_pids|]|done|done|simpl; by rewrite (Hreap er)].
      * apply (reg_inv_exit gen reg w0 w' k svc p); [done..|set_solver|by rewrite Hled'].
      * eapply evolves_update; [done|]. apply rtc_once, (lc_exit _ er p); [done|].
        by eapply exit_reason_of_typed.
    + apply wp_svlogg. intros w' Hw%says_logged. apply (reap_says gen reg w); [done| |done|done].
      destruct Hi as (Hwf & Hl & Hled0). apply not_elem_of_dom in Hp.
      split_and!; [done|set_solver|]. rewrite Hled, Hled0. simpl. f_equal. set_solver.
  - assert (Hnf : ws_final st = false).
    { destruct (ws_final st); [|done]. by destruct (proj2 Hfinal eq_refl). }
    rewrite Hnf in Hc, Hled. wp_steps.
    match goal with |- wp ?m _ _ _ => assert (Htalk : talks m) end.
    { destruct (get_by_pid reg p); auto with svlopp. }
    apply Htalk. intros w' Hw. apply (reap_says gen reg w); [done| | |done].
    + eapply reg_inv_world; [|done]. split_and!; [set_solver|done..].
    + symmetry. apply map_eq. intros k. rewrite lookup_fmap.
      destruct (services_map reg !! k); [|done]. simpl. by rewrite reap_of_not_final.
Qed.

Lemma wp_handle_sigchld fuel gen reg (w : world K) :
  reg_inv gen reg w →
  wp (handle_sigchld fuel) (λ o reg' w',
    safe gen reg w o reg' w' ∧
    ∃ evs, trace w' = trace w ++ evs ∧
      services_map reg' = reap_of (waits evs) <$> services_map reg) reg w.
Proof.
  assert (Hid : ∀ m : gmap Z service, reap_of [] <$> m = m).
  { intros m. rewrite <- (map_fmap_id m) at 2. apply map_fmap_ext. intros. apply reap_of_nil. }
  revert reg w. induction fuel as [|fuel IH]; intros reg w Hi; simpl.
  - split; [by apply safe_refl|]. exists []. by rewrite app_nil_r, Hid.
  - wp_step. apply wp_sys. intros r k Hk. wp_step.
    set (w1 := extend w k (Ev SWait r)).
    assert (Hquiet : (∀ x, r ≠ ROk (Some x)) → ∀ o : outcome io_error unit,
      (∀ msg, o ≠ Panic msg) → safe gen reg w o reg w1 ∧
      ∃ evs, trace w1 = trace w ++ evs ∧
        services_map reg = reap_of (waits evs) <$> services_map reg).
    { intros Hr o Ho. split.
      - apply safe_world; [done| |done]. split_and!; [by eapply wait_nothing|by apply prefix_app_r|].
        unfold w1. rewrite ledger_snoc. destruct r as [[x|]|]; [by destruct (Hr x)|done..].
      - exists [Ev SWait r]. split; [done|]. destruct r as [[x|]|e]; [by destruct (Hr x)|..];
          simpl; by rewrite Hid. }
    destruct r as [[[p st]|]|e]; [|by wp_step; apply Hquiet|].
    + wp_step. eapply wp_mono; [apply (wp_handle_status gen reg w w1); [done|]|].
      { by apply reported_wait. }
      intros o reg1 w2 (-> & Hi1 & Hev & Htr & Hwaits & Hserv). simpl.
      eapply wp_mono; [by apply IH|].
      intros o reg' w' [Hsafe (evs & Htr' & Hserv')]. destruct Htr as [evs1 Htr].
      split.
      * eapply (safe_trans (E:=io_error) _ _ _ (Ok tt)); [|done].
        split_and!; [done..| |done]. rewrite Htr. simpl. rewrite <- app_assoc.
        by apply prefix_app_r.
      * exists ([Ev SWait (ROk (Some (p, st)))] ++ evs1 ++ evs).
        split; [rewrite Htr', Htr; simpl; by rewrite <- !app_assoc|].
        assert (Hevs1 : waits evs1 = []).
        { rewrite Htr in Hwaits. unfold waits in *. rewrite omap_app in Hwaits.
          by rewrite <- (app_nil_r (omap _ (trace w1))) in Hwaits at 2;
            apply app_inv_head in Hwaits. }
        rewrite Hserv', Hserv, <- map_fmap_compose. apply map_fmap_ext. intros k' svc _.
        unfold waits. rewrite !omap_app. fold (waits evs1). rewrite Hevs1. simpl.
        symmetry. apply reap_of_cons.
    + case_bool_decide; wp_step; by apply Hquiet.
Qed.
End sigchld.

(** Between two waits the handler only kills process groups and logs. *)
Lemma moves_handle_status {K} `{!Platform K} (R : relation (world K)) `{!PreOrder R} p st :
  (∀ A (op : sysop A) w r k, between_waits op = true → handle op (kst w) = (r, k) →
     R w (extend w k (Ev op r))) →
  moves R (handle_status p st).
Proof.
  intros HR.
  assert (Hlog : ∀ S E level msg, moves R (svlogg level msg : @M K S E unit)).
  { intros S E level msg. apply moves_svlogg; [apply _|]. intros A op w r k Hop.
    apply HR. by destruct op. }
  unfold handle_status, from_wait_status, reap_service. moving; try done.
  apply moves_on_service; [apply _|]. moving; try done.
  apply moves_sys. intros w r k. by apply HR.
Qed.

(** ** How the loop ends *)

(** What a [wait] returned, and all the [wait]s of a sequence of events. *)
Definition wait_result_of (ev : event) : option (result Z (option (Z * Z))) :=
  match ev with
  | Ev op r =>
      match op in sysop A return A → option (result Z (option (Z * Z))) with
      | SWait => Some
      | _ => λ _, None
      end r
  end.
Definition wait_results (evs : list event) : list (result Z (option (Z * Z))) :=
  omap wait_result_of evs.

(** The statuses [reports] were delivered, one by each [wait]. *)
Definition delivers (evs : list event) (reports : list (Z * Z)) : Prop :=
  wait_results evs = (λ x, ROk (Some x)) <$> reports.

Lemma delivers_cons x evs evs' reports :
  wait_results evs = [] → delivers evs' reports →
  delivers (Ev SWait (ROk (Some x)) :: evs ++ evs') (x :: reports).
Proof.
  unfold delivers, wait_results. intros Hevs Hevs'. simpl. by rewrite omap_app, Hevs, Hevs'.
Qed.

Section sigchld_ends.
Context {K : Type} `{!Platform K} `{!PlatformLaws K}.

(** No call between two [wait]s is one. *)
Lemma wp_handle_status_waits p st reg (w : world K) :
  wp (handle_status p st) (λ _ _ w', ∃ evs, trace w' = trace w ++ evs ∧ wait_results evs = []) reg w.
Proof.
  assert (Hmoves : moves (only (λ ev, wait_result_of ev = None)) (handle_status p st)).
  { apply moves_handle_status; [apply _|]. intros A op w1 r k Hop _.
    apply only_one. by destruct op. }
  eapply wp_mono; [apply Hmoves|]. intros o reg' w' (evs & Htr & Hevs). exists evs.
  split; [done|]. clear Htr. unfold wait_results.
  induction Hevs as [|ev evs Hev _ IH]; [done|]. simpl. by rewrite Hev.
Qed.

(** The loop drains [wait]: each round but the last consumes one status. *)
Definition drained (bound : nat) (w : world K) (o : outcome io_error unit) (w' : world K) : Prop :=
  ∃ evs reports, delivers evs reports ∧
    match o with
    | Ok _ => (length reports < bound)%nat ∧ ∃ r, trace w' = trace w ++ evs ++ [Ev SWait r] ∧
        (r = ROk None ∨ r = RErr ECHILD)
    | Err e => (length reports < bound)%nat ∧ ∃ n, trace w' = trace w ++ evs ++ [Ev SWait (RErr n)] ∧
        n ≠ ECHILD ∧ e = OsError n
    | OutOfFuel => length reports = bound ∧ trace w' = trace w ++ evs
    | _ => False
    end.

Lemma wp_handle_sigchld_drains bound gen reg (w : world K) :
  reg_inv gen reg w → wp (handle_sigchld bound) (λ o _ w', drained bound w o w') reg w.
Proof.
  revert reg w. induction bound as [|bound IH]; intros reg w Hi; simpl.
  { exists [], []. by rewrite app_nil_r. }
  wp_step. apply wp_sys. intros r k Hk. wp_step.
  destruct r as [[[p st]|]|e].
  - wp_step. eapply wp_mono.
    { apply wp_and; [apply (wp_handle_status gen reg w); [done|by apply reported_wait]|].
      apply wp_handle_status_waits. }
    intros o reg1 w1 [(-> & Hi1 & _) (evs1 & Htr1 & Hevs1)]. simpl in Htr1.
    eapply wp_mono; [by apply IH|]. intros o reg2 w2 (evs & reports & Hd & Ho).
    exists (Ev SWait (ROk (Some (p, st))) :: evs1 ++ evs), ((p, st) :: reports).
    split; [by apply delivers_cons|]. rewrite Htr1 in Ho. simpl.
    destruct o; try done; destruct Ho as [Hlen Ho]; (split; [lia|]).
    + destruct Ho as (r & -> & Hr). exists r. split; [|done]. by rewrite <- !app_assoc.
    + destruct Ho as (n & -> & Hn). exists n. split; [|done]. by rewrite <- !app_assoc.
    + by rewrite Ho, <- !app_assoc.
  - wp_step. exists [], []. split; [done|]. split; [simpl; lia|]. eexists. by auto.
  - case_bool_decide as He; wp_step; exists [], []; (split; [done|]); (split; [simpl; lia|]).
    + subst. eexists. by auto.
    + by exists e.
Qed.
End sigchld_ends.

(** * Loops over the registry *)

Section loops.
Context {K : Type} `{!Platform K} `{!PlatformLaws K}.

Lemma wp_service_keys {E} reg (w : world K) (Φ : outcome E (list Z) → service_registry → world K → Prop) :
  (∀ keys w', (keys ≡ₚ (map_to_list (services_map reg)).*1) → NoDup keys →
    (∀ k, k ∈ keys ↔ is_Some (services_map reg !! k)) →
    world_calm w w' → Φ (Ok keys) reg w') →
  wp service_keys Φ reg w.
Proof.
  intros HΦ. unfold service_keys. wp_steps. apply wp_in_order. intros l w' Hl Hw _. wp_steps.
  assert (Hp : l.*1 ≡ₚ (map_to_list (services_map reg)).*1) by by rewrite Hl.
  apply HΦ; [done| | |done].
  - rewrite Hp. apply NoDup_fst_map_to_list.
  - intros k. rewrite Hp, list_elem_of_fmap. split.
    + intros ([k' svc] & -> & Hin%elem_of_map_to_list). by eexists.
    + intros [svc Hk]. exists (k, svc). by rewrite elem_of_map_to_list.
Qed.

(** The signals sent to the services of some keys. *)
Definition signals_to (sent : service → option (Z * Z)) (reg : service_registry)
    (keys : list Z) : list (Z * Z) :=
  omap (λ k, services_map reg !! k ≫= sent) keys.

(** A loop whose body, on one service, succeeds, sends it at most one
    signal, and touches no other service.  What becomes of a service is
    justified by events of the loop. *)
Lemma wp_each_service {E} gen (f : Z → M service_registry E unit)
    (sent : service → option (Z * Z)) (R : list event → service → option service → Prop)
    reg (w : world K) :
  (∀ evs evs' svc res, evs ⊆ evs' → R evs svc res → R evs' svc res) →
  reg_inv gen reg w →
  (∀ k svc reg1 w1, services_map reg !! k = Some svc →
    reg_inv gen reg1 w1 → services_map reg1 !! k = Some svc →
    wp (f k) (λ o reg' w', o = Ok tt ∧ safe gen reg1 w1 o reg' w' ∧
      kills w' = kills w1 ++ option_list (sent svc) ∧
      R (events w1 w') svc (services_map reg' !! k) ∧
      ∀ k', k' ≠ k → services_map reg' !! k' = services_map reg1 !! k') reg1 w1) →
  wp (let! keys := service_keys in for_each keys f) (λ o reg' w', o = Ok tt ∧
    safe gen reg w o reg' w' ∧
    (∃ keys, (keys ≡ₚ (map_to_list (services_map reg)).*1) ∧
      kills w' = kills w ++ signals_to sent reg keys) ∧
    ∀ k, match services_map reg !! k with
         | Some svc => R (events w w') svc (services_map reg' !! k)
         | None => services_map reg' !! k = None
         end) reg w.
Proof.
  intros Hmono Hi Hf. wp_step. apply wp_service_keys. intros keys w1 Hp Hnd Hkeys [Hle Hkills].
  simpl. eapply (wp_for_each (λ visited rest reg' w',
    safe (E:=E) gen reg w (Ok tt) reg' w' ∧
    kills w' = kills w ++ signals_to sent reg visited ∧
    (∀ k, k ∉ visited → services_map reg' !! k = services_map reg !! k) ∧
    ∀ k svc, k ∈ visited → services_map reg !! k = Some svc →
      R (events w w') svc (services_map reg' !! k))).
  - split_and!; [by apply safe_world|by rewrite app_nil_r|done|set_solver].
  - intros visited k rest reg1 w2 -> (Hsafe & Hk1 & Hrest & Hdone).
    apply NoDup_app_cons_notin in Hnd as [Hnv Hnr].
    destruct (proj1 (Hkeys k)) as [svc Hk]; [set_solver|].
    eapply wp_mono; [eapply Hf; [done|apply Hsafe|by rewrite Hrest]|].
    intros o reg2 w3 (-> & Hsafe2 & Hk2 & Hres & Hother).
    assert (Hw2 : trace w `prefix_of` trace w2) by apply Hsafe.
    assert (Hw3 : trace w2 `prefix_of` trace w3) by apply Hsafe2. split_and!.
    + by eapply safe_trans.
    + rewrite Hk2, Hk1. unfold signals_to. rewrite omap_app, <- app_assoc. simpl.
      rewrite Hk. simpl. by destruct (sent svc).
    + intros k' Hk'. rewrite Hother by set_solver. apply Hrest. set_solver.
    + intros k' svc' Hin Hk'. destruct (decide (k' = k)) as [->|Hne].
      * rewrite Hk in Hk'; injection Hk' as <-. eapply Hmono; [by apply events_sub|done].
      * rewrite Hother by done. eapply Hmono; [by apply (events_sub w w w2)|].
        apply Hdone; [set_solver|done].
  - intros reg' w' (Hsafe & Hk & Hrest & Hdone). split_and!; [done|done|by exists keys|].
    intros k. destruct (services_map reg !! k) as [svc|] eqn:Hsvc.
    + apply Hdone; [|done]. apply Hkeys. by eexists.
    + rewrite Hrest, Hsvc; [done|]. intros Hin%Hkeys. destruct Hin. congruence.
Qed.

(** [try_start] on a stopped service: it always succeeds as a computation;
    the service is started or left as it was. *)
Lemma wp_try_start {E} gen ok_text err_text k svc sigset reg (w : world K) :
  reg_inv gen reg w → services_map reg !! k = Some svc → is_stopped svc = true →
  wp (try_start ok_text err_text k sigset : M _ E unit) (λ o reg' w', o = Ok tt ∧
    safe gen reg w o reg' w' ∧ kills w' = kills w ∧
    (reg' = reg ∧ start_refused (s_config svc) (events w w') ∨
     ∃ p, 0 < p ∧ did_fork p (events w w') ∧ reg' = started k p svc reg)) reg w.
Proof.
  intros Hi Hk Hs. unfold try_start. wp_step. wp_step. eapply wp_on_service; [done|].
  eapply wp_mono; [apply wp_start_service|].
  intros o svc' w' (Hkills & Ho).
  assert (Hget : ∀ svc1 reg1 Φ, services_map reg1 !! k = Some svc1 →
    Φ (Ok svc1) reg1 w' → wp (on_service k get : M _ E service) Φ reg1 w').
  { intros svc1 reg1 Φ Hk1 HΦ. eapply wp_on_service; [done|]. wp_step.
    by rewrite update_service_id. }
  destruct o as [[]|e| | |]; simpl; try done; wp_step.
  - destruct Ho as (p & Hp & Hfork & -> & Hf).
    eapply Hget; [apply lookup_insert_eq|]. wp_steps. eapply wp_on_service.
    { apply lookup_insert_eq. }
    eapply wp_running_pid; [done|]. wp_steps. rewrite update_service_twice.
    apply wp_svlogg. intros w2 Hw%says_calm. wp_steps. split_and!; [done| | |].
    + apply safe_started; try done. by eapply forked_calm.
    + by rewrite (proj2 Hw).
    + right. exists p. split_and!; [done| |done].
      eapply did_fork_mono; [|done]. apply events_sub; [done|apply Hf|apply Hw].
  - destruct Ho as (-> & Href & Hc). rewrite update_service_id by done.
    eapply Hget; [done|]. wp_steps. apply wp_svlogg. intros w2 [Hw Hk2]%says_calm.
    split_and!; [done| |by rewrite Hk2|left; split; [done|]].
    + apply safe_world; [done|by etrans|done].
    + eapply start_refused_mono; [|done]. apply events_sub; [done|apply Hc|apply Hw].
Qed.
End loops.

(** * The timer tick *)

(** What a tick makes of a service: pending actions and fallbacks are applied
    to the stopped ones; [None] is a removed service.  A start that a call
    refused leaves the service stopped, its pending action consumed. *)
Definition tick_result (evs : list event) (svc : service) (res : option service) : Prop :=
  let cleared := set_pending_action ServicePendingAction.None svc in
  match s_state svc with
  | Stopped r =>
      match effective_action r (s_pending_action svc) (fallback_pending_action svc) with
      | ServicePendingAction.None => res = Some cleared
      | ServicePendingAction.Remove => res = None
      | ServicePendingAction.Restart =>
          res = Some cleared ∧ start_refused (s_config svc) evs ∨
          ∃ p, 0 < p ∧ did_fork p evs ∧ res = Some (set_state (Running p) cleared)
      end
  | _ => res = Some svc
  end.

Lemma tick_result_mono evs evs' svc res :
  evs ⊆ evs' → tick_result evs svc res → tick_result evs' svc res.
Proof.
  intros Hsub. unfold tick_result. destruct (s_state svc); try done.
  destruct (effective_action _ _ _); try done.
  intros [[? Href]|(p & ? & Hf & ?)]; [left|right; exists p];
    split_and!; eauto using start_refused_mono, did_fork_mono.
Qed.

(** The kill that a tick at [now] owes a service. *)
Definition overdue_kill (now : Z) (svc : service) : option (Z * Z) :=
  match s_state svc with
  | Stopping p kill_deadline =>
      if bool_decide (now >= kill_deadline) then Some (p, SIGKILL) else None
  | _ => None
  end.

Section tick.
Context {K : Type} `{!Platform K} `{!PlatformLaws K}.

Lemma kills_snoc {A} (op : sysop A) (r : A) (w : world K) (k : K) :
  kills (extend w k (Ev op r)) = kills w ++ option_list (kill_of op).
Proof. unfold kills. simpl. rewrite omap_app. simpl. by destruct (kill_of op). Qed.

Lemma safe_set_pending {E A} gen reg (w : world K) (o : outcome E A) k svc a :
  reg_inv gen reg w → services_map reg !! k = Some svc → (∀ msg, o ≠ Panic msg) →
  safe gen reg w o (update_service k (set_pending_action a svc) reg) w.
Proof.
  intros Hi Hk Ho. destruct (reg_inv_service _ _ _ _ _ Hi Hk) as (_ & _ & Hwf).
  by apply safe_update with svc.
Qed.

(** The closure and the removal, for a stopped service. *)
Lemma wp_tick_stopped {E} gen now sigset k svc r reg (w : world K) :
  reg_inv gen reg w → services_map reg !! k = Some svc → s_state svc = Stopped r →
  wp (tick_entry now sigset k : M _ E unit) (λ o reg' w', o = Ok tt ∧
    safe gen reg w o reg' w' ∧ kills w' = kills w ∧
    tick_result (events w w') svc (services_map reg' !! k) ∧
    ∀ k', k' ≠ k → services_map reg' !! k' = services_map reg !! k') reg w.
Proof.
  intros Hi Hk Hst. unfold tick_entry, service_mut. wp_steps. rewrite Hk. wp_step.
  unfold tick_service, tick_result. rewrite Hst. wp_step.
  eapply wp_on_service; [done|]. wp_steps.
  set (svc1 := set_pending_action ServicePendingAction.None svc).
  change (take_pending_action svc).2 with svc1.
  assert (Hsafe := λ o, safe_set_pending (E:=E) (A:=unit) gen reg w o k svc
    ServicePendingAction.None Hi Hk). fold svc1 in Hsafe.
  assert (Hk1 : services_map (update_service k svc1 reg) !! k = Some svc1)
    by apply lookup_insert_eq.
  assert (Hs1 : is_stopped svc1 = true) by (unfold is_stopped; simpl; by rewrite Hst).
  assert (Hother : ∀ k', k' ≠ k →
    services_map (update_service k svc1 reg) !! k' = services_map reg !! k').
  { intros k' Hne. simpl. by rewrite lookup_insert_ne. }
  destruct (effective_action r _ _) eqn:Heff.
  - wp_steps. split_and!; [done|by apply Hsafe|done|done|done].
  - wp_step. destruct (Hsafe (Ok tt)) as (Hi1 & _); [done|].
    eapply wp_mono; [by eapply wp_try_start|].
    intros o reg' w' (-> & Hsafe' & Hkills & Hreg'). simpl. wp_steps. split_and!; [done| |done|..].
    + eapply safe_trans; [|done]. by apply (Hsafe (Ok tt)).
    + destruct Hreg' as [[-> Href]|(p & Hp & Hf & ->)]; [by left|]. right. exists p.
      split_and!; [done..|]. simpl. by rewrite lookup_insert_eq.
    + intros k' Hne. destruct Hreg' as [[-> _]|(p & Hp & _ & ->)]; [by apply Hother|].
      simpl. by rewrite !lookup_insert_ne.
  - wp_steps. apply wp_svlogg. intros w1 [Hle Hkw]%says_calm. wp_steps.
    split_and!; [done| |done|apply lookup_delete_eq|].
    + destruct (Hsafe (Ok tt)) as (Hi1 & Hev & Ht & Ho); [done|].
      split_and!; [|by etrans; [|by eapply evolves_remove]|apply Hle|done].
      eapply reg_inv_world; [done|]. by eapply reg_inv_remove.
    + intros k' Hne. simpl. by rewrite lookup_delete_ne, lookup_insert_ne.
Qed.

(** The closure on any service. *)
Lemma wp_tick_entry {E} gen now sigset k svc reg (w : world K) :
  reg_inv gen reg w → services_map reg !! k = Some svc →
  wp (tick_entry now sigset k : M _ E unit) (λ o reg' w', o = Ok tt ∧
    safe gen reg w o reg' w' ∧
    kills w' = kills w ++ option_list (overdue_kill now svc) ∧
    tick_result (events w w') svc (services_map reg' !! k) ∧
    ∀ k', k' ≠ k → services_map reg' !! k' = services_map reg !! k') reg w.
Proof.
  intros Hi Hk.
  assert (Hkeep : is_stopped svc = false → ∀ l w', world_le w w' → kills w' = kills w ++ l →
    Ok tt = (Ok tt : outcome E unit) ∧ safe (E:=E) (A:=unit) gen reg w (Ok tt) reg w' ∧
    kills w' = kills w ++ l ∧ tick_result (events w w') svc (services_map reg !! k) ∧
    ∀ k', k' ≠ k → services_map reg !! k' = services_map reg !! k').
  { intros Hs l w' Hle Hl. split_and!; [done|by apply safe_world|done| |done].
    rewrite Hk. unfold is_stopped, tick_result in *. by destruct (s_state svc). }
  unfold overdue_kill, is_stopped in *.
  destruct (s_state svc) as [r|p|p d] eqn:Hst; simpl in *; try specialize (Hkeep eq_refl).
  - rewrite app_nil_r. by eapply wp_tick_stopped.
  - unfold tick_entry, service_mut. wp_steps. rewrite Hk. wp_step.
    unfold tick_service. rewrite Hst. wp_steps. by apply Hkeep; rewrite ?app_nil_r.
  - unfold tick_entry, service_mut. wp_steps. rewrite Hk. wp_step.
    unfold tick_service. rewrite Hst. case_bool_decide as Hd; simpl.
    + destruct (reg_inv_pid _ _ _ _ _ p Hi Hk) as (_ & _ & Hown);
        [unfold pid; by rewrite Hst|].
      wp_step. wp_step. unfold force_kill_service_process. wp_step.
      apply wp_sys_try; intros x k' Hk'; simpl; wp_steps.
      * apply Hkeep; [eapply world_le_sys; [..|exact Hk']; done|apply kills_snoc].
      * apply wp_svlogg. intros w1 [Hle Hkw]%says_calm. wp_steps.
        apply Hkeep; [|rewrite Hkw; apply kills_snoc].
        etrans; [eapply world_le_sys; [..|exact Hk']; done|done].
    + wp_steps. by apply Hkeep; rewrite ?app_nil_r.
Qed.

Lemma wp_handle_tick {E} gen now sigset reg (w : world K) :
  reg_inv gen reg w →
  wp (handle_tick now sigset : M _ E unit) (λ o reg' w', o = Ok tt ∧
    safe gen reg w o reg' w' ∧
    (∃ keys, (keys ≡ₚ (map_to_list (services_map reg)).*1) ∧
      kills w' = kills w ++ signals_to (overdue_kill now) reg keys) ∧
    ∀ k, match services_map reg !! k with
         | Some svc => tick_result (events w w') svc (services_map reg' !! k)
         | None => services_map reg' !! k = None
         end) reg w.
Proof.
  intros Hi. unfold handle_tick. apply wp_each_service; [apply tick_result_mono|done|].
  intros k svc reg1 w1 _ Hi1 Hk. by apply wp_tick_entry.
Qed.
End tick.

(** * Initial start and shutdown request *)

(** What a shutdown request makes of a service: a running one is stopping,
    unless its stop signal was refused. *)
Definition stop_result (evs : list event) (svc : service) (res : option service) : Prop :=
  match s_state svc with
  | Running p =>
      (∃ deadline, stop_answered (s_config svc) p (ROk tt) evs ∧
        res = Some (set_state (Stopping p deadline) svc)) ∨
      ∃ e, stop_answered (s_config svc) p (RErr e) evs ∧ res = Some svc
  | _ => res = Some svc
  end.

Lemma stop_result_mono evs evs' svc res :
  evs ⊆ evs' → stop_result evs svc res → stop_result evs' svc res.
Proof.
  intros Hsub. unfold stop_result. destruct (s_state svc) as [|p|]; try done.
  intros [(d & Ha & ?)|(e & Ha & ?)]; [left; exists d|right; exists e];
    split; eauto using stop_answered_mono.
Qed.

Definition stop_kill (svc : service) : option (Z * Z) :=
  match s_state svc with Running p => Some (p, stop_signal_of svc) | _ => None end.

(** What the initial start makes of a service. *)
Definition start_result (evs : list event) (svc : service) (res : option service) : Prop :=
  res = Some svc ∧ start_refused (s_config svc) evs ∨
  ∃ p, 0 < p ∧ did_fork p evs ∧ res = Some (set_state (Running p) svc).

Lemma start_result_mono evs evs' svc res :
  evs ⊆ evs' → start_result evs svc res → start_result evs' svc res.
Proof.
  intros Hsub [[? ?]|(p & ? & ? & ?)]; [left|right; exists p];
    split_and!; eauto using start_refused_mono, did_fork_mono.
Qed.

Section start_stop.
Context {K : Type} `{!Platform K} `{!PlatformLaws K}.

Lemma wp_stop_entry {E} gen k svc reg (w : world K) :
  reg_inv gen reg w → services_map reg !! k = Some svc →
  wp (stop_entry k : M _ E unit) (λ o reg' w',
    o = Ok tt ∧ safe gen reg w o reg' w' ∧
    kills w' = kills w ++ option_list (stop_kill svc) ∧
    stop_result (events w w') svc (services_map reg' !! k) ∧
    ∀ k', k' ≠ k → services_map reg' !! k' = services_map reg !! k') reg w.
Proof.
  intros Hi Hk. destruct (reg_inv_service _ _ _ _ _ Hi Hk) as (_ & _ & Hwf).
  unfold stop_entry. wp_step. wp_step. eapply wp_on_service; [done|].
  eapply wp_mono; [apply wp_stop_service; [apply Hwf|by eapply reg_inv_owned]|].
  intros o svc' w' Hpost.
  assert (Hsafe : safe gen reg w o (update_service k svc' reg) w') by by eapply safe_stop.
  destruct Hpost as [Hle Hpost].
  assert (Hkills : kills w' = kills w ++ option_list (stop_kill svc) ∧
    stop_result (events w w') svc (Some svc')).
  { unfold stop_kill, stop_result, kills.
    destruct (s_state svc) as [r|p|p d], o as [[]|[e| |]| | |]; try done;
      decompose_ctx; subst; simpl; rewrite ?app_nil_r; try done.
    all: match goal with Ht : trace _ = _ |- _ =>
      rewrite (events_app _ _ _ Ht), Ht, omap_app end; (split; [done|]).
    - left. eexists. split; [by left|done].
    - right. exists e. split; [by left|done]. }
  assert (Hframe : ∀ k', k' ≠ k →
    services_map (update_service k svc' reg) !! k' = services_map reg !! k').
  { intros k' Hne. simpl. by rewrite lookup_insert_ne. }
  assert (Hno : ∀ msg, o ≠ Panic msg) by apply Hsafe.
  destruct o as [[]|e|msg| |]; try done; try (by destruct (Hno msg));
    [| |by destruct (s_state svc)].
  - wp_steps. simpl. rewrite lookup_insert_eq.
    split_and!; [done|by eapply safe_outcome|apply Hkills..|done].
  - wp_steps. eapply wp_on_service; [apply lookup_insert_eq|]. wp_steps.
    rewrite update_service_twice. apply wp_svlogg. intros w1 [Hle' Hkw]%says_calm. simpl.
    rewrite lookup_insert_eq, Hkw. split_and!; [done| |apply Hkills| |done]; last first.
    { eapply stop_result_mono, Hkills. apply events_sub; [done|apply Hle|apply Hle']. }
    eapply (safe_trans (E:=io_error) (A:=unit)); [exact Hsafe|].
    apply safe_world; [apply Hsafe|done|done].
Qed.

Lemma wp_stop_all {E} gen reg (w : world K) :
  reg_inv gen reg w →
  wp (stop_all : M _ E unit) (λ o reg' w', o = Ok tt ∧
    safe gen reg w o reg' w' ∧
    (∃ keys, (keys ≡ₚ (map_to_list (services_map reg)).*1) ∧
      kills w' = kills w ++ signals_to stop_kill reg keys) ∧
    ∀ k, match services_map reg !! k with
         | Some svc => stop_result (events w w') svc (services_map reg' !! k)
         | None => services_map reg' !! k = None
         end) reg w.
Proof.
  intros Hi. apply wp_each_service; [apply stop_result_mono|done|].
  intros k svc reg1 w1 _ Hi1 Hk. by apply wp_stop_entry.
Qed.

Lemma wp_start_all {E} gen sigset reg (w : world K) :
  reg_inv gen reg w →
  map_Forall (λ _ svc, is_stopped svc = true) (services_map reg) →
  wp (start_all sigset : M _ E unit) (λ o reg' w', o = Ok tt ∧
    safe gen reg w o reg' w' ∧ kills w' = kills w ∧
    ∀ k, match services_map reg !! k with
         | Some svc => start_result (events w w') svc (services_map reg' !! k)
         | None => services_map reg' !! k = None
         end) reg w.
Proof.
  intros Hi Hall. eapply wp_mono.
  { apply (wp_each_service gen _ (λ _, None) start_result); [apply start_result_mono|done|].
    intros k svc reg1 w1 Hk0 Hi1 Hk. eapply wp_mono; [by eapply wp_try_start; [..|eapply Hall]|].
    intros o reg' w' (-> & Hsafe & Hkills & Hreg'). simpl. rewrite app_nil_r.
    split_and!; [done..| |]; destruct Hreg' as [[-> Href]|(p & Hp & Hf & ->)]; simpl.
    - by left.
    - right. exists p. by rewrite lookup_insert_eq.
    - done.
    - intros k' Hne. by rewrite lookup_insert_ne. }
  intros o reg' w' (-> & Hsafe & (keys & _ & Hkills) & Hres). split_and!; [done..| |done].
  rewrite Hkills. assert (Hnil : signals_to (λ _, None) reg keys = []).
  { unfold signals_to. clear. induction keys as [|k keys IH]; [done|]. simpl.
    by destruct (services_map reg !! k). }
  by rewrite Hnil, app_nil_r.
Qed.
End start_stop.

(** * Properties *)

Section properties.
Context {K : Type} `{!Platform K} `{!PlatformLaws K}.

(** C16.  What a control request does, for every operation, state and
    pending action of the service it names: [Stop] stops a running service;
    [Start] and [Restart] start a stopped service with no pending action;
    [Restart] marks a running service with no pending action for restart
    and stops it; each says so in the log.  An unknown id only gets a
    warning, and everything else is a no-op that makes no call. *)
Theorem apply_control_op_spec gen k op sigset reg (w : world K) :
  reg_inv gen reg w →
  wp (apply_control_op k op sigset) (λ o reg' w',
    match services_map reg !! k with
    | Some svc => control_effect op k svc reg w o reg' w'
    | None => o = Ok tt ∧ reg' = reg ∧
        says LogLevel.Warn ("unkown service id: " +:+ display k) w w'
    end) reg w.
Proof.
  intros Hi. eapply wp_mono; [by apply wp_apply_control_op|]. by intros o reg' w' [_ ?].
Qed.

(** C15.  The contract of control requests: whatever the operation, the id
    and the state of the registry, [apply_control_op] keeps the registry's
    invariant and never panics; it touches no other service; it never
    overrides a pending action, and it never acts on a stopped service
    whose pending action has yet to be processed; only [Restart] ever sets
    a pending action. *)
Theorem apply_control_op_contract gen k op sigset reg (w : world K) :
  reg_inv gen reg w →
  wp (apply_control_op k op sigset) (λ o reg' w',
    safe gen reg w o reg' w' ∧
    (∀ k', k' ≠ k → services_map reg' !! k' = services_map reg !! k') ∧
    ∀ svc, services_map reg !! k = Some svc →
      ∃ svc', services_map reg' !! k = Some svc' ∧ s_config svc' = s_config svc ∧
        (op ≠ ControlOp.Restart ∨ s_pending_action svc ≠ ServicePendingAction.None →
          s_pending_action svc' = s_pending_action svc) ∧
        (is_stopped svc = true → s_pending_action svc ≠ ServicePendingAction.None →
          svc' = svc)) reg w.
Proof.
  intros Hi. eapply wp_mono; [by apply wp_apply_control_op|].
  intros o reg' w' [Hsafe Heff]. split; [done|].
  destruct (services_map reg !! k) as [svc|] eqn:Hk; [|naive_solver].
  destruct (control_effect_frame _ _ _ _ _ _ _ _ _ Hi Hk Heff) as [Hframe Hsvc].
  split; [done|]. by intros ? [= <-].
Qed.

(** C11.  The SIGCHLD handler, for every bound on its loop: it keeps the
    registry's invariant and never panics (so every reaped service had
    been started), every entry follows the life cycle, and the services
    it leaves are exactly those it found, each stopped with its reason when
    the end of its process was among the statuses [wait] delivered, and
    unchanged otherwise. *)
Theorem handle_sigchld_spec fuel gen reg (w : world K) :
  reg_inv gen reg w →
  wp (handle_sigchld fuel) (λ o reg' w',
    safe gen reg w o reg' w' ∧
    ∃ evs, trace w' = trace w ++ evs ∧
      services_map reg' = reap_of (waits evs) <$> services_map reg) reg w.
Proof. apply wp_handle_sigchld. Qed.

(** C27.  The SIGCHLD handler drains [wait], so that no end of a child is
    missed when several signals were merged into one.  It goes on as long as
    [wait] delivers a status, and stops at the first [wait] that delivers
    none: with success when there was no status or no child left, with the
    error of [wait] otherwise.  Each round consumes one delivered status, so
    it ends by itself unless [wait] delivered as many statuses as the bound
    of the model has rounds. *)
Theorem handle_sigchld_drains bound gen reg (w : world K) :
  reg_inv gen reg w →
  wp (handle_sigchld bound) (λ o _ w',
    ∃ evs reports, wait_results evs = (λ x, ROk (Some x)) <$> reports ∧
      match o with
      | Ok _ => (length reports < bound)%nat ∧
          ∃ r, trace w' = trace w ++ evs ++ [Ev SWait r] ∧ (r = ROk None ∨ r = RErr ECHILD)
      | Err e => (length reports < bound)%nat ∧
          ∃ n, trace w' = trace w ++ evs ++ [Ev SWait (RErr n)] ∧ n ≠ ECHILD ∧ e = OsError n
      | OutOfFuel => length reports = bound ∧ trace w' = trace w ++ evs
      | _ => False
      end) reg w.
Proof. apply wp_handle_sigchld_drains. Qed.

(** C10.  A timer tick at [now]: it cannot fail or panic; it keeps the
    registry's invariant and the life cycle; the signals it sends are one
    SIGKILL for each stopping service whose deadline has passed and no
    other, whatever the iteration order; and every service becomes what
    its pending action, or else its fallback, asks for: a restart runs under
    a pid that a fork of this tick returned, and only a call of this tick
    that failed can prevent it. *)
Theorem handle_tick_spec {E} gen now sigset reg (w : world K) :
  reg_inv gen reg w →
  wp (handle_tick now sigset : M _ E unit) (λ o reg' w', o = Ok tt ∧
    safe gen reg w o reg' w' ∧
    (∃ keys, (keys ≡ₚ (map_to_list (services_map reg)).*1) ∧
      kills w' = kills w ++ signals_to (overdue_kill now) reg keys) ∧
    ∀ k, match services_map reg !! k with
         | Some svc => tick_result (events w w') svc (services_map reg' !! k)
         | None => services_map reg' !! k = None
         end) reg w.
Proof. apply wp_handle_tick. Qed.

(** C24.  A shutdown request cannot fail or panic; it sends its stop signal
    to each running service and to no other process, in some order; a
    running service is stopping afterwards unless the kernel refused its
    signal, and the others are unchanged. *)
Theorem stop_all_spec {E} gen reg (w : world K) :
  reg_inv gen reg w →
  wp (stop_all : M _ E unit) (λ o reg' w', o = Ok tt ∧
    safe gen reg w o reg' w' ∧
    (∃ keys, (keys ≡ₚ (map_to_list (services_map reg)).*1) ∧
      kills w' = kills w ++ signals_to stop_kill reg keys) ∧
    ∀ k, match services_map reg !! k with
         | Some svc => stop_result (events w w') svc (services_map reg' !! k)
         | None => services_map reg' !! k = None
         end) reg w.
Proof. apply wp_stop_all. Qed.

(** C25.  The initial start, on a registry of stopped services: it cannot
    fail or panic, one service that cannot be started does not prevent the
    others, each service is running under a registered pid that a fork
    returned, or as it was because one of its calls failed, and no signal is
    sent. *)
Theorem start_all_spec {E} gen sigset reg (w : world K) :
  reg_inv gen reg w →
  (∀ k svc, services_map reg !! k = Some svc → is_stopped svc = true) →
  wp (start_all sigset : M _ E unit) (λ o reg' w', o = Ok tt ∧
    safe gen reg w o reg' w' ∧ kills w' = kills w ∧
    ∀ k, match services_map reg !! k with
         | Some svc => start_result (events w w') svc (services_map reg' !! k)
         | None => services_map reg' !! k = None
         end) reg w.
Proof. apply wp_start_all. Qed.
End properties.

(** * Instances on the simulated platform *)

Abbreviation no_action := ServicePendingAction.None.

(** A control request for a service stopped after a crash. *)
Lemma apply_control_op_spec_witness :
  let svc := sim_svc (Stopped (Crashed 11)) no_action in
  wp (apply_control_op 0 ControlOp.Start 0) (λ o reg' w', ∀ u, o = Ok u →
    ∃ p, 0 < p ∧ reg' = started 0 p svc (sim_reg svc)) (sim_reg svc) (sim_world_of svc).
Proof.
  cbv zeta. eapply wp_mono; [apply (apply_control_op_spec 1); by apply sim_reg_inv|].
  intros o reg' w' [_ Ho] u ->. destruct Ho as (p & Hp & _ & Heq). by exists p.
Defined.

Lemma apply_control_op_contract_witness :
  let svc := sim_svc (Stopped Success) ServicePendingAction.Remove in
  wp (apply_control_op 0 ControlOp.Start 0) (λ _ reg' _,
    services_map reg' !! 0 = Some svc) (sim_reg svc) (sim_world_of svc).
Proof.
  cbv zeta. eapply wp_mono; [apply (apply_control_op_contract 1); by apply sim_reg_inv|].
  intros o reg' w' (_ & _ & Hsvc). destruct (Hsvc _ eq_refl) as (svc' & Hk & _ & _ & Hsame).
  by rewrite Hk, Hsame.
Defined.

(** The service's process exits with code 3, on its own. *)
Definition sim_exit : world sim :=
  World (sim_set_statuses [(100, 768)] (sim_set_children [100] sim_init)) [Ev SFork (100, 0)] 3.

Lemma sim_exit_inv : reg_inv 1 (sim_reg (sim_svc (Running 100) no_action)) sim_exit.
Proof. apply (sim_reg_inv (Running 100)). by intros p [= <-]. Qed.

Lemma handle_sigchld_spec_witness :
  let reg := sim_reg (sim_svc (Running 100) no_action) in
  (∃ reg' w', handle_sigchld 2 reg sim_exit = (Ok tt, reg', w') ∧
     services_map reg' !! 0 = Some (sim_svc (Stopped (Error 3)) no_action)) ∧
  wp (handle_sigchld 2) (λ o reg' w', ∃ evs, trace w' = trace sim_exit ++ evs ∧
    services_map reg' = reap_of (waits evs) <$> services_map reg) reg sim_exit.
Proof.
  cbv zeta. split; [eexists _, _; split; reflexivity|].
  eapply wp_mono; [apply (handle_sigchld_spec 2 1), sim_exit_inv|].
  intros o reg' w' [_ Hevs]. exact Hevs.
Defined.

Lemma handle_sigchld_drains_witness :
  wait_results (trace (handle_sigchld 2 (sim_reg (sim_svc (Running 100) no_action)) sim_exit).2) =
    [ROk (Some (100, 768)); RErr ECHILD] ∧
  wp (handle_sigchld 2) (λ o _ w', o ≠ OutOfFuel → ∃ r, last (trace w') = Some (Ev SWait r))
    (sim_reg (sim_svc (Running 100) no_action)) sim_exit.
Proof.
  split; [vm_compute; reflexivity|].
  eapply wp_mono; [apply (handle_sigchld_drains 2 1), sim_exit_inv|].
  intros o reg' w' (evs & reports & _ & Ho) Hne. destruct o; try done.
  - destruct Ho as (_ & r & -> & _). exists r. by rewrite app_assoc, last_snoc.
  - destruct Ho as (_ & n & -> & _). eexists. by rewrite app_assoc, last_snoc.
Defined.

(** A service that did not stop in time. *)
Lemma handle_tick_spec_witness :
  let svc := sim_svc (Stopping 100 7) no_action in
  wp (handle_tick 8 0) (λ o reg' w', o = (Ok tt : outcome unit unit) ∧
    kills w' = [(100, SIGKILL)]) (sim_reg svc) (sim_world_of svc).
Proof.
  cbv zeta. eapply wp_mono; [apply (handle_tick_spec 1 8 0), sim_reg_inv|].
  { by intros p [= <-]. }
  intros o reg' w' (-> & _ & (keys & Hkeys & ->) & _). split; [done|].
  simpl in Hkeys. rewrite map_to_list_singleton in Hkeys.
  by apply Permutation_singleton_r in Hkeys as ->.
Defined.

Lemma stop_all_spec_witness :
  let svc := sim_svc (Running 100) no_action in
  wp stop_all (λ o reg' w', o = (Ok tt : outcome unit unit) ∧
    kills w' = [(100, SIGTERM)]) (sim_reg svc) (sim_world_of svc).
Proof.
  cbv zeta. eapply wp_mono; [apply (stop_all_spec 1), sim_reg_inv|].
  { by intros p [= <-]. }
  intros o reg' w' (-> & _ & (keys & Hkeys & ->) & _). split; [done|].
  simpl in Hkeys. rewrite map_to_list_singleton in Hkeys.
  by apply Permutation_singleton_r in Hkeys as ->.
Defined.

Lemma start_all_spec_witness :
  let svc := sim_svc (Stopped NeverStarted) no_action in
  wp (start_all 0) (λ o reg' w', o = (Ok tt : outcome unit unit) ∧
    start_result (events (sim_world_of svc) w') svc (services_map reg' !! 0))
    (sim_reg svc) (sim_world_of svc).
Proof.
  cbv zeta. eapply wp_mono; [apply (start_all_spec 1 0)|].
  - by apply sim_reg_inv.
  - intros k svc. simpl. intros [<- <-]%lookup_singleton_Some. done.
  - intros o reg' w' (-> & _ & _ & Hres). split; [done|]. exact (Hres 0).
Defined.

(** A service that is killed by a crash signal while it is being stopped
    counts as crashed, so that its fallback action is taken at the next tick. *)
Example crash_while_stopping_restarts :
  let cfg := sim_service "sleep" ServicePendingAction.Restart in
  let svc := Service 0 "a" cfg ["sleep"; "10"] None (Stopping 100 (10 ^ 12)) no_action in
  let w := World (sim_set_statuses [(100, 11)] (sim_set_children [100] sim_init)) [] 3 in
  let '(o1, reg1, w1) := handle_sigchld 2 (sim_reg svc) w in
  let '(o2, reg2, w2) := handle_tick (E:=unit) 8 0 reg1 w1 in
  (s_state <$> services_map reg1 !! 0) = Some (Stopped (Crashed 11)) ∧
  (s_state <$> services_map reg2 !! 0) = Some (Running 100).
Proof. vm_compute. done. Qed.
