(* ===== verification/Reload.v ===== *)
(** Loading the configuration and [reload_services] of service.rs: the
    reconciliation of the registry with a new configuration. *)
From S2P Require Import Prelude Utils Bytes Data Platform Monad Sim Logging.
From S2P Require Import Signalfd Control Service Registry Handlers.
Local Open Scope Z_scope.
Local Open Scope svlopp_scope.

(** [ServiceConfigData]: the configurations by service name. *)
Definition service_config_data : Type := gmap string service_config.

Section reload.
Context {K : Type} `{!Platform K}.
Abbreviation M := (@M K).

(** [ServiceConfigData::from_config_file]. *)
Definition from_config_file {S} (path : string) : M S io_error service_config_data :=
  let! r := sys (SReadToString path) in
  let! content := lift r in
  lift (map_err Other (toml_from_str content)).

(** The map from names to ids that [reload_services] builds first. *)
Definition names_to_ids (svcs : list service) : gmap string Z :=
  foldl (λ ids svc, <[s_name svc := s_id svc]> ids) ∅ svcs.

Definition service_ids {E} : M service_registry E (gmap string Z) :=
  let! entries := services in
  ret (names_to_ids entries.*2).

(** The first loop's body: a service that the configuration dropped. *)
Definition drop_service (configs : gmap string service_config) (name : string)
    (svc_id : Z) : M service_registry io_error unit :=
  if bool_decide (configs !! name = None) then
    let! reg := get in
    match service_mut reg svc_id with
    | Some svc =>
        match s_state svc with
        | Stopped _ =>
            svlogg LogLevel.Info ("removing stopped service '" +:+ name +:+ "'") ;;!
            on_service svc_id (modify (set_pending_action ServicePendingAction.None)) ;;!
            modify (remove_service svc_id)
        | Stopping _ _ =>
            svlogg LogLevel.Info ("stopping service '" +:+ name +:+ "' for removal") ;;!
            on_service svc_id (modify (set_pending_action ServicePendingAction.Remove))
        | Running _ =>
            svlogg LogLevel.Info ("stopping service '" +:+ name +:+ "' for removal") ;;!
            on_service svc_id
              (modify (set_pending_action ServicePendingAction.Remove) ;;! stop_service)
        end
    | None => ret tt
    end
  else ret tt.

(** [id_gen.nextval().ok_or_else(..)?]. *)
Definition next_id {S} (g : S → service_id_gen) (p : service_id_gen → S → S) :
    M S io_error Z :=
  zoom g p
    (let! gen := get in
     modify (λ _, (nextval gen).1) ;;!
     lift (ok_or (nextval gen).2 (Other "service id overflow"))).

(** [reload_services] borrows the registry and the id generator. *)
Definition reload_state : Type := service_registry * service_id_gen.
Definition on_registry {E A} (m : M service_registry E A) : M reload_state E A :=
  zoom fst (λ reg st, (reg, st.2)) m.

(** The second loop's body for a name without a service. *)
Definition add_service (sigset : Z) (name : string) (cfg : service_config) :
    M reload_state io_error unit :=
  svlogg LogLevel.Debug ("adding new service '" +:+ name +:+ "'") ;;!
  let! svc_id := next_id snd (λ gen st, (st.1, gen)) in
  let! svc := service_new svc_id name cfg in
  let! (svc_pid, svc) := with_local svc (start_service sigset ;;! running_pid) in
  svlogg LogLevel.Info
    ("started new service '" +:+ s_name svc +:+ "' with pid " +:+ pid_text svc_pid) ;;!
  on_registry (modify (insert_service svc) ;;! modify (register_pid svc_pid svc_id)).

(** The arms that follow the update of a changed service, by its state. *)
Definition restart_changed (sigset : Z) (name : string) (svc_id : Z) (svc : service) :
    M service_registry io_error unit :=
  match s_state svc with
  | Stopped _ =>
      svlogg LogLevel.Info
        ("service '" +:+ name +:+ "' was stopped, starting with new config") ;;!
      let! svc_pid := start_borrowed svc_id sigset in
      modify (register_pid svc_pid svc_id)
  | Stopping _ _ =>
      svlogg LogLevel.Info ("service '" +:+ name +:+ "' will be restarted") ;;!
      on_service svc_id (modify (set_pending_action ServicePendingAction.Restart))
  | Running _ =>
      svlogg LogLevel.Info ("service '" +:+ name +:+ "' will be restarted") ;;!
      on_service svc_id
        (modify (set_pending_action ServicePendingAction.Restart) ;;! stop_service)
  end.

(** The second loop's body for a name with a service. *)
Definition change_service (sigset : Z) (name : string) (svc_id : Z) (cfg : service_config) :
    M service_registry io_error unit :=
  let! reg := get in
  match service_mut reg svc_id with
  | Some svc =>
      if bool_decide (¬ s_config svc ≡ cfg) then
        svlogg LogLevel.Debug ("config changed for service " +:+ name) ;;!
        let! svc := on_service svc_id (update_config cfg ;;! get) in
        restart_changed sigset name svc_id svc
      else ret tt
  | None => ret tt
  end.

Definition apply_config (ids : gmap string Z) (sigset : Z) (name : string)
    (cfg : service_config) : M reload_state io_error unit :=
  match ids !! name with
  | None => add_service sigset name cfg
  | Some svc_id => on_registry (change_service sigset name svc_id cfg)
  end.

(** [reload_services] after the configuration is read. *)
Definition reconcile (configs : gmap string service_config) (sigset : Z) :
    M reload_state io_error unit :=
  let! ids := on_registry service_ids in
  let! names := in_order (map_to_list ids) in
  on_registry (for_each names (λ e, drop_service configs e.1 e.2)) ;;!
  let! entries := in_order (map_to_list configs) in
  for_each entries (λ e, apply_config ids sigset e.1 e.2).

(** [reload_services]. *)
Definition reload_services (cfg_path : string) (sigset : Z) :
    M reload_state io_error unit :=
  let! configs := from_config_file cfg_path in
  reconcile configs sigset.
End reload.

(** * What a reload makes of a service *)

(** The relations below say what becomes of one service, and which events
    justify it: a stop was answered, a restart runs under the pid of a fork,
    a failure was refused. *)

(** A service whose name is [None] in the new configuration. *)
Definition dropped (evs : list event) (svc : service) (res : option service) : Prop :=
  match s_state svc with
  | Stopped _ => res = None
  | Stopping _ _ => res = Some (set_pending_action ServicePendingAction.Remove svc)
  | Running p => ∃ deadline, stop_answered (s_config svc) p (ROk tt) evs ∧ res = Some
      (set_state (Stopping p deadline) (set_pending_action ServicePendingAction.Remove svc))
  end.

(** A service that is made to run (again): at once, or once it has ended. *)
Definition restarted (evs : list event) (svc : service) (res : option service) : Prop :=
  match s_state svc with
  | Stopped _ => ∃ p, 0 < p ∧ did_fork p evs ∧ res = Some (set_state (Running p) svc)
  | Stopping _ _ => res = Some (set_pending_action ServicePendingAction.Restart svc)
  | Running p => ∃ deadline, stop_answered (s_config svc) p (ROk tt) evs ∧ res = Some
      (set_state (Stopping p deadline) (set_pending_action ServicePendingAction.Restart svc))
  end.

(** A service whose configuration changed to [cfg]: one that is not equal to
    its own, where paths are equal when their components are. *)
Definition changed (cfg : service_config) (evs : list event) (svc : service)
    (res : option service) : Prop :=
  ∃ argv envp, built cfg argv envp ∧
    restarted evs (set_config cfg (set_envp envp (set_argv argv svc))) res.

Definition reload_result (configs : gmap string service_config) (evs : list event)
    (svc : service) (res : option service) : Prop :=
  match configs !! s_name svc with
  | None => dropped evs svc res
  | Some cfg =>
      if bool_decide (s_config svc ≡ cfg) then res = Some svc else changed cfg evs svc res
  end.

(** What a reload that fails can leave of a service instead: its stop signal
    could not be sent, its new vectors could not be built, or it could not be
    started with its new configuration. *)
Definition signal_failed (a : service_pending_action) (evs : list event) (svc : service)
    (res : option service) : Prop :=
  ∃ p e, s_state svc = Running p ∧ stop_answered (s_config svc) p (RErr e) evs ∧
    res = Some (set_pending_action a svc).

Definition restart_failed (evs : list event) (svc : service) (res : option service) : Prop :=
  is_stopped svc = true ∧ start_refused (s_config svc) evs ∧ res = Some svc ∨
  signal_failed ServicePendingAction.Restart evs svc res.

Definition change_failed (cfg : service_config) (evs : list event) (svc : service)
    (res : option service) : Prop :=
  ¬ s_config svc ≡ cfg ∧
  (¬ buildable cfg ∧ (res = Some svc ∨
     ∃ argv, build_svc_argv cfg = ROk argv ∧ res = Some (set_argv argv svc)) ∨
   ∃ argv envp, built cfg argv envp ∧
     restart_failed evs (set_config cfg (set_envp envp (set_argv argv svc))) res).

Definition reload_partial (configs : gmap string service_config) (evs : list event)
    (svc : service) (res : option service) : Prop :=
  res = Some svc ∨ reload_result configs evs svc res ∨
  match configs !! s_name svc with
  | None => signal_failed ServicePendingAction.Remove evs svc res
  | Some cfg => change_failed cfg evs svc res
  end.

(** More events justify more. *)
Section mono.
Context (evs evs' : list event).
Hypothesis Hsub : evs ⊆ evs'.

Lemma dropped_mono svc res : dropped evs svc res → dropped evs' svc res.
Proof.
  unfold dropped. destruct (s_state svc); [done| |done].
  intros (d & ? & ?). exists d. eauto using stop_answered_mono.
Qed.
Lemma restarted_mono svc res : restarted evs svc res → restarted evs' svc res.
Proof.
  unfold restarted. destruct (s_state svc); [..|done].
  - intros (p & ? & ? & ?). exists p. eauto using did_fork_mono.
  - intros (d & ? & ?). exists d. eauto using stop_answered_mono.
Qed.
Lemma changed_mono cfg svc res : changed cfg evs svc res → changed cfg evs' svc res.
Proof. intros (argv & envp & ? & ?). exists argv, envp. eauto using restarted_mono. Qed.
Lemma reload_result_mono configs svc res :
  reload_result configs evs svc res → reload_result configs evs' svc res.
Proof.
  unfold reload_result. destruct (configs !! _); [|apply dropped_mono].
  case_bool_decide; [done|apply changed_mono].
Qed.

Lemma signal_failed_mono a svc res : signal_failed a evs svc res → signal_failed a evs' svc res.
Proof. intros (p & e & ? & ? & ?). exists p, e. eauto using stop_answered_mono. Qed.
Lemma restart_failed_mono svc res : restart_failed evs svc res → restart_failed evs' svc res.
Proof.
  intros [(? & ? & ?)|?]; [left|right]; eauto using start_refused_mono, signal_failed_mono.
Qed.
Lemma change_failed_mono cfg svc res :
  change_failed cfg evs svc res → change_failed cfg evs' svc res.
Proof.
  intros [? [?|(argv & envp & ? & ?)]]; (split; [done|]); [by left|right].
  exists argv, envp. eauto using restart_failed_mono.
Qed.
Lemma reload_partial_mono configs svc res :
  reload_partial configs evs svc res → reload_partial configs evs' svc res.
Proof.
  intros [?|[?|Hres]]; [by left|right; left; by apply reload_result_mono|right; right].
  destruct (configs !! _); [by apply change_failed_mono|by apply signal_failed_mono].
Qed.
End mono.

Lemma changed_name cfg evs svc svc' :
  changed cfg evs svc (Some svc') → s_name svc' = s_name svc.
Proof.
  intros (argv & envp & _ & H). unfold restarted in H. simpl in H.
  destruct (s_state svc); decompose_ctx; by simplify_eq.
Qed.
Lemma dropped_name evs svc svc' : dropped evs svc (Some svc') → s_name svc' = s_name svc.
Proof. unfold dropped. intros H. destruct (s_state svc); decompose_ctx; by simplify_eq. Qed.

Lemma signal_failed_refused configs gen a evs svc res :
  signal_failed a evs svc res → reload_refused configs gen evs.
Proof. intros (p & e & _ & He & _). by eapply refused_signal. Qed.
Lemma change_failed_refused configs gen n cfg evs svc res :
  configs !! n = Some cfg → change_failed cfg evs svc res → reload_refused configs gen evs.
Proof.
  intros Hn [_ [[Hb _]|(argv & envp & _ & [(_ & Hr & _)|Hs])]];
    [by eapply refused_strings|by eapply refused_start|by eapply signal_failed_refused].
Qed.

(** * The parts of a reload *)

Section parts.
Context {K : Type} `{!Platform K} `{!PlatformLaws K}.

Lemma wp_from_config_file {S} path (s : S) (w : world K) :
  wp (from_config_file path) (λ o s' w', s' = s ∧ world_calm w w' ∧
    match o with
    | Ok configs => map_Forall (λ _, config_wf) configs ∧
        ∃ txt, toml_from_str txt = ROk configs ∧
          trace w' = trace w ++ [Ev (SReadToString path) (ROk txt)]
    | Err _ => ∃ r, trace w' = trace w ++ [Ev (SReadToString path) r] ∧
        ∀ txt, r = ROk txt → ∀ configs, toml_from_str txt ≠ ROk configs
    | _ => False
    end) s w.
Proof.
  unfold from_config_file. wp_step. apply wp_sys. intros r k Hk. wp_steps.
  assert (Hw : world_calm w (extend w k (Ev (SReadToString path) r)))
    by by apply world_calm_sys.
  apply wp_lift; [intros txt ->|intros e ->; split_and!; [done..|]; eexists; split; [done|];
    by intros]. simpl.
  apply wp_lift; [|intros e He; split_and!; [done..|]; eexists; split; [done|];
    intros ? [= <-] configs Hc; by rewrite Hc in He].
  intros configs Hc. split; [done|]. split; [done|].
  destruct (toml_from_str txt) as [m|] eqn:Ht; [|done]. injection Hc as <-.
  split; [by eapply toml_wf|]. by exists txt.
Qed.

(** ** Names and ids *)

Lemma names_to_ids_snoc svcs svc :
  names_to_ids (svcs ++ [svc]) = <[s_name svc := s_id svc]> (names_to_ids svcs).
Proof. unfold names_to_ids. by rewrite foldl_app. Qed.

Lemma names_to_ids_some svcs n k :
  names_to_ids svcs !! n = Some k → ∃ svc, svc ∈ svcs ∧ s_name svc = n ∧ s_id svc = k.
Proof.
  induction svcs as [|svc svcs IH] using rev_ind; [done|].
  rewrite names_to_ids_snoc, lookup_insert_Some. intros [[<- <-]|[_ H]].
  - exists svc. set_solver.
  - destruct (IH H) as (svc' & ? & ? & ?). exists svc'. set_solver.
Qed.

Lemma names_to_ids_is_some svcs svc :
  svc ∈ svcs → is_Some (names_to_ids svcs !! s_name svc).
Proof.
  induction svcs as [|svc' svcs IH] using rev_ind; [by intros ?%not_elem_of_nil|].
  rewrite names_to_ids_snoc, lookup_insert_is_Some. intros [Hin|Heq%list_elem_of_singleton]%elem_of_app.
  - destruct (decide (s_name svc' = s_name svc)); [by left|right; auto].
  - subst. by left.
Qed.

(** The map of names is the inverse of [s_name] on the registry. *)
Definition ids_of (reg : service_registry) (ids : gmap string Z) : Prop :=
  ∀ n k, ids !! n = Some k ↔ ∃ svc, services_map reg !! k = Some svc ∧ s_name svc = n.

Lemma wp_service_ids {E} gen reg (w : world K)
    (Φ : outcome E (gmap string Z) → service_registry → world K → Prop) :
  reg_inv gen reg w →
  (∀ ids w', ids_of reg ids → world_calm w w' → Φ (Ok ids) reg w') →
  wp service_ids Φ reg w.
Proof.
  intros [Hwf _] HΦ. unfold service_ids. wp_steps. apply wp_in_order.
  intros entries w' Hp Hw _. wp_steps. apply HΦ; [|done].
  assert (Hin : ∀ svc, svc ∈ entries.*2 ↔ ∃ k, services_map reg !! k = Some svc).
  { intros svc. rewrite list_elem_of_fmap. setoid_rewrite Hp. split.
    - intros ([k s] & -> & H%elem_of_map_to_list). by exists k.
    - intros [k H]. exists (k, svc). by rewrite elem_of_map_to_list. }
  intros n k. split.
  - intros (svc & [k' Hk]%Hin & <- & <-)%names_to_ids_some.
    destruct (wf_keys _ _ Hwf _ _ Hk) as [-> _]. by exists svc.
  - intros (svc & Hk & <-). assert (Hs : svc ∈ entries.*2) by (apply Hin; eauto).
    destruct (names_to_ids_is_some _ _ Hs) as [k' Hk']. rewrite Hk'. f_equal.
    apply names_to_ids_some in Hk' as (svc' & [k2 Hk2]%Hin & Hn & <-).
    destruct (wf_keys _ _ Hwf _ _ Hk2) as [-> _]. by eapply (wf_names _ _ Hwf).
Qed.

(** ** The loop over the dropped services *)

Definition drop_post (configs : gmap string service_config) (k : Z) (svc : service)
    (reg : service_registry) (evs : list event) (o : outcome io_error unit)
    (reg' : service_registry) : Prop :=
  (∀ k', k' ≠ k → services_map reg' !! k' = services_map reg !! k') ∧
  match o with
  | Ok _ =>
      if bool_decide (configs !! s_name svc = None)
      then dropped evs svc (services_map reg' !! k) else reg' = reg
  | Err _ => configs !! s_name svc = None ∧
      signal_failed ServicePendingAction.Remove evs svc (services_map reg' !! k)
  | _ => False
  end.

Lemma drop_post_mono configs k svc reg evs evs' o reg' :
  evs ⊆ evs' → drop_post configs k svc reg evs o reg' → drop_post configs k svc reg evs' o reg'.
Proof.
  intros Hsub [Hother Ho]. split; [done|]. destruct o as [[]|e| | |]; try done.
  - case_bool_decide; [by eapply dropped_mono|done].
  - destruct Ho. eauto using signal_failed_mono.
Qed.

(** Only the borrowed entry changed. *)
Lemma update_service_other k svc' reg k' :
  k' ≠ k → services_map (update_service k svc' reg) !! k' = services_map reg !! k'.
Proof. intros Hne. simpl. by rewrite lookup_insert_ne. Qed.

(** Marking a service and asking it to end: its signal is answered, or
    refused. *)
Lemma on_service_mark_stop gen k svc a reg (w : world K) p :
  reg_inv gen reg w → services_map reg !! k = Some svc → s_state svc = Running p →
  wp (on_service k (modify (set_pending_action a) ;;! stop_service)) (λ o reg' w',
    safe gen reg w o reg' w' ∧
    (∀ k', k' ≠ k → services_map reg' !! k' = services_map reg !! k') ∧
    match o with
    | Ok _ => ∃ deadline, stop_answered (s_config svc) p (ROk tt) (events w w') ∧
        services_map reg' !! k = Some (set_state (Stopping p deadline) (set_pending_action a svc))
    | Err _ => signal_failed a (events w w') svc (services_map reg' !! k)
    | _ => False
    end) reg w.
Proof.
  intros Hi Hk Hst. eapply wp_mono; [by apply (on_service_stop gen k svc)|].
  intros o reg' w' [Hsafe (svc' & [_ Hpost] & ->)]. split; [done|].
  split; [intros k'; apply update_service_other|].
  simpl in *. rewrite lookup_insert_eq. rewrite Hst in Hpost.
  destruct o as [[]|[e| |]| | |]; try done.
  - destruct Hpost as (t & _ & -> & Htr). eexists. split; [|done].
    rewrite (events_app _ _ _ Htr). by left.
  - destruct Hpost as [-> Htr]. exists p, e. split_and!; [done| |done].
    rewrite (events_app _ _ _ Htr). by left.
Qed.

Lemma wp_drop_service gen configs k svc reg (w : world K) :
  reg_inv gen reg w → services_map reg !! k = Some svc →
  wp (drop_service configs (s_name svc) k) (λ o reg' w',
    safe gen reg w o reg' w' ∧ drop_post configs k svc reg (events w w') o reg') reg w.
Proof.
  intros Hi Hk. unfold drop_service, service_mut. case_bool_decide as Hc; last first.
  { wp_step. split; [done|]. split; [done|]. by rewrite bool_decide_false. }
  wp_steps. rewrite Hk. destruct (s_state svc) as [r|p|p d] eqn:Hst;
    (eapply (wp_svlogg_then gen _ _ _ (drop_post configs k svc reg));
     [apply drop_post_mono|done|]; clear w Hi; intros w Hi).
  - wp_step. eapply wp_on_service; [done|]. wp_steps. split; [|split].
    + destruct (safe_set_pending (E:=io_error) (A:=unit) gen reg w (Ok tt) k svc
        ServicePendingAction.None Hi Hk) as (Hi1 & Hev & Ht & _); [done|].
      assert (Hk1 : services_map (update_service k
        (set_pending_action ServicePendingAction.None svc) reg) !! k =
        Some (set_pending_action ServicePendingAction.None svc)) by apply lookup_insert_eq.
      assert (Hs1 : is_stopped (set_pending_action ServicePendingAction.None svc) = true)
        by (unfold is_stopped; simpl; by rewrite Hst).
      split_and!; [by eapply reg_inv_remove| |done|done].
      etrans; [done|by eapply evolves_remove].
    + intros k' Hne. simpl. by rewrite lookup_delete_ne, lookup_insert_ne.
    + rewrite bool_decide_true by done. unfold dropped. rewrite Hst. apply lookup_delete_eq.
  - eapply wp_mono; [by apply (on_service_mark_stop gen k svc _ _ _ p)|].
    intros o reg' w' (Hsafe & Hother & Ho). split; [done|]. split; [done|].
    destruct o; try done. rewrite bool_decide_true by done. unfold dropped. by rewrite Hst.
  - eapply wp_on_service; [done|]. wp_steps. split; [by apply safe_set_pending|].
    split; [intros k'; apply update_service_other|].
    rewrite bool_decide_true by done. unfold dropped. rewrite Hst. apply lookup_insert_eq.
Qed.

(** A service before the second loop. *)
Definition drop_result (configs : gmap string service_config) (evs : list event)
    (svc : service) (res : option service) : Prop :=
  if bool_decide (configs !! s_name svc = None) then dropped evs svc res else res = Some svc.

(** The same, when the loop failed on the way. *)
Definition drop_partial (configs : gmap string service_config) (evs : list event)
    (svc : service) (res : option service) : Prop :=
  res = Some svc ∨ drop_result configs evs svc res ∨
  configs !! s_name svc = None ∧ signal_failed ServicePendingAction.Remove evs svc res.

Lemma drop_result_mono configs evs evs' svc res :
  evs ⊆ evs' → drop_result configs evs svc res → drop_result configs evs' svc res.
Proof. intros Hsub. unfold drop_result. case_bool_decide; [by apply dropped_mono|done]. Qed.

Lemma drop_partial_reload configs evs svc res :
  drop_partial configs evs svc res → reload_partial configs evs svc res.
Proof.
  unfold drop_partial, drop_result, reload_partial, reload_result.
  intros [?|[Hres|[Hn ?]]]; [by left| |by rewrite Hn; right; right].
  case_bool_decide as Hn; [rewrite Hn|]; auto.
Qed.

(** The state between two rounds of the first loop, over all the names and
    ids; [visited] are those that had their round. *)
Record drop_inv (configs : gmap string service_config) (gen : Z) (reg : service_registry)
    (w : world K) (visited : list (string * Z)) (reg' : service_registry) (w' : world K) :
    Prop := {
  di_safe : safe (E:=io_error) (A:=unit) gen reg w (Ok tt) reg' w';
  di_rest k : k ∉ visited.*2 → services_map reg' !! k = services_map reg !! k;
  di_done k svc : k ∈ visited.*2 → services_map reg !! k = Some svc →
    drop_result configs (events w w') svc (services_map reg' !! k)
}.

Lemma drop_inv_round configs gen reg (w w1 w2 : world K) visited svc k reg1 reg2 :
  services_map reg !! k = Some svc → k ∉ visited.*2 →
  drop_inv configs gen reg w visited reg1 w1 →
  safe (E:=io_error) gen reg1 w1 (Ok tt) reg2 w2 →
  drop_post configs k svc reg1 (events w w2) (Ok tt) reg2 →
  drop_inv configs gen reg w (visited ++ [(s_name svc, k)]) reg2 w2.
Proof.
  intros Hk Hnv [Hsafe Hrest Hdone] Hsafe2 [Hother Ho].
  destruct (safe_events _ _ _ _ _ _ _ _ _ _ Hsafe Hsafe2) as [Hsub _].
  split; [by eapply safe_trans|..].
  - intros k'. rewrite fmap_app. intros Hk'. rewrite Hother by set_solver.
    apply Hrest. set_solver.
  - intros k' svc' Hin' Hk'. destruct (decide (k' = k)) as [->|Hne].
    + assert (svc' = svc) as -> by congruence. unfold drop_result.
      case_bool_decide; [done|]. by rewrite Ho, Hrest.
    + rewrite Hother by done. eapply drop_result_mono, Hdone; [done| |done].
      rewrite fmap_app in Hin'. set_solver.
Qed.

(** Wherever the first loop fails. *)
Lemma drop_inv_failed configs gen reg (w w1 w2 : world K) visited svc k e reg1 reg2 :
  services_map reg !! k = Some svc →
  (∀ k', k' ∈ visited.*2 → is_Some (services_map reg !! k')) →
  drop_inv configs gen reg w visited reg1 w1 →
  safe (E:=io_error) (A:=unit) gen reg1 w1 (Err e) reg2 w2 →
  drop_post configs k svc reg1 (events w w2) (Err e) reg2 →
  reload_refused configs gen (events w w2) ∧
  ∀ k', match services_map reg !! k' with
        | Some svc' => drop_partial configs (events w w2) svc' (services_map reg2 !! k')
        | None => services_map reg2 !! k' = None
        end.
Proof.
  intros Hk Hknown [Hsafe Hrest Hdone] Hsafe2 [Hother [Hnone Hres]].
  destruct (safe_events _ _ _ _ _ _ _ _ _ _ Hsafe Hsafe2) as [Hsub _].
  split; [by eapply signal_failed_refused|]. intros k'.
  destruct (decide (k' = k)) as [->|Hne]; [rewrite Hk; by right; right|].
  rewrite Hother by done. destruct (services_map reg !! k') as [svc'|] eqn:Hk'.
  - destruct (decide (k' ∈ visited.*2)) as [Hin'|Hin'];
      [right; left; by eapply drop_result_mono, Hdone|left; by rewrite Hrest].
  - rewrite Hrest; [done|]. intros [svc' Hs]%Hknown. congruence.
Qed.

Lemma wp_drop_loop gen configs ids names reg (w : world K) :
  reg_inv gen reg w → ids_of reg ids → (names ≡ₚ map_to_list ids) →
  wp (for_each names (λ e, drop_service configs e.1 e.2)) (λ o reg' w',
    safe gen reg w o reg' w' ∧
    match o with
    | Ok _ => ∀ k, match services_map reg !! k with
                   | Some svc => drop_result configs (events w w') svc (services_map reg' !! k)
                   | None => services_map reg' !! k = None
                   end
    | Err _ => reload_refused configs gen (events w w') ∧
        ∀ k, match services_map reg !! k with
             | Some svc => drop_partial configs (events w w') svc (services_map reg' !! k)
             | None => services_map reg' !! k = None
             end
    | _ => False
    end) reg w.
Proof.
  intros Hi Hids Hp.
  assert (Hin : ∀ n k, (n, k) ∈ names ↔
    ∃ svc, services_map reg !! k = Some svc ∧ s_name svc = n).
  { intros n k. rewrite Hp, elem_of_map_to_list. apply Hids. }
  assert (Hnd : NoDup names.*2).
  { apply NoDup_fmap_fst_inj with (ids := ids); [done|].
    intros n1 n2 k (s1 & Hk1 & <-)%Hids (s2 & Hk2 & <-)%Hids. congruence. }
  assert (Hknown : ∀ l, l ⊆ names → ∀ k, k ∈ l.*2 → is_Some (services_map reg !! k)).
  { intros l Hl k ([n k'] & -> & Hnk%Hl%Hin)%list_elem_of_fmap.
    destruct Hnk as (svc & Hk & _). by eexists. }
  eapply (wp_for_each (λ visited rest, drop_inv configs gen reg w visited)).
  - split; [by apply safe_refl|done|set_solver].
  - intros visited [n k] rest reg1 w1 -> Hinv.
    destruct (proj1 (Hin n k)) as (svc & Hk & <-); [set_solver|].
    rewrite fmap_app in Hnd. apply NoDup_app_cons_notin in Hnd as [Hnv _].
    eapply wp_mono; [eapply wp_drop_service; [apply Hinv|by rewrite (di_rest _ _ _ _ _ _ _ Hinv)]|].
    intros o reg2 w2 [Hsafe2 Hpost].
    destruct (safe_events _ _ _ _ _ _ _ _ _ _ (di_safe _ _ _ _ _ _ _ Hinv) Hsafe2) as [_ Hsub].
    apply (drop_post_mono _ _ _ _ _ _ _ _ Hsub) in Hpost.
    destruct o as [[]|e| | |]; try (by destruct Hpost); [by eapply drop_inv_round|].
    split; [eapply safe_trans; [apply Hinv|done]|].
    eapply drop_inv_failed; try done. apply Hknown. set_solver.
  - intros reg' w' [Hsafe Hrest Hdone]. split; [done|]. intros k.
    destruct (services_map reg !! k) as [svc|] eqn:Hk.
    + apply Hdone; [|done]. apply list_elem_of_fmap. exists (s_name svc, k).
      split; [done|]. apply Hin. by exists svc.
    + rewrite Hrest, Hk; [done|]. intros [svc Hs]%(Hknown names); [congruence|done].
Qed.

(** ** The loop over the new configuration *)

(** What holds of a reload however it ends: also of the id generator. *)
Definition reload_safe {A} (gen : Z) reg (w : world K) (o : outcome io_error A)
    (st : reload_state) w' : Prop :=
  safe st.2 reg w o st.1 w' ∧ gen ≤ st.2 ≤ u64_max.

Lemma reload_safe_trans {A B} gen reg w (o1 : outcome io_error A) st1 w1
    (o : outcome io_error B) st' w' :
  reload_safe gen reg w o1 st1 w1 → reload_safe st1.2 st1.1 w1 o st' w' →
  reload_safe gen reg w o st' w'.
Proof.
  intros [(_ & Hev & Ht & _) Hg] [(Hi & Hev' & Ht' & Ho) Hg'].
  split; [|lia]. split_and!; [done|by etrans|by etrans|done].
Qed.

Lemma update_service_wf cfg argv envp svc :
  config_wf cfg → built cfg argv envp →
  service_wf (set_config cfg (set_envp envp (set_argv argv svc))).
Proof. intros Hc (Ha%build_svc_argv_typed & _ & He). by split. Qed.
Lemma set_argv_wf cfg argv svc :
  build_svc_argv cfg = ROk argv → service_wf svc → service_wf (set_argv argv svc).
Proof. intros Ha%build_svc_argv_typed (? & _ & ?). by split. Qed.

(** The end of [restart_changed], and that of [change_service] when the
    configuration is another one. *)
Definition restart_post (k : Z) (svc : service) (reg : service_registry) (evs : list event)
    (o : outcome io_error unit) (reg' : service_registry) : Prop :=
  (∀ k', k' ≠ k → services_map reg' !! k' = services_map reg !! k') ∧
  match o with
  | Ok _ => restarted evs svc (services_map reg' !! k)
  | Err _ => restart_failed evs svc (services_map reg' !! k)
  | _ => False
  end.
Definition change_post (cfg : service_config) (k : Z) (svc : service) (reg : service_registry)
    (evs : list event) (o : outcome io_error unit) (reg' : service_registry) : Prop :=
  (∀ k', k' ≠ k → services_map reg' !! k' = services_map reg !! k') ∧
  match o with
  | Ok _ => changed cfg evs svc (services_map reg' !! k)
  | Err _ => change_failed cfg evs svc (services_map reg' !! k)
  | _ => False
  end.

Lemma restart_post_mono k svc reg evs evs' o reg' :
  evs ⊆ evs' → restart_post k svc reg evs o reg' → restart_post k svc reg evs' o reg'.
Proof.
  intros Hsub [Hother Ho]. split; [done|].
  destruct o; eauto using restarted_mono, restart_failed_mono.
Qed.
Lemma change_post_mono cfg k svc reg evs evs' o reg' :
  evs ⊆ evs' → change_post cfg k svc reg evs o reg' → change_post cfg k svc reg evs' o reg'.
Proof.
  intros Hsub [Hother Ho]. split; [done|].
  destruct o; eauto using changed_mono, change_failed_mono.
Qed.

Lemma wp_restart_changed gen sigset name k svc reg (w : world K) :
  reg_inv gen reg w → services_map reg !! k = Some svc →
  wp (restart_changed sigset name k svc) (λ o reg' w',
    safe gen reg w o reg' w' ∧ restart_post k svc reg (events w w') o reg') reg w.
Proof.
  intros Hi Hk. unfold restart_changed.
  destruct (s_state svc) as [r|p|p d] eqn:Hst;
    (eapply (wp_svlogg_then gen _ _ _ (restart_post k svc reg));
     [apply restart_post_mono|done|]; clear w Hi; intros w Hi);
    unfold restart_post, restarted; rewrite Hst.
  - assert (Hs : is_stopped svc = true) by (unfold is_stopped; by rewrite Hst).
    eapply wp_mono; [eapply (wp_start_registered _ _ _ _ (λ _, ret tt)); [done..|]|].
    { intros p. apply talks_ret. }
    intros o reg' w' [Hsafe [_ Hpost]]. split; [done|]. destruct o as [[]|e| | |]; try done.
    + destruct Hpost as (p & Hp & Hf & ->). split; [intros k'; apply update_service_other|].
      exists p. split_and!; [done..|]. simpl. by rewrite lookup_insert_eq.
    + destruct Hpost as [-> Href]. split; [done|by left].
  - eapply wp_mono; [by apply (on_service_mark_stop gen k svc _ _ _ p)|].
    intros o reg' w' (Hsafe & Hother & Ho). split; [done|]. split; [done|].
    destruct o; try done. by right.
  - eapply wp_on_service; [done|]. wp_steps. split; [by apply safe_set_pending|].
    split; [intros k'; apply update_service_other|]. simpl. by rewrite lookup_insert_eq.
Qed.

Lemma wp_change_service gen sigset name k svc cfg reg (w : world K) :
  reg_inv gen reg w → services_map reg !! k = Some svc → config_wf cfg →
  wp (change_service sigset name k cfg) (λ o reg' w', safe gen reg w o reg' w' ∧
    if bool_decide (s_config svc ≡ cfg) then o = Ok tt ∧ reg' = reg
    else change_post cfg k svc reg (events w w') o reg') reg w.
Proof.
  intros Hi Hk Hcfg. destruct (reg_inv_service _ _ _ _ _ Hi Hk) as (Hid & _ & Hwf0).
  unfold change_service, service_mut. wp_steps. rewrite Hk.
  destruct (decide (s_config svc ≡ cfg)) as [Heq|Hne].
  { rewrite bool_decide_false by auto. wp_step. by rewrite bool_decide_true. }
  rewrite bool_decide_true, (bool_decide_false (s_config svc ≡ cfg)) by done.
  eapply (wp_svlogg_then gen _ _ _ (change_post cfg k svc reg)); [apply change_post_mono|done|].
  clear w Hi. intros w Hi. wp_step. eapply wp_on_service; [done|]. wp_step.
  eapply wp_mono; [apply wp_update_config|].
  intros o svc1 w1 [[Hle _] Ho]. destruct o as [[]|e| | |]; simpl; try done; last first.
  { destruct Ho as [Hb Ho]. split; [|split; [intros k'; apply update_service_other|]].
    - destruct Ho as [->|(argv & Ha & ->)]; eapply safe_update; try done.
      by eapply set_argv_wf.
    - split; [done|]. left. split; [done|]. simpl. rewrite lookup_insert_eq.
      destruct Ho as [->|(argv & Ha & ->)]; [by left|right; by exists argv]. }
  destruct Ho as (argv & envp & Hbuilt & ->). wp_step.
  set (svc1 := set_config cfg (set_envp envp (set_argv argv svc))).
  assert (Hsafe1 : safe (E:=io_error) gen reg w (Ok tt) (update_service k svc1 reg) w1).
  { eapply safe_update; try done. by apply update_service_wf. }
  wp_steps. eapply wp_mono.
  { apply (wp_restart_changed gen sigset name k svc1); [apply Hsafe1|apply lookup_insert_eq]. }
  intros o reg' w' [Hsafe [Hother Ho]]. split; [by eapply safe_trans|].
  destruct (safe_events _ _ _ _ _ _ _ _ _ _ Hsafe1 Hsafe) as [_ Hsub].
  split; [intros k' Hk'; rewrite Hother by done; by apply update_service_other|].
  destruct o as [[]|e| | |]; try done.
  - exists argv, envp. eauto using restarted_mono.
  - split; [done|]. right. exists argv, envp. eauto using restart_failed_mono.
Qed.

(** A service that is new in the configuration, on success. *)
Definition added (n : string) (cfg : service_config) (evs : list event) (svc : service) : Prop :=
  s_name svc = n ∧ s_config svc = cfg ∧ built cfg (s_argv svc) (s_envp svc) ∧
  s_pending_action svc = ServicePendingAction.None ∧
  ∃ p, 0 < p ∧ did_fork p evs ∧ s_state svc = Running p.

Lemma added_mono n cfg evs evs' svc : evs ⊆ evs' → added n cfg evs svc → added n cfg evs' svc.
Proof.
  intros Hsub (? & ? & ? & ? & p & ? & ? & ?). split_and!; [done..|].
  exists p. eauto using did_fork_mono.
Qed.

Definition add_post (n : string) (cfg : service_config) (gen : Z) (reg : service_registry)
    (evs : list event) (o : outcome io_error unit) (st' : reload_state) : Prop :=
  match o with
  | Ok _ => st'.2 = gen + 1 ∧ ∃ svc, added n cfg evs svc ∧
      services_map st'.1 = <[gen := svc]> (services_map reg)
  | Err _ => st'.1 = reg ∧ (¬ buildable cfg ∨ start_refused cfg evs ∨ st'.2 = u64_max)
  | _ => False
  end.

Lemma add_post_mono n cfg gen reg evs evs' o st' :
  evs ⊆ evs' → add_post n cfg gen reg evs o st' → add_post n cfg gen reg evs' o st'.
Proof.
  intros Hsub. destruct o as [[]|e| | |]; simpl; try done.
  - intros (? & svc & ? & ?). split; [done|]. exists svc. eauto using added_mono.
  - intros [? Hwhy]. split; [done|]. naive_solver eauto using start_refused_mono.
Qed.

Lemma reload_safe_base {A} gen reg (w w1 : world K) (o : outcome io_error A) st w' :
  world_le w w1 → reload_safe gen reg w1 o st w' → reload_safe gen reg w o st w'.
Proof.
  intros (_ & Ht & _) [(Hi & Hev & Ht' & Ho) Hg]. split; [|done]. split_and!; [done..| |done].
  by etrans.
Qed.

Lemma reload_safe_events gen reg (w w1 w' : world K) (o : outcome io_error unit) st :
  world_le w w1 → reload_safe gen reg w1 o st w' → events w1 w' ⊆ events w w'.
Proof. intros (_ & Ht & _) [(_ & _ & Ht' & _) _]. by apply events_sub. Qed.

Lemma wp_svlogg_reload gen reg level msg (k : @M K reload_state io_error unit)
    (Q : list event → outcome io_error unit → reload_state → Prop) st (w : world K) :
  (∀ evs evs' o st', evs ⊆ evs' → Q evs o st' → Q evs' o st') →
  reg_inv gen reg w →
  (∀ w1, reg_inv gen reg w1 →
    wp k (λ o st' w', reload_safe gen reg w1 o st' w' ∧ Q (events w1 w') o st') st w1) →
  wp (svlogg level msg ;;! k)
    (λ o st' w', reload_safe gen reg w o st' w' ∧ Q (events w w') o st') st w.
Proof.
  intros Hmono Hi Hk. wp_step. apply wp_svlogg. intros w1 [Hle _]%says_calm. wp_step.
  eapply wp_mono; [by eapply Hk, reg_inv_world|].
  intros o st' w' [Hs HQ]. split; [by eapply reload_safe_base|].
  eapply Hmono; [by eapply reload_safe_events|done].
Qed.

(** A new service, once it runs, in the registry with its pid. *)
Lemma reload_safe_added gen n cfg argv envp p reg (w w1 w3 : world K)
    (svc := Service gen n cfg argv envp (Stopped NeverStarted) ServicePendingAction.None)
    (reg' := register_pid p gen (insert_service (set_state (Running p) svc) reg)) :
  reg_inv gen reg w → 0 ≤ gen ≤ u64_max → gen ≠ u64_max → config_wf cfg →
  built cfg argv envp → (∀ k svc', services_map reg !! k = Some svc' → s_name svc' ≠ n) →
  world_le w w1 → 0 < p → forked p w1 w3 → did_fork p (events w w3) →
  reload_safe gen reg w (Ok tt) (reg', gen + 1) w3 ∧
  add_post n cfg gen reg (events w w3) (Ok tt) (reg', gen + 1).
Proof.
  intros Hi Hg Hmax Hcfg Hbuilt Hn Hle Hp Hf Hfork.
  assert (Hswf : service_wf svc).
  { destruct Hbuilt as (Ha%build_svc_argv_typed & _ & He). by split. }
  assert (Hi1 : reg_inv (gen + 1) (insert_service svc reg) w1).
  { apply reg_inv_insert; try done; [|lia]. by eapply reg_inv_world. }
  assert (Hlk : services_map (insert_service svc reg) !! gen = Some svc)
    by apply lookup_insert_eq.
  assert (Heq : register_pid p gen (insert_service (set_state (Running p) svc) reg) =
    started gen p svc (insert_service svc reg)).
  { unfold started, register_pid, insert_service, update_service. simpl.
    by rewrite insert_insert_eq. }
  unfold reg'. rewrite Heq. split.
  - split; [|unfold u64_max in *; simpl; lia]. simpl.
    destruct (safe_started (E:=io_error) (A:=unit) (gen + 1) (insert_service svc reg) w1 (Ok tt)
      gen p svc w3) as (Hi2 & Hev & _ & _); try done.
    split_and!; [done| |by etrans; [apply Hle|apply Hf]|done].
    etrans; [|done]. apply evolves_insert; [|apply rtc_once, lc_create].
    destruct (services_map reg !! gen) as [s|] eqn:Hs; [|done].
    destruct (reg_inv_service _ _ _ _ _ Hi Hs) as (_ & ? & _). lia.
  - simpl. split; [done|]. exists (set_state (Running p) svc).
    split; [|by rewrite insert_insert_eq]. split_and!; try done. by exists p.
Qed.

Lemma wp_add_service gen sigset n cfg reg (w : world K) :
  reg_inv gen reg w → 0 ≤ gen ≤ u64_max → config_wf cfg →
  (∀ k svc, services_map reg !! k = Some svc → s_name svc ≠ n) →
  wp (add_service sigset n cfg) (λ o st' w',
    reload_safe gen reg w o st' w' ∧ add_post n cfg gen reg (events w w') o st') (reg, gen) w.
Proof.
  intros Hi Hg Hcfg Hn. unfold add_service, next_id.
  apply (wp_svlogg_reload gen reg _ _ _ (add_post n cfg gen reg)); [apply add_post_mono|done|].
  clear w Hi. intros w Hi. wp_steps.
  rewrite nextval_cases by done. case_bool_decide as Hmax; simpl in *.
  { split; [|by auto]. split; [by apply safe_refl|unfold u64_max in *; simpl; lia]. }
  assert (Hkeep : ∀ o : outcome io_error unit, (∀ msg, o ≠ Panic msg) → ∀ w',
    world_le w w' → reload_safe gen reg w o (reg, gen + 1) w').
  { intros o Ho w' Hw. split; [|unfold u64_max in *; simpl; lia].
    apply safe_world; [|done..]. eapply reg_inv_gen; [|done]. unfold u64_max in *; simpl; lia. }
  wp_steps. eapply wp_mono; [apply wp_service_new|].
  intros o st' w1 (-> & [Hle _] & Ho). destruct o as [svc|e| | |]; simpl; try done;
    [|by split; [apply Hkeep|auto]].
  destruct Ho as (argv & envp & Hbuilt & ->). set (svc := Service _ _ _ _ _ _ _).
  wp_step. wp_step. wp_step. eapply wp_mono; [apply wp_start_service|].
  intros o svc' w2 (_ & Ho). destruct o as [[]|e| | |]; simpl; try done; last first.
  { destruct Ho as (_ & Href & Hle2). split; [apply Hkeep; [done|by etrans]|].
    split; [done|]. right. left. eapply start_refused_mono; [|done].
    apply events_sub; [apply Hle|apply Hle2|done]. }
  destruct Ho as (p & Hp & Hfork & -> & Hf2). eapply wp_running_pid; [done|]. wp_step.
  apply wp_svlogg. intros w3 Hw3%says_calm.
  assert (Hf : forked p w1 w3) by by eapply forked_calm.
  apply (did_fork_mono _ _ (events w w3)) in Hfork; [|apply events_sub; [apply Hle|apply Hf2|apply Hw3]].
  clear Hf2 Hw3 w2. unfold on_registry. wp_steps.
  cbn [fst snd]. eapply (reload_safe_added gen n cfg argv envp p reg w w1 w3); done || lia.
Qed.

(** A service, or a new name, is why the second loop failed. *)
Lemma add_post_refused configs n cfg gen reg evs e st' :
  configs !! n = Some cfg → add_post n cfg gen reg evs (Err e) st' →
  reload_refused configs st'.2 evs.
Proof.
  intros Hn [_ [Hb|[Hr|Hmax]]];
    [by eapply refused_strings|by eapply refused_start|by apply refused_id].
Qed.

(** The state between two rounds of the second loop: [reg] and [w] are the
    registry and the world before the reload, [reg1] and [w1] those after the
    first loop. *)
Record reload_inv (configs : gmap string service_config) (ids : gmap string Z)
    (gen : Z) (reg reg1 : service_registry) (w w1 : world K) (visited : list string)
    (st : reload_state) (w' : world K) : Prop := {
  ri_safe : reload_safe (A:=unit) gen reg w (Ok tt) st w';
  ri_events : events w w1 ⊆ events w w';
  ri_old k svc : services_map reg !! k = Some svc →
    if bool_decide (s_name svc ∈ visited)
    then reload_result configs (events w w') svc (services_map st.1 !! k)
    else services_map st.1 !! k = services_map reg1 !! k;
  ri_none k : k < gen → services_map reg !! k = None → services_map st.1 !! k = None;
  ri_new k svc : gen ≤ k → services_map st.1 !! k = Some svc →
    s_name svc ∈ visited ∧ ids !! s_name svc = None ∧
    ∃ cfg, configs !! s_name svc = Some cfg ∧ added (s_name svc) cfg (events w w') svc;
  ri_made n : n ∈ visited → ids !! n = None →
    ∃ k svc, gen ≤ k ∧ services_map st.1 !! k = Some svc ∧ s_name svc = n
}.

Lemma drop_result_name configs evs svc svc' :
  drop_result configs evs svc (Some svc') → s_name svc' = s_name svc.
Proof. unfold drop_result. case_bool_decide; [apply dropped_name|by intros [= ->]]. Qed.
Lemma reload_result_name configs evs svc svc' :
  reload_result configs evs svc (Some svc') → s_name svc' = s_name svc.
Proof.
  unfold reload_result. destruct (configs !! _); [|apply dropped_name].
  case_bool_decide; [by intros [= ->]|apply changed_name].
Qed.

(** The registry [reg'] is what a reload of [reg] that failed on the way can
    leave. *)
Definition unfinished (configs : gmap string service_config) (gen : Z) (evs : list event)
    (reg reg' : service_registry) : Prop :=
  (∀ k svc, services_map reg !! k = Some svc →
    reload_partial configs evs svc (services_map reg' !! k)) ∧
  (∀ k svc, services_map reg' !! k = Some svc →
    is_Some (services_map reg !! k) ∨
    gen ≤ k ∧ ∃ cfg, configs !! s_name svc = Some cfg ∧ added (s_name svc) cfg evs svc).

Lemma new_mono (configs : gmap string service_config) gen evs evs' reg reg' :
  evs ⊆ evs' →
  (∀ k svc, services_map reg' !! k = Some svc →
    is_Some (services_map reg !! k) ∨
    gen ≤ k ∧ ∃ cfg, configs !! s_name svc = Some cfg ∧ added (s_name svc) cfg evs svc) →
  ∀ k svc, services_map reg' !! k = Some svc →
    is_Some (services_map reg !! k) ∨
    gen ≤ k ∧ ∃ cfg, configs !! s_name svc = Some cfg ∧ added (s_name svc) cfg evs' svc.
Proof.
  intros Hsub Hnew k svc Hk. destruct (Hnew k svc Hk) as [?|(? & cfg & ? & ?)]; [by left|right].
  split; [done|]. exists cfg. eauto using added_mono.
Qed.

Lemma unfinished_mono configs gen evs evs' reg reg' :
  evs ⊆ evs' → unfinished configs gen evs reg reg' → unfinished configs gen evs' reg reg'.
Proof.
  intros Hsub [Hold Hnew]. split; [|by eapply new_mono].
  intros k svc Hk. by eapply reload_partial_mono, Hold.
Qed.

Section second_loop.
Context (configs : gmap string service_config) (ids : gmap string Z) (gen sigset : Z).
Context (reg reg1 : service_registry) (w w1 : world K).
Hypothesis Hi : reg_inv gen reg w.
Hypothesis Hids : ids_of reg ids.
Hypothesis Hcfgs : map_Forall (λ _, config_wf) configs.
Hypothesis Hgen : 0 ≤ gen.
Hypothesis Hdrop : ∀ k svc, services_map reg !! k = Some svc →
  drop_result configs (events w w1) svc (services_map reg1 !! k).

Lemma old_key k svc : services_map reg !! k = Some svc → k < gen.
Proof. intros Hk. destruct (reg_inv_service _ _ _ _ _ Hi Hk) as (_ & ? & _). lia. Qed.

(** A name that the registry did not have is not there before its round. *)
Lemma fresh_name visited n st w' :
  reload_inv configs ids gen reg reg1 w w1 visited st w' → n ∉ visited → ids !! n = None →
  ∀ k svc, services_map st.1 !! k = Some svc → s_name svc ≠ n.
Proof.
  intros [_ _ Hold Hnone Hnew _] Hn Hid k svc Hk <-.
  destruct (decide (k < gen)) as [Hlt|Hge].
  - destruct (services_map reg !! k) as [svc0|] eqn:Hk0;
      [|rewrite Hnone in Hk by done; done].
    assert (Hname : s_name svc = s_name svc0).
    { specialize (Hold _ _ Hk0). case_bool_decide.
      - rewrite Hk in Hold. by eapply reload_result_name.
      - eapply drop_result_name. rewrite <- Hk, Hold. by apply Hdrop. }
    assert (Hid' : ids !! s_name svc = Some k) by (apply Hids; eauto).
    congruence.
  - apply Hnew in Hk as [Hv _]; [done|lia].
Qed.

(** A round for a name with a service. *)
Lemma reload_inv_change visited n cfg k svc st reg' (w2 w' : world K) :
  reload_inv configs ids gen reg reg1 w w1 visited st w2 → events w w2 ⊆ events w w' →
  configs !! n = Some cfg → services_map reg !! k = Some svc → s_name svc = n →
  reload_safe (A:=unit) gen reg w (Ok tt) (reg', st.2) w' →
  (if bool_decide (s_config svc ≡ cfg) then services_map reg' !! k = Some svc
   else changed cfg (events w w') svc (services_map reg' !! k)) →
  (∀ k', k' ≠ k → services_map reg' !! k' = services_map st.1 !! k') →
  reload_inv configs ids gen reg reg1 w w1 (visited ++ [n]) (reg', st.2) w'.
Proof.
  intros [_ Hevs Hold Hnone Hnew Hmade] Hsub Hcfg Hk Hname Hsafe Hres Hother.
  assert (Hvisit : ∀ m, m ∈ visited ++ [n] ↔ m ∈ visited ∨ m = n) by set_solver.
  split; simpl; [done|by etrans|..].
  - intros k' svc' Hk'. destruct (decide (k' = k)) as [->|Hne].
    + assert (svc' = svc) as -> by congruence.
      rewrite bool_decide_true by (apply Hvisit; by right).
      unfold reload_result. by rewrite Hname, Hcfg.
    + assert (Hne' : s_name svc' ≠ n).
      { intros Heq. apply Hne. destruct Hi as [Hwfr _].
        apply (wf_names _ _ Hwfr _ _ _ _ Hk' Hk). by rewrite Hname. }
      rewrite Hother by done. specialize (Hold _ _ Hk').
      rewrite (bool_decide_ext (s_name svc' ∈ visited ++ [n]) (s_name svc' ∈ visited)).
      { destruct (bool_decide (s_name svc' ∈ visited)); [by eapply reload_result_mono|done]. }
      rewrite Hvisit. tauto.
  - intros k' Hlt Hk'. rewrite Hother; [by apply Hnone|]. intros ->. congruence.
  - intros k' svc' Hge Hk'. rewrite Hother in Hk'; [|apply old_key in Hk; lia].
    destruct (Hnew _ _ Hge Hk') as (Hv & Hno & cfg' & ? & ?).
    split_and!; [apply Hvisit; by left|done|]. exists cfg'. eauto using added_mono.
  - intros m [Hm| ->]%Hvisit Hmid.
    + destruct (Hmade _ Hm Hmid) as (k' & svc' & Hge & Hk' & Hnm).
      exists k', svc'. rewrite Hother; [done|]. apply old_key in Hk. lia.
    + exfalso. assert (Hmk : ids !! n = Some k) by (apply Hids; eauto). congruence.
Qed.

(** A round for a name without a service: [k] is the new id. *)
Lemma reload_inv_add visited n cfg k svc st st' (w2 w' : world K) :
  reload_inv configs ids gen reg reg1 w w1 visited st w2 → events w w2 ⊆ events w w' →
  configs !! n = Some cfg → ids !! n = None → gen ≤ k →
  services_map st.1 !! k = None → added n cfg (events w w') svc →
  reload_safe (A:=unit) gen reg w (Ok tt) st' w' →
  services_map st'.1 = <[k := svc]> (services_map st.1) →
  reload_inv configs ids gen reg reg1 w w1 (visited ++ [n]) st' w'.
Proof.
  intros [_ Hevs Hold Hnone Hnew Hmade] Hsub Hcfg Hid Hge Hfresh Hadded Hsafe Hmap.
  assert (Hvisit : ∀ m, m ∈ visited ++ [n] ↔ m ∈ visited ∨ m = n) by set_solver.
  split; rewrite ?Hmap; [done|by etrans|..].
  - intros k' svc' Hk'. rewrite lookup_insert_ne by (apply old_key in Hk'; lia).
    specialize (Hold _ _ Hk').
    rewrite (bool_decide_ext (s_name svc' ∈ visited ++ [n]) (s_name svc' ∈ visited)).
    { destruct (bool_decide (s_name svc' ∈ visited)); [by eapply reload_result_mono|done]. }
    rewrite Hvisit. split; [|by left]. intros [?|Heq]; [done|].
    assert (Hmk : ids !! s_name svc' = Some k') by (apply Hids; eauto). congruence.
  - intros k' Hlt Hk'. rewrite lookup_insert_ne by lia. by apply Hnone.
  - intros k' svc' Hge'. rewrite lookup_insert_Some. intros [[<- <-]|[_ Hk']].
    + destruct Hadded as [Hnm Hadded]. rewrite Hnm. split_and!; [apply Hvisit; by right|done|].
      exists cfg. split; [done|]. by split.
    + destruct (Hnew _ _ Hge' Hk') as (Hv & Hno & cfg' & ? & ?).
      split_and!; [apply Hvisit; by left|done|]. exists cfg'. eauto using added_mono.
  - intros m [Hm| ->]%Hvisit Hmid.
    + destruct (Hmade _ Hm Hmid) as (k' & svc' & Hge' & Hk' & Hnm).
      exists k', svc'. split_and!; [done| |done]. rewrite lookup_insert_ne; [done|]. congruence.
    + exists k, svc. rewrite lookup_insert_eq. split_and!; [done|done|]. apply Hadded.
Qed.

(** Wherever the loop stops, the registry is a partial result. *)
Lemma reload_inv_unfinished visited st w' :
  reload_inv configs ids gen reg reg1 w w1 visited st w' →
  unfinished configs gen (events w w') reg st.1.
Proof.
  intros [_ Hevs Hold Hnone Hnew _]. split.
  - intros k svc Hk. specialize (Hold _ _ Hk). case_bool_decide; [by right; left|].
    rewrite Hold. apply drop_partial_reload. right. left. by eapply drop_result_mono, Hdrop.
  - intros k svc Hk. destruct (services_map reg !! k) as [svc0|] eqn:Hk0; [by left; eexists|].
    right. destruct (decide (k < gen)) as [Hlt|Hge]; [by rewrite Hnone in Hk|].
    split; [lia|]. destruct (Hnew k svc) as (_ & _ & Hcfg); [lia|done..].
Qed.

Lemma unfinished_change cfg evs k svc reg2 reg' :
  unfinished configs gen evs reg reg2 → services_map reg !! k = Some svc →
  configs !! s_name svc = Some cfg → change_failed cfg evs svc (services_map reg' !! k) →
  (∀ k', k' ≠ k → services_map reg' !! k' = services_map reg2 !! k') →
  unfinished configs gen evs reg reg'.
Proof.
  intros [Hold Hnew] Hk Hcfg Hres Hother. split.
  - intros k' svc' Hk'. destruct (decide (k' = k)) as [->|Hne]; [|rewrite Hother; auto].
    assert (svc' = svc) as -> by congruence. right. right. by rewrite Hcfg.
  - intros k' svc' Hk'. destruct (decide (k' = k)) as [->|Hne]; [by left; eexists|].
    apply Hnew. by rewrite <- Hother.
Qed.

Lemma wp_apply_config visited n cfg st (w2 : world K) :
  reload_inv configs ids gen reg reg1 w w1 visited st w2 →
  n ∉ visited → configs !! n = Some cfg →
  wp (apply_config ids sigset n cfg) (λ o st' w',
    match o with
    | Ok _ => reload_inv configs ids gen reg reg1 w w1 (visited ++ [n]) st' w'
    | Err _ => reload_safe gen reg w o st' w' ∧
        reload_refused configs st'.2 (events w w') ∧
        unfinished configs gen (events w w') reg st'.1
    | _ => False
    end) st w2.
Proof.
  intros Hinv Hn Hcfg. pose proof (fresh_name _ _ _ _ Hinv Hn) as Hfresh.
  pose proof (reload_inv_unfinished _ _ _ Hinv) as Hpartial.
  destruct st as [reg2 gen2]. pose proof (ri_safe _ _ _ _ _ _ _ _ _ _ Hinv) as [Hs Hg].
  pose proof (ri_old _ _ _ _ _ _ _ _ _ _ Hinv) as Hold. simpl in *.
  assert (Hi2 : reg_inv gen2 reg2 w2) by apply Hs.
  assert (Hwf : config_wf cfg) by by eapply Hcfgs.
  unfold apply_config. destruct (ids !! n) as [k|] eqn:Hid.
  - apply Hids in Hid as (svc & Hk & Hname).
    assert (Hk2 : services_map reg2 !! k = Some svc).
    { specialize (Hold _ _ Hk). rewrite bool_decide_false in Hold by by rewrite Hname.
      rewrite Hold. specialize (Hdrop _ _ Hk). unfold drop_result in Hdrop.
      by rewrite bool_decide_false in Hdrop by by rewrite Hname, Hcfg. }
    unfold on_registry. wp_step. eapply wp_mono; [by apply wp_change_service|].
    intros o reg' w' [Hs' Ho]. simpl.
    destruct (safe_events _ _ _ _ _ _ _ _ _ _ Hs Hs') as [Hsub Hsub'].
    case_bool_decide as Heq.
    { destruct Ho as [-> ->].
      apply (reload_inv_change visited n cfg k svc (reg2, gen2) reg2 w2 w'); try done;
        [split; [by eapply safe_trans|done]|by rewrite bool_decide_true]. }
    apply (change_post_mono _ _ _ _ _ _ _ _ Hsub') in Ho as [Hother Ho].
    destruct o as [[]|e| | |]; try done; simpl in *.
    + apply (reload_inv_change visited n cfg k svc (reg2, gen2) reg' w2 w'); try done;
        [split; [by eapply safe_trans|done]|by rewrite bool_decide_false].
    + split_and!; [split; [by eapply safe_trans|done]|by eapply change_failed_refused|].
      eapply (unfinished_change cfg _ k svc reg2);
        [exact (unfinished_mono _ _ _ _ _ _ Hsub Hpartial)|done|by rewrite Hname|done..].
  - eapply wp_mono; [apply (wp_add_service gen2); [done|lia|done|by apply Hfresh]|].
    intros o st' w' [Hs' Ho].
    assert (Hsafe' : reload_safe gen reg w o st' w').
    { by eapply (reload_safe_trans gen reg w (Ok tt : outcome io_error unit) (reg2, gen2)). }
    destruct (safe_events _ _ _ _ _ _ _ _ _ _ Hs (proj1 Hs')) as [Hsub Hsub'].
    apply (add_post_mono _ _ _ _ _ _ _ _ Hsub') in Ho.
    destruct o as [[]|e| | |]; try done; last first.
    { split_and!; [done|by eapply add_post_refused|]. destruct Ho as [-> _].
      exact (unfinished_mono _ _ _ _ _ _ Hsub Hpartial). }
    destruct Ho as (_ & svc & Hadded & Hmap).
    apply (reload_inv_add visited n cfg gen2 svc (reg2, gen2) st' w2 w'); try done; [lia|].
    simpl. destruct (services_map reg2 !! gen2) as [s|] eqn:Hs2; [|done].
    destruct (reg_inv_service _ _ _ _ _ Hi2 Hs2) as (_ & ? & _). lia.
Qed.
End second_loop.

(** The registry [reg'] is [reg] reconciled with [configs]; [gen] was the
    next id. *)
Definition reconciled (configs : gmap string service_config) (gen : Z) (evs : list event)
    (reg reg' : service_registry) : Prop :=
  (∀ k svc, services_map reg !! k = Some svc →
    reload_result configs evs svc (services_map reg' !! k)) ∧
  (∀ n cfg, configs !! n = Some cfg →
    (∀ k svc, services_map reg !! k = Some svc → s_name svc ≠ n) →
    ∃ k svc, gen ≤ k ∧ services_map reg' !! k = Some svc ∧ added n cfg evs svc) ∧
  (∀ k svc, services_map reg' !! k = Some svc →
    is_Some (services_map reg !! k) ∨
    gen ≤ k ∧ ∃ cfg, configs !! s_name svc = Some cfg ∧ added (s_name svc) cfg evs svc).

Lemma reconciled_mono configs gen evs evs' reg reg' :
  evs ⊆ evs' → reconciled configs gen evs reg reg' → reconciled configs gen evs' reg reg'.
Proof.
  intros Hsub (Hold & Hmade & Hnew). split_and!; [| |by eapply new_mono].
  - intros k svc Hk. by eapply reload_result_mono, Hold.
  - intros n cfg Hn Hfresh. destruct (Hmade n cfg Hn Hfresh) as (k & svc & ? & ? & ?).
    exists k, svc. eauto using added_mono.
Qed.

Lemma reload_inv_start configs ids gen reg reg1 (w w1 : world K) :
  reg_inv gen reg w → 0 ≤ gen ≤ u64_max →
  safe (E:=io_error) (A:=unit) gen reg w (Ok tt) reg1 w1 →
  (∀ k, match services_map reg !! k with
        | Some svc => drop_result configs (events w w1) svc (services_map reg1 !! k)
        | None => services_map reg1 !! k = None
        end) →
  reload_inv configs ids gen reg reg1 w w1 [] (reg1, gen) w1.
Proof.
  intros Hi Hg Hsafe Hdrop.
  assert (Hnone : ∀ k, services_map reg !! k = None → services_map reg1 !! k = None).
  { intros k Hk. specialize (Hdrop k). by rewrite Hk in Hdrop. }
  split; simpl; [by split; [|simpl; lia]|done|done|by intros; apply Hnone| |set_solver].
  intros k svc Hge Hk. exfalso.
  destruct (services_map reg !! k) as [svc0|] eqn:Hk0; [|by rewrite Hnone in Hk].
  destruct (reg_inv_service _ _ _ _ _ Hi Hk0) as (_ & ? & _). lia.
Qed.

Lemma reload_inv_end configs ids gen reg reg1 (w w1 : world K) visited st w' :
  reg_inv gen reg w → ids_of reg ids → (∀ n, n ∈ visited ↔ is_Some (configs !! n)) →
  (∀ k svc, services_map reg !! k = Some svc →
    drop_result configs (events w w1) svc (services_map reg1 !! k)) →
  reload_inv configs ids gen reg reg1 w w1 visited st w' →
  reconciled configs gen (events w w') reg st.1.
Proof.
  intros Hi Hids Hvisited Hdrop [Hsafe Hevs Hold Hnone Hnew Hmade]. split_and!.
  - intros k svc Hk. specialize (Hold _ _ Hk). case_bool_decide as Hv; [done|].
    rewrite Hold. specialize (Hdrop _ _ Hk). unfold drop_result, reload_result in *.
    rewrite Hvisited in Hv. destruct (configs !! s_name svc); [by destruct Hv|].
    by eapply dropped_mono.
  - intros n cfg Hn Hfresh. destruct (Hmade n) as (k & svc & Hge & Hk & Hname).
    + apply Hvisited. by eexists.
    + destruct (ids !! n) as [k|] eqn:Hid; [|done].
      apply Hids in Hid as (svc & Hk & Hname). by destruct (Hfresh _ _ Hk).
    + exists k, svc. split_and!; [done..|].
      destruct (Hnew _ _ Hge Hk) as (_ & _ & cfg' & Hc & Hadded). simplify_eq. done.
  - intros k svc Hk. destruct (services_map reg !! k) as [svc0|] eqn:Hk0; [by left; eexists|].
    right. destruct (decide (k < gen)) as [Hlt|Hge]; [by rewrite Hnone in Hk|].
    split; [lia|]. destruct (Hnew k svc) as (_ & _ & Hcfg); [lia|done..].
Qed.

(** Everything a reload guarantees. *)
Definition reload_post (cfg_path : string) (gen : Z) reg (w : world K)
    (o : outcome io_error unit) (st : reload_state) (w' : world K) : Prop :=
  reload_safe gen reg w o st w' ∧
  match o with
  | Ok _ => ∃ txt configs,
      (trace w ++ [Ev (SReadToString cfg_path) (ROk txt)]) `prefix_of` trace w' ∧
      toml_from_str txt = ROk configs ∧ reconciled configs gen (events w w') reg st.1
  | Err _ => st = (reg, gen) ∨ ∃ txt configs,
      (trace w ++ [Ev (SReadToString cfg_path) (ROk txt)]) `prefix_of` trace w' ∧
      toml_from_str txt = ROk configs ∧ reload_refused configs st.2 (events w w') ∧
      unfinished configs gen (events w w') reg st.1
  | _ => False
  end.

Lemma wp_apply_loop configs ids names sigset gen reg reg1 (w w1 : world K) :
  reg_inv gen reg w → ids_of reg ids → map_Forall (λ _, config_wf) configs →
  0 ≤ gen ≤ u64_max → (names ≡ₚ map_to_list configs) →
  (∀ k svc, services_map reg !! k = Some svc →
    drop_result configs (events w w1) svc (services_map reg1 !! k)) →
  reload_inv configs ids gen reg reg1 w w1 [] (reg1, gen) w1 →
  wp (for_each names (λ e, apply_config ids sigset e.1 e.2)) (λ o st w',
    reload_safe gen reg w o st w' ∧
    match o with
    | Ok _ => reconciled configs gen (events w w') reg st.1
    | Err _ => reload_refused configs st.2 (events w w') ∧
        unfinished configs gen (events w w') reg st.1
    | _ => False
    end) (reg1, gen) w1.
Proof.
  intros Hi Hids Hcfgs Hg Hp Hdrop Hstart.
  assert (Hvisited : ∀ n, n ∈ names.*1 ↔ is_Some (configs !! n)).
  { intros n. rewrite Hp, list_elem_of_fmap. split.
    - intros ([n' c] & -> & ?%elem_of_map_to_list). by eexists.
    - intros [c Hc]. exists (n, c). by rewrite elem_of_map_to_list. }
  assert (Hnd : NoDup names.*1) by (rewrite Hp; apply NoDup_fst_map_to_list).
  eapply (wp_for_each (λ visited rest st w',
    reload_inv configs ids gen reg reg1 w w1 visited.*1 st w')); [done|..].
  - intros visited [n cfg] rest st w' -> Hinv.
    rewrite fmap_app in Hnd. apply NoDup_app_cons_notin in Hnd as [Hnv _].
    assert (Hn : configs !! n = Some cfg).
    { apply elem_of_map_to_list. rewrite <- Hp. set_solver. }
    eapply wp_mono; [eapply (wp_apply_config configs ids gen sigset reg reg1 w w1); done || lia|].
    intros o st' w'' Ho. rewrite fmap_app.
    destruct o as [[]|e| | |]; done.
  - intros st w' Hinv. split; [apply Hinv|]. by eapply reload_inv_end.
Qed.

Lemma wp_reconcile configs sigset gen reg (w : world K) :
  reg_inv gen reg w → 0 ≤ gen ≤ u64_max → map_Forall (λ _, config_wf) configs →
  wp (reconcile configs sigset) (λ o st w', reload_safe gen reg w o st w' ∧
    match o with
    | Ok _ => reconciled configs gen (events w w') reg st.1
    | Err _ => reload_refused configs st.2 (events w w') ∧
        unfinished configs gen (events w w') reg st.1
    | _ => False
    end) (reg, gen) w.
Proof.
  intros Hi Hg Hcfgs. unfold reconcile, on_registry.
  wp_steps. eapply wp_service_ids; [done|]. intros ids w1 Hids [Hw1 _].
  simpl. wp_steps. apply wp_in_order. intros names w2 Hnames [Hw2 _] _. wp_steps.
  assert (Hw : world_le w w2) by by etrans.
  eapply wp_mono.
  { eapply (wp_drop_loop gen configs ids); [|done|done].
    by eapply reg_inv_world. }
  intros o reg1 w3 [Hs Hdrop]. simpl in *.
  assert (Hs3 : safe gen reg w o reg1 w3).
  { eapply (safe_trans (E:=io_error) (A:=unit) _ _ _ (Ok tt)); [|done]. by apply safe_world. }
  assert (Hsub : events w2 w3 ⊆ events w w3) by (apply events_sub; [apply Hw|apply Hs|done]).
  destruct o as [[]|e| | |]; simpl; try done; last first.
  { destruct Hdrop as [Hwhy Hdrop]. split; [by split; [|simpl; lia]|].
    split; [by eapply reload_refused_mono|]. eapply unfinished_mono; [done|]. split; simpl.
    - intros k svc Hk. specialize (Hdrop k). rewrite Hk in Hdrop. by apply drop_partial_reload.
    - intros k svc Hk. left. specialize (Hdrop k).
      destruct (services_map reg !! k); [by eexists|congruence]. }
  wp_steps. apply wp_in_order. intros entries w4 Hentries [Hw4 _] _. simpl.
  assert (Hsafe4 : safe (E:=io_error) (A:=unit) gen reg w (Ok tt) reg1 w4).
  { eapply safe_trans; [done|]. apply safe_world; [apply Hs3|done..]. }
  assert (Hsub4 : events w2 w3 ⊆ events w w4).
  { etrans; [exact Hsub|]. apply events_sub; [done|apply Hs3|apply Hw4]. }
  assert (Hdrop4 : ∀ k, match services_map reg !! k with
    | Some svc => drop_result configs (events w w4) svc (services_map reg1 !! k)
    | None => services_map reg1 !! k = None
    end).
  { intros k. specialize (Hdrop k). destruct (services_map reg !! k); [|done].
    by eapply drop_result_mono. }
  eapply wp_apply_loop; try done.
  - intros k svc Hk. specialize (Hdrop4 k). by rewrite Hk in Hdrop4.
  - by apply reload_inv_start.
Qed.

Lemma wp_reload_services cfg_path sigset gen reg (w : world K) :
  reg_inv gen reg w → 0 ≤ gen ≤ u64_max →
  wp (reload_services cfg_path sigset) (reload_post cfg_path gen reg w) (reg, gen) w.
Proof.
  intros Hi Hg. unfold reload_services. wp_step.
  eapply wp_mono; [apply wp_from_config_file|].
  intros o st w1 (-> & [Hw1 _] & Ho). destruct o as [configs|e| | |]; simpl; try done.
  - destruct Ho as (Hcfgs & txt & Htxt & Htr).
    eapply wp_mono; [eapply wp_reconcile; try done; eapply reg_inv_world; [apply Hw1|done]|].
    intros o st w' [Hsafe Hrec]. split; [by eapply reload_safe_base|].
    pose proof (reload_safe_events _ _ _ _ _ _ _ Hw1 Hsafe) as Hsub.
    assert (Hpre : (trace w ++ [Ev (SReadToString cfg_path) (ROk txt)]) `prefix_of` trace w')
      by (rewrite <- Htr; apply Hsafe).
    destruct o as [[]|e| | |]; try done; [|right]; exists txt, configs;
      [|destruct Hrec as [Hwhy Hrec]]; split_and!;
      eauto using reconciled_mono, unfinished_mono, reload_refused_mono.
  - split; [|by left]. split; [by apply safe_world|simpl; lia].
Qed.
End parts.

Lemma reload_result_kept configs evs svc res cfg :
  configs !! s_name svc = Some cfg → reload_result configs evs svc res →
  ∃ svc', res = Some svc' ∧ s_name svc' = s_name svc.
Proof.
  intros Hcfg Hres. destruct res as [svc'|]; [exists svc'; eauto using reload_result_name|].
  unfold reload_result in Hres. rewrite Hcfg in Hres. case_bool_decide; [done|].
  destruct Hres as (argv & envp & _ & Hres). unfold restarted in Hres. simpl in Hres.
  destruct (s_state svc); decompose_ctx; done.
Qed.

(** A name of the configuration has a service afterwards. *)
Lemma reconciled_names configs gen evs reg reg' n :
  reconciled configs gen evs reg reg' → is_Some (configs !! n) →
  ∃ k svc, services_map reg' !! k = Some svc ∧ s_name svc = n.
Proof.
  intros (Hold & Hmade & _) [cfg Hcfg].
  destruct (decide (map_Forall (λ _ svc, s_name svc ≠ n) (services_map reg))) as [Hno|Hyes].
  - destruct (Hmade n cfg Hcfg Hno) as (k & svc & _ & Hk & Hname & _). by exists k, svc.
  - apply map_not_Forall in Hyes as (k & svc & Hk & Hname%dec_stable); [|solve_decision].
    destruct (reload_result_kept configs evs svc (services_map reg' !! k) cfg) as (svc' & Hk' & Hn').
    { by rewrite Hname. }
    { by apply Hold. }
    exists k, svc'. by rewrite Hn', Hname.
Qed.

(** * Properties *)

Section properties.
Context {K : Type} `{!Platform K} `{!PlatformLaws K}.

(** C22.  A reload, however it ends (success, an unreadable or invalid
    file, a service that cannot be built or started, a signal that cannot
    be sent, the end of the ids): the registry's invariant holds for the
    ids handed out so far, every entry followed the life cycle, the id
    generator only moved forward, and nothing panicked.  When it fails after
    the configuration was read, then a string was no C string, a call of a
    start was refused, a signal was refused or the ids were exhausted
    ([reload_refused]); each service it had is untouched, or as a successful
    reload leaves it, or marked while its signal was refused, or given its new
    configuration while its start was refused; and every other service is a
    new, running one of the configuration ([unfinished]). *)
Theorem reload_services_safe cfg_path sigset gen reg (w : world K) :
  reg_inv gen reg w → 0 ≤ gen ≤ u64_max →
  wp (reload_services cfg_path sigset) (λ o st w',
    safe st.2 reg w o st.1 w' ∧ gen ≤ st.2 ≤ u64_max ∧ o ≠ OutOfFuel ∧
    ∀ e, o = Err e → st = (reg, gen) ∨ ∃ txt configs,
      (trace w ++ [Ev (SReadToString cfg_path) (ROk txt)]) `prefix_of` trace w' ∧
      toml_from_str txt = ROk configs ∧ reload_refused configs st.2 (events w w') ∧
      unfinished configs gen (events w w') reg st.1) (reg, gen) w.
Proof.
  intros Hi Hg. eapply wp_mono; [by apply wp_reload_services|].
  intros o st w' [[Hs Hg'] Ho]. split_and!; [done|lia|lia|by destruct o|by intros e ->].
Qed.

(** C12.  A reload that succeeds reconciles the registry with the
    configuration it read, whatever the iteration orders: every service it
    had is dropped, changed or kept according to the new configuration and
    its state (a path that is only spelled differently is no change), a
    service that has to end was sent its stop signal and one
    that has to run again runs under a pid that a fork of this reload
    returned; every new name has a running service with its configuration
    under a fresh id; and there is no other service. *)
Theorem reload_services_reconciles cfg_path sigset gen reg (w : world K) :
  reg_inv gen reg w → 0 ≤ gen ≤ u64_max →
  wp (reload_services cfg_path sigset) (λ o st w', o = Ok tt →
    ∃ txt configs,
      (trace w ++ [Ev (SReadToString cfg_path) (ROk txt)]) `prefix_of` trace w' ∧
      toml_from_str txt = ROk configs ∧ reconciled configs gen (events w w') reg st.1)
    (reg, gen) w.
Proof.
  intros Hi Hg. eapply wp_mono; [by apply wp_reload_services|].
  intros o st w' [_ Ho] ->. exact Ho.
Qed.
End properties.

(** * Instances on the simulated platform *)

(** The world of a service, with a new configuration file. *)
Definition sim_reload_world (txt : string) (svc : service) : world sim :=
  World (sim_set_config txt (kst (sim_world_of svc))) (trace (sim_world_of svc)) (log_max (sim_world_of svc)).

Lemma sim_reload_inv txt st a :
  (∀ p, state_pid st = Some p → 0 < p < 2 ^ 31) →
  reg_inv 1 (sim_reg (sim_svc st a)) (sim_reload_world txt (sim_svc st a)).
Proof.
  intros Hpos. destruct (sim_reg_inv st a Hpos) as (Hwf & Hc & Hl). split_and!; [done| |done].
  unfold sim_reload_world, sim_world_of in *. by destruct (pid (sim_svc st a)).
Qed.

Lemma reload_services_safe_witness :
  let svc := sim_svc (Running 100) ServicePendingAction.None in
  wp (reload_services "services.toml" 0) (λ o st _, 1 ≤ st.2 ≤ u64_max)
    (sim_reg svc, 1) (sim_reload_world "ab" svc).
Proof.
  cbv zeta. eapply wp_mono; [apply (reload_services_safe "services.toml" 0)|].
  - apply sim_reload_inv. by intros p [= <-].
  - unfold u64_max. lia.
  - by intros o st w' (_ & Hg & _ & _).
Defined.

(** The configuration gains a service [b] and keeps [a]. *)
Lemma reload_services_reconciles_witness :
  let svc := sim_svc (Running 100) ServicePendingAction.None in
  let w := sim_reload_world "ab" svc in
  (∃ st w', reload_services "services.toml" 0 (sim_reg svc, 1) w = (Ok tt, st, w')) ∧
  wp (reload_services "services.toml" 0) (λ o st w', o = Ok tt →
    ∃ txt configs, toml_from_str txt = ROk configs ∧
      reconciled configs 1 (events w w') (sim_reg svc) st.1)
    (sim_reg svc, 1) w.
Proof.
  cbv zeta. split; [eexists _, _; vm_compute; reflexivity|].
  eapply wp_mono; [apply (reload_services_reconciles "services.toml" 0)|].
  - apply sim_reload_inv. by intros p [= <-].
  - unfold u64_max. lia.
  - intros o st w' Ho ->. destruct (Ho eq_refl) as (txt & configs & _ & Ht & Hr).
    by exists txt, configs.
Defined.

(** A path that is only spelled differently is no change: the service keeps
    running and keeps the old spelling.  Another path is one. *)
Example respelled_path_kept :
  let svc := set_config (sim_logged "/var/log/a") (sim_svc (Running 100) ServicePendingAction.None) in
  let reload txt := reload_services "services.toml" 0 (sim_reg svc, 1) (sim_reload_world txt svc) in
  (reload "log'").1.1 = Ok tt ∧ (reload "log'").1.2 = (sim_reg svc, 1) ∧
  kills (reload "log'").2 = [] ∧ kills (reload "log2").2 = [(100, SIGTERM)].
Proof. vm_compute. done. Qed.

(** A service dropped by one reload and configured again, unchanged, by the
    next one while its process is still stopping keeps its removal pending:
    when the process ends, the next tick removes a configured service. *)
Example readded_service_removed :
  let svc := sim_svc (Stopping 100 7) ServicePendingAction.Remove in
  let '(o, st, w) := reload_services "services.toml" 0 (sim_reg svc, 1) (sim_reload_world "a" svc) in
  let w := World (sim_set_statuses [(100, SIGTERM)] (kst w)) (trace w) (log_max w) in
  let '(o1, reg1, w1) := handle_sigchld 2 st.1 w in
  let '(o2, reg2, w2) := handle_tick (E:=unit) 8 0 reg1 w1 in
  o = Ok tt ∧ services_map st.1 !! 0 = Some svc ∧ o1 = Ok tt ∧ o2 = Ok tt ∧ services_map reg2 = ∅.
Proof. vm_compute. done. Qed.
