(* ===== verification/Status.v ===== *)
(** status.rs, [write_all] of utils.rs, [format_status] of service.rs and
    [flush_status_file] of main.rs: the status file, its text and the way it
    is replaced. *)
From S2P Require Import Prelude Utils Bytes Paths Data Text Platform Monad Sim Logging Signalfd.
From S2P Require Import Control Service Registry.
Local Open Scope Z_scope.
Local Open Scope svlopp_scope.

(** * Paths: what the sources use of [std::path] *)

(** [s] up to its last [sep] (included), and the rest. *)
Fixpoint split_last (sep : Ascii.ascii) (s : string) : string * string :=
  match s with
  | "" => ("", "")
  | String c s' =>
      let '(before, after) := split_last sep s' in
      if bool_decide (before = "") then
        if bool_decide (c = sep) then (String c "", after) else ("", String c after)
      else (String c before, after)
  end.

(** [Path::join] with a relative name. *)
Definition path_join (dir name : string) : string :=
  if bool_decide (dir = "") then name
  else if bool_decide ((split_last slash dir).2 = "") then dir +:+ name
  else dir +:+ "/" +:+ name.

(** [s] without its last character. *)
Fixpoint strip_last (s : string) : string :=
  match s with
  | "" | String _ "" => ""
  | String c s' => String c (strip_last s')
  end.

(** [Path::file_stem] of a file name: what precedes the last dot, unless
    that dot begins the name. *)
Definition file_stem (name : string) : string :=
  let before := (split_last dot name).1 in
  if bool_decide (before = "") || bool_decide (before = ".") then name
  else strip_last before.

(** [Path::with_extension], for a path that ends in a file name. *)
Definition with_extension (path ext : string) : string :=
  let '(dir, name) := split_last slash path in
  if bool_decide (name = "") || bool_decide (name = "..") then path
  else dir +:+ file_stem name +:+ "." +:+ ext.

(** [StatusFilePath] and [StatusFilePath::new]. *)
Record status_file_path : Type := StatusFilePath {
  sf_path : string;
  sf_tmp_path : string
}.
Definition status_file_path_new (path : string) : status_file_path :=
  StatusFilePath path (with_extension path "tmp").

(** [StatusFilePath::path] and [StatusFilePath::tmp_path]. *)
Definition status_path (p : status_file_path) : string := sf_path p.
Definition status_tmp_path (p : status_file_path) : string := sf_tmp_path p.

(** * The text *)

(** What [format_status] writes for the services in iteration order. *)
Fixpoint status_text (svcs : list service) : string :=
  match svcs with
  | [] => ""
  | svc :: svcs' => format_status_line svc +:+ String newline_char (status_text svcs')
  end.

Section status.
Context {K : Type} `{!Platform K}.
Abbreviation M := (@M K).

(** [ServiceRegistry::format_status]; writing to a [String] cannot fail. *)
Definition format_status {E} : M service_registry E string :=
  let! entries := services in
  ret (status_text entries.*2).

(** [write_all]: [fuel] bounds the number of writes. *)
Fixpoint write_all {S} (fuel : nat) (fd : Z) (buf : list Z) : M S io_error unit :=
  match buf with
  | [] => ret tt
  | _ =>
      match fuel with
      | O => out_of_fuel
      | S fuel' =>
          let! n := sys_try (SWrite fd buf) in
          if bool_decide (n <= length buf)%nat then write_all fuel' fd (drop n buf)
          else panic "range start index out of range for slice"
      end
  end.

(** [write_status_file]. *)
Definition write_status_file {S} (fuel : nat) (path : status_file_path)
    (content : string) : M S io_error unit :=
  let! fd := sys_try (SOpen (status_tmp_path path) [WRONLY; CREATE; TRUNC; CLOEXEC] 420) in
  write_all fuel fd (as_bytes content) ;;!
  sys_try (SFsync fd) ;;!
  sys_try (SRename (status_tmp_path path) (status_path path)).

(** [flush_status_file]: a failure is only logged.  [format_status] writes
    to a [String] and has no error. *)
Definition flush_status_file {E} (fuel : nat) (path : status_file_path) :
    M service_registry E unit :=
  let! buf := format_status in
  let! r := catch (write_status_file fuel path buf) in
  match r with
  | ROk _ => ret tt
  | RErr e => svlogg LogLevel.Error ("failed to write status file: " +:+ io_error_text e)
  end.
End status.

(** * Paths *)

#[local] Arguments String.append !_ _ / : simpl nomatch.

Lemma append_empty_r s : s +:+ "" = s.
Proof. induction s as [|c s IH]; simpl; [done|by rewrite IH]. Qed.

Lemma append_assoc s t u : (s +:+ t) +:+ u = s +:+ (t +:+ u).
Proof. induction s as [|c s IH]; simpl; [done|by rewrite IH]. Qed.

Lemma split_last_join sep s : (split_last sep s).1 +:+ (split_last sep s).2 = s.
Proof.
  induction s as [|c s IH]; simpl; [done|]. destruct (split_last sep s) as [b a].
  simpl in IH. repeat case_bool_decide; subst; simpl; by rewrite ?IH.
Qed.

Lemma split_last_free sep s : free_of sep s = true → split_last sep s = ("", s).
Proof.
  induction s as [|c s IH]; simpl; [done|].
  intros [Hc Hs]%andb_true_iff. rewrite IH by done. simpl.
  rewrite bool_decide_false; [done|]. intros ->. by rewrite bool_decide_true in Hc.
Qed.

(** A name without separators is what follows the last one. *)
Lemma split_last_app sep s t :
  free_of sep t = true → (split_last sep s).2 = "" → split_last sep (s +:+ t) = (s, t).
Proof.
  intros Ht. induction s as [|c s IH]; simpl; [by rewrite split_last_free|].
  destruct (split_last sep s) as [b a] eqn:Hs. simpl in IH.
  case_bool_decide as Hb; [case_bool_decide as Hc|]; simpl; [|done|].
  - subst. intros ->. pose proof (split_last_join sep s) as Hj. rewrite Hs in Hj. simpl in Hj.
    subst. simpl. rewrite split_last_free by done. by rewrite !bool_decide_true.
  - intros ->. rewrite IH by done. pose proof (split_last_join sep s) as Hj.
    rewrite Hs in Hj. simpl in Hj. rewrite append_empty_r in Hj. subst b.
    by rewrite bool_decide_false.
Qed.

(** The directory part of [path_join], up to its last separator. *)
Definition dir_prefix (dir : string) : string :=
  if bool_decide (dir = "") then ""
  else if bool_decide ((split_last slash dir).2 = "") then dir else dir +:+ "/".

Lemma path_join_prefix dir name : path_join dir name = dir_prefix dir +:+ name.
Proof.
  unfold path_join, dir_prefix. repeat case_bool_decide; try done. by rewrite append_assoc.
Qed.

Lemma split_last_prefix_sep s : (split_last slash (s +:+ "/")).2 = "".
Proof.
  induction s as [|c s IH]; [done|]. simpl.
  destruct (split_last slash (s +:+ "/")) as [b a] eqn:Hs. simpl in IH. subst a.
  case_bool_decide as Hb; simpl; [|done]. subst b.
  pose proof (split_last_join slash (s +:+ "/")) as Hj. rewrite Hs in Hj. by destruct s.
Qed.

Lemma dir_prefix_sep dir : (split_last slash (dir_prefix dir)).2 = "".
Proof.
  unfold dir_prefix. repeat case_bool_decide; try done. apply split_last_prefix_sep.
Qed.

Lemma with_extension_join dir name ext :
  free_of slash name = true → free_of dot name = true → name ≠ "" →
  with_extension (path_join dir name) ext = path_join dir (name +:+ "." +:+ ext).
Proof.
  intros Hs Hd Hne. unfold with_extension.
  rewrite !path_join_prefix, split_last_app by (done || apply dir_prefix_sep).
  rewrite (bool_decide_false (name = "")) by done.
  rewrite (bool_decide_false (name = "..")) by (by intros ->). simpl.
  unfold file_stem. rewrite split_last_free by done. done.
Qed.

(** * Writing *)

(** The bytes that an event wrote to [fd]. *)
Definition written_by (fd : Z) (ev : event) : list Z :=
  match ev with
  | Ev op r =>
      match op in sysop A return A → list Z with
      | SWrite fd' buf => λ r,
          match r with
          | ROk n => if bool_decide (fd' = fd) then take n buf else []
          | RErr _ => []
          end
      | _ => λ _, []
      end r
  end.
Definition bytes_written (fd : Z) (evs : list event) : list Z :=
  concat (written_by fd <$> evs).

(** A call of [write] on [fd]. *)
Definition is_write (fd : Z) (ev : event) : Prop := ∃ buf r, ev = Ev (SWrite fd buf) r.

Lemma bytes_written_app fd evs1 evs2 :
  bytes_written fd (evs1 ++ evs2) = bytes_written fd evs1 ++ bytes_written fd evs2.
Proof. unfold bytes_written. by rewrite fmap_app, concat_app. Qed.

Section writing.
Context {K : Type} `{!Platform K} `{!PlatformLaws K}.

(** The events of one call of [write_all]: it writes a prefix of the
    buffer, in order, all of it exactly when it succeeds; otherwise the last
    write failed, or there is no fuel for another one. *)
Definition write_all_post (fuel : nat) (fd : Z) (buf : list Z) (w : world K) {S} (s : S)
    (o : outcome io_error unit) (s' : S) (w' : world K) : Prop :=
  s' = s ∧ world_calm w w' ∧ ∃ evs rest,
    trace w' = trace w ++ evs ∧ Forall (is_write fd) evs ∧
    buf = bytes_written fd evs ++ rest ∧
    match o with
    | Ok _ => rest = []
    | Err e => rest ≠ [] ∧ ∃ n, e = OsError n ∧ last evs = Some (Ev (SWrite fd rest) (RErr n))
    | OutOfFuel => rest ≠ [] ∧ length evs = fuel
    | _ => False
    end.

Lemma wp_write_all {S} fuel fd buf (s : S) (w : world K) :
  wp (write_all fuel fd buf) (write_all_post fuel fd buf w s) s w.
Proof.
  assert (Hnil : ∀ fuel w, write_all_post fuel fd [] w s (Ok tt) s w).
  { intros f w1. split_and!; [done..|]. exists [], []. rewrite app_nil_r. by split_and!. }
  revert buf w. induction fuel as [|fuel IH]; intros [|b buf] w; simpl;
    [by apply Hnil| |by apply Hnil|].
  { split_and!; [done..|]. exists [], (b :: buf). rewrite app_nil_r. by split_and!. }
  set (buf0 := b :: buf) in *. wp_step. apply wp_sys_try.
  - intros n k Hk. pose proof (write_fits _ _ _ _ _ Hk) as Hn. unfold bind_post. cbv beta iota.
    pose proof (world_calm_sys (SWrite fd buf0) w _ _ eq_refl Hk) as Hw.
    rewrite bool_decide_true by done. eapply wp_mono; [apply IH|].
    intros o s' w' (-> & Hw' & evs & rest & Htr & Hwr & Hbuf & Ho).
    split_and!; [done|by etrans|].
    exists (Ev (SWrite fd buf0) (ROk n) :: evs), rest. simpl in Htr.
    split_and!; [by rewrite Htr, <- app_assoc| | |].
    + constructor; [by do 2 eexists|done].
    + change (bytes_written fd (?e :: ?l)) with (written_by fd e ++ bytes_written fd l).
      simpl. rewrite bool_decide_true by done. by rewrite <- app_assoc, <- Hbuf, take_drop.
    + destruct o as [|e| | |]; try done.
      * destruct Ho as (Hr & m & -> & Hlast). split; [done|]. exists m. split; [done|].
        destruct evs; [done|]. by rewrite last_cons_cons.
      * destruct Ho as [Hr <-]. by split.
  - intros e k Hk. pose proof (world_calm_sys (SWrite fd buf0) w _ _ eq_refl Hk) as Hw.
    split_and!; [done..|]. exists [Ev (SWrite fd buf0) (RErr e)], buf0.
    split_and!; [done| |done|done|by exists e].
    apply Forall_singleton. by do 2 eexists.
Qed.

(** The opening of the temporary file, which empties it. *)
Definition opens_tmp (path : status_file_path) (r : result Z Z) : event :=
  Ev (SOpen (status_tmp_path path) [WRONLY; CREATE; TRUNC; CLOEXEC] 420) r.

(** The calls that replace the status file by [content], and the result
    they come to: the temporary file is opened, written and synced, and then
    renamed over the status file; the first call that fails is the last
    one. *)
Inductive replaces (path : status_file_path) (content : list Z) :
    list event → result io_error unit → Prop :=
| replaces_unopened e :
    replaces path content [opens_tmp path (RErr e)] (RErr (OsError e))
| replaces_unwritten fd wr rest e :
    Forall (is_write fd) wr → content = bytes_written fd wr ++ rest →
    last wr = Some (Ev (SWrite fd rest) (RErr e)) →
    replaces path content (opens_tmp path (ROk fd) :: wr) (RErr (OsError e))
| replaces_unsynced fd wr e :
    Forall (is_write fd) wr → bytes_written fd wr = content →
    replaces path content (opens_tmp path (ROk fd) :: wr ++ [Ev (SFsync fd) (RErr e)])
      (RErr (OsError e))
| replaces_renamed fd wr r :
    Forall (is_write fd) wr → bytes_written fd wr = content →
    replaces path content
      (opens_tmp path (ROk fd) :: wr ++
        [Ev (SFsync fd) (ROk tt); Ev (SRename (status_tmp_path path) (status_path path)) r])
      (map_err OsError r).

(** Its beginning, cut after [fuel] writes. *)
Definition replaces_partly (path : status_file_path) (content : list Z) (fuel : nat)
    (evs : list event) : Prop :=
  ∃ fd wr rest, evs = opens_tmp path (ROk fd) :: wr ∧ Forall (is_write fd) wr ∧
    content = bytes_written fd wr ++ rest ∧ rest ≠ [] ∧ length wr = fuel.

Definition write_status_post (fuel : nat) (path : status_file_path) (content : string)
    (w : world K) {S} (s : S) (o : outcome io_error unit) (s' : S) (w' : world K) : Prop :=
  s' = s ∧ world_calm w w' ∧ ∃ evs, trace w' = trace w ++ evs ∧
    match o with
    | Ok _ => replaces path (as_bytes content) evs (ROk tt)
    | Err e => replaces path (as_bytes content) evs (RErr e)
    | OutOfFuel => replaces_partly path (as_bytes content) fuel evs
    | _ => False
    end.

Lemma wp_write_status_file {S} fuel path content (s : S) (w : world K) :
  wp (write_status_file fuel path content) (write_status_post fuel path content w s) s w.
Proof.
  unfold write_status_file, write_status_post. wp_step.
  apply wp_sys_try; intros fd k Hk; pose proof (world_calm_sys (SOpen _ _ _) w _ _ eq_refl Hk) as Hw;
    simpl; [|split_and!; [done..|]; eexists; split; [done|constructor]].
  wp_step. eapply wp_mono; [apply wp_write_all|].
  intros o s1 w1 (-> & Hw1 & wr & rest & Htr & Hwr & Hbuf & Ho).
  assert (Hw2 : world_calm w w1) by by etrans. simpl in Htr. rewrite <- app_assoc in Htr.
  destruct o as [[]|e| | |]; simpl; try done.
  - subst rest. rewrite app_nil_r in Hbuf.
    wp_step. apply wp_sys_try; [intros [] k2 Hk2|intros e k2 Hk2];
      pose proof (world_calm_sys (SFsync fd) w1 _ _ eq_refl Hk2) as Hw3; simpl.
    + apply wp_sys_try; [intros [] k3 Hk3|intros e k3 Hk3];
        pose proof (world_calm_sys (SRename _ _) (World k2 _ _) _ _ eq_refl Hk3) as Hw4; simpl in *;
        (split_and!; [done|by do 2 (etrans; [done|])|]); eexists;
        rewrite Htr, <- !app_assoc; (split; [reflexivity|]).
      * by apply (replaces_renamed _ _ _ _ (ROk tt)).
      * by apply (replaces_renamed _ _ _ _ (RErr e)).
    + split_and!; [done|by etrans|]. eexists. rewrite Htr, <- !app_assoc. split; [reflexivity|].
      by apply replaces_unsynced.
  - destruct Ho as (_ & n & -> & Hlast).
    split_and!; [done..|]. eexists; split; [exact Htr|]. by eapply replaces_unwritten.
  - destruct Ho. split_and!; [done..|]. eexists; split; [exact Htr|]. by exists fd, wr, rest.
Qed.
End writing.

Section termination.
Context {K : Type} `{!Platform K} `{!PlatformLaws K} `{!WriteProgress K}.

Lemma wp_write_all_ends {S} fuel fd buf (s : S) (w : world K) :
  (length buf ≤ fuel)%nat →
  wp (write_all fuel fd buf) (λ o _ _, o ≠ OutOfFuel) s w.
Proof.
  revert buf w. induction fuel as [|fuel IH]; intros buf w Hl; (destruct buf as [|b buf];
    [by simpl; wp_step|]); [simpl in Hl; lia|].
  cbn [write_all]. set (buf0 := b :: buf) in *. wp_step. apply wp_sys_try; [|done].
  intros n k Hk. unfold bind_post. cbv beta iota. rewrite bool_decide_true by by eapply write_fits.
  apply IH. apply write_progress in Hk; [|done]. rewrite length_drop. lia.
Qed.
End termination.

(** * The contents *)

(** What the status file says of a service. *)
Definition status_row (svc : service) : string * Z * service_state :=
  (s_name svc, s_id svc, visible (s_state svc)).

(** Names that the format can show: without spaces and newlines. *)
Definition plain_name (svc : service) : Prop :=
  free_of space (s_name svc) = true ∧ free_of newline_char (s_name svc) = true.

Section flush.
Context {K : Type} `{!Platform K} `{!PlatformLaws K}.

(** The status file is never replaced by anything but the complete lines
    of the services of the registry. *)
Definition flush_post (fuel : nat) (path : status_file_path) (reg : service_registry)
    (w : world K) {E} (o : outcome E unit) (reg' : service_registry) (w' : world K) : Prop :=
  reg' = reg ∧ world_calm w w' ∧ (∀ msg, o ≠ Panic msg) ∧
  ∃ svcs evs w1, (svcs ≡ₚ (map_to_list (services_map reg)).*2) ∧ trace w1 = trace w ++ evs ∧
    match o with
    | Ok _ => ∃ r, replaces path (as_bytes (status_text svcs)) evs r ∧
        match r with
        | ROk _ => w' = w1
        | RErr e => says LogLevel.Error ("failed to write status file: " +:+ io_error_text e) w1 w'
        end
    | OutOfFuel => w' = w1 ∧ replaces_partly path (as_bytes (status_text svcs)) fuel evs
    | _ => False
    end.

Lemma wp_flush_status_file {E} fuel path reg (w : world K) :
  wp (flush_status_file fuel path : M _ E unit) (flush_post fuel path reg w) reg w.
Proof.
  unfold flush_status_file, format_status. wp_steps. apply wp_in_order.
  intros entries w1 Hp Hw1 Ht1. wp_steps. eapply wp_mono; [apply wp_write_status_file|].
  intros o reg' w' (-> & Hw & evs & Htr & Ho). rewrite Ht1 in Htr.
  assert (Hw' : world_calm w w') by by etrans.
  assert (Hperm : entries.*2 ≡ₚ (map_to_list (services_map reg)).*2) by by apply fmap_Permutation.
  destruct o as [[]|e| | |]; simpl; try done; wp_steps.
  - split_and!; [done..|]. exists entries.*2, evs, w'. split_and!; [done..|]. by exists (ROk tt).
  - apply wp_svlogg. intros w2 Hsay.
    split_and!; [done|etrans; [done|by eapply says_calm]|done|].
    exists entries.*2, evs, w'. split_and!; [done..|]. by exists (RErr e).
  - split_and!; [done..|]. by exists entries.*2, evs, w'.
Qed.
End flush.

Lemma status_text_cut svcs svcs' :
  Forall plain_name svcs → Forall plain_name svcs' →
  status_text svcs = status_text svcs' → status_row <$> svcs = status_row <$> svcs'.
Proof.
  intros Hs. revert svcs'. induction Hs as [|svc svcs [Hsp Hnl] Hs IH];
    intros svcs' Hs'; destruct Hs' as [|svc' svcs' [Hsp' Hnl'] Hs']; simpl; intros Heq.
  - done.
  - by destruct (format_status_line svc').
  - by destruct (format_status_line svc).
  - apply cut_unique in Heq as [Hline Htext]; [|by apply free_of_status_line..].
    f_equal; [|by apply IH]. apply format_status_line_cut in Hline; [|done..].
    unfold status_row; destruct Hline as (Hn & Hi & Hv); by rewrite Hn, Hi, Hv.
Qed.

(** * Properties *)

(** C29.  The status format is unambiguous for plain names, those without
    spaces and newlines: two status files with the same text, both of
    services with plain names, show the same names, ids and states (up to
    the deadline of a stopping service) in the same order, and what they
    show is all that the text depends on.  A TOML key in quotes can be a
    name that is not plain; for those it fails, as [newline_in_name]
    shows. *)
Theorem status_text_unambiguous svcs svcs' :
  Forall plain_name svcs → Forall plain_name svcs' →
  status_text svcs = status_text svcs' ↔ status_row <$> svcs = status_row <$> svcs'.
Proof.
  intros Hs Hs'. split; [by apply status_text_cut|]. clear. revert svcs'.
  induction svcs as [|svc svcs IH]; intros [|svc' svcs'] Heq; try done.
  injection Heq as Hn Hi Hv Heq. simpl. f_equal; [|f_equal; by apply IH].
  unfold format_status_line. rewrite Hn, Hi. do 4 f_equal.
  destruct (s_state svc), (s_state svc'); simpl in Hv; by simplify_eq.
Qed.

(** One service whose name contains a newline looks like two services. *)
Example newline_in_name :
  let svc name := set_state (Running 100)
    (Service 0 name (sim_service "sleep" ServicePendingAction.None) ["sleep"; "10"] None
       (Stopped NeverStarted) ServicePendingAction.None) in
  status_text [svc "a"; svc "b"] =
    status_text [svc ("a 0 running 100" +:+ String newline_char "b")].
Proof. vm_compute. reflexivity. Qed.

Lemma status_text_unambiguous_witness :
  let svc st := sim_svc st ServicePendingAction.None in
  status_text [svc (Stopping 100 7)] = status_text [svc (Stopping 100 8)].
Proof.
  apply status_text_unambiguous; [by repeat constructor..|reflexivity].
Defined.

(** The temporary file is next to the status file, in the run
    directory, whatever that directory is called: the rename stays within one
    directory. *)
Lemma status_paths_siblings dir :
  status_file_path_new (path_join dir "status") =
    StatusFilePath (path_join dir "status") (path_join dir "status.tmp").
Proof.
  unfold status_file_path_new. f_equal. by apply (with_extension_join dir "status" "tmp").
Qed.

Section properties.
Context {K : Type} `{!Platform K} `{!PlatformLaws K}.
Abbreviation M := (@M K).

(** C28.  [write_all] ends by itself, when each write of a non-empty buffer
    writes something or fails, after at most one write per byte; if it
    succeeds exactly the bytes of the buffer were written, in their order
    and once each, and if it fails a proper prefix of them was. *)
Theorem write_all_complete `{!WriteProgress K} {S} fuel fd buf (s : S) (w : world K) :
  (length buf ≤ fuel)%nat →
  wp (write_all fuel fd buf) (λ o s' w', s' = s ∧
    ∃ evs rest, trace w' = trace w ++ evs ∧ buf = bytes_written fd evs ++ rest ∧
      match o with
      | Ok _ => rest = []
      | Err _ => rest ≠ []
      | _ => False
      end) s w.
Proof.
  intros Hl. eapply wp_mono.
  { apply wp_and; [apply wp_write_all|by apply wp_write_all_ends]. }
  intros o s' w' [(Hs & _ & evs & rest & Htr & _ & Hbuf & Ho) Hfuel].
  split; [done|]. exists evs, rest. split_and!; [done..|]. destruct o; naive_solver.
Qed.

(** C23.  The status file is replaced atomically.  A flush makes exactly
    these calls: it opens and empties the temporary file, writes to it the
    complete lines of all the services, syncs it, and renames it over the
    status file, and the first call that fails is the last one.  So the
    status file itself is never opened or written, and nothing but a
    temporary file with the whole text, which was synced, is ever renamed
    over it.  A failure is logged with its cause and is not an error of the
    caller, and the registry is not changed.  A flush that is cut by the fuel
    of the model has made that many writes.  For a status file in the run
    directory the temporary file is another one next to it, whatever the
    directory is called, so the rename stays within one directory. *)
Theorem flush_status_file_atomic {E} fuel path reg (w : world K) :
  wp (flush_status_file fuel path : M _ E unit) (λ o reg' w', reg' = reg ∧
    (∃ svcs evs w1, (svcs ≡ₚ (map_to_list (services_map reg)).*2) ∧ trace w1 = trace w ++ evs ∧
      match o with
      | Ok _ => ∃ r, replaces path (as_bytes (status_text svcs)) evs r ∧
          match r with
          | ROk _ => w' = w1
          | RErr e =>
              says LogLevel.Error ("failed to write status file: " +:+ io_error_text e) w1 w'
          end
      | OutOfFuel => w' = w1 ∧ replaces_partly path (as_bytes (status_text svcs)) fuel evs
      | _ => False
      end) ∧
    ∀ dir, path = status_file_path_new (path_join dir "status") →
      status_path path = path_join dir "status" ∧ status_tmp_path path = path_join dir "status.tmp")
    reg w.
Proof.
  eapply wp_mono; [apply wp_flush_status_file|]. intros o reg' w' (Hr & _ & _ & Hevs).
  split_and!; [done..|]. intros dir ->. by rewrite status_paths_siblings.
Qed.
End properties.

(** Writes of at most two bytes. *)
Lemma write_all_complete_witness :
  let w := World (sim_set_write_max 1 sim_init) [] 3 in
  (∃ w', write_all 5 3 [1; 2; 3; 4; 5] tt w = (Ok tt, tt, w') ∧ length (trace w') = 3%nat) ∧
  wp (write_all 5 3 [1; 2; 3; 4; 5]) (λ o _ w', o = Ok tt →
    bytes_written 3 (trace w') = [1; 2; 3; 4; 5]) tt w.
Proof.
  cbv zeta. split; [eexists; split; reflexivity|].
  eapply wp_mono; [apply (write_all_complete 5 3); simpl; lia|].
  intros o s' w' (_ & evs & rest & Htr & Hbuf & Ho) ->. simpl in Htr.
  by rewrite Htr, Hbuf, Ho, app_nil_r.
Defined.

(** A temporary file that cannot be opened is only logged. *)
Example flush_status_file_logs :
  let path := status_file_path_new "/run/svlopp/status" in
  let k := Sim [] [] 0 "" [] [] 4096 ["/run/svlopp/status.tmp"] [] false false in
  let '(o, _, w') := flush_status_file (E:=unit) 1 path registry_new (World k [] 3) in
  o = Ok tt ∧ length (printed w') = 1%nat ∧ calls (take 1 (trace w')) =
    [Call (SOpen "/run/svlopp/status.tmp" [WRONLY; CREATE; TRUNC; CLOEXEC] 420)].
Proof. vm_compute. done. Qed.

Lemma flush_status_file_atomic_witness :
  let svc := sim_svc (Running 100) ServicePendingAction.None in
  let path := status_file_path_new "/run/svlopp/status" in
  (∃ w', flush_status_file (E:=unit) 1 path (sim_reg svc) (sim_world_of svc) =
     (Ok tt, sim_reg svc, w') ∧
     bytes_written 10 (trace w') = as_bytes ("a 0 running 100" +:+ String newline_char "")) ∧
  wp (flush_status_file (E:=unit) 1 path) (λ o _ w', (o = Ok tt ∨ o = OutOfFuel) ∧
    status_path path = "/run/svlopp/status" ∧ status_tmp_path path = "/run/svlopp/status.tmp" ∧
    ∃ r, opens_tmp path r ∈ trace w')
    (sim_reg svc) (sim_world_of svc).
Proof.
  cbv zeta. split; [eexists; split; vm_compute; reflexivity|].
  eapply wp_mono; [apply (flush_status_file_atomic 1)|].
  intros o reg' w' (_ & (svcs & evs & w1 & _ & Htr & Ho) & Hdir).
  destruct (Hdir "/run/svlopp") as [-> ->]; [done|].
  destruct o as [[]|? | | |]; try done; (split; [by auto|]); (split_and!; [done..|]).
  - destruct Ho as (r & Hrep & Hw).
    assert (Hpre : trace w1 `prefix_of` trace w').
    { destruct r as [|e]; [by subst|]. destruct Hw as [(_ & _ & l & -> & _) _].
      by apply prefix_app_r. }
    assert (Hin : ∃ r, opens_tmp (status_file_path_new "/run/svlopp/status") r ∈ evs).
    { destruct Hrep; eexists; by left. }
    destruct Hin as [r0 Hin]. exists r0. destruct Hpre as [l ->]. rewrite Htr.
    apply elem_of_app. left. apply elem_of_app. by right.
  - destruct Ho as (-> & fd & wr & rest & -> & _). exists (ROk fd). rewrite Htr.
    apply elem_of_app. right. by left.
Defined.
