(* ===== verification/Supervisor.v ===== *)
(** main.rs: the supervisor's state, the handling of its signals and events,
    the setup and the loop of [run], and [main]. *)
From S2P Require Import Prelude Utils Bytes Data Text Platform Monad Sim Logging Cli.
From S2P Require Import Signalfd Control Service Registry Handlers Reload Status.
Local Open Scope Z_scope.
Local Open Scope svlopp_scope.

Definition ID_SFD : Z := 1.
Definition ID_TFD : Z := 2.
Definition ID_PFD : Z := 3.
Definition SIGINFO_BUF_LEN : nat := 16.
Definition EVENTS_BUF_LEN : nat := 16.
Definition CONTROL_PIPE_NAME : string := "control".
Definition STATUS_FILE_NAME : string := "status".

Module SupervisorState.
Inductive supervisor_state : Type := Running | ShutdownRequested.

#[global] Instance supervisor_state_eq_dec : EqDecision supervisor_state.
Proof. solve_decision. Defined.
End SupervisorState.
Abbreviation supervisor_state := SupervisorState.supervisor_state.

(** The variables of [run] that change. *)
Record supervisor : Type := Supervisor {
  sv_state : supervisor_state;
  sv_registry : service_registry;
  sv_id_gen : service_id_gen;
  sv_siginfo_buf : list Z
}.

Definition supervisor_new : supervisor :=
  Supervisor SupervisorState.Running registry_new service_id_gen_new
    (siginfo_buffer SIGINFO_BUF_LEN).

Definition set_sv_state st sv :=
  Supervisor st (sv_registry sv) (sv_id_gen sv) (sv_siginfo_buf sv).
Definition set_sv_registry reg sv :=
  Supervisor (sv_state sv) reg (sv_id_gen sv) (sv_siginfo_buf sv).
Definition set_sv_buf buf sv :=
  Supervisor (sv_state sv) (sv_registry sv) (sv_id_gen sv) buf.
Definition set_sv_services (st : reload_state) sv :=
  Supervisor (sv_state sv) st.1 st.2 (sv_siginfo_buf sv).

(** The ones that do not: descriptors, paths and the signal mask. *)
Record resources : Type := Resources {
  original_sigset : Z;
  r_pfd : Z;
  r_sfd : Z;
  r_tfd : Z;
  r_epfd : Z;
  r_status_path : status_file_path;
  r_config_path : string
}.

(** How the body of a loop ends: [break 'outer] or not. *)
Inductive flow : Type := Continue | BreakOuter.

#[global] Instance flow_eq_dec : EqDecision flow.
Proof. solve_decision. Defined.

(** [services().all(|svc| svc.is_stopped())]. *)
Definition all_stopped (reg : service_registry) : bool :=
  bool_decide (map_Forall (λ _ svc, is_stopped svc = true) (services_map reg)).

Section supervisor.
Context {K : Type} `{!Platform K}.
Abbreviation M := (@M K).

Definition on_sv_registry {E A} (m : M service_registry E A) : M supervisor E A :=
  zoom sv_registry set_sv_registry m.
Definition on_sv_services {E A} (m : M reload_state E A) : M supervisor E A :=
  zoom (λ sv, (sv_registry sv, sv_id_gen sv)) set_sv_services m.

(** A [for] loop that its body can break. *)
Fixpoint for_break {S E A} (l : list A) (f : A → M S E flow) : M S E flow :=
  match l with
  | [] => ret Continue
  | x :: l' =>
      let! c := f x in
      match c with BreakOuter => ret BreakOuter | Continue => for_break l' f end
  end.

(** One item of the signalfd: the three tests of the loop body. [bound] is
    the fuel of the loops over [wait] and [write]. *)
Definition handle_hup (res : resources) (signo : Z) : M supervisor io_error unit :=
  let! sv := get in
  if bool_decide (signo = SIGHUP) && bool_decide (sv_state sv = SupervisorState.Running) then
    svlogg LogLevel.Debug "reload requested" ;;!
    let! r := catch (on_sv_services
                (reload_services (r_config_path res) (original_sigset res))) in
    match r with
    | ROk _ => svlogg LogLevel.Info "finished reloading services"
    | RErr e => svlogg LogLevel.Error ("failed reloading services: " +:+ io_error_text e)
    end
  else ret tt.

(** [break 'outer], which is announced. *)
Definition break_outer {S E} : M S E flow :=
  svlogg LogLevel.Info "all services stopped, exiting" ;;! ret BreakOuter.

Definition handle_chld (bound : nat) (signo : Z) : M supervisor io_error flow :=
  if bool_decide (signo = SIGCHLD) then
    on_sv_registry (handle_sigchld bound) ;;!
    let! sv := get in
    if bool_decide (sv_state sv = SupervisorState.ShutdownRequested) &&
       all_stopped (sv_registry sv)
    then break_outer else ret Continue
  else ret Continue.

Definition handle_term (signo : Z) : M supervisor io_error flow :=
  if bool_decide (signo = SIGINT) || bool_decide (signo = SIGTERM) then
    let! sv := get in
    (if bool_decide (sv_state sv = SupervisorState.Running) then
       svlogg LogLevel.Info "shutdown requested" ;;!
       modify (set_sv_state SupervisorState.ShutdownRequested) ;;!
       on_sv_registry stop_all
     else ret tt) ;;!
    let! sv := get in
    if all_stopped (sv_registry sv) then break_outer else ret Continue
  else ret Continue.

Definition handle_signal (bound : nat) (res : resources) (signo : Z) :
    M supervisor io_error flow :=
  handle_hup res signo ;;!
  let! c := handle_chld bound signo in
  match c with BreakOuter => ret BreakOuter | Continue => handle_term signo end.

(** The arm of [ID_SFD]. *)
Definition handle_sfd (bound : nat) (res : resources) : M supervisor io_error flow :=
  let! siginfo_read := zoom sv_siginfo_buf set_sv_buf (read_signalfd_batch (r_sfd res)) in
  let! sv := get in
  if bool_decide (siginfo_read ≤ SIGINFO_BUF_LEN)%nat then
    let! c := for_break (siginfos siginfo_read (sv_siginfo_buf sv))
                (λ info, handle_signal bound res (cast_signed (siginfo_signal info))) in
    match c with
    | BreakOuter => ret BreakOuter
    | Continue =>
        on_sv_registry (flush_status_file bound (r_status_path res)) ;;! ret Continue
    end
  else panic "range end index out of range for slice".

(** The arm of [ID_TFD]. *)
Definition handle_tfd (bound : nat) (res : resources) : M supervisor io_error flow :=
  let! _ := read_timerfd (r_tfd res) in
  let! now := sys SNow in
  on_sv_registry (handle_tick now (original_sigset res)) ;;!
  on_sv_registry (flush_status_file bound (r_status_path res)) ;;!
  ret Continue.

(** The arm of [ID_PFD]. *)
Definition handle_pfd (bound : nat) (res : resources) : M supervisor io_error flow :=
  let! r := catch (read_control_command (r_pfd res)) in
  match r with
  | ROk (Some cmd) =>
      let! applied := catch (on_sv_registry
                  (apply_control_op (cmd_service_id cmd) (cmd_op cmd) (original_sigset res))) in
      match applied with
      | ROk _ => ret tt
      | RErr e => svlogg LogLevel.Error
          ("failed to " +:+ display (cmd_op cmd) +:+ " service: " +:+ io_error_text e)
      end ;;!
      on_sv_registry (flush_status_file bound (r_status_path res)) ;;!
      ret Continue
  | ROk None => ret Continue
  | RErr (InvalidCommand e) =>
      svlogg LogLevel.Error ("invalid command: " +:+ display e) ;;! ret Continue
  | RErr (ControlIo e) => throw e
  end.

(** One event: its data selects the arm. *)
Definition handle_event (bound : nat) (res : resources) (data : Z) :
    M supervisor io_error flow :=
  if bool_decide (data = ID_SFD) then handle_sfd bound res
  else if bool_decide (data = ID_TFD) then handle_tfd bound res
  else if bool_decide (data = ID_PFD) then handle_pfd bound res
  else
    svlogg LogLevel.Warn ("unknown epoll event id=" +:+ display data) ;;!
    ret Continue.

(** The outer loop; [fuel] bounds the number of epoll waits. *)
Fixpoint run_loop (fuel bound : nat) (res : resources) : M supervisor io_error unit :=
  match fuel with
  | O => out_of_fuel
  | S fuel' =>
      let! events := sys_try (SEpollWait (r_epfd res) EVENTS_BUF_LEN) in
      let! c := for_break events (handle_event bound res) in
      match c with BreakOuter => ret tt | Continue => run_loop fuel' bound res end
  end.

(** The descriptors that [run] sets up. *)
Definition setup {S} (args : cli_args) : M S io_error resources :=
  sys_try SSubreaper ;;!
  let! original := sigset_current in
  let! empty := sigset_empty in
  let! (_, sigset) := with_local empty
    (sigset_add SIGHUP ;;! sigset_add SIGCHLD ;;! sigset_add SIGTERM ;;! sigset_add SIGINT) in
  block_thread_signals sigset ;;!
  let! (pfd, _) := create_control_fifo (path_join (run_dir args) CONTROL_PIPE_NAME) in
  let! sfd := signalfd sigset (Z.lor SFD_CLOEXEC SFD_NONBLOCK) in
  let! tfd := create_timerfd_1s_periodic in
  let! epfd := sys_try (SEpollCreate [CLOEXEC]) in
  sys_try (SEpollAdd epfd sfd ID_SFD) ;;!
  sys_try (SEpollAdd epfd tfd ID_TFD) ;;!
  sys_try (SEpollAdd epfd pfd ID_PFD) ;;!
  ret (Resources original pfd sfd tfd epfd
         (status_file_path_new (path_join (run_dir args) STATUS_FILE_NAME))
         (config_path args)).

(** The loop that registers the configured services. *)
Definition load_service (name : string) (cfg : service_config) :
    M reload_state io_error unit :=
  let! svc_id := next_id snd (λ gen st, (st.1, gen)) in
  let! svc := service_new svc_id name cfg in
  on_registry (modify (insert_service svc)).

Definition load_services (path : string) : M reload_state io_error unit :=
  let! configs := from_config_file path in
  let! entries := in_order (map_to_list configs) in
  for_each entries (λ e, load_service e.1 e.2).

(** [run]. *)
Definition run (fuel bound : nat) (args : cli_args) : M supervisor io_error unit :=
  let! res := setup args in
  on_sv_services (load_services (config_path args)) ;;!
  on_sv_registry (start_all (original_sigset res)) ;;!
  on_sv_registry (flush_status_file bound (r_status_path res)) ;;!
  svlogg LogLevel.Info "supervisor started. Ctrl+C to exit" ;;!
  run_loop fuel bound res.

(** The log message for a run directory that could not be removed. *)
Definition remove_failed {S E} (args : cli_args) (e : io_error) : M S E unit :=
  svlogg LogLevel.Warn
    ("can't remove run directory '" +:+ run_dir args +:+ "': " +:+ io_error_text e).

(** [main] once [run] has returned: the exit code, the run directory. *)
Definition main_finish {S E A} (args : cli_args) (r : result io_error (unit * supervisor)) :
    M S E A :=
  let! code :=
    match r with
    | ROk _ => ret 0
    | RErr e => svlogg LogLevel.Error (io_error_text e) ;;! ret 1
    end in
  let! removed := sys (SRemoveDirAll (run_dir args)) in
  match removed with ROk _ => ret tt | RErr e => remove_failed args e end ;;!
  gone (ProcExit code).

(** [main] from the creation of the run directory. *)
Definition main_serve {S E A} (fuel bound : nat) (args : cli_args) : M S E A :=
  let! made := sys (SMkdir (run_dir args) 493) in
  match made with
  | RErr e =>
      svlogg LogLevel.Error
        ("can't create run directory '" +:+ run_dir args +:+ "': " +:+ errno_text e) ;;!
      gone (ProcExit 1)
  | ROk _ =>
      svlogg LogLevel.Debug ("created run directory '" +:+ run_dir args +:+ "'") ;;!
      let! r := catch (with_local supervisor_new (run fuel bound args)) in
      main_finish args r
  end.

(** [main] once the command line is read; the failures to remove the run
    directory are only logged. *)
Definition main_with {S E A} (fuel bound : nat) (args : cli_args) : M S E A :=
  set_log_level (cli_log_level args) ;;!
  let! removed := sys (SRemoveDirAll (run_dir args)) in
  match removed with
  | ROk _ => ret tt
  | RErr e => if bool_decide (e = OsError ENOENT) then ret tt else remove_failed args e
  end ;;!
  main_serve fuel bound args.

(** [main]: it never returns. *)
Definition main {S E A} (fuel bound : nat) (argv : list string) : M S E A :=
  let! args := parse argv in
  main_with fuel bound args.
End supervisor.

(** * The invariant of the supervisor *)

Section invariant.
Context {K : Type} `{!Platform K} `{!PlatformLaws K}.
Abbreviation M := (@M K).
Implicit Types (sv : supervisor) (w : world K).

(** The registry's invariant for the ids handed out so far, and a buffer of
    whole items, made of bytes. *)
Definition sv_inv sv w : Prop :=
  reg_inv (sv_id_gen sv) (sv_registry sv) w ∧ 0 ≤ sv_id_gen sv ≤ u64_max ∧
  buffer_wf SIGINFO_BUF_LEN (sv_siginfo_buf sv).

(** Before the loop: the new supervisor, whose registry has no process. *)
Lemma sv_inv_new w : ledger_of w = (∅, true) → sv_inv supervisor_new w.
Proof.
  intros Hw. split_and!; [by apply reg_inv_new|done|done|].
  apply (siginfo_buffer_wf SIGINFO_BUF_LEN).
Qed.

(** What any part of the supervisor's work keeps or moves forward. *)
Definition advances sv w sv' w' : Prop :=
  sv_inv sv' w' ∧ evolves (sv_registry sv) (sv_registry sv') ∧
  trace w `prefix_of` trace w' ∧ sv_id_gen sv ≤ sv_id_gen sv' ∧
  (sv_state sv = SupervisorState.ShutdownRequested →
   sv_state sv' = SupervisorState.ShutdownRequested).

Lemma advances_refl sv w : sv_inv sv w → advances sv w sv w.
Proof. intros Hi. by split_and!. Qed.

Lemma advances_trans sv1 w1 sv2 w2 sv3 w3 :
  advances sv1 w1 sv2 w2 → advances sv2 w2 sv3 w3 → advances sv1 w1 sv3 w3.
Proof.
  intros (_ & He1 & Ht1 & Hg1 & Hs1) (Hi & He2 & Ht2 & Hg2 & Hs2).
  split_and!; [done|by etrans|by etrans|lia|auto].
Qed.

(** [m], from a state that satisfies [P], keeps the invariant and does not
    panic; a result satisfies [Q] with the final state. *)
Definition triple {E A} (P : supervisor → Prop) (m : M supervisor E A)
    (Q : A → supervisor → Prop) : Prop :=
  ∀ sv w, sv_inv sv w → P sv → wp m (λ o sv' w', advances sv w sv' w' ∧
    match o with Ok a => Q a sv' | Panic _ => False | _ => True end) sv w.

Lemma triple_ret {E A} (P : supervisor → Prop) (a : A) (Q : A → supervisor → Prop) :
  (∀ sv, P sv → Q a sv) → triple P (ret a : M supervisor E A) Q.
Proof. intros HQ sv w Hi HP. apply wp_ret. split; [by apply advances_refl|auto]. Qed.

Lemma triple_throw {E A} (P : supervisor → Prop) (e : E) (Q : A → supervisor → Prop) :
  triple P (throw e : M supervisor E A) Q.
Proof. intros sv w Hi HP. apply wp_throw. split; [by apply advances_refl|done]. Qed.

Lemma triple_fuel {E A} (P : supervisor → Prop) (Q : A → supervisor → Prop) :
  triple P (out_of_fuel : M supervisor E A) Q.
Proof. intros sv w Hi HP. split; [by apply advances_refl|done]. Qed.

Lemma triple_bind {E A B} (P : supervisor → Prop) (m : M supervisor E A)
    (k : A → M supervisor E B) (R : A → supervisor → Prop) (Q : B → supervisor → Prop) :
  triple P m R → (∀ a, triple (R a) (k a) Q) → triple P (bind m k) Q.
Proof.
  intros Hm Hk sv w Hi HP. apply wp_bind. eapply wp_mono; [by apply Hm|].
  intros o sv1 w1 [Hadv Ho]. destruct o as [a|e| | |]; simpl; try done.
  eapply wp_mono; [apply Hk; [apply Hadv|done]|].
  intros o sv2 w2 [Hadv2 Ho2]. split; [by eapply advances_trans|done].
Qed.

Lemma triple_get {E} (P : supervisor → Prop) :
  triple P (get : M supervisor E supervisor) (λ a sv, a = sv ∧ P sv).
Proof. intros sv w Hi HP. apply wp_get. split; [by apply advances_refl|done]. Qed.

Lemma triple_conseq {E A} (P P' : supervisor → Prop) (m : M supervisor E A)
    (Q Q' : A → supervisor → Prop) :
  triple P m Q → (∀ sv, P' sv → P sv) → (∀ a sv, Q a sv → Q' a sv) → triple P' m Q'.
Proof.
  intros Hm HP HQ sv w Hi HP'. eapply wp_mono; [apply Hm; auto|].
  intros o sv' w' [Hadv Ho]. split; [done|]. destruct o; auto.
Qed.

Lemma triple_catch {E F A} (P : supervisor → Prop) (m : M supervisor E A) :
  triple P m (λ _ _, True) →
  triple P (catch m : M supervisor F (result E A)) (λ _ _, True).
Proof.
  intros Hm sv w Hi HP. apply wp_catch. eapply wp_mono; [by apply Hm|].
  intros o sv' w' [Hadv Ho]. by destruct o.
Qed.

Lemma triple_for_break {E A} (I : supervisor → Prop) (Q : supervisor → Prop) (l : list A)
    (f : A → M supervisor E flow) :
  (∀ x, triple I (f x) (λ c sv, match c with BreakOuter => Q sv | Continue => I sv end)) →
  triple I (for_break l f) (λ c sv, match c with BreakOuter => Q sv | Continue => I sv end).
Proof.
  intros Hf. induction l as [|x l IH]; simpl; [by apply triple_ret|].
  eapply triple_bind; [apply Hf|]. intros [|]; [done|by apply triple_ret].
Qed.

(** Worlds only: a call that is neither a fork, a wait nor a signal. *)
Lemma advances_calm sv w w' : sv_inv sv w → world_calm w w' → advances sv w sv w'.
Proof.
  intros (Hi & Hg & Hb) [Hle _].
  split_and!; [|done|apply Hle|done|done]. split; [by eapply reg_inv_world|done].
Qed.

Lemma triple_sys {E A} (P : supervisor → Prop) (op : sysop A) :
  calm op = true → triple P (sys op : M supervisor E A) (λ _ sv, P sv).
Proof.
  intros Hc sv w Hi HP. apply wp_sys_calm; [done|]. intros r w' Hw.
  split; [by apply advances_calm|done].
Qed.

Lemma triple_sys_try {A} (P : supervisor → Prop) (op : sysop (result Z A)) :
  calm op = true → triple P (sys_try op : M supervisor io_error A) (λ _ sv, P sv).
Proof.
  intros Hc sv w Hi HP. apply wp_sys_try_calm; [done|..]; intros r w' Hw;
    (split; [by apply advances_calm|done]).
Qed.

Lemma triple_svlogg {E} (P : supervisor → Prop) level msg :
  triple P (svlogg level msg : M supervisor E unit) (λ _ sv, P sv).
Proof.
  intros sv w Hi HP. apply wp_svlogg. intros w' Hw. split; [|done].
  by eapply advances_calm, says_calm.
Qed.
(** A message, then the rest. *)
Lemma triple_say {E A} (P : supervisor → Prop) level msg (m : M supervisor E A)
    (Q : A → supervisor → Prop) :
  triple P m Q → triple P (svlogg level msg ;;! m) Q.
Proof. intros Hm. eapply triple_bind; [apply triple_svlogg|]. intros ?. exact Hm. Qed.
Lemma triple_say_end {E} (P : supervisor → Prop) level msg :
  triple P (svlogg level msg : M supervisor E unit) (λ _ _, True).
Proof. eapply triple_conseq; [apply triple_svlogg|intros sv HP; exact HP|done]. Qed.

(** A computation on the registry. *)
Lemma advances_registry {E A} sv w (o : outcome E A) reg' w' :
  sv_inv sv w → safe (sv_id_gen sv) (sv_registry sv) w o reg' w' →
  advances sv w (set_sv_registry reg' sv) w'.
Proof. intros (Hi & Hg & Hb) (Hi' & Hev & Ht & _). by split_and!. Qed.

Lemma triple_registry {E A} (P : supervisor → Prop) (m : M service_registry E A)
    (Q : A → supervisor → Prop) :
  (∀ sv w, reg_inv (sv_id_gen sv) (sv_registry sv) w → P sv →
    wp m (λ o reg' w', safe (sv_id_gen sv) (sv_registry sv) w o reg' w' ∧
      ∀ a, o = Ok a → Q a (set_sv_registry reg' sv)) (sv_registry sv) w) →
  triple P (on_sv_registry m) Q.
Proof.
  intros Hm sv w Hi HP. apply wp_zoom. eapply wp_mono; [apply Hm; [apply Hi|done]|].
  intros o reg' w' [Hsafe Ho]. split; [by eapply advances_registry|].
  destruct o as [a|e|msg| |]; auto. by destruct Hsafe as (_ & _ & _ & Hno), (Hno msg).
Qed.
End invariant.

(** * The handlers keep the invariant *)

(** What the loop has established when it breaks. *)
Definition finished (sv : supervisor) : Prop :=
  sv_state sv = SupervisorState.ShutdownRequested ∧ all_stopped (sv_registry sv) = true.

Definition flow_post (c : flow) (sv : supervisor) : Prop :=
  match c with BreakOuter => finished sv | Continue => True end.

Section handlers.
Context {K : Type} `{!Platform K} `{!PlatformLaws K}.
Abbreviation M := (@M K).
Implicit Types (sv : supervisor) (w : world K).

Abbreviation anything := (λ _ : supervisor, True).

Lemma advances_reload {A} sv w (o : outcome io_error A) st w' :
  sv_inv sv w → reload_safe (sv_id_gen sv) (sv_registry sv) w o st w' →
  advances sv w (set_sv_services st sv) w'.
Proof.
  intros (Hi & Hg & Hb) [(Hi' & Hev & Ht & _) Hg']. split_and!; try done; simpl; [|lia].
  split_and!; simpl; [done|lia..|done].
Qed.

Lemma triple_flush {E} bound path :
  triple (E:=E) anything (on_sv_registry (flush_status_file bound path)) (λ _ _, True).
Proof.
  apply triple_registry. intros sv w Hi _. eapply wp_mono; [apply wp_flush_status_file|].
  intros o reg' w' (-> & [Hle _] & Ho & _). split; [|done].
  by apply safe_world.
Qed.

(** How the arms end. *)
Lemma triple_flush_continue bound path :
  triple anything (on_sv_registry (flush_status_file bound path) ;;! ret Continue :
    M supervisor io_error flow) flow_post.
Proof. eapply triple_bind; [apply triple_flush|]. intros ?. by apply triple_ret. Qed.

Lemma triple_handle_hup res signo : triple anything (handle_hup res signo) (λ _ _, True).
Proof.
  unfold handle_hup. eapply triple_bind; [apply triple_get|]. intros sv0.
  destruct (_ && _); [|by apply triple_ret].
  apply triple_say. eapply (triple_bind _ _ _ (λ _ _, True)); [|intros [r|e]; apply triple_say_end].
  apply (triple_conseq anything _ _ (λ _ _, True)); [|done|done].
  apply triple_catch. intros sv w Hi _. apply wp_zoom. destruct Hi as (Hi & Hg & Hb).
  eapply wp_mono; [by apply wp_reload_services|].
  intros o st w' [Hsafe Ho]. split; [by eapply advances_reload|by destruct o].
Qed.

Lemma triple_handle_sigchld bound :
  triple anything (on_sv_registry (handle_sigchld bound)) (λ _ _, True).
Proof.
  apply triple_registry. intros sv w Hi _. eapply wp_mono; [by apply wp_handle_sigchld|].
  by intros o reg' w' [Hsafe _].
Qed.

Lemma triple_handle_chld bound signo : triple anything (handle_chld bound signo) flow_post.
Proof.
  unfold handle_chld. case_bool_decide; [|by apply triple_ret].
  eapply triple_bind; [apply triple_handle_sigchld|]. intros ?.
  eapply triple_bind; [apply triple_get|]. intros sv0.
  destruct (_ && _) eqn:Hc; [apply triple_say|]; apply triple_ret; [|done].
  intros sv [-> _]. by apply andb_true_iff in Hc as [?%bool_decide_eq_true ?].
Qed.

(** The part of a shutdown request before the test: the state is
    [ShutdownRequested] afterwards. *)
Lemma triple_request sv0 :
  triple (E:=io_error) (λ sv, sv0 = sv ∧ True)
    (if bool_decide (sv_state sv0 = SupervisorState.Running) then
       svlogg LogLevel.Info "shutdown requested" ;;!
       modify (set_sv_state SupervisorState.ShutdownRequested) ;;!
       on_sv_registry stop_all
     else ret tt)
    (λ _ sv, sv_state sv = SupervisorState.ShutdownRequested).
Proof.
  case_bool_decide as Hs.
  - apply triple_say.
    intros sv w Hi _. wp_steps. destruct Hi as (Hi & Hg & Hb). simpl.
    unfold on_sv_registry. wp_step. eapply wp_mono; [by apply wp_stop_all|].
    intros o reg' w' (-> & (Hi' & Hev & Ht & _) & _). by split_and!.
  - apply triple_ret. intros sv [-> _]. by destruct (sv_state sv).
Qed.

Lemma triple_handle_term signo : triple anything (handle_term signo) flow_post.
Proof.
  unfold handle_term. destruct (_ || _); [|by apply triple_ret].
  eapply triple_bind; [apply triple_get|]. intros sv0.
  eapply triple_bind; [apply triple_request|]. intros [].
  eapply triple_bind; [apply triple_get|]. intros sv1.
  destruct (all_stopped _) eqn:Hall; [apply triple_say|]; apply triple_ret; [|done].
  by intros sv [-> ?].
Qed.

Lemma triple_handle_signal bound res signo :
  triple anything (handle_signal bound res signo) flow_post.
Proof.
  unfold handle_signal. eapply triple_bind; [apply triple_handle_hup|]. intros [].
  eapply triple_bind; [apply triple_handle_chld|]. intros [|].
  - apply triple_handle_term.
  - by apply triple_ret.
Qed.

(** Reading a batch: the count is at most the length of the buffer. *)
Lemma triple_batch fd :
  triple anything (zoom sv_siginfo_buf set_sv_buf (read_signalfd_batch fd))
    (λ n _, (n ≤ SIGINFO_BUF_LEN)%nat).
Proof.
  intros sv w Hi _. apply wp_zoom. pose proof Hi as (Hreg & Hg & Hb).
  eapply wp_mono.
  { apply wp_and; [apply (wp_read_signalfd_batch fd SIGINFO_BUF_LEN); [|apply Hb]|
      apply wp_batch_bytes, Hb]. unfold SIGINFO_BUF_LEN. lia. }
  intros o buf' w' [(Hw & Hlen & r & _ & Hr) Hbytes].
  destruct (advances_calm sv w w' Hi Hw) as ((Hreg' & _) & Hev & Ht & _).
  split; [by split_and!|].
  destruct r as [bs|e].
  - destruct o; try done. by destruct Hr.
  - destruct Hr as [_ ->]. case_bool_decide; [lia|done].
Qed.

Lemma triple_handle_sfd bound res : triple anything (handle_sfd bound res) flow_post.
Proof.
  unfold handle_sfd. eapply triple_bind; [apply triple_batch|]. intros n.
  eapply (triple_bind _ _ _ (λ _ _, (n ≤ SIGINFO_BUF_LEN)%nat)).
  { eapply triple_conseq; [apply triple_get|by intros sv H; exact H|by intros a sv [_ H]]. }
  intros sv0. case_bool_decide as Hn; [|by intros sv w _ H].
  apply (triple_conseq anything _ _ flow_post); [|done|done].
  eapply triple_bind.
  { apply (triple_for_break anything finished). intros info.
    eapply triple_conseq; [apply triple_handle_signal|done|by intros [|]]. }
  intros [|]; [|by apply triple_ret].
  apply triple_flush_continue.
Qed.

Lemma triple_read_timerfd fd : triple anything (read_timerfd fd) (λ _ _, True).
Proof.
  unfold read_timerfd. eapply triple_bind; [by apply triple_sys_try|]. intros buf.
  case_bool_decide; [by apply triple_ret|apply triple_throw].
Qed.

Lemma triple_handle_tick {E} now sigset :
  triple (E:=E) anything (on_sv_registry (handle_tick now sigset)) (λ _ _, True).
Proof.
  apply triple_registry. intros sv w Hi _. eapply wp_mono; [by apply wp_handle_tick|].
  by intros o reg' w' (_ & Hsafe & _).
Qed.

Lemma triple_handle_tfd bound res : triple anything (handle_tfd bound res) flow_post.
Proof.
  unfold handle_tfd. eapply triple_bind; [apply triple_read_timerfd|]. intros ?.
  eapply triple_bind; [by apply triple_sys|]. intros now.
  eapply triple_bind; [apply triple_handle_tick|]. intros ?.
  apply triple_flush_continue.
Qed.

Lemma triple_read_control fd :
  triple (E:=io_error) anything (catch (read_control_command fd)) (λ _ _, True).
Proof.
  apply triple_catch. intros sv w Hi _. eapply wp_mono; [apply wp_read_control_command|].
  intros o sv' w' (-> & Hw & r & _ & -> & _). split; [by apply advances_calm|].
  unfold command_of_read. by repeat case_match.
Qed.

Lemma triple_apply_control_op k op sigset :
  triple anything (on_sv_registry (apply_control_op k op sigset)) (λ _ _, True).
Proof.
  apply triple_registry. intros sv w Hi _. eapply wp_mono; [by apply wp_apply_control_op|].
  by intros o reg' w' [Hsafe _].
Qed.

Lemma triple_handle_pfd bound res : triple anything (handle_pfd bound res) flow_post.
Proof.
  unfold handle_pfd. eapply triple_bind; [apply triple_read_control|].
  intros [[cmd|]|[e|e]];
    [|by apply triple_ret|apply triple_throw|by apply triple_say, triple_ret].
  eapply triple_bind; [apply triple_catch, triple_apply_control_op|]. intros applied.
  eapply triple_bind; [|intros ?; apply triple_flush_continue].
  destruct applied; [by apply triple_ret|apply triple_say_end].
Qed.

Lemma triple_handle_event bound res data :
  triple anything (handle_event bound res data) flow_post.
Proof.
  unfold handle_event. case_bool_decide; [apply triple_handle_sfd|].
  case_bool_decide; [apply triple_handle_tfd|].
  case_bool_decide; [apply triple_handle_pfd|by apply triple_say, triple_ret].
Qed.

Lemma triple_run_loop fuel bound res :
  triple anything (run_loop fuel bound res) (λ _, finished).
Proof.
  induction fuel as [|fuel IH]; simpl; [apply triple_fuel|].
  eapply triple_bind; [by apply triple_sys_try|]. intros events.
  eapply triple_bind.
  { apply (triple_for_break anything finished). intros data.
    eapply triple_conseq; [apply triple_handle_event|done|by intros [|]]. }
  intros [|]; [exact IH|by apply triple_ret].
Qed.
End handlers.

(** * What each signal does *)

Section signals.
Context {K : Type} `{!Platform K} `{!PlatformLaws K}.
Implicit Types (sv : supervisor) (w : world K).

(** C17.  A request to shut down (SIGINT or SIGTERM): the supervisor is
    shutting down afterwards, and leaves its loop at once exactly when
    every service is stopped already.  The first request sends its stop
    signal to each running service and to no other process, and each of them
    is stopping afterwards unless its signal was refused; a repeated one
    changes nothing and makes no call but a log message. *)
Theorem shutdown_request_spec bound res signo sv w :
  sv_inv sv w → signo = SIGINT ∨ signo = SIGTERM →
  wp (handle_signal bound res signo) (λ o sv' w',
    sv_state sv' = SupervisorState.ShutdownRequested ∧
    o = Ok (if all_stopped (sv_registry sv') then BreakOuter else Continue) ∧
    match sv_state sv with
    | SupervisorState.ShutdownRequested => sv' = sv ∧ logged w w'
    | SupervisorState.Running =>
        (∃ keys, (keys ≡ₚ (map_to_list (services_map (sv_registry sv))).*1) ∧
          kills w' = kills w ++ signals_to stop_kill (sv_registry sv) keys) ∧
        ∀ k, match services_map (sv_registry sv) !! k with
             | Some svc =>
                 stop_result (events w w') svc (services_map (sv_registry sv') !! k)
             | None => services_map (sv_registry sv') !! k = None
             end
    end) sv w.
Proof.
  intros (Hi & _) Hsig. unfold handle_signal, handle_hup, handle_chld, handle_term.
  wp_steps. rewrite (bool_decide_false (signo = SIGHUP)) by (by destruct Hsig; subst).
  cbn [andb]. wp_steps.
  rewrite (bool_decide_false (signo = SIGCHLD)) by (by destruct Hsig; subst). wp_steps.
  assert (Hreq : bool_decide (signo = SIGINT) || bool_decide (signo = SIGTERM) = true).
  { by destruct Hsig; subst. }
  rewrite Hreq. wp_steps. destruct (sv_state sv) eqn:Hst.
  - rewrite bool_decide_true by done. unfold on_sv_registry. wp_steps.
    apply wp_svlogg. intros w1 [Hle Hkw]%says_calm. wp_steps.
    eapply wp_mono; [by eapply wp_stop_all, reg_inv_world|].
    intros o reg' w' (-> & Hsafe & Hkills & Hres). rewrite Hkw in Hkills. wp_steps. simpl.
    assert (Hlift : ∀ w2, world_le w' w2 → ∀ k, match services_map (sv_registry sv) !! k with
      | Some svc => stop_result (events w w2) svc (services_map reg' !! k)
      | None => services_map reg' !! k = None
      end).
    { intros w2 Hw2 k. specialize (Hres k).
      simpl in Hres. destruct (services_map (sv_registry sv) !! k); [|done].
      eapply stop_result_mono; [|done]. apply events_sub; [apply Hle|apply Hsafe|apply Hw2]. }
    destruct (all_stopped reg') eqn:Hall; simpl in *.
    + unfold break_outer. wp_step. apply wp_svlogg. intros w2 [Hle2 Hkw2]%says_calm. wp_steps.
      simpl. split_and!; [done|by rewrite Hall|by setoid_rewrite Hkw2|by apply Hlift].
    + wp_step. simpl. split_and!; [done|by rewrite Hall|done|by apply Hlift].
  - rewrite bool_decide_false by done. wp_steps.
    destruct (all_stopped (sv_registry sv)) eqn:Hall.
    + unfold break_outer. wp_step. apply wp_svlogg. intros w2 Hw%says_logged. wp_steps.
      rewrite Hall. by split_and!.
    + wp_step. rewrite Hall. by split_and!.
Qed.

(** C18.  SIGCHLD: the statuses that [wait] delivers are applied to the
    services, the supervisor's own state does not change, and the loop is
    left exactly when a shutdown was requested before and now every service
    is stopped. *)
Theorem sigchld_spec bound res sv w :
  sv_inv sv w →
  wp (handle_signal bound res SIGCHLD) (λ o sv' w',
    sv_state sv' = sv_state sv ∧
    (∃ evs, trace w' = trace w ++ evs ∧
      services_map (sv_registry sv') =
        reap_of (waits evs) <$> services_map (sv_registry sv)) ∧
    ∀ c, o = Ok c → c = BreakOuter ↔ finished sv') sv w.
Proof.
  intros (Hi & _). unfold handle_signal, handle_hup, handle_chld, on_sv_registry.
  wp_steps. rewrite (bool_decide_false (SIGCHLD = SIGHUP)) by done. cbn [andb]. wp_steps.
  rewrite bool_decide_true by done. wp_steps.
  eapply wp_mono; [by apply wp_handle_sigchld|].
  intros o reg' w' [_ Hevs]. destruct o as [[]|e| | |]; simpl; try done;
    [|by split_and!; [..|intros c]..].
  wp_steps. simpl. unfold finished.
  destruct (bool_decide _ && all_stopped reg') eqn:Hc; wp_steps.
  - apply andb_true_iff in Hc as [Hst%bool_decide_eq_true Hall].
    unfold break_outer. wp_step. apply wp_svlogg. intros w2 Hw%says_logged. wp_steps.
    split_and!; [done| |by intros c [= <-]]. destruct Hevs as (evs & Htr & Hserv).
    destruct (logged_more _ _ _ _ Htr Hw) as (evs' & Htr' & Hwaits).
    exists evs'. by rewrite Hwaits.
  - unfold handle_term. simpl. wp_step. split_and!; [done|done|]. intros c [= <-].
    split; [done|]. intros [Hst Hall]. simpl in *. by rewrite Hst, Hall in Hc.
Qed.

(** Every other signal is ignored, and so is a SIGHUP once a shutdown
    was requested: no call is made and nothing changes. *)
Lemma ignored_signals bound res signo sv w :
  signo ∉ [SIGHUP; SIGCHLD; SIGINT; SIGTERM] ∨
  signo = SIGHUP ∧ sv_state sv = SupervisorState.ShutdownRequested →
  handle_signal bound res signo sv w = (Ok Continue, sv, w).
Proof.
  intros Hsig. unfold handle_signal, handle_hup, handle_chld, handle_term, bind, get, ret.
  destruct Hsig as [Hsig|[-> Hst]].
  - rewrite !(bool_decide_false (signo = _)) by set_solver. done.
  - rewrite Hst. done.
Qed.
End signals.

(** * Instances on the simulated platform *)

Definition sim_sv (st : supervisor_state) (svc : service) : supervisor :=
  Supervisor st (sim_reg svc) 1 (siginfo_buffer SIGINFO_BUF_LEN).

Definition sim_res : resources :=
  Resources 0 10 11 12 13 (status_file_path_new "/run/svlopp/status") "services.toml".

Lemma sim_sv_inv sst st a w :
  reg_inv 1 (sim_reg (sim_svc st a)) w → sv_inv (sim_sv sst (sim_svc st a)) w.
Proof.
  intros Hi. split_and!; [done|simpl; lia|unfold u64_max; simpl; lia|].
  apply (siginfo_buffer_wf SIGINFO_BUF_LEN).
Qed.

(** A second SIGTERM while a service is still stopping. *)
Lemma shutdown_request_spec_witness :
  let svc := sim_svc (Stopping 100 7) ServicePendingAction.None in
  let sv := sim_sv SupervisorState.ShutdownRequested svc in
  wp (handle_signal 2 sim_res SIGTERM) (λ o sv' w', o = Ok Continue ∧ sv' = sv ∧
    logged (sim_world_of svc) w') sv (sim_world_of svc).
Proof.
  cbv zeta. eapply wp_mono; [apply (shutdown_request_spec 2 sim_res); [|by right]|].
  { apply sim_sv_inv, sim_reg_inv. by intros p [= <-]. }
  intros o sv' w' (_ & -> & -> & ?). by split_and!.
Defined.

(** The last service ends after a shutdown was requested. *)
Lemma sigchld_spec_witness :
  let sv := sim_sv SupervisorState.ShutdownRequested (sim_svc (Running 100) no_action) in
  (handle_signal 2 sim_res SIGCHLD sv sim_exit).1.1 = Ok BreakOuter ∧
  wp (handle_signal 2 sim_res SIGCHLD)
    (λ o sv' _, ∀ c, o = Ok c → c = BreakOuter ↔ finished sv') sv sim_exit.
Proof.
  cbv zeta. split; [vm_compute; reflexivity|].
  eapply wp_mono; [apply (sigchld_spec 2 sim_res), sim_sv_inv, sim_exit_inv|].
  by intros o sv' w' (_ & _ & Ho).
Defined.

Lemma ignored_signals_witness :
  let sv := sim_sv SupervisorState.ShutdownRequested (sim_svc (Running 100) no_action) in
  handle_signal 2 sim_res SIGHUP sv sim_exit = (Ok Continue, sv, sim_exit).
Proof. apply (ignored_signals 2 sim_res SIGHUP). right. split; reflexivity. Defined.

(** A tick during a shutdown still applies fallback actions: a service that
    had exited is started again, and nothing sends it a stop signal, since a
    repeated request does not stop the services. *)
Example restart_during_shutdown :
  let a := sim_svc (Stopping 100 (10 ^ 12)) no_action in
  let b := Service 1 "b" (sim_service "sleep" ServicePendingAction.Restart) ["sleep"; "10"] None
             (Stopped Success) no_action in
  let sv := Supervisor SupervisorState.ShutdownRequested
              (ServiceRegistry {[0 := a; 1 := b]} {[100 := 0]}) 2 (siginfo_buffer 16) in
  let w := World (sim_set_reads [ROk (le_encode 8 1)] (sim_set_children [100] sim_init)) [] 3 in
  let '(o, sv1, w1) := handle_tfd 5 sim_res sv w in
  let '(o2, sv2, w2) := handle_signal 5 sim_res SIGTERM sv1 w1 in
  o = Ok Continue ∧ (s_state <$> services_map (sv_registry sv1) !! 1) = Some (Running 101) ∧
  o2 = Ok Continue ∧ services_map (sv_registry sv2) = services_map (sv_registry sv1) ∧
  kills w2 = [].
Proof. vm_compute. done. Qed.

(** An interrupted [epoll_wait] (EINTR) ends the loop with an error, with a
    service still running. *)
Example interrupted_wait_ends_loop :
  let svc := sim_svc (Running 100) no_action in
  let sv := sim_sv SupervisorState.Running svc in
  let w := World (sim_set_epolls [RErr EINTR] (sim_set_children [100] sim_init)) [] 3 in
  let '(o, sv', _) := run_loop 5 5 sim_res sv w in
  o = Err (OsError EINTR) ∧ services_map (sv_registry sv') !! 0 = Some svc.
Proof. vm_compute. done. Qed.
