(* ===== verification/Fuel.v ===== *)
(** What the fuel of the loops means.

    The model of an endless loop takes fuel.  Here: fuel only cuts a run
    short.  [m ⊑ m'] says that [m] is [m'] with less fuel: it does the same,
    or it stops for want of fuel after a beginning of what [m'] does.  One
    structural pass over the program shows it for every part of it, up to
    [run] and [main]. *)
From S2P Require Import Prelude Utils Bytes Data Text Platform Monad Sim Logging Cli.
From S2P Require Import Signalfd Control Service Registry Handlers Reload Status Supervisor.
Local Open Scope Z_scope.
Local Open Scope svlopp_scope.

Section approx.
Context {K : Type} `{!Platform K}.
Abbreviation M := (@M K).

(** The trace only grows, and [m] is [m'] up to a lack of fuel. *)
Definition approx {S E A} (m m' : M S E A) : Prop :=
  ∀ s w,
    let '(o, s1, w1) := m s w in
    let '(o', s2, w2) := m' s w in
    trace w `prefix_of` trace w2 ∧
    (o = OutOfFuel ∧ trace w1 `prefix_of` trace w2 ∨ o = o' ∧ s1 = s2 ∧ w1 = w2).

Infix "⊑" := approx (at level 70) : svlopp_scope.

(** * Rules *)

Lemma approx_stay {S E A} (m : M S E A) :
  (∀ s w, trace w `prefix_of` trace (m s w).2) → m ⊑ m.
Proof. intros Hm s w. specialize (Hm s w). destruct (m s w) as [[o s1] w1]. auto. Qed.

Lemma approx_ret {S E A} (a : A) : (ret a : M S E A) ⊑ ret a.
Proof. by apply approx_stay. Qed.
Lemma approx_throw {S E A} (e : E) : (throw e : M S E A) ⊑ throw e.
Proof. by apply approx_stay. Qed.
Lemma approx_panic {S E A} msg : (panic msg : M S E A) ⊑ panic msg.
Proof. by apply approx_stay. Qed.
Lemma approx_gone {S E A} p : (gone p : M S E A) ⊑ gone p.
Proof. by apply approx_stay. Qed.
Lemma approx_get {S E} : (get : M S E S) ⊑ get.
Proof. by apply approx_stay. Qed.
Lemma approx_modify {S E} f : (modify f : M S E unit) ⊑ modify f.
Proof. by apply approx_stay. Qed.
Lemma approx_lift {S E A} (r : result E A) : (lift r : M S E A) ⊑ lift r.
Proof. apply approx_stay. by destruct r. Qed.
Lemma approx_expect {S E A} (o : option A) msg : (expect o msg : M S E A) ⊑ expect o msg.
Proof. apply approx_stay. by destruct o. Qed.
Lemma approx_in_order {S E A} (l : list A) : (in_order l : M S E (list A)) ⊑ in_order l.
Proof. apply approx_stay. intros s w. unfold in_order. by destruct (order l (kst w)). Qed.
Lemma approx_sys {S E A} (op : sysop A) : (sys op : M S E A) ⊑ sys op.
Proof.
  apply approx_stay. intros s w. unfold sys. destruct (handle op (kst w)). simpl.
  by apply prefix_app_r.
Qed.

(** The least computation. *)
Lemma approx_fuel {S E A} (m : M S E A) : m ⊑ m → out_of_fuel ⊑ m.
Proof.
  intros Hm s w. specialize (Hm s w). simpl. destruct (m s w) as [[o s1] w1].
  destruct Hm as [Ht _]. auto.
Qed.

Lemma approx_bind {S E A B} (m m' : M S E A) (k k' : A → M S E B) :
  m ⊑ m' → (∀ a, k a ⊑ k' a) → bind m k ⊑ bind m' k'.
Proof.
  intros Hm Hk s w. specialize (Hm s w). unfold bind.
  destruct (m s w) as [[o s1] w1], (m' s w) as [[o' s2] w2].
  destruct Hm as [Ht [[-> Hcut]|(-> & -> & ->)]].
  - destruct o' as [a|e|msg| |p]; [|by auto..]. specialize (Hk a s2 w2).
    destruct (k a s2 w2) as [[? ?] ?], (k' a s2 w2) as [[o3 s3] w3]. destruct Hk as [Ht3 _].
    split; [by etrans|]. left. split; [done|by etrans].
  - destruct o' as [a|e|msg| |p]; [|by auto..]. specialize (Hk a s2 w2).
    destruct (k a s2 w2) as [[? ?] ?], (k' a s2 w2) as [[o3 s3] w3]. destruct Hk as [Ht3 Hk].
    split; [by etrans|done].
Qed.

Lemma approx_catch {S E F A} (m m' : M S E A) :
  m ⊑ m' → (catch m : M S F _) ⊑ catch m'.
Proof.
  intros Hm s w. specialize (Hm s w). unfold catch.
  destruct (m s w) as [[o s1] w1], (m' s w) as [[o' s2] w2].
  destruct Hm as [Ht [[-> Hcut]|(-> & -> & ->)]]; auto.
Qed.
Lemma approx_with_err {S E F A} (f : E → F) (m m' : M S E A) :
  m ⊑ m' → with_err f m ⊑ with_err f m'.
Proof.
  intros Hm s w. specialize (Hm s w). unfold with_err.
  destruct (m s w) as [[o s1] w1], (m' s w) as [[o' s2] w2].
  destruct Hm as [Ht [[-> Hcut]|(-> & -> & ->)]]; auto.
Qed.
Lemma approx_zoom {S T E A} (g : S → T) (p : T → S → S) (m m' : M T E A) :
  m ⊑ m' → zoom g p m ⊑ zoom g p m'.
Proof.
  intros Hm s w. specialize (Hm (g s) w). unfold zoom.
  destruct (m (g s) w) as [[o s1] w1], (m' (g s) w) as [[o' s2] w2].
  destruct Hm as [Ht [[-> Hcut]|(-> & -> & ->)]]; auto.
Qed.
Lemma approx_with_local {S T E A} (t : T) (m m' : M T E A) :
  m ⊑ m' → (with_local t m : M S E _) ⊑ with_local t m'.
Proof.
  intros Hm s w. specialize (Hm t w). unfold with_local.
  destruct (m t w) as [[o s1] w1], (m' t w) as [[o' s2] w2].
  destruct Hm as [Ht [[-> Hcut]|(-> & -> & ->)]]; auto.
Qed.
Lemma approx_on_service {E A} k (m m' : M service E A) : m ⊑ m' → on_service k m ⊑ on_service k m'.
Proof.
  intros Hm reg w. unfold on_service. destruct (service_mut reg k) as [svc|]; [|by auto].
  specialize (Hm svc w). destruct (m svc w) as [[o s1] w1], (m' svc w) as [[o' s2] w2].
  destruct Hm as [Ht [[-> Hcut]|(-> & -> & ->)]]; auto.
Qed.

Lemma approx_for_each {S E A} (l : list A) (f f' : A → M S E unit) :
  (∀ a, f a ⊑ f' a) → for_each l f ⊑ for_each l f'.
Proof.
  intros Hf. induction l as [|a l IH]; [apply approx_ret|]. by apply approx_bind.
Qed.
Lemma approx_for_break {S E A} (l : list A) (f f' : A → M S E flow) :
  (∀ a, f a ⊑ f' a) → for_break l f ⊑ for_break l f'.
Proof.
  intros Hf. induction l as [|a l IH]; [apply approx_ret|].
  apply approx_bind; [done|]. intros [|]; [done|apply approx_ret].
Qed.
End approx.

Infix "⊑" := approx (at level 70) : svlopp_scope.

Create HintDb approx discriminated.
#[export] Hint Resolve approx_ret approx_throw approx_panic approx_gone approx_get approx_modify : approx.
#[export] Hint Resolve approx_lift approx_expect approx_in_order approx_sys approx_catch : approx.
#[export] Hint Resolve approx_with_err approx_zoom approx_with_local approx_on_service : approx.
#[export] Hint Resolve approx_for_each approx_for_break Nat.le_refl : approx.

(** One rule or case analysis at a time; a defined computation is unfolded,
    unless it is a loop. *)
Ltac head_of m := lazymatch m with ?f _ => head_of f | _ => m end.
Ltac unfold_head m :=
  let h := head_of m in
  lazymatch h with
  | @handle_sigchld => fail
  | @write_all => fail
  | @parse_args => fail
  | @run_loop => fail
  | _ => progress unfold h
  end.
Ltac approximate :=
  repeat first
    [ progress intros
    | solve [auto 2 with approx nocore]
    | solve [apply approx_stay; intros ? ?; apply (reflexivity (R:=prefix))]
    | lazymatch goal with
      | |- bind _ _ ⊑ bind _ _ => apply approx_bind
      | |- catch _ ⊑ catch _ => apply approx_catch
      | |- with_err _ _ ⊑ with_err _ _ => apply approx_with_err
      | |- zoom _ _ _ ⊑ zoom _ _ _ => apply approx_zoom
      | |- with_local _ _ ⊑ with_local _ _ => apply approx_with_local
      | |- on_service _ _ ⊑ on_service _ _ => apply approx_on_service
      | |- for_each _ _ ⊑ for_each _ _ => apply approx_for_each
      | |- for_break _ _ ⊑ for_break _ _ => apply approx_for_break
      | |- (match ?x with _ => _ end) ⊑ _ => destruct x
      | |- ?m ⊑ _ => unfold_head m
      end ].

(** * The program *)

Section program.
Context {K : Type} `{!Platform K}.
Abbreviation M := (@M K).

Lemma approx_svlogg {S E} level msg : (svlogg level msg : M S E unit) ⊑ svlogg level msg.
Proof. approximate. Qed.
#[local] Hint Resolve approx_svlogg : approx.

Lemma approx_start_service sigset : (start_service sigset : M _ _ unit) ⊑ start_service sigset.
Proof. approximate. Qed.
Lemma approx_stop_service : (stop_service : M _ _ unit) ⊑ stop_service.
Proof. approximate. Qed.
#[local] Hint Resolve approx_start_service approx_stop_service : approx.

Lemma approx_apply_control_op k op sigset :
  (apply_control_op k op sigset : M _ _ unit) ⊑ apply_control_op k op sigset.
Proof. approximate. Qed.
Lemma approx_handle_tick {E} now sigset :
  (handle_tick now sigset : M _ E unit) ⊑ handle_tick now sigset.
Proof. approximate. Qed.
Lemma approx_start_all {E} sigset : (start_all sigset : M _ E unit) ⊑ start_all sigset.
Proof. approximate. Qed.
Lemma approx_stop_all {E} : (stop_all : M _ E unit) ⊑ stop_all.
Proof. approximate. Qed.
Lemma approx_handle_status p st : (handle_status p st : M _ _ unit) ⊑ handle_status p st.
Proof. approximate. Qed.
Lemma approx_reload_services path sigset :
  (reload_services path sigset : M _ _ unit) ⊑ reload_services path sigset.
Proof. approximate. Qed.
Lemma approx_load_services path : (load_services path : M _ _ unit) ⊑ load_services path.
Proof. approximate. Qed.
Lemma approx_setup {S} args : (setup args : M S _ _) ⊑ setup args.
Proof. approximate. Qed.
Lemma approx_parse_args {S E} n l cfg dir level :
  (length l ≤ n)%nat →
  (parse_args l cfg dir level : M S E _) ⊑ parse_args l cfg dir level.
Proof.
  revert l cfg dir level. induction n as [|n IH]; intros [|arg [|v l]] cfg dir level Hl;
    cbn [parse_args length] in *; try lia; approximate; apply IH; simpl in *; lia.
Qed.
Lemma approx_parse {S E} argv : (parse argv : M S E _) ⊑ parse argv.
Proof.
  destruct argv as [|prog args]; unfold parse; [by eapply approx_parse_args|].
  apply approx_bind; [approximate|]. intros _. by eapply approx_parse_args.
Qed.
#[local] Hint Resolve approx_apply_control_op approx_handle_tick approx_start_all approx_stop_all : approx.
#[local] Hint Resolve approx_handle_status approx_reload_services approx_load_services approx_setup : approx.
#[local] Hint Resolve approx_parse : approx.

(** ** The loops *)

Lemma approx_handle_sigchld fuel fuel' :
  (fuel ≤ fuel')%nat → handle_sigchld fuel ⊑ handle_sigchld fuel'.
Proof.
  revert fuel'. induction fuel as [|fuel IH]; intros fuel' Hle.
  - apply approx_fuel. clear Hle. induction fuel' as [|fuel' IH]; simpl; approximate; exact IH.
  - destruct fuel' as [|fuel']; [lia|]. assert (fuel ≤ fuel')%nat by lia. simpl. approximate.
Qed.

Lemma approx_write_all {S} fuel fuel' fd buf :
  (fuel ≤ fuel')%nat → (write_all fuel fd buf : M S _ _) ⊑ write_all fuel' fd buf.
Proof.
  revert fuel' buf. induction fuel as [|fuel IH]; intros fuel' buf Hle.
  - clear Hle. revert buf. assert (Hself : ∀ buf, (write_all fuel' fd buf : M S _ _) ⊑ write_all fuel' fd buf).
    { induction fuel' as [|fuel' IH]; intros [|b buf]; simpl; approximate; apply IH. }
    intros [|b buf]; [destruct fuel'; simpl; approximate|]. by apply approx_fuel.
  - destruct fuel' as [|fuel']; [lia|]. assert (fuel ≤ fuel')%nat by lia.
    destruct buf; simpl; approximate.
Qed.
#[local] Hint Resolve approx_handle_sigchld approx_write_all : approx.

Section bounds.
Context (bound bound' : nat) (Hb : (bound ≤ bound')%nat).

Lemma approx_flush {E} path :
  (flush_status_file bound path : M _ E unit) ⊑ flush_status_file bound' path.
Proof. unfold flush_status_file, write_status_file. approximate. Qed.
#[local] Hint Resolve approx_flush : approx.

Lemma approx_handle_signal res signo : handle_signal bound res signo ⊑ handle_signal bound' res signo.
Proof. unfold handle_signal, handle_chld. approximate. Qed.
#[local] Hint Resolve approx_handle_signal : approx.

Lemma approx_handle_event res data : handle_event bound res data ⊑ handle_event bound' res data.
Proof. unfold handle_event, handle_sfd, handle_tfd, handle_pfd. approximate. Qed.
#[local] Hint Resolve approx_handle_event : approx.
End bounds.
#[local] Hint Resolve approx_flush approx_handle_event : approx.

Lemma approx_run_loop fuel fuel' bound bound' res :
  (fuel ≤ fuel')%nat → (bound ≤ bound')%nat →
  run_loop fuel bound res ⊑ run_loop fuel' bound' res.
Proof.
  intros Hf Hb. revert fuel' Hf. induction fuel as [|fuel IH]; intros fuel' Hle.
  - apply approx_fuel. clear Hle. induction fuel' as [|fuel' IH]; simpl; approximate.
  - destruct fuel' as [|fuel']; [lia|]. assert (fuel ≤ fuel')%nat by lia. simpl. approximate.
Qed.
#[local] Hint Resolve approx_run_loop : approx.

Lemma approx_run fuel fuel' bound bound' args :
  (fuel ≤ fuel')%nat → (bound ≤ bound')%nat → run fuel bound args ⊑ run fuel' bound' args.
Proof. intros Hf Hb. unfold run. approximate. Qed.
#[local] Hint Resolve approx_run : approx.

Lemma approx_main {S E A} fuel fuel' bound bound' argv :
  (fuel ≤ fuel')%nat → (bound ≤ bound')%nat →
  (main fuel bound argv : M S E A) ⊑ main fuel' bound' argv.
Proof. intros Hf Hb. unfold main, main_serve, main_finish. approximate. Qed.
End program.
