(* ===== verification/Startup.v ===== *)
(** The start of [run] in main.rs: its setup makes no process, and when it
    succeeds it made its calls in order on each other's answers; the initial
    load registers one stopped service per configured name. *)
From S2P Require Import Prelude Utils Bytes Data Text Platform Monad Sim Logging Cli.
From S2P Require Import Signalfd Control Service Registry Handlers Reload Status.
From S2P Require Import Supervisor.
Local Open Scope Z_scope.
Local Open Scope svlopp_scope.

Section setup.
Context {K : Type} `{!Platform K} `{!PlatformLaws K}.
Abbreviation M := (@M K).

Lemma quietly_sigset_empty {S} b : quietly b (sigset_empty : M S _ Z).
Proof. unfold sigset_empty. quiet. Qed.
Lemma quietly_sigset_current {S} b : quietly b (sigset_current : M S _ Z).
Proof. unfold sigset_current. quiet. Qed.
Lemma quietly_sigset_add signal : quietly false (sigset_add signal).
Proof. unfold sigset_add. quiet. Qed.
Lemma quietly_block {S} b sigset : quietly b (block_thread_signals sigset : M S _ unit).
Proof. unfold block_thread_signals. quiet. Qed.
Lemma quietly_fifo {S} b path : quietly b (create_control_fifo path : M S _ (Z * Z)).
Proof. unfold create_control_fifo. quiet. Qed.
Lemma quietly_signalfd {S} b sigset flags : quietly b (signalfd sigset flags : M S _ Z).
Proof. unfold signalfd. quiet. Qed.
Lemma quietly_timer {S} b : quietly b (create_timerfd_1s_periodic : M S _ Z).
Proof. unfold create_timerfd_1s_periodic. quiet. Qed.

#[local] Hint Resolve quietly_sigset_empty quietly_sigset_current quietly_sigset_add
  quietly_block quietly_fifo quietly_signalfd quietly_timer : svlopp.

Lemma quietly_setup {S} b args : quietly b (setup args : M S io_error resources).
Proof. unfold setup. quiet. Qed.
End setup.

(** ** What a successful setup did *)

(** The answers of a call that succeeded. *)
Definition succeeds {A} (op : sysop (result Z A)) (v : A) (ev : event) : Prop :=
  ev = Ev op (ROk v).
Definition cvt_ok {B} (op : sysop (Z * Z * B)) (v : B) (ev : event) : Prop :=
  ∃ r errno, is_error r = false ∧ ev = Ev op (r, errno, v).
Definition fifo_made (path : string) (ev : event) : Prop :=
  ev = Ev (SMkfifo path 384) (ROk tt) ∨ ev = Ev (SMkfifo path 384) (RErr EEXIST).

(** The calls of [setup] with what they answered, in order.  The signal mask
    is read before it is changed; the set that is blocked is the set the
    signalfd reads, and it consists of the four signals of the loop. *)
Definition setup_events (args : cli_args) (res : resources) (evs : list event) : Prop :=
  let pipe := path_join (run_dir args) CONTROL_PIPE_NAME in
  ∃ set0 set1 set2 set3 set old wfd,
    Forall2 (λ (P : event → Prop) ev, P ev)
      [succeeds SSubreaper tt;
       cvt_ok (SSigprocmask SIG_SETMASK None) (original_sigset res);
       cvt_ok SSigemptyset set0;
       cvt_ok (SSigaddset set0 SIGHUP) set1; cvt_ok (SSigaddset set1 SIGCHLD) set2;
       cvt_ok (SSigaddset set2 SIGTERM) set3; cvt_ok (SSigaddset set3 SIGINT) set;
       cvt_ok (SSigprocmask SIG_BLOCK (Some set)) old;
       fifo_made pipe;
       succeeds (SOpen pipe [RDONLY; CLOEXEC; NONBLOCK] 0) (r_pfd res);
       succeeds (SOpen pipe [WRONLY; CLOEXEC; NONBLOCK] 0) wfd;
       (λ ev, ∃ e, ev = Ev (SSignalfd set (Z.lor SFD_CLOEXEC SFD_NONBLOCK)) (r_sfd res, e));
       succeeds (STimerfdCreate Monotonic [CLOEXEC; NONBLOCK]) (r_tfd res);
       succeeds (STimerfdSettime (r_tfd res) 1 0 1 0) tt;
       succeeds (SEpollCreate [CLOEXEC]) (r_epfd res);
       succeeds (SEpollAdd (r_epfd res) (r_sfd res) ID_SFD) tt;
       succeeds (SEpollAdd (r_epfd res) (r_tfd res) ID_TFD) tt;
       succeeds (SEpollAdd (r_epfd res) (r_pfd res) ID_PFD) tt] evs ∧
    r_status_path res = status_file_path_new (path_join (run_dir args) STATUS_FILE_NAME) ∧
    r_config_path res = config_path args.

Section setup_effects.
Context {K : Type} `{!Platform K}.
Abbreviation M := (@M K).

(** When [m], from the state [s], returns a value, [Q] holds of it, of the
    new state and of the calls made. *)
Definition records {S E A} (s : S) (m : M S E A) (Q : A → S → list event → Prop) : Prop :=
  ∀ w, let '(o, s', w') := m s w in
    ∀ a, o = Ok a → ∃ evs, trace w' = trace w ++ evs ∧ Q a s' evs.

Lemma records_ret {S E A} (s : S) (a : A) (Q : A → S → list event → Prop) :
  Q a s [] → records s (ret a : M S E A) Q.
Proof. intros HQ w a' [= <-]. exists []. by rewrite app_nil_r. Qed.

Lemma records_bind {S E A B} (s : S) (m : M S E A) (k : A → M S E B)
    (Q : A → S → list event → Prop) (R : B → S → list event → Prop) :
  records s m Q →
  (∀ a s1, records s1 (k a) (λ b s2 evs2, ∀ evs1, Q a s1 evs1 → R b s2 (evs1 ++ evs2))) →
  records s (bind m k) R.
Proof.
  intros Hm Hk w. specialize (Hm w). unfold bind.
  destruct (m s w) as [[[a|e| | |p] s1] w1]; try done.
  destruct (Hm a eq_refl) as (evs1 & Htr & HQ). specialize (Hk a s1 w1).
  destruct (k a s1 w1) as [[o s2] w2]. intros b Ho.
  destruct (Hk b Ho) as (evs2 & Htr2 & HR). exists (evs1 ++ evs2).
  split; [by rewrite Htr2, Htr, app_assoc|auto].
Qed.

Lemma records_with_local {S T E A} (s : S) (t : T) (m : M T E A)
    (Q : A → T → list event → Prop) :
  records t m Q →
  records s (with_local t m : M S E (A * T)) (λ r s' evs, s' = s ∧ Q r.1 r.2 evs).
Proof.
  intros Hm w. specialize (Hm w). unfold with_local.
  destruct (m t w) as [[[a|e| | |p] t'] w']; try done. intros _ [= <-].
  destruct (Hm a eq_refl) as (evs & Htr & HQ). by exists evs.
Qed.

Lemma records_sys {S E A} (s : S) (op : sysop A) :
  records s (sys op : M S E A) (λ r s' evs, s' = s ∧ evs = [Ev op r]).
Proof.
  intros w. unfold sys. destruct (handle op (kst w)) as [r k].
  intros _ [= <-]. by eexists.
Qed.
Lemma records_sys_try {S A} (s : S) (op : sysop (result Z A)) :
  records s (sys_try op) (λ a s' evs, s' = s ∧ ∃ ev, evs = [ev] ∧ succeeds op a ev).
Proof.
  intros w. unfold sys_try, bind, sys. destruct (handle op (kst w)) as [[a|e] k]; [|done].
  intros _ [= <-]. exists [Ev op (ROk a)]. split; [done|]. split; [done|]. by eexists.
Qed.

Lemma records_cvt {S A B} (s : S) (op : sysop (Z * Z * B)) (f : B → M S io_error A)
    (Q : A → S → list event → Prop) :
  (∀ v, records s (f v) (λ a s' evs, ∀ ev, cvt_ok op v ev → Q a s' (ev :: evs))) →
  records s (let! (r, errno, v) := sys op in
             lift (map_err OsError (cvt r errno)) ;;! f v) Q.
Proof.
  intros Hf w. unfold bind, sys. destruct (handle op (kst w)) as [[[r errno] v] k].
  unfold cvt. destruct (is_error r) eqn:Hr; simpl; [done|].
  specialize (Hf v (extend w k (Ev op (r, errno, v)))).
  destruct (f v s _) as [[o s'] w']. intros a Ho. destruct (Hf a Ho) as (evs & Htr & HQ).
  exists (Ev op (r, errno, v) :: evs). rewrite Htr. simpl. rewrite <- app_assoc.
  split; [done|]. apply HQ. by exists r, errno.
Qed.

Lemma records_signalfd {S} (s : S) set flags :
  records s (signalfd set flags)
    (λ fd s' evs, s' = s ∧ ∃ e, evs = [Ev (SSignalfd set flags) (fd, e)]).
Proof.
  intros w. unfold signalfd, sys_cvt, bind, sys. destruct (handle _ (kst w)) as [[r e] k].
  unfold cvt. simpl. destruct (is_error r); [done|]. intros _ [= <-].
  eexists [_]. split; [done|]. split; [done|]. by exists e.
Qed.

Lemma records_fifo {S} (s : S) path :
  records s (create_control_fifo path) (λ fds s' evs, s' = s ∧ ∃ ev1 ev2 ev3,
    evs = [ev1; ev2; ev3] ∧ fifo_made path ev1 ∧
    succeeds (SOpen path [RDONLY; CLOEXEC; NONBLOCK] 0) fds.1 ev2 ∧
    succeeds (SOpen path [WRONLY; CLOEXEC; NONBLOCK] 0) fds.2 ev3).
Proof.
  unfold create_control_fifo. eapply records_bind; [apply records_sys|]. intros r s0.
  eapply (records_bind _ _ _
    (λ _ s' evs, s' = s0 ∧ evs = [] ∧ (r = ROk tt ∨ r = RErr EEXIST))).
  { destruct r as [[]|e]; [apply records_ret; auto|].
    case_bool_decide; [apply records_ret; naive_solver|by intros w a]. }
  intros [] s1. eapply records_bind; [apply records_sys_try|]. intros fd1 s2.
  eapply records_bind; [apply records_sys_try|]. intros fd2 s3. apply records_ret.
  intros ? (-> & ev3 & -> & H3) ? (-> & ev2 & -> & H2) ? (-> & -> & H1) ? (-> & ->).
  split; [done|]. eexists _, ev2, ev3. split; [done|]. split; [|done].
  destruct H1; subst; [by left|by right].
Qed.

Lemma records_timer {S} (s : S) :
  records s create_timerfd_1s_periodic (λ fd s' evs, s' = s ∧ ∃ ev1 ev2,
    evs = [ev1; ev2] ∧ succeeds (STimerfdCreate Monotonic [CLOEXEC; NONBLOCK]) fd ev1 ∧
    succeeds (STimerfdSettime fd 1 0 1 0) tt ev2).
Proof.
  unfold create_timerfd_1s_periodic.
  eapply records_bind; [apply records_sys_try|]. intros fd s1.
  eapply records_bind; [apply records_sys_try|]. intros [] s2. apply records_ret.
  intros ? (-> & ev2 & -> & H2) ? (-> & ev1 & -> & H1).
  split; [done|]. by exists ev1, ev2.
Qed.

(** The set of the four signals. *)
Lemma records_add signal raw :
  records raw (sigset_add signal) (λ _ raw' evs, ∃ ev,
    evs = [ev] ∧ cvt_ok (SSigaddset raw signal) raw' ev).
Proof.
  unfold sigset_add. intros w. change (bind get ?k raw w) with (k raw raw w).
  revert w. apply records_cvt. intros raw' w _ [= <-]. exists [].
  split; [by rewrite app_nil_r|]. intros ev Hev. by exists ev.
Qed.

Lemma records_signals raw :
  records raw (sigset_add SIGHUP ;;! sigset_add SIGCHLD ;;! sigset_add SIGTERM ;;!
               sigset_add SIGINT)
    (λ _ set evs, ∃ set1 set2 set3 ev1 ev2 ev3 ev4, evs = [ev1; ev2; ev3; ev4] ∧
      cvt_ok (SSigaddset raw SIGHUP) set1 ev1 ∧ cvt_ok (SSigaddset set1 SIGCHLD) set2 ev2 ∧
      cvt_ok (SSigaddset set2 SIGTERM) set3 ev3 ∧ cvt_ok (SSigaddset set3 SIGINT) set ev4).
Proof.
  eapply records_bind; [apply records_add|]. intros [] set1.
  eapply records_bind; [apply records_add|]. intros [] set2.
  eapply records_bind; [apply records_add|]. intros [] set3.
  intros w. pose proof (records_add SIGINT set3 w) as Hadd.
  destruct (sigset_add SIGINT set3 w) as [[o set] w']. intros a Ho.
  destruct (Hadd a Ho) as (? & Htr & ev4 & -> & H4). exists [ev4]. split; [done|].
  intros ? (ev3 & -> & H3) ? (ev2 & -> & H2) ? (ev1 & -> & H1).
  by exists set1, set2, set3, ev1, ev2, ev3, ev4.
Qed.

Lemma records_sigset {S} (s : S) (op : sysop (Z * Z * Z)) :
  records s (let! (r, errno, v) := sys op in
             lift (map_err OsError (cvt r errno)) ;;! ret v)
    (λ v s' evs, s' = s ∧ ∃ ev, evs = [ev] ∧ cvt_ok op v ev).
Proof. apply records_cvt. intros v. apply records_ret. intros ev Hev. split; [done|by exists ev]. Qed.

Lemma records_block {S} (s : S) set :
  records s (block_thread_signals set)
    (λ _ s' evs, s' = s ∧ ∃ ev old, evs = [ev] ∧
      cvt_ok (SSigprocmask SIG_BLOCK (Some set)) old ev).
Proof.
  apply records_cvt. intros v. apply records_ret. intros ev Hev. split; [done|by exists ev, v].
Qed.

Lemma setup_records {S} args (s : S) :
  records s (setup args) (λ res s' evs, s' = s ∧ setup_events args res evs).
Proof.
  unfold setup. eapply records_bind; [apply records_sys_try|]. intros [] s1.
  eapply records_bind; [apply records_sigset|]. intros original s2.
  eapply records_bind; [apply records_sigset|]. intros set0 s3.
  eapply records_bind; [apply records_with_local, records_signals|]. intros [[] set] s4.
  eapply records_bind; [apply records_block|]. intros [] s5.
  eapply records_bind; [apply records_fifo|]. intros [pfd wfd] s6.
  eapply records_bind; [apply records_signalfd|]. intros sfd s7.
  eapply records_bind; [apply records_timer|]. intros tfd s8.
  eapply records_bind; [apply records_sys_try|]. intros epfd s9.
  eapply records_bind; [apply records_sys_try|]. intros [] s10.
  eapply records_bind; [apply records_sys_try|]. intros [] s11.
  eapply records_bind; [apply records_sys_try|]. intros [] s12.
  apply records_ret.
  intros ? (-> & ? & -> & ?) ? (-> & ? & -> & ?) ? (-> & ? & -> & ?) ? (-> & ? & -> & ?).
  intros ? (-> & ? & ? & -> & ? & ?) ? (-> & ? & ->) ? (-> & ? & ? & ? & -> & ? & ? & ?).
  intros ? (-> & ? & old & -> & ?).
  intros ? (-> & set1 & set2 & set3 & ? & ? & ? & ? & -> & ? & ? & ? & ?).
  intros ? (-> & ? & -> & ?) ? (-> & ? & -> & ?) ? (-> & ? & -> & ?).
  split; [done|]. exists set0, set1, set2, set3, set, old, wfd. split; [|done].
  repeat first [apply Forall2_cons_2 | apply Forall2_nil_2]; eauto.
Qed.
End setup_effects.

(** A service that was just registered. *)
Definition registered (svc : service) : Prop :=
  built (s_config svc) (s_argv svc) (s_envp svc) ∧
  s_state svc = Stopped NeverStarted ∧ s_pending_action svc = ServicePendingAction.None.

(** The registry holds one service for each entry of a configuration. *)
Definition loaded (configs : list (string * service_config)) (reg : service_registry) : Prop :=
  (∀ k svc, services_map reg !! k = Some svc →
     (s_name svc, s_config svc) ∈ configs ∧ registered svc) ∧
  (∀ n cfg, (n, cfg) ∈ configs →
     ∃ k svc, services_map reg !! k = Some svc ∧ s_name svc = n ∧ s_config svc = cfg).

(** Registering one more. *)
Lemma loaded_insert configs reg svc :
  loaded configs reg → registered svc → services_map reg !! s_id svc = None →
  loaded (configs ++ [(s_name svc, s_config svc)]) (insert_service svc reg).
Proof.
  intros [Hold Hmade] Hreg Hfresh. split.
  - intros k svc'. simpl. rewrite lookup_insert_Some. intros [[<- <-]|[_ Hk]].
    + split; [set_solver|done].
    + apply Hold in Hk as [??]. split; [set_solver|done].
  - intros n cfg [Hin|[= -> ->]%list_elem_of_singleton]%elem_of_app; simpl.
    + destruct (Hmade _ _ Hin) as (k & svc' & Hk & ? & ?). exists k, svc'.
      split_and!; [|done..]. rewrite lookup_insert_ne; [done|]. congruence.
    + exists (s_id svc), svc. by rewrite lookup_insert_eq.
Qed.

Section load.
Context {K : Type} `{!Platform K} `{!PlatformLaws K}.

(** Between two rounds of the loop of [run] that registers the services. *)
Definition load_inv reg0 gen0 (w : world K) (visited : list (string * service_config))
    (st : reload_state) (w' : world K) : Prop :=
  reload_safe (A:=unit) gen0 reg0 w (Ok tt) st w' ∧ loaded visited st.1 ∧
  st.2 = gen0 + Z.of_nat (length visited).

Lemma wp_load_service (gen : Z) reg0 gen0 (w0 : world K) visited n cfg reg (w : world K) :
  load_inv reg0 gen0 w0 visited (reg, gen) w → 0 ≤ gen0 → config_wf cfg → n ∉ visited.*1 →
  wp (load_service n cfg) (λ o st' w', match o with
    | Ok _ => load_inv reg0 gen0 w0 (visited ++ [(n, cfg)]) st' w'
    | Err _ => reload_safe (A:=unit) gen0 reg0 w0 (Ok tt) st' w'
    | _ => False
    end) (reg, gen) w.
Proof.
  intros (Hs & [Hold Hmade] & Hgen) Hg0 Hcfg Hn. unfold load_service, next_id.
  pose proof Hs as [(Hi & Hev & Ht & _) Hg]. cbn [fst snd] in *.
  wp_step. wp_step. wp_steps. cbn [fst snd]. rewrite nextval_cases by lia.
  case_bool_decide as Hmax; simpl in *; [done|].
  assert (Hkeep : ∀ w', world_le w w' →
    reload_safe (A:=unit) gen0 reg0 w0 (Ok tt) (reg, gen + 1) w').
  { intros w' Hle. split; [|simpl; unfold u64_max in *; lia]. simpl.
    split_and!; [|done|by etrans; [|apply Hle]|done].
    eapply reg_inv_world; [done|]. apply reg_inv_gen with gen; [lia|done]. }
  wp_steps. eapply wp_mono; [apply wp_service_new|].
  intros o st' w1 (-> & [Hle _] & Ho). destruct o as [svc|e| | |]; simpl; try done;
    [|by apply Hkeep].
  destruct Ho as (argv & envp & Hbuilt & Hsvc). unfold on_registry. wp_steps. cbn [fst snd].
  assert (Hid : s_id svc = gen) by by rewrite Hsvc.
  assert (Hname : s_name svc = n) by by rewrite Hsvc.
  assert (Hconf : s_config svc = cfg) by by rewrite Hsvc.
  assert (Hreg : registered svc) by by rewrite Hsvc.
  assert (Hfresh : services_map reg !! gen = None).
  { destruct (services_map reg !! gen) as [s|] eqn:Hg1; [|done].
    destruct (reg_inv_service _ _ _ _ _ Hi Hg1) as (_ & ? & _). lia. }
  split_and!.
  - destruct (Hkeep w1 Hle) as [(Hi1 & Hev1 & Ht1 & _) Hg1].
    split; [|done]. cbn [fst snd] in *. split_and!; [| |done|done].
    + apply reg_inv_insert; try done.
      * by eapply reg_inv_world.
      * lia.
      * by rewrite Hsvc.
      * rewrite Hsvc. destruct Hbuilt as (Ha%build_svc_argv_typed & _ & He). by split.
      * intros k' svc' [Hin _]%Hold Heq. apply Hn. rewrite <- Hname, <- Heq.
        apply list_elem_of_fmap. by exists (s_name svc', s_config svc').
    + etrans; [exact Hev|]. apply evolves_insert; [by rewrite Hid|].
      rewrite Hsvc. apply rtc_once, lc_create.
  - rewrite <- Hname, <- Hconf. apply loaded_insert; [by split|done|by rewrite Hid].
  - rewrite length_app. simpl. lia.
Qed.

(** The registry after the initial load: a service per configured name, and
    the ids [gen .. gen + n - 1] handed out. *)
Definition load_post (path : string) gen reg (w : world K) (o : outcome io_error unit)
    (st : reload_state) (w' : world K) : Prop :=
  reload_safe (A:=unit) gen reg w (Ok tt) st w' ∧
  match o with
  | Ok _ => ∃ txt configs,
      (trace w ++ [Ev (SReadToString path) (ROk txt)]) `prefix_of` trace w' ∧
      toml_from_str txt = ROk configs ∧
      loaded (map_to_list configs) st.1 ∧ st.2 = gen + Z.of_nat (size configs)
  | Err _ => True
  | _ => False
  end.

Lemma wp_load_services path gen reg (w : world K) :
  reg_inv gen reg w → services_map reg = ∅ → 0 ≤ gen ≤ u64_max →
  wp (load_services path) (load_post path gen reg w) (reg, gen) w.
Proof.
  intros Hi Hempty Hg. unfold load_services. wp_step.
  eapply wp_mono; [apply wp_from_config_file|].
  intros o st w1 (-> & [Hw1 _] & Ho). destruct o as [configs|e| | |]; simpl; try done; last first.
  { split; [|done]. split; [by apply safe_world|simpl; lia]. }
  destruct Ho as (Hwf & txt & Htxt & Htr). wp_step. apply wp_in_order.
  intros entries w2 Hp [Hw2 _] _. wp_step.
  assert (Hnd : NoDup entries.*1) by (rewrite Hp; apply NoDup_fst_map_to_list).
  eapply (wp_for_each (λ visited _ st w', load_inv reg gen w1 visited st w')).
  - split_and!; [|split; simpl; [by rewrite Hempty|set_solver]|simpl; lia].
    split; [|simpl; lia]. apply safe_world; [by eapply reg_inv_world|done|done].
  - intros visited [n cfg] rest [reg1 gen1] w3 -> Hinv.
    rewrite fmap_app in Hnd. apply NoDup_app_cons_notin in Hnd as [Hnv _].
    eapply wp_mono; [eapply wp_load_service; [exact Hinv|lia| |exact Hnv]|].
    + assert (Hn : configs !! n = Some cfg).
      { apply elem_of_map_to_list. rewrite <- Hp. set_solver. }
      by apply (Hwf n).
    + intros o st' w' Ho. destruct o as [[]|e| | |]; [done| |done..].
      split; [by eapply reload_safe_base|done].
  - intros st w' (Hs & [Hl1 Hl2] & Hgen). split; [by eapply reload_safe_base|].
    exists txt, configs. split; [rewrite <- Htr; apply Hs|]. split; [done|]. split; [split|].
    + intros k svc Hk. rewrite <- Hp. by apply Hl1 in Hk.
    + intros n cfg Hin. rewrite <- Hp in Hin. by apply Hl2.
    + unfold service_config_data in *. by rewrite Hgen, Hp, length_map_to_list.
Qed.
End load.


(** * Properties *)

Section properties.
Context {K : Type} `{!Platform K} `{!PlatformLaws K}.

(** C26.  The initial load, on an empty registry: when it succeeds the
    registry has exactly one service for each name of the configuration
    file, with that configuration, its command line built, never started
    and without pending action; as many ids were handed out as there are
    names, and no two services share one.  It may fail but not panic, and
    it keeps the registry's invariant even then. *)
Theorem load_services_spec path gen reg (w : world K) :
  reg_inv gen reg w → services_map reg = ∅ → 0 ≤ gen ≤ u64_max →
  wp (load_services path) (λ o st w',
    reg_inv st.2 st.1 w' ∧ gen ≤ st.2 ≤ u64_max ∧
    match o with
    | Ok _ => ∃ txt configs,
        (trace w ++ [Ev (SReadToString path) (ROk txt)]) `prefix_of` trace w' ∧
        toml_from_str txt = ROk configs ∧
        st.2 = gen + Z.of_nat (size configs) ∧
        (∀ k svc, services_map st.1 !! k = Some svc →
           configs !! s_name svc = Some (s_config svc) ∧ registered svc) ∧
        (∀ n cfg, configs !! n = Some cfg → ∃ k svc,
           services_map st.1 !! k = Some svc ∧ s_name svc = n ∧ s_config svc = cfg)
    | Err _ => True
    | _ => False
    end) (reg, gen) w.
Proof.
  intros Hi He Hg. eapply wp_mono; [by apply wp_load_services|].
  intros o st w' [[(Hi' & _) Hg'] Ho]. split_and!; [done|lia|lia|].
  destruct o as [[]|e| | |]; try done.
  destruct Ho as (txt & configs & Htr & Htxt & [Hl1 Hl2] & Hgen). exists txt, configs.
  split_and!; [done|done|done| |].
  - intros k svc Hk. destruct (Hl1 _ _ Hk) as [Hin Hreg]. by apply elem_of_map_to_list in Hin.
  - intros n cfg Hn. apply Hl2. by apply elem_of_map_to_list.
Qed.
End properties.

(** Two services, on the simulated platform. *)
Lemma load_services_spec_witness :
  let w := World (sim_set_config "ab" sim_init) [] 3 in
  (∃ st w', load_services "services.toml" (registry_new, 0) w = (Ok tt, st, w') ∧ st.2 = 2 ∧
     (s_name <$> services_map st.1 !! 1) = Some "b") ∧
  wp (load_services "services.toml") (λ o st _, o = Ok tt →
    ∃ txt configs, toml_from_str txt = ROk configs ∧
      ∀ n cfg, configs !! n = Some cfg → ∃ k svc,
        services_map st.1 !! k = Some svc ∧ s_name svc = n ∧ s_config svc = cfg)
    (registry_new, 0) w.
Proof.
  cbv zeta. split; [eexists _, _; split_and!; vm_compute; reflexivity|].
  eapply wp_mono; [apply (load_services_spec "services.toml" 0 registry_new)|].
  - by apply reg_inv_new.
  - reflexivity.
  - unfold u64_max. lia.
  - intros o st w' (_ & _ & Ho) ->. destruct Ho as (txt & configs & _ & Ht & _ & _ & Hall).
    by exists txt, configs.
Defined.
