(* ===== verification/Exits.v ===== *)
(** How a process ends inside the program: a computation is left for good
    only by a child that was just forked, and that child made the calls of
    its plan, or because a log message could not be printed.  [main] adds the
    exit codes of the supervisor itself. *)
From S2P Require Import Prelude Utils Bytes Data Text Platform Monad Sim Logging Cli.
From S2P Require Import Signalfd Control Service Registry Handlers Reload Status.
From S2P Require Import Supervisor Startup.
Local Open Scope Z_scope.
Local Open Scope svlopp_scope.

(** * The end of a forked child *)

(** The process is a child: the last fork returned 0 in it, and it ended as
    [p] after the calls [child_exec] makes for some service, under the
    signal mask [sigset]. *)
Definition ended_as_child {K} (sigset : Z) (p : process_end) (w : world K) : Prop :=
  ∃ parent e since svc devnull_fd log_fd,
    trace w = parent ++ Ev SFork (0, e) :: since ∧
    child_end svc sigset devnull_fd log_fd p since.

(** How [run] is left otherwise than by returning: in a forked child, or
    because a log message could not be printed. *)
Definition left_early {K} (sigset : Z) (p : process_end) (w : world K) : Prop :=
  ended_as_child sigset p w ∨ stderr_lost p w.

Section leaves.
Context {K : Type} `{!Platform K}.
Abbreviation M := (@M K).
Context (P : process_end → world K → Prop).

(** [m] only extends the trace, and ends the process only as [P] says. *)
Definition leaves_only {S E A} (m : M S E A) : Prop :=
  ∀ s w, let '(o, _, w') := m s w in
    trace w `prefix_of` trace w' ∧
    match o with Gone p => P p w' | _ => True end.

Lemma leaves_ret {S E A} (a : A) : leaves_only (ret a : M S E A).
Proof. by split. Qed.
Lemma leaves_throw {S E A} (e : E) : leaves_only (throw e : M S E A).
Proof. by split. Qed.
Lemma leaves_panic {S E A} msg : leaves_only (panic msg : M S E A).
Proof. by split. Qed.
Lemma leaves_out_of_fuel {S E A} : leaves_only (out_of_fuel : M S E A).
Proof. by split. Qed.
Lemma leaves_get {S E} : leaves_only (get : M S E S).
Proof. by split. Qed.
Lemma leaves_modify {S E} f : leaves_only (modify f : M S E unit).
Proof. by split. Qed.
Lemma leaves_lift {S E A} (r : result E A) : leaves_only (lift r : M S E A).
Proof. by destruct r. Qed.
Lemma leaves_expect {S E A} (o : option A) msg : leaves_only (expect o msg : M S E A).
Proof. by destruct o. Qed.
Lemma leaves_sys {S E A} (op : sysop A) : leaves_only (sys op : M S E A).
Proof.
  intros s w. unfold sys. destruct (handle op (kst w)). split; [by apply prefix_app_r|done].
Qed.
Lemma leaves_in_order {S E A} (l : list A) : leaves_only (in_order l : M S E (list A)).
Proof. intros s w. unfold in_order. by destruct (order l (kst w)). Qed.

Lemma leaves_bind {S E A B} (m : M S E A) (k : A → M S E B) :
  leaves_only m → (∀ a, leaves_only (k a)) → leaves_only (bind m k).
Proof.
  intros Hm Hk s w. specialize (Hm s w). unfold bind.
  destruct (m s w) as [[[a|e| | |p] s'] w']; try done.
  destruct Hm as [Htr _]. specialize (Hk a s' w'). destruct (k a s' w') as [[o s2] w2].
  split; [by etrans; [|apply Hk]|apply Hk].
Qed.

Lemma leaves_catch {S E F A} (m : M S E A) :
  leaves_only m → leaves_only (catch m : M S F (result E A)).
Proof.
  intros Hm s w. specialize (Hm s w). unfold catch. by destruct (m s w) as [[[] ?] ?].
Qed.
Lemma leaves_zoom {S T E A} (g : S → T) (p : T → S → S) (m : M T E A) :
  leaves_only m → leaves_only (zoom g p m).
Proof.
  intros Hm s w. specialize (Hm (g s) w). unfold zoom. by destruct (m (g s) w) as [[[] ?] ?].
Qed.
Lemma leaves_with_local {S T E A} (t : T) (m : M T E A) :
  leaves_only m → leaves_only (with_local t m : M S E (A * T)).
Proof.
  intros Hm s w. specialize (Hm t w). unfold with_local. by destruct (m t w) as [[[] ?] ?].
Qed.
Lemma leaves_on_service {E A} k (m : M service E A) :
  leaves_only m → leaves_only (on_service k m).
Proof.
  intros Hm reg w. unfold on_service. destruct (service_mut reg k) as [svc|]; [|done].
  specialize (Hm svc w). by destruct (m svc w) as [[[] ?] ?].
Qed.

Lemma leaves_for_each {S E A} (l : list A) (f : A → M S E unit) :
  (∀ x, leaves_only (f x)) → leaves_only (for_each l f).
Proof. intros Hf. induction l; simpl; [apply leaves_ret|]. by apply leaves_bind. Qed.
Lemma leaves_for_break {S E A} (l : list A) (f : A → M S E flow) :
  (∀ x, leaves_only (f x)) → leaves_only (for_break l f).
Proof.
  intros Hf. induction l; simpl; [apply leaves_ret|]. apply leaves_bind; [done|].
  intros [|]; [done|apply leaves_ret].
Qed.
End leaves.

(** [m] ends the process only in a forked child, or for want of a stderr. *)
Notation leaves_as_child sigset := (leaves_only (left_early sigset)).

#[export] Hint Resolve leaves_ret leaves_throw leaves_panic leaves_out_of_fuel leaves_get
  leaves_modify leaves_lift leaves_expect leaves_sys leaves_in_order : svlopp.

(** Follow the structure of a computation. *)
Ltac leaves :=
  repeat first
    [ solve [auto with svlopp]
    | apply leaves_bind; [|intros ?]
    | apply leaves_catch | apply leaves_zoom | apply leaves_with_local
    | apply leaves_on_service
    | apply leaves_for_each; intros ? | apply leaves_for_break; intros ?
    | match goal with |- leaves_only _ (match ?x with _ => _ end) => destruct x end ].

(** * The program leaves only in its children *)

Section program.
Context {K : Type} `{!Platform K}.
Abbreviation M := (@M K).
Implicit Types sigset : Z.

Lemma leaves_sys_try sigset {S A} (op : sysop (result Z A)) :
  leaves_as_child sigset (sys_try op : M S io_error A).
Proof. unfold sys_try. leaves. Qed.
Lemma leaves_sys_cvt sigset {S} (op : sysop (Z * Z)) :
  leaves_as_child sigset (sys_cvt op : M S io_error Z).
Proof. unfold sys_cvt. leaves. Qed.
Lemma leaves_svlogg sigset {S E} level msg :
  leaves_as_child sigset (svlogg level msg : M S E unit).
Proof.
  intros s w. pose proof (svlogg_cases (E:=E) level msg s w) as Hlog.
  assert (Htr : leaves_only (λ _ _, True) (svlogg level msg : M S E unit)).
  { unfold svlogg, log_inner, timestamp, eprintln. leaves; by split. }
  specialize (Htr s w). destruct (svlogg level msg s w) as [[o s'] w'].
  destruct Htr as [Htr _], Hlog as (_ & _ & Ho). split; [done|].
  destruct o as [| | | |p]; try done. right. apply Ho.
Qed.
#[local] Hint Resolve leaves_sys_try leaves_sys_cvt leaves_svlogg : svlopp.

(** The only place where it does. *)
Lemma leaves_fork_service sigset devnull_fd log_fd :
  leaves_as_child sigset (fork_service sigset devnull_fd log_fd : M service io_error unit).
Proof.
  intros svc w. pose proof (leaves_sys (E:=io_error) (left_early sigset) SFork svc w) as Hsys.
  unfold fork_service, bind at 1. unfold sys in *.
  destruct (handle SFork (kst w)) as [[raw e] k].
  case_bool_decide as Hraw; [|by case_bool_decide]. subst raw.
  destruct (child_exec_ends (E:=io_error) (A:=unit) svc sigset devnull_fd log_fd
    (extend w k (Ev SFork (0, e)))) as (p & w' & since & Heq & Htr & Hend).
  simpl in Htr. rewrite <- app_assoc in Htr. rewrite Heq, Htr.
  split; [by apply prefix_app_r|]. left. by exists (trace w), e, since, svc, devnull_fd, log_fd.
Qed.
#[local] Hint Resolve leaves_fork_service : svlopp.

Lemma leaves_start_service sigset : leaves_as_child sigset (start_service sigset).
Proof. unfold start_service. leaves. Qed.
Lemma leaves_running_pid sigset {E} : leaves_as_child sigset (running_pid : M service E Z).
Proof. unfold running_pid. leaves. Qed.
Lemma leaves_stop_service sigset : leaves_as_child sigset stop_service.
Proof. unfold stop_service. leaves. Qed.
#[local] Hint Resolve leaves_start_service leaves_running_pid leaves_stop_service : svlopp.

Lemma leaves_build_svc_envp sigset {S} cfg :
  leaves_as_child sigset (build_svc_envp cfg : M S io_error (option (list string))).
Proof. unfold build_svc_envp. leaves. Qed.
#[local] Hint Resolve leaves_build_svc_envp : svlopp.
Lemma leaves_service_new sigset {S} id name cfg :
  leaves_as_child sigset (service_new id name cfg : M S io_error service).
Proof. unfold service_new. leaves. Qed.
Lemma leaves_update_config sigset cfg : leaves_as_child sigset (update_config cfg).
Proof. unfold update_config. leaves. Qed.
#[local] Hint Resolve leaves_service_new leaves_update_config : svlopp.

(** ** The handlers *)

Lemma leaves_start_borrowed sigset k : leaves_as_child sigset (start_borrowed k sigset).
Proof. unfold start_borrowed. leaves. Qed.
Lemma leaves_try_start sigset {E} ok_text err_text k :
  leaves_as_child sigset (try_start ok_text err_text k sigset : M _ E unit).
Proof. unfold try_start. leaves. Qed.
Lemma leaves_service_keys sigset {E} : leaves_as_child sigset (service_keys : M _ E (list Z)).
Proof. unfold service_keys. leaves. Qed.
#[local] Hint Resolve leaves_start_borrowed leaves_try_start leaves_service_keys : svlopp.

Lemma leaves_apply_control_op sigset k op :
  leaves_as_child sigset (apply_control_op k op sigset).
Proof. unfold apply_control_op, start_requested. leaves. Qed.
Lemma leaves_handle_sigchld sigset bound : leaves_as_child sigset (handle_sigchld bound).
Proof.
  induction bound as [|bound IH]; simpl; [leaves|].
  unfold handle_status, from_wait_status, reap_service. leaves.
Qed.
Lemma leaves_start_all sigset {E} : leaves_as_child sigset (start_all sigset : M _ E unit).
Proof. unfold start_all. leaves. Qed.
Lemma leaves_stop_all sigset {E} : leaves_as_child sigset (stop_all : M _ E unit).
Proof. unfold stop_all, stop_entry. leaves. Qed.
Lemma leaves_handle_tick sigset {E} now :
  leaves_as_child sigset (handle_tick now sigset : M _ E unit).
Proof. unfold handle_tick, tick_entry, tick_service, force_kill_service_process. leaves. Qed.
#[local] Hint Resolve leaves_apply_control_op leaves_handle_sigchld leaves_start_all
  leaves_stop_all leaves_handle_tick : svlopp.

Lemma leaves_load_services sigset path : leaves_as_child sigset (load_services path).
Proof. unfold load_services, from_config_file, load_service, next_id, on_registry. leaves. Qed.
Lemma leaves_drop_service sigset configs name k :
  leaves_as_child sigset (drop_service configs name k).
Proof. unfold drop_service. leaves. Qed.
Lemma leaves_apply_config sigset ids name cfg :
  leaves_as_child sigset (apply_config ids sigset name cfg).
Proof.
  unfold apply_config, add_service, change_service, restart_changed, next_id, on_registry. leaves.
Qed.
#[local] Hint Resolve leaves_load_services leaves_drop_service leaves_apply_config : svlopp.
Lemma leaves_reload_services sigset path :
  leaves_as_child sigset (reload_services path sigset).
Proof.
  unfold reload_services, from_config_file, reconcile, service_ids, on_registry. leaves.
Qed.
#[local] Hint Resolve leaves_reload_services : svlopp.

Lemma leaves_write_all sigset {S} bound fd buf :
  leaves_as_child sigset (write_all bound fd buf : M S io_error unit).
Proof.
  revert buf. induction bound as [|bound IH]; intros buf; destruct buf; simpl; leaves.
Qed.
#[local] Hint Resolve leaves_write_all : svlopp.
Lemma leaves_flush sigset {E} bound path :
  leaves_as_child sigset (flush_status_file bound path : M _ E unit).
Proof. unfold flush_status_file, format_status, write_status_file. leaves. Qed.
#[local] Hint Resolve leaves_flush : svlopp.

(** ** The loop and the setup *)

Lemma leaves_handle_event bound res data :
  leaves_as_child (original_sigset res) (handle_event bound res data).
Proof.
  unfold handle_event, handle_sfd, handle_tfd, handle_pfd, handle_signal, handle_hup,
    handle_chld, handle_term, break_outer, on_sv_registry, on_sv_services, read_signalfd_batch,
    read_timerfd, read_control_command. leaves.
Qed.
#[local] Hint Resolve leaves_handle_event : svlopp.

Lemma leaves_run_loop fuel bound res :
  leaves_as_child (original_sigset res) (run_loop fuel bound res).
Proof. induction fuel; simpl; leaves. Qed.
#[local] Hint Resolve leaves_run_loop : svlopp.

(** The setup is not left at all. *)
Lemma leaves_setup {S} args :
  leaves_only (λ _ _, False) (setup args : M S io_error resources).
Proof.
  unfold setup, sigset_current, sigset_empty, sigset_add, block_thread_signals,
    create_control_fifo, signalfd, create_timerfd_1s_periodic, sys_try, sys_cvt. leaves.
Qed.
(** ** The whole of [run] *)

Context `{!PlatformLaws K}.

(** [run]: nothing was forked when its setup failed; otherwise its trace
    starts with the setup, and it is left only by children, under the signal
    mask that the setup found, or when stderr is lost. *)
Lemma run_leaves fuel bound args (w : world K) :
  let '(o, _, w') := run fuel bound args supervisor_new w in
  (∃ e, o = Err e ∧ world_calm w w') ∨
  ∃ res evs rest, trace w' = trace w ++ evs ++ rest ∧ setup_events args res evs ∧
    match o with Gone p => left_early (original_sigset res) p w' | _ => True end.
Proof.
  pose proof (setup_records args supervisor_new w) as Hset.
  pose proof (quietly_setup (K:=K) true args supervisor_new w) as Hquiet.
  pose proof (leaves_setup args supervisor_new w) as Hleave.
  unfold wp in Hquiet. unfold run, bind at 1.
  destruct (setup args supervisor_new w) as [[o s1] w1].
  destruct o as [res|e| | |p]; try (by destruct Hquiet as (_ & _ & [])).
  - destruct (Hset res eq_refl) as (evs & Htr & _ & Hevs).
    match goal with |- context [?m s1 w1] =>
      assert (Hrest : leaves_as_child (original_sigset res) m) by
        (unfold on_sv_services, on_sv_registry; leaves) end.
    specialize (Hrest s1 w1).
    match goal with |- context [?m s1 w1] => destruct (m s1 w1) as [[o s2] w2] end.
    destruct Hrest as [[rest Hrest] Ho]. right. exists res, evs, rest.
    by rewrite Hrest, Htr, <- app_assoc.
  - left. exists e. by destruct Hquiet as (_ & ? & _).
  - by destruct Hleave.
Qed.
End program.
