(* ===== verification/Deadlines.v ===== *)
(** Kill deadlines over the whole life of the supervisor: a SIGKILL is sent
    to a process only after its stop signal, and only once the stop timeout
    of its service has passed; a process group is killed only right after
    [wait] reported that the child whose group it is has ended.  The invariant says of every service where
    its configuration was read and, while it is stopping, where in the trace
    its deadline comes from. *)
From S2P Require Import Prelude Utils Bytes Data Text Platform Monad Sim Logging Cli.
From S2P Require Import Signalfd Control Service Registry Ledger Handlers Reload Status.
From S2P Require Import Supervisor Startup.
Local Open Scope Z_scope.
Local Open Scope svlopp_scope.

(** * What the trace says *)

Definition fork_of (ev : event) : option Z :=
  match ev with
  | Ev op r =>
      match op in sysop A return A → option Z with
      | SFork => λ r, if bool_decide (0 < r.1) then Some r.1 else None
      | _ => λ _, None
      end r
  end.

Definition sigkill_of (ev : event) : option Z :=
  match ev with
  | Ev op _ =>
      match op with
      | SKill p sig => if bool_decide (sig = SIGKILL) then Some p else None
      | _ => None
      end
  end.

Definition group_signal_of (ev : event) : option (Z * Z) :=
  match ev with
  | Ev op _ => match op with SKillPg p sig => Some (p, sig) | _ => None end
  end.

(** No process was forked under the pid [p]. *)
Definition unforked (p : Z) (evs : list event) : Prop :=
  Forall (λ ev, fork_of ev ≠ Some p) evs.

Section evidence.
Context {K : Type} `{!Platform K}.

(** [cfg] is the configuration of a service in a file that was read. *)
Definition config_read (cfg : service_config) (evs : list event) : Prop :=
  ∃ path txt configs name, Ev (SReadToString path) (ROk txt) ∈ evs ∧
    toml_from_str txt = ROk configs ∧ configs !! name = Some cfg.

(** The stop signal of a configured service was delivered to [p], and the
    clock was read at once: [deadline] is the configured timeout later.  The
    process is still the same one: none was forked under [p] since. *)
Definition stop_sent (p deadline : Z) (evs : list event) : Prop :=
  ∃ cfg before t since,
    evs = before ++ Ev (SKill p (signal_of_stop_signal (cfg_stop_signal cfg))) (ROk tt) ::
                    Ev SNow t :: since ∧
    config_read cfg before ∧ unforked p since ∧
    deadline = t + duration_from_millis (stop_timeout_ms cfg).

(** The clock was seen at or after the deadline of [p]. *)
Definition overdue (p : Z) (evs : list event) : Prop :=
  ∃ deadline now, stop_sent p deadline evs ∧ Ev SNow now ∈ evs ∧ deadline ≤ now.

(** The last call was the [wait] that reported the end of [p], a child of
    the supervisor until then. *)
Definition just_ended (p : Z) (evs : list event) : Prop :=
  ∃ before st, evs = before ++ [Ev SWait (ROk (Some (p, st)))] ∧ ws_final st = true ∧
    unreaped p before.

(** A SIGKILL is for an overdue process; a process group gets no other
    signal, and only when its leader just ended. *)
Definition justified (ev : event) (before : list event) : Prop :=
  (∀ p, sigkill_of ev = Some p → overdue p before) ∧
  ∀ p sig, group_signal_of ev = Some (p, sig) → sig = SIGKILL ∧ just_ended p before.

(** When [wait] reports the end of a child, the next call kills its process
    group. *)
Definition groups_killed (evs : list event) : Prop :=
  ∀ before p st since, evs = before ++ Ev SWait (ROk (Some (p, st))) :: since →
    ws_final st = true → unreaped p before →
    ∃ r since', since = Ev (SKillPg p SIGKILL) r :: since'.

Definition kills_justified (evs : list event) : Prop :=
  (∀ before ev since, evs = before ++ ev :: since → justified ev before) ∧ groups_killed evs.

Lemma config_read_app cfg evs evs' : config_read cfg evs → config_read cfg (evs ++ evs').
Proof.
  intros (path & txt & configs & name & Hin & H). exists path, txt, configs, name.
  split; [by apply elem_of_app; left|done].
Qed.

Lemma stop_sent_app p d evs evs' :
  unforked p evs' → stop_sent p d evs → stop_sent p d (evs ++ evs').
Proof.
  intros Hu (cfg & before & t & since & -> & Hc & Hs & ->).
  exists cfg, before, t, (since ++ evs'). rewrite <- app_assoc.
  split_and!; [done..|by apply Forall_app|done].
Qed.

Lemma justified_snoc evs ev :
  (∀ before ev since, evs = before ++ ev :: since → justified ev before) → justified ev evs →
  ∀ before ev' since, evs ++ [ev] = before ++ ev' :: since → justified ev' before.
Proof.
  intros Hk Hev before ev' since Heq.
  destruct since as [|x since _] using rev_ind.
  - apply app_inj_tail in Heq as [-> ->]. exact Hev.
  - rewrite app_comm_cons, app_assoc in Heq. apply app_inj_tail in Heq as [-> _].
    by eapply Hk.
Qed.

Lemma wait_event_inj x y :
  Ev SWait (ROk (Some x)) = Ev SWait (ROk (Some y)) → x = y.
Proof. intros Heq. apply (f_equal wait_of) in Heq. by injection Heq. Qed.

(** An event that reports the end of no child. *)
Definition no_end (ev : event) (before : list event) : Prop :=
  ∀ p st, wait_of ev = Some (p, st) → ws_final st = true → ¬ unreaped p before.

Lemma kills_justified_snoc evs ev :
  kills_justified evs → justified ev evs → no_end ev evs → kills_justified (evs ++ [ev]).
Proof.
  intros [Hk Hg] Hev Hno. split; [by apply justified_snoc|]. intros before p st since Heq Hst Hp.
  destruct since as [|x since _] using rev_ind.
  - apply app_inj_tail in Heq as [-> ->]. by destruct (Hno p st).
  - rewrite app_comm_cons, app_assoc in Heq. apply app_inj_tail in Heq as [-> ->].
    destruct (Hg _ _ _ _ eq_refl Hst Hp) as (r & since' & ->). by exists r, (since' ++ [x]).
Qed.

(** The two calls that reap a child. *)
Lemma kills_justified_reap evs p st r :
  kills_justified evs → ws_final st = true → unreaped p evs →
  kills_justified ((evs ++ [Ev SWait (ROk (Some (p, st)))]) ++ [Ev (SKillPg p SIGKILL) r]).
Proof.
  intros [Hk Hg] Hst Hp. split.
  { apply justified_snoc; [apply justified_snoc; [done|by split]|].
    split; [done|]. intros q sig [= <- <-]. split; [done|]. by exists evs, st. }
  intros before q st' since Heq Hst' Hq.
  destruct since as [|x since _] using rev_ind; [by apply app_inj_tail in Heq as [_ ?]|].
  rewrite app_comm_cons, app_assoc in Heq. apply app_inj_tail in Heq as [Heq <-].
  destruct since as [|y since _] using rev_ind.
  - apply app_inj_tail in Heq as [-> [= -> ->]%wait_event_inj]. by eexists _, _.
  - rewrite app_comm_cons, app_assoc in Heq. apply app_inj_tail in Heq as [-> _].
    destruct (Hg _ _ _ _ eq_refl Hst' Hq) as (r' & since' & ->). by eexists _, _.
Qed.

(** Neither a fork nor a [wait] nor a SIGKILL, of a process or of a group. *)
Definition plain (ev : event) : Prop :=
  fork_of ev = None ∧ wait_of ev = None ∧ sigkill_of ev = None ∧ group_signal_of ev = None.

Lemma plain_justified ev evs : plain ev → justified ev evs.
Proof. intros (_ & _ & Hs & Hg). split; [by rewrite Hs|by rewrite Hg]. Qed.
Lemma plain_no_end ev evs : plain ev → no_end ev evs.
Proof. intros (_ & Hw & _) p st. by rewrite Hw. Qed.

Lemma plain_unforked p evs : Forall plain evs → unforked p evs.
Proof. intros Hp. eapply Forall_impl; [exact Hp|]. by intros ev [-> _]. Qed.

Lemma kills_justified_plain evs evs' :
  kills_justified evs → Forall plain evs' → kills_justified (evs ++ evs').
Proof.
  intros Hk. induction evs' as [|ev evs' IH] using rev_ind; [by rewrite app_nil_r|].
  intros [Hp [Hev _]%Forall_cons]%Forall_app. rewrite app_assoc.
  apply kills_justified_snoc; [by apply IH|exact (plain_justified _ _ Hev)|exact (plain_no_end _ _ Hev)].
Qed.

Context `{!PlatformLaws K}.

(** Worlds in order: no child disappears, no pid of a child is given to a
    new process, and every kill is justified. *)
Definition later (w w' : world K) : Prop :=
  children (kst w) ⊆ children (kst w') ∧
  (∃ evs, trace w' = trace w ++ evs ∧ ∀ p, p ∈ children (kst w) → unforked p evs) ∧
  (kills_justified (trace w) → kills_justified (trace w')).

#[global] Instance later_preorder : PreOrder later.
Proof.
  split.
  - intros w. split_and!; [done| |done]. exists []. rewrite app_nil_r. split; [done|].
    intros p _. by apply Forall_nil.
  - intros w1 w2 w3 (Hc & (evs & Ht & Hu) & Hk) (Hc' & (evs' & Ht' & Hu') & Hk').
    split_and!; [set_solver| |auto]. exists (evs ++ evs'). rewrite Ht', Ht, app_assoc.
    split; [done|]. intros p Hp. apply Forall_app. split; [by apply Hu|]. by apply Hu', Hc.
Qed.

(** Log messages. *)
Lemma later_logged w w' : logged w w' → later w w'.
Proof.
  intros (Hc & _ & evs & Htr & Hevs).
  assert (Hplain : Forall plain evs).
  { eapply Forall_impl; [exact Hevs|]. intros [A op r] Hop. by destruct op. }
  split_and!; [done| |rewrite Htr; intros Hk; by apply kills_justified_plain].
  exists evs. split; [done|]. intros p _. by apply plain_unforked.
Qed.

(** A call that is neither a fork nor a wait, whose kill, if it is one, is justified. *)
Lemma later_sys {A} (op : sysop A) (w : world K) r k :
  quiet op = true → justified (Ev op r) (trace w) →
  handle op (kst w) = (r, k) → later w (extend w k (Ev op r)).
Proof.
  intros Hq Hs Hk. split_and!; simpl.
  - pose proof (quiet_children op (kst w) Hq) as Hc. by rewrite Hk in Hc.
  - exists [Ev op r]. split; [done|]. intros p _. apply Forall_singleton. by destruct op.
  - intros Hko. apply kills_justified_snoc; [done..|]. intros p st. by destruct op.
Qed.

Lemma later_now (w : world K) t k :
  handle SNow (kst w) = (t, k) → later w (extend w k (Ev SNow t)).
Proof. intros Hk. apply later_sys; [done|by apply plain_justified|done]. Qed.

Lemma later_fork (w : world K) p e k :
  handle SFork (kst w) = ((p, e), k) → later w (extend w k (Ev SFork (p, e))).
Proof.
  intros Hk. split_and!; simpl.
  - destruct (decide (0 < p)).
    + destruct (fork_fresh _ _ _ _ Hk) as [_ Hc]; [done|]. set_solver.
    + eapply fork_failed; [done|lia].
  - exists [Ev SFork (p, e)]. split; [done|]. intros q Hq. apply Forall_singleton. simpl.
    case_bool_decide; [|done]. intros [= ->]. by destruct (fork_fresh _ _ _ _ Hk).
  - intros Hko. apply kills_justified_snoc; [done|by split|done].
Qed.

(** Calls and orders of the quiet kind, as the other files have them. *)
Lemma later_order {A} (l l' : list A) (w : world K) k :
  order l (kst w) = (l', k) → later w (World k (trace w) (log_max w)).
Proof.
  intros Hk. pose proof (order_children l (kst w)) as Hc. rewrite Hk in Hc.
  split_and!; [done| |done]. exists []. rewrite app_nil_r. split; [done|].
  intros p _. by apply Forall_nil.
Qed.

(** What the trace must say of a service. *)
Definition evidence (svc : service) (w : world K) : Prop :=
  config_read (s_config svc) (trace w) ∧
  (∀ p, pid svc = Some p → p ∈ children (kst w)) ∧
  ∀ p d, s_state svc = Stopping p d → stop_sent p d (trace w).

Lemma evidence_later svc w w' : later w w' → evidence svc w → evidence svc w'.
Proof.
  intros (Hc & (evs & Ht & Hu) & _) (Hcfg & Hpid & Hst). split_and!.
  - rewrite Ht. by apply config_read_app.
  - intros p Hp. by apply Hc, Hpid.
  - intros p d Hs. rewrite Ht. apply stop_sent_app; [|by apply Hst].
    apply Hu, Hpid. unfold pid. by rewrite Hs.
Qed.
End evidence.

(** * Computations that keep an invariant

    [keeps F I m]: from a world where the stable fact [F] holds, [m] keeps
    the invariant [I] of its state however it ends, and moves to a later
    world. *)

Section keeps.
Context {K : Type} `{!Platform K} `{!PlatformLaws K}.
Abbreviation M := (@M K).

Class Stable (F : world K → Prop) : Prop :=
  stable w w' : later w w' → F w → F w'.

Definition keeps {S E A} (F : world K → Prop) (I : S → world K → Prop) (m : M S E A) : Prop :=
  ∀ s w, F w → I s w → wp m (λ _ s' w', I s' w' ∧ later w w') s w.

#[global] Instance stable_true : Stable (λ _, True).
Proof. done. Qed.
#[global] Instance stable_read cfg : Stable (λ w, config_read cfg (trace w)).
Proof. intros w w' (_ & (evs & -> & _) & _). apply config_read_app. Qed.
#[global] Instance stable_seen ev : Stable (λ w, ev ∈ trace w).
Proof. intros w w' (_ & (evs & -> & _) & _) Hin. apply elem_of_app. by left. Qed.
#[global] Instance stable_and F G : Stable F → Stable G → Stable (λ w, F w ∧ G w).
Proof. intros HF HG w w' Hw [HFw HGw]. split; [by eapply HF|by eapply HG]. Qed.
#[global] Instance stable_evidence svc : Stable (evidence svc).
Proof. intros w w'. apply evidence_later. Qed.
#[global] Instance stable_all {A} `{Countable B} (P : B → A → world K → Prop) (m : gmap B A) :
  (∀ k x, Stable (P k x)) → Stable (λ w, map_Forall (λ k x, P k x w) m).
Proof. intros HP w w' Hw Hm k x Hk. eapply HP; [done|by apply Hm]. Qed.

Context (F : world K → Prop) `{HF : !Stable F}.

Section rules.
Context {S : Type} (I : S → world K → Prop) `{HI : !∀ s, Stable (I s)}.

Lemma keeps_ret {E A} (a : A) : keeps F I (ret a : M S E A).
Proof. intros s w _ Hi. by apply wp_ret. Qed.
Lemma keeps_throw {E A} (e : E) : keeps F I (throw e : M S E A).
Proof. intros s w _ Hi. by apply wp_throw. Qed.
Lemma keeps_panic {E A} msg : keeps F I (panic msg : M S E A).
Proof. intros s w _ Hi. by apply wp_panic. Qed.
Lemma keeps_fuel {E A} : keeps F I (out_of_fuel : M S E A).
Proof. intros s w _ Hi. by split. Qed.
Lemma keeps_get {E} : keeps F I (get : M S E S).
Proof. intros s w _ Hi. by apply wp_get. Qed.
Lemma keeps_modify {E} f :
  (∀ s w, F w → I s w → I (f s) w) → keeps F I (modify f : M S E unit).
Proof. intros Hf s w HFw Hi. apply wp_modify. split; [by apply Hf|done]. Qed.
Lemma keeps_lift {E A} (r : result E A) : keeps F I (lift r : M S E A).
Proof. intros s w _ Hi. by apply wp_lift. Qed.
Lemma keeps_expect {E A} (o : option A) msg : keeps F I (expect o msg : M S E A).
Proof. destruct o; [apply keeps_ret|apply keeps_panic]. Qed.
Lemma keeps_in_order {E A} (l : list A) : keeps F I (in_order l : M S E (list A)).
Proof.
  intros s w _ Hi. unfold wp, in_order. destruct (order l (kst w)) as [l' k] eqn:Hk.
  assert (Hw := later_order _ _ _ _ Hk). split; [by eapply HI|done].
Qed.

Lemma keeps_sys {E A} (op : sysop A) : calm op = true → keeps F I (sys op : M S E A).
Proof.
  intros [Hq Hn]%andb_true_iff s w _ Hi. apply wp_sys. intros r k Hk.
  assert (Hw : later w (extend w k (Ev op r))).
  { apply later_sys; [done| |done]. apply plain_justified. by destruct op. }
  split; [by eapply HI|done].
Qed.

Lemma keeps_svlogg {E} level msg : keeps F I (svlogg level msg : M S E unit).
Proof.
  intros s w _ Hi. apply wp_svlogg. intros w' Hw%says_logged%later_logged.
  split; [by eapply HI|done].
Qed.

Lemma keeps_bind {E A B} (m : M S E A) (k : A → M S E B) :
  keeps F I m → (∀ a, keeps F I (k a)) → keeps F I (bind m k).
Proof.
  intros Hm Hk s w HFw Hi. apply wp_bind. eapply wp_mono; [by apply Hm|].
  intros o s1 w1 [Hi1 Hw1]. destruct o as [a|e| | |]; simpl; try done.
  eapply wp_mono; [apply Hk; [by eapply HF|done]|].
  intros o s2 w2 [Hi2 Hw2]. split; [done|by etrans].
Qed.

Lemma keeps_catch {E F' A} (m : M S E A) :
  keeps F I m → keeps F I (catch m : M S F' (result E A)).
Proof.
  intros Hm s w HFw Hi. apply wp_catch. eapply wp_mono; [by apply Hm|].
  intros o s1 w1 H1. by destruct o.
Qed.

Lemma keeps_sys_try {A} (op : sysop (result Z A)) :
  calm op = true → keeps F I (sys_try op : M S io_error A).
Proof. intros Hc. apply keeps_bind; [by apply keeps_sys|]. intros r. apply keeps_lift. Qed.

Lemma keeps_for_each {E A} (l : list A) (f : A → M S E unit) :
  (∀ x, x ∈ l → keeps F I (f x)) → keeps F I (for_each l f).
Proof.
  induction l as [|x l IH]; intros Hf; simpl; [apply keeps_ret|].
  apply keeps_bind; [apply Hf; by left|]. intros _. apply IH. intros y Hy. apply Hf. by right.
Qed.

(** On a component that has an invariant of its own. *)
Lemma keeps_zoom {T E A} (J : T → world K → Prop) (g : S → T) (p : T → S → S) (m : M T E A) :
  (∀ s w, I s w → J (g s) w) →
  (∀ s t w w', I s w → later w w' → J t w' → I (p t s) w') →
  keeps F J m → keeps F I (zoom g p m).
Proof.
  intros Hg Hp Hm s w HFw Hi. apply wp_zoom. eapply wp_mono; [apply Hm; [done|by apply Hg]|].
  intros o t w' [Hj Hw]. split; [by eapply Hp|done].
Qed.

(** A local variable that nothing is asked of. *)
Lemma keeps_with_local {T E A} (t : T) (m : M T E A) :
  keeps F (λ _ _, True) m → keeps F I (with_local t m : M S E (A * T)).
Proof.
  intros Hm s w HFw Hi. apply wp_with_local. eapply wp_mono; [by apply Hm|].
  intros o t' w' [_ Hw]. destruct o; try done; (split; [by eapply HI|done]).
Qed.

(** A fact that holds here may be used in what follows. *)
Lemma keeps_fact {E A} (G : world K → Prop) (m : M S E A) :
  (∀ w, F w → G w) → keeps G I m → keeps F I m.
Proof. intros HG Hm s w HFw. by apply Hm, HG. Qed.
End rules.
End keeps.

#[export] Hint Resolve keeps_ret keeps_throw keeps_panic keeps_fuel keeps_get keeps_lift
  keeps_expect keeps_in_order keeps_sys keeps_sys_try keeps_svlogg : svlopp.

(** Follow the structure of a computation. *)
Ltac keeping :=
  repeat first
    [ solve [eauto with svlopp typeclass_instances]
    | match goal with
      | |- keeps _ _ (bind _ _) => apply keeps_bind; [apply _..| |intros ?]
      | |- keeps _ _ (catch _) => apply keeps_catch; [apply _..|]
      | |- keeps _ _ (with_local _ _) => apply keeps_with_local; [apply _..|]
      | |- keeps _ (λ _ _, True) (modify _) => apply keeps_modify; done
      | |- keeps _ _ (match ?x with _ => _ end) => destruct x
      end ].

(** * One service *)

Section service.
Context {K : Type} `{!Platform K} `{!PlatformLaws K}.
Abbreviation M := (@M K).
Context (F : world K → Prop) `{HF : !Stable F}.

Lemma keeps_fork_service sigset devnull_fd log_fd :
  keeps F evidence (fork_service sigset devnull_fd log_fd : M service io_error unit).
Proof.
  intros svc w HFw Hi. unfold fork_service. wp_step. apply wp_sys. intros [raw e] k Hk.
  pose proof (later_fork _ _ _ _ Hk) as Hw. pose proof (evidence_later _ _ _ Hw Hi) as Hi'.
  wp_step. case_bool_decide; [apply wp_child_exec|]. case_bool_decide as Hpos; wp_step; [|done].
  split; [|done]. destruct Hi' as (Hcfg & _ & _). split_and!; [done| |done].
  intros p [= <-]. destruct (fork_fresh _ _ _ _ Hk) as [_ Hc]; [lia|]. simpl. set_solver.
Qed.

Lemma keeps_start_service sigset : keeps F evidence (start_service sigset : M _ _ unit).
Proof. unfold start_service. keeping. apply keeps_fork_service. Qed.

Lemma keeps_running_pid {E} : keeps F evidence (running_pid : M service E Z).
Proof. unfold running_pid. keeping. Qed.

Lemma stop_signal_not_kill svc p : sigkill_of (Ev (SKill p (stop_signal_of svc)) (ROk tt)) = None.
Proof. unfold stop_signal_of. simpl. by destruct (cfg_stop_signal _). Qed.

(** The deadline of a stopping service comes from the configuration it has
    when it is stopped. *)
Lemma keeps_stop_service : keeps F evidence stop_service.
Proof.
  intros svc w HFw Hi. unfold stop_service. wp_steps.
  destruct (s_state svc) as [r|p|p d] eqn:Hst; try by wp_step. wp_step.
  assert (Hw : ∀ r k, handle (SKill p (stop_signal_of svc)) (kst w) = (r, k) →
    later w (extend w k (Ev (SKill p (stop_signal_of svc)) r))).
  { intros r k Hk. apply later_sys; [done| |done]. split; [|done]. intros q.
    pose proof (stop_signal_not_kill svc p) as Hn. simpl in *. by rewrite Hn. }
  apply wp_sys_try; intros x k Hk; specialize (Hw _ _ Hk);
    [|split; [by eapply evidence_later|done]].
  destruct x. simpl. wp_steps. apply wp_sys. intros t k' Hk'.
  assert (Hw' := later_now _ _ _ Hk').
  assert (Hw2 := transitivity Hw Hw'). pose proof (evidence_later _ _ _ Hw2 Hi) as Hi2.
  wp_steps. unfold expect, instant_checked_add.
  case_bool_decide; wp_steps; [|by split].
  split; [|done]. destruct Hi2 as (Hcfg & Hpid & _). split_and!; [done| |].
  - intros q [= <-]. apply Hpid. unfold pid. by rewrite Hst.
  - intros q d [= <- <-]. exists (s_config svc), (trace w), t, []. simpl.
    rewrite <- app_assoc. split_and!; [done|apply Hi|by apply Forall_nil|done].
Qed.

Lemma keeps_build_svc_envp {S} (I : S → world K → Prop) `{!∀ s, Stable (I s)} cfg :
  keeps F I (build_svc_envp cfg : M S io_error (option (list string))).
Proof. unfold build_svc_envp. keeping. Qed.

Lemma keeps_update_config cfg :
  (∀ w, F w → config_read cfg (trace w)) → keeps F evidence (update_config cfg).
Proof.
  intros Hcfg. unfold update_config. keeping; [|apply keeps_build_svc_envp; apply _| |];
    apply keeps_modify; intros svc w HFw (Hc & Hp & Hs); [done..|].
  split_and!; [by apply Hcfg|done|done].
Qed.

Lemma keeps_set_pending {E} a : keeps F evidence (modify (set_pending_action a) : M _ E unit).
Proof. by apply keeps_modify. Qed.
End service.

(** * The registry *)

Section registry.
Context {K : Type} `{!Platform K} `{!PlatformLaws K}.
Abbreviation M := (@M K).

Definition registry_evidence (reg : service_registry) (w : world K) : Prop :=
  map_Forall (λ _ svc, evidence svc w) (services_map reg).

#[global] Instance stable_registry reg : Stable (registry_evidence reg).
Proof. apply stable_all. intros k svc. apply stable_evidence. Qed.

Section stable_fact.
Context (F : world K → Prop) `{HF : !Stable F}.

Lemma keeps_on_service {E A} k (m : M service E A) :
  keeps F evidence m → keeps F registry_evidence (on_service k m).
Proof.
  intros Hm reg w HFw Hi. unfold wp, on_service, service_mut.
  destruct (services_map reg !! k) as [svc|] eqn:Hk; [|by split].
  specialize (Hm svc w HFw (Hi k svc Hk)). unfold wp in Hm.
  destruct (m svc w) as [[[] svc'] w']; try done; destruct Hm as [Hev Hw];
    (split; [|done]; apply map_Forall_insert_2; [done|by eapply stable_registry]).
Qed.

Lemma keeps_register_pid {E} p k :
  keeps F registry_evidence (modify (register_pid p k) : M _ E unit).
Proof. by apply keeps_modify. Qed.
Lemma keeps_remove_service {E} k :
  keeps F registry_evidence (modify (remove_service k) : M _ E unit).
Proof. apply keeps_modify. intros reg w _ Hi. by apply map_Forall_delete. Qed.

Lemma keeps_stop k : keeps F registry_evidence (on_service k stop_service).
Proof. by apply keeps_on_service, keeps_stop_service. Qed.
Lemma keeps_on_pending {E} k a :
  keeps F registry_evidence (on_service k (modify (set_pending_action a)) : M _ E unit).
Proof. by apply keeps_on_service, keeps_set_pending. Qed.
Lemma keeps_pending_stop k a :
  keeps F registry_evidence (on_service k (modify (set_pending_action a) ;;! stop_service)).
Proof.
  apply keeps_on_service. keeping; [by apply keeps_set_pending|by apply keeps_stop_service].
Qed.

Lemma keeps_start_borrowed k sigset : keeps F registry_evidence (start_borrowed k sigset).
Proof.
  unfold start_borrowed.
  apply keeps_on_service. keeping; [by apply keeps_start_service|by apply keeps_running_pid].
Qed.
Lemma keeps_start_requested k id sigset name :
  keeps F registry_evidence (start_requested k id sigset name).
Proof.
  unfold start_requested. keeping; [apply keeps_start_borrowed|apply keeps_register_pid].
Qed.

Lemma keeps_get_service {E} k : keeps F registry_evidence (on_service k get : M _ E service).
Proof. apply keeps_on_service. keeping. Qed.

Lemma keeps_try_start {E} ok_text err_text k sigset :
  keeps F registry_evidence (try_start ok_text err_text k sigset : M _ E unit).
Proof.
  unfold try_start. keeping; eauto using keeps_get_service, keeps_register_pid.
  - by apply keeps_on_service, keeps_start_service.
  - by apply keeps_on_service, keeps_running_pid.
Qed.

Lemma keeps_service_keys {E} : keeps F registry_evidence (service_keys : M _ E (list Z)).
Proof. unfold service_keys, services. keeping. Qed.

Lemma keeps_start_all {E} sigset : keeps F registry_evidence (start_all sigset : M _ E unit).
Proof.
  unfold start_all. keeping; [apply keeps_service_keys|].
  apply keeps_for_each; [apply _..|]. intros k _. apply keeps_try_start.
Qed.

Lemma keeps_stop_all {E} : keeps F registry_evidence (stop_all : M _ E unit).
Proof.
  unfold stop_all. keeping; [apply keeps_service_keys|].
  apply keeps_for_each; [apply _..|]. intros k _. unfold stop_entry. keeping; eauto using keeps_stop, keeps_get_service.
Qed.

Lemma keeps_apply_control_op k op sigset :
  keeps F registry_evidence (apply_control_op k op sigset).
Proof.
  unfold apply_control_op.
  keeping; eauto using keeps_stop, keeps_start_requested, keeps_pending_stop.
Qed.
End stable_fact.

(** The SIGKILL of a tick at [now]: the deadline of the service comes from
    its stop signal. *)
Lemma keeps_force_kill {S} (I : S → world K → Prop) `{!∀ s, Stable (I s)} p :
  keeps (λ w, overdue p (trace w)) I (force_kill_service_process p : M S _ unit).
Proof.
  intros s w Hdue Hi. unfold force_kill_service_process. wp_step.
  assert (Hw : ∀ r k, handle (SKill p SIGKILL) (kst w) = (r, k) →
    later w (extend w k (Ev (SKill p SIGKILL) r))).
  { intros r k Hk. apply later_sys; [done| |done]. split; [by intros q [= <-]|done]. }
  apply wp_sys_try; intros x k Hk; specialize (Hw _ _ Hk); wp_steps;
    (split; [by eapply stable|done]).
Qed.

Definition tick_fact (now : Z) (svc : service) (w : world K) : Prop :=
  Ev SNow now ∈ trace w ∧ evidence svc w.
#[global] Instance stable_tick_fact now svc : Stable (tick_fact now svc).
Proof. apply _. Qed.

Lemma keeps_tick_service {E} now sigset k svc :
  keeps (tick_fact now svc) registry_evidence (tick_service now sigset k svc : M _ E bool).
Proof.
  unfold tick_service. destruct (s_state svc) as [r|p|p d] eqn:Hst; [|keeping|].
  - keeping; [|apply keeps_try_start, _].
    apply keeps_on_service, keeps_modify. by intros s w _ Hi.
  - case_bool_decide as Hd; [|keeping]. keeping.
    apply (keeps_fact _ _ (λ w, overdue p (trace w))); [|apply keeps_force_kill, _].
    intros w (Hnow & _ & _ & Hsent). exists d, now. split_and!; [by apply Hsent|done|lia].
Qed.

Lemma keeps_tick_entry {E} now sigset k :
  keeps (λ w, Ev SNow now ∈ trace w) registry_evidence
    (tick_entry now sigset k : M _ E unit).
Proof.
  intros reg w Hnow Hi. unfold tick_entry, service_mut. wp_steps.
  destruct (services_map reg !! k) as [svc|] eqn:Hk; [|by wp_step].
  assert (Hbody : keeps (tick_fact now svc) registry_evidence
    (let! keep := tick_service now sigset k svc in
     if keep then ret tt else modify (remove_service k) : M _ E unit)).
  { keeping; [apply keeps_tick_service|apply keeps_remove_service]. }
  apply Hbody; [split; [done|by eapply Hi]|done].
Qed.

Lemma keeps_handle_tick {E} now sigset :
  keeps (λ w, Ev SNow now ∈ trace w) registry_evidence (handle_tick now sigset : M _ E unit).
Proof.
  unfold handle_tick. keeping; [apply keeps_service_keys, _|].
  apply keeps_for_each; [apply _..|]. intros k _. apply keeps_tick_entry.
Qed.
End registry.

(** * Loading and reloading *)

Section reload.
Context {K : Type} `{!Platform K} `{!PlatformLaws K}.
Abbreviation M := (@M K).

(** The registry of the state that reloads and the initial load work on. *)
Definition reload_evidence (st : reload_state) (w : world K) : Prop :=
  registry_evidence st.1 w.
#[global] Instance stable_reload st : Stable (reload_evidence st).
Proof. apply stable_registry. Qed.

Definition configs_read (configs : gmap string service_config) (w : world K) : Prop :=
  map_Forall (λ _ cfg, config_read cfg (trace w)) configs.
#[global] Instance stable_configs configs : Stable (configs_read configs).
Proof. apply stable_all. intros _ cfg. apply stable_read. Qed.

Lemma keeps_on_registry F {E A} (m : M service_registry E A) :
  keeps F registry_evidence m → keeps F reload_evidence (on_registry m).
Proof. by apply keeps_zoom. Qed.

Lemma keeps_next_id F `{!Stable F} :
  keeps F reload_evidence (next_id snd (λ gen st, (st.1, gen)) : M _ _ Z).
Proof.
  unfold next_id. apply (keeps_zoom _ _ (λ _ _, True)).
  - done.
  - intros st gen w w' Hi Hw _. by eapply (stable_reload st).
  - keeping.
Qed.

Lemma keeps_drop_service F `{!Stable F} configs name k :
  keeps F registry_evidence (drop_service configs name k).
Proof.
  unfold drop_service. keeping;
    eauto using keeps_on_pending, keeps_remove_service, keeps_pending_stop.
Qed.

Lemma keeps_change_service sigset name k cfg :
  keeps (λ w, config_read cfg (trace w)) registry_evidence (change_service sigset name k cfg).
Proof.
  unfold change_service, restart_changed. keeping;
    [|apply keeps_start_borrowed; apply _|apply keeps_register_pid
     |apply keeps_pending_stop; apply _|apply keeps_on_pending; apply _].
  apply keeps_on_service. keeping. apply (keeps_update_config _ cfg). by intros w.
Qed.

(** A new service has the configuration it is made of, and no process. *)
Lemma wp_service_new_evidence id name cfg (st : reload_state) (w : world K) :
  config_read cfg (trace w) → reload_evidence st w →
  wp (service_new id name cfg) (λ o st' w', (reload_evidence st' w' ∧ later w w') ∧
    ∀ svc, o = Ok svc → evidence svc w') st w.
Proof.
  intros Hc Hi. eapply wp_mono.
  { apply wp_and; [apply (wp_service_new id name cfg)|].
    assert (Hk : keeps (λ w, config_read cfg (trace w)) reload_evidence
      (service_new id name cfg : M _ _ service)).
    { unfold service_new. keeping. apply keeps_build_svc_envp; apply _. }
    by apply Hk. }
  intros o st' w' [(_ & _ & Hnew) [Hi' Hw]]. split; [done|].
  intros svc ->. destruct Hnew as (argv & envp & _ & ->).
  split_and!; [|done|done]. by apply (stable_read cfg w w').
Qed.

Lemma keeps_start_new sigset :
  keeps (λ _, True) evidence (start_service sigset ;;! running_pid : M service io_error Z).
Proof. keeping; [apply keeps_start_service; apply _|apply keeps_running_pid; apply _]. Qed.

Lemma keeps_add_service sigset name cfg :
  keeps (λ w, config_read cfg (trace w)) reload_evidence (add_service sigset name cfg).
Proof.
  unfold add_service. apply keeps_bind; [apply _..|apply keeps_svlogg; apply _|]. intros _.
  apply keeps_bind; [apply _..|apply keeps_next_id; apply _|]. intros id.
  intros st w Hc Hi. wp_step. eapply wp_mono; [by apply wp_service_new_evidence|].
  intros o st1 w1 [[Hi1 Hw1] Hev]. destruct o as [svc|e| | |]; simpl; try done.
  apply wp_bind, wp_with_local. eapply wp_mono; [apply keeps_start_new; [done|by apply Hev]|].
  intros o svc' w2 [Hev2 Hw2]. pose proof (stable_reload _ _ _ Hw2 Hi1) as Hi2.
  destruct o as [p|e| | |]; simpl; try done; try (split; [done|by etrans]).
  wp_step. apply wp_svlogg. intros w3 Hw3%says_logged%later_logged.
  pose proof (stable_reload _ _ _ Hw3 Hi2) as Hi3. pose proof (evidence_later _ _ _ Hw3 Hev2).
  unfold on_registry. wp_steps. split; [by apply map_Forall_insert_2|].
  by etrans; [|etrans; [|exact Hw3]].
Qed.

Lemma keeps_apply_config ids sigset name cfg :
  keeps (λ w, config_read cfg (trace w)) reload_evidence (apply_config ids sigset name cfg).
Proof.
  unfold apply_config. destruct (ids !! name); [|apply keeps_add_service].
  apply keeps_on_registry, keeps_change_service.
Qed.

Section sequences.
Context {S : Type} (I : S → world K → Prop) `{HI : !∀ s, Stable (I s)}.

(** The elements of a hash map, in some order. *)
Lemma keeps_bind_order F `{!Stable F} {E A B} (l : list A) (k : list A → M S E B) :
  (∀ l', (l' ≡ₚ l) → keeps F I (k l')) → keeps F I (let! l' := in_order l in k l').
Proof.
  intros Hk s w HFw Hi. wp_step. eapply wp_mono.
  { apply wp_and; [by apply (keeps_in_order F)|].
    apply (wp_in_order l (λ o _ _, ∀ l', o = Ok l' → l' ≡ₚ l)). by intros l' w' Hl _ _ ? [= <-]. }
  intros o s1 w1 [[Hi1 Hw1] Hl]. destruct o as [l'|e| | |]; simpl; try done.
  eapply wp_mono; [apply (Hk l'); [by apply Hl|by eapply stable|done]|].
  intros o s2 w2 [Hi2 Hw2]. split; [done|by etrans].
Qed.

(** After the configuration file was read. *)
Lemma keeps_bind_configs {B} path (k : gmap string service_config → M S io_error B) :
  (∀ configs, keeps (configs_read configs) I (k configs)) →
  keeps (λ _, True) I (let! configs := from_config_file path in k configs).
Proof.
  intros Hk s w _ Hi. wp_step. eapply wp_mono.
  { apply wp_and; [|apply wp_from_config_file].
    assert (Hkeep : keeps (λ _, True) I (from_config_file path : M S _ _))
      by (unfold from_config_file; keeping). by apply Hkeep. }
  intros o s1 w1 [[Hi1 Hw1] (_ & _ & Ho)]. destruct o as [configs|e| | |]; simpl; try done.
  destruct Ho as (_ & txt & Htxt & Htr). eapply wp_mono; [apply (Hk configs); [|done]|].
  - intros name cfg Hcfg. exists path, txt, configs, name. rewrite Htr.
    split; [|done]. apply elem_of_app. right. by apply list_elem_of_singleton.
  - intros o s2 w2 [Hi2 Hw2]. split; [done|by etrans].
Qed.
End sequences.

Lemma configs_read_entry configs (entries : list (string * service_config)) e (w : world K) :
  (entries ≡ₚ map_to_list configs) → e ∈ entries → configs_read configs w →
  config_read e.2 (trace w).
Proof.
  intros Hp Hin Hall. rewrite Hp in Hin. destruct e as [name cfg].
  apply elem_of_map_to_list in Hin. by apply (Hall name cfg).
Qed.

Lemma keeps_reload_services path sigset :
  keeps (λ _, True) reload_evidence (reload_services path sigset).
Proof.
  unfold reload_services. apply keeps_bind_configs; [apply _|]. intros configs.
  unfold reconcile. apply keeps_bind; [apply _..| |intros ids].
  { apply keeps_on_registry. unfold service_ids, services. keeping. }
  apply keeps_bind; [apply _..|keeping|]. intros names.
  apply keeps_bind; [apply _..| |intros _].
  { apply keeps_on_registry, keeps_for_each; [apply _..|]. intros e _.
    apply keeps_drop_service; apply _. }
  apply keeps_bind_order; [apply _..|]. intros entries Hp.
  apply keeps_for_each; [apply _..|]. intros e Hin.
  eapply keeps_fact; [|apply keeps_apply_config]. intros w Hall. by eapply configs_read_entry.
Qed.

Lemma keeps_load_services path : keeps (λ _, True) reload_evidence (load_services path).
Proof.
  unfold load_services. apply keeps_bind_configs; [apply _|]. intros configs.
  apply keeps_bind_order; [apply _..|]. intros entries Hp.
  apply keeps_for_each; [apply _..|]. intros e Hin.
  apply (keeps_fact _ _ (λ w, config_read e.2 (trace w))).
  { intros w Hall. by eapply configs_read_entry. }
  unfold load_service. apply keeps_bind; [apply _..|apply keeps_next_id; apply _|]. intros id.
  intros st w Hc Hi. wp_step. eapply wp_mono; [by apply wp_service_new_evidence|].
  intros o st1 w1 [[Hi1 Hw1] Hev]. destruct o as [svc|? | | |]; simpl; try done.
  unfold on_registry. wp_steps. split; [|done]. apply map_Forall_insert_2; [by apply Hev|done].
Qed.
End reload.

(** * Reaping *)

Section reaping.
Context {K : Type} `{!Platform K} `{!PlatformLaws K}.
Abbreviation M := (@M K).

(** The body of the loop, right after the [wait]: the group that is killed is
    the one of the reported child. *)
Lemma handle_status_justified gen reg (w : world K) p st k :
  reg_inv gen reg w → handle SWait (kst w) = (ROk (Some (p, st)), k) →
  kills_justified (trace w) →
  wp (handle_status p st) (λ _ _ w', kills_justified (trace w')) reg
    (extend w k (Ev SWait (ROk (Some (p, st))))).
Proof.
  intros Hi Hk Hko. set (w1 := extend w k _).
  assert (Hko1 : no_end (Ev SWait (ROk (Some (p, st)))) (trace w) → kills_justified (trace w1)).
  { intros Hno. by apply kills_justified_snoc; [|split|]. }
  assert (Hlog : ∀ w2 w3, logged w2 w3 → kills_justified (trace w2) → kills_justified (trace w3)).
  { by intros w2 w3 (_ & _ & Hw)%later_logged. }
  assert (Hunreaped : unreaped p (trace w) ↔ is_Some (pids_map reg !! p)).
  { destruct Hi as (_ & _ & Hled). unfold ledger_of in Hled.
    rewrite <- ledger_unreaped, Hled. apply elem_of_dom. }
  unfold handle_status. wp_step. apply wp_from_wait_status. simpl.
  pose proof (reap_one gen reg w p st Hi) as [_ Hone].
  destruct (exit_reason_of st) as [er|] eqn:Her; wp_steps; unfold take_by_pid in *.
  - destruct (pids_map reg !! p) as [key|] eqn:Hp; simpl.
    + destruct Hone as (svc & Hsvc & _). rewrite Hsvc. eapply wp_on_service; [done|].
      unfold reap_service. wp_steps. rewrite bool_decide_false by apply stop_reason_never. wp_steps.
      apply wp_sys. intros r k2 _. wp_step. wp_step.
      match goal with |- wp ?m _ _ _ => assert (Htalk : talks m) end.
      { destruct r as [|e]; [|case_bool_decide]; auto with svlopp. }
      apply Htalk. intros w2 Hw2. wp_steps. apply wp_svlogg. intros w3 Hw3%says_logged.
      apply (Hlog _ _ Hw3), (Hlog _ _ Hw2), kills_justified_reap; [done| |].
      * by eapply exit_reason_of_final.
      * by apply Hunreaped.
    + apply wp_svlogg. intros w2 Hw2%says_logged. apply (Hlog _ _ Hw2), Hko1.
      intros q st' [= <- <-] _ [x Hx]%Hunreaped. congruence.
  - match goal with |- wp ?m _ _ _ => assert (Htalk : talks m) end.
    { destruct (get_by_pid reg p); auto with svlopp. }
    apply Htalk. intros w2 Hw2. apply (Hlog _ _ Hw2), Hko1. intros q st' [= <- <-] Hst.
    apply exit_reason_of_final in Hst as [er Her']. congruence.
Qed.

Lemma handle_sigchld_justified bound gen reg (w : world K) :
  reg_inv gen reg w → kills_justified (trace w) →
  wp (handle_sigchld bound) (λ _ _ w', kills_justified (trace w')) reg w.
Proof.
  revert reg w. induction bound as [|bound IH]; intros reg w Hi Hko; simpl; [done|].
  wp_step. apply wp_sys. intros r k Hk. wp_step.
  assert (Hend : (∀ x, r ≠ ROk (Some x)) → kills_justified (trace (extend w k (Ev SWait r)))).
  { intros Hr. apply kills_justified_snoc; [done|by split|]. intros p st. simpl.
    destruct r as [[x|]|]; [by destruct (Hr x)|done..]. }
  destruct r as [[[p st]|]|e]; [|by apply Hend|by case_bool_decide; wp_step; apply Hend].
  wp_step. eapply wp_mono.
  { apply wp_and; [apply (wp_handle_status gen reg w); [done|by apply reported_wait]|].
    by eapply handle_status_justified. }
  intros o reg1 w1 [(-> & Hi1 & _) Hko1]. simpl. by apply IH.
Qed.

Definition forkless (ev : event) : Prop := fork_of ev = None.

Lemma forkless_unforked p evs : Forall forkless evs → unforked p evs.
Proof. intros Hf. eapply Forall_impl; [exact Hf|]. by intros ev ->. Qed.

Lemma forkless_handle_sigchld bound reg (w : world K) :
  wp (handle_sigchld bound) (λ _ _ w', (only forkless) w w') reg w.
Proof.
  revert reg w. change (moves (only forkless) (handle_sigchld bound)).
  induction bound as [|bound IH]; simpl; [moving|].
  apply moves_bind; [apply _|apply moves_sys|intros r].
  { intros w r k _. by apply only_one. }
  moving. apply moves_handle_status; [apply _|].
  intros A op w r' k Hop _. apply only_one. by destruct op.
Qed.

(** Reaping uses the invariant of the registry: the pid of a service that is
    not reported stays the pid of a child. *)
Lemma handle_sigchld_evidence bound gen reg (w : world K) :
  reg_inv gen reg w → registry_evidence reg w → kills_justified (trace w) →
  wp (handle_sigchld bound) (λ _ reg' w', registry_evidence reg' w' ∧ kills_justified (trace w')) reg w.
Proof.
  intros Hi Hev Hko. eapply wp_mono.
  { apply wp_and; [by apply wp_handle_sigchld|].
    apply wp_and; [apply forkless_handle_sigchld|by eapply handle_sigchld_justified]. }
  intros o reg' w' [[(Hi' & _) (evs0 & _ & Hserv)] [(evs & Htr & Hplain) Hko']].
  split; [|done].
  intros k svc' Hk'. rewrite Hserv, lookup_fmap in Hk'.
  destruct (services_map reg !! k) as [svc|] eqn:Hk; [|done]. injection Hk' as Heq.
  destruct (Hev k svc Hk) as (Hcfg & _ & Hsent). split_and!.
  - rewrite Htr. apply config_read_app. rewrite <- Heq. unfold reap_of. by repeat case_match.
  - intros p Hp. apply (reg_inv_pid _ _ _ k svc' p Hi'); [|done].
    by rewrite Hserv, lookup_fmap, Hk, <- Heq.
  - intros p d Hst. rewrite Htr. apply stop_sent_app; [by apply forkless_unforked|].
    apply Hsent. rewrite <- Hst, <- Heq. unfold reap_of. repeat case_match; try done.
    by rewrite <- Heq in Hst; unfold reap_of in Hst; simplify_option_eq.
Qed.
End reaping.

(** * The supervisor *)

Section supervisor.
Context {K : Type} `{!Platform K} `{!PlatformLaws K}.
Abbreviation M := (@M K).
Implicit Types (sv : supervisor) (w : world K).

Definition sv_evidence sv w : Prop := registry_evidence (sv_registry sv) w.
#[global] Instance stable_sv sv : Stable (sv_evidence sv).
Proof. apply stable_registry. Qed.

(** [m] keeps both invariants, and every kill is justified. *)
Definition punctual {E A} (m : M supervisor E A) : Prop :=
  ∀ sv w, sv_inv sv w → sv_evidence sv w → kills_justified (trace w) →
    wp m (λ _ sv' w', sv_inv sv' w' ∧ sv_evidence sv' w' ∧ kills_justified (trace w')) sv w.

Lemma punctual_keeps {E A} (m : M supervisor E A) Q :
  triple (λ _, True) m Q → keeps (λ _, True) sv_evidence m → punctual m.
Proof.
  intros Ht Hk sv w Hi He Hko. eapply wp_mono; [apply wp_and; [by apply Ht|by apply Hk]|].
  intros o sv' w' [[(Hi' & _) _] [He' (_ & _ & Hko')]]. split_and!; auto.
Qed.

Lemma punctual_ret {E A} (a : A) : punctual (ret a : M supervisor E A).
Proof. done. Qed.
Lemma punctual_throw {E A} (e : E) : punctual (throw e : M supervisor E A).
Proof. done. Qed.
Lemma punctual_panic {E A} msg : punctual (panic msg : M supervisor E A).
Proof. done. Qed.
Lemma punctual_fuel {E A} : punctual (out_of_fuel : M supervisor E A).
Proof. done. Qed.
Lemma punctual_get {E} : punctual (get : M supervisor E supervisor).
Proof. done. Qed.
Lemma punctual_set_state {E} st : punctual (modify (set_sv_state st) : M supervisor E unit).
Proof. done. Qed.

Lemma punctual_bind {E A B} (m : M supervisor E A) (k : A → M supervisor E B) :
  punctual m → (∀ a, punctual (k a)) → punctual (bind m k).
Proof.
  intros Hm Hk sv w Hi He Hko. wp_step. eapply wp_mono; [by apply Hm|].
  intros o sv1 w1 (Hi1 & He1 & Hko1). destruct o as [a|e| | |]; simpl; try done. by apply Hk.
Qed.
Lemma punctual_catch {E F A} (m : M supervisor E A) :
  punctual m → punctual (catch m : M supervisor F (result E A)).
Proof.
  intros Hm sv w Hi He Hko. wp_step. eapply wp_mono; [by apply Hm|]. by intros [].
Qed.
Lemma punctual_for_break {E A} (l : list A) (f : A → M supervisor E flow) :
  (∀ x, punctual (f x)) → punctual (for_break l f).
Proof.
  intros Hf. induction l as [|x l IH]; simpl; [apply punctual_ret|].
  apply punctual_bind; [apply Hf|]. intros [|]; [done|apply punctual_ret].
Qed.

Lemma keeps_on_sv F {E A} (m : M service_registry E A) :
  keeps F registry_evidence m → keeps F sv_evidence (on_sv_registry m).
Proof. by apply keeps_zoom. Qed.

Lemma punctual_sys {E A} (op : sysop A) : calm op = true → punctual (sys op : M supervisor E A).
Proof.
  intros Hc. eapply punctual_keeps; [by apply (triple_sys (λ _, True))|].
  by apply keeps_sys; [apply _|].
Qed.
Lemma punctual_sys_try {A} (op : sysop (result Z A)) :
  calm op = true → punctual (sys_try op : M supervisor io_error A).
Proof.
  intros Hc. apply punctual_bind; [by apply punctual_sys|]. by intros [].
Qed.

Lemma punctual_svlogg {E} level msg : punctual (svlogg level msg : M supervisor E unit).
Proof.
  eapply punctual_keeps; [by apply (triple_svlogg (λ _, True))|].
  apply keeps_svlogg; apply _.
Qed.

(** ** The parts of the loop *)

Lemma punctual_registry {E A} (m : M service_registry E A) Q :
  triple (λ _, True) (on_sv_registry m) Q → keeps (λ _, True) registry_evidence m →
  punctual (on_sv_registry m).
Proof. intros Ht Hk. by eapply punctual_keeps, keeps_on_sv. Qed.

Lemma keeps_write_all {S} (I : S → world K → Prop) `{!∀ s, Stable (I s)} bound fd buf :
  keeps (λ _, True) I (write_all bound fd buf).
Proof.
  revert buf. induction bound as [|bound IH]; intros buf; destruct buf; simpl; keeping.
Qed.

Lemma punctual_flush {E} bound path :
  punctual (on_sv_registry (flush_status_file bound path) : M _ E unit).
Proof.
  eapply punctual_registry; [apply triple_flush|].
  unfold flush_status_file, format_status, services, write_status_file. keeping.
  apply keeps_write_all, _.
Qed.

Lemma punctual_sigchld bound : punctual (on_sv_registry (handle_sigchld bound)).
Proof.
  intros sv w Hi He Hko. eapply wp_mono.
  { apply wp_and; [by apply (triple_handle_sigchld bound)|].
    apply (wp_zoom _ _ _ (λ _ sv' w', sv_evidence sv' w' ∧ kills_justified (trace w'))).
    apply (handle_sigchld_evidence bound _ _ _ (proj1 Hi) He Hko). }
  intros o sv' w' [[(Hi' & _) _] [He' Hko']]. split_and!; auto.
Qed.

Lemma punctual_stop_all : punctual (on_sv_registry stop_all : M _ io_error unit).
Proof.
  eapply (punctual_registry _ (λ _ _, True)); [|apply keeps_stop_all, _].
  apply triple_registry. intros sv w Hi _. eapply wp_mono; [by apply wp_stop_all|].
  by intros o reg' w' (_ & Hsafe & _).
Qed.

Lemma punctual_control k op sigset :
  punctual (on_sv_registry (apply_control_op k op sigset)).
Proof.
  eapply punctual_registry; [apply triple_apply_control_op|apply keeps_apply_control_op, _].
Qed.

Lemma punctual_hup res signo : punctual (handle_hup res signo).
Proof.
  eapply punctual_keeps; [apply triple_handle_hup|]. unfold handle_hup. keeping.
  apply (keeps_zoom _ _ reload_evidence); [done..|apply keeps_reload_services].
Qed.

Lemma punctual_batch fd :
  punctual (zoom sv_siginfo_buf set_sv_buf (read_signalfd_batch fd)).
Proof.
  eapply punctual_keeps; [apply triple_batch|].
  apply (keeps_zoom _ _ (λ _ _, True)); [done| |].
  - intros sv buf w w' He Hw _. by apply (stable_sv sv w w').
  - unfold read_signalfd_batch. keeping; try case_bool_decide; keeping.
Qed.

Lemma punctual_tick sigset :
  punctual (let! now := sys SNow in on_sv_registry (handle_tick now sigset)
            : M supervisor io_error unit).
Proof.
  intros sv w Hi He Hko. wp_step. apply wp_sys. intros now k Hk.
  assert (Hw := later_now _ _ _ Hk).
  set (w1 := extend w k (Ev SNow now)) in *. simpl.
  assert (Hi1 : sv_inv sv w1).
  { eapply (advances_calm sv w w1); [done|by apply world_calm_sys]. }
  eapply wp_mono.
  { apply wp_and; [by apply (triple_handle_tick now sigset)|].
    apply (keeps_on_sv (λ w, Ev SNow now ∈ trace w)); [apply keeps_handle_tick| |].
    - apply elem_of_app. right. by apply list_elem_of_singleton.
    - by eapply stable_sv. }
  intros o sv' w' [[(Hi' & _) _] [He' (_ & _ & Hko')]]. split_and!; [done..|].
  apply Hko', Hw, Hko.
Qed.

(** A step whose first part is a sequence itself. *)
Lemma punctual_bind_assoc {E A B C} (m : M supervisor E A) (k : A → M supervisor E B)
    (h : B → M supervisor E C) :
  punctual (bind m k) → (∀ b, punctual (h b)) → punctual (let! x := m in let! y := k x in h y).
Proof.
  intros Hmk Hh sv w Hi He Hko.
  pose proof (punctual_bind _ h Hmk Hh sv w Hi He Hko) as Hwp. revert Hwp.
  unfold wp, bind. by destruct (m sv w) as [[[] ?] ?].
Qed.

#[local] Hint Resolve punctual_ret punctual_throw punctual_panic punctual_fuel punctual_get
  punctual_set_state punctual_sys punctual_sys_try punctual_svlogg punctual_flush punctual_sigchld
  punctual_stop_all punctual_control punctual_hup punctual_batch : svlopp.

#[local] Ltac punctually :=
  repeat first
    [ solve [auto with svlopp]
    | match goal with
      | |- punctual (bind _ _) => apply punctual_bind; [|intros ?]
      | |- punctual (catch _) => apply punctual_catch
      | |- punctual (for_break _ _) => apply punctual_for_break; intros ?
      | |- punctual (match ?x with _ => _ end) => destruct x
      end ].

Lemma punctual_handle_signal bound res signo : punctual (handle_signal bound res signo).
Proof. unfold handle_signal, handle_chld, handle_term, break_outer. punctually. Qed.
#[local] Hint Resolve punctual_handle_signal : svlopp.

Lemma punctual_read_timerfd fd : punctual (read_timerfd fd).
Proof. unfold read_timerfd. punctually. Qed.
Lemma punctual_read_control fd :
  punctual (catch (read_control_command fd) : M supervisor io_error _).
Proof.
  eapply punctual_keeps; [apply triple_read_control|].
  unfold read_control_command. keeping; repeat case_bool_decide; keeping.
Qed.
#[local] Hint Resolve punctual_read_timerfd punctual_read_control : svlopp.

Lemma punctual_handle_event bound res data : punctual (handle_event bound res data).
Proof.
  unfold handle_event, handle_sfd, handle_pfd. repeat case_bool_decide; try by punctually.
  unfold handle_tfd. apply punctual_bind; [auto with svlopp|intros _].
  apply punctual_bind_assoc; [apply punctual_tick|intros _; punctually].
Qed.
#[local] Hint Resolve punctual_handle_event : svlopp.

Lemma punctual_run_loop fuel bound res : punctual (run_loop fuel bound res).
Proof. induction fuel as [|fuel IH]; simpl; punctually. Qed.

(** ** The whole of [run] *)

Lemma keeps_setup args : keeps (λ _, True) sv_evidence (setup args : M _ _ resources).
Proof.
  unfold setup, sigset_current, sigset_empty, sigset_add, block_thread_signals,
    create_control_fifo, signalfd, sys_cvt, create_timerfd_1s_periodic. keeping.
Qed.

Lemma keeps_load path : keeps (λ _, True) sv_evidence (on_sv_services (load_services path)).
Proof. apply (keeps_zoom _ _ reload_evidence); [done..|apply keeps_load_services]. Qed.

Lemma keeps_start sigset :
  keeps (λ _, True) sv_evidence (on_sv_registry (start_all sigset) : M _ io_error unit).
Proof. apply keeps_on_sv, keeps_start_all, _. Qed.

(** The first part of a sequence that needs more than the invariants. *)
Lemma punctual_first {E A B} (P : supervisor → Prop) (m : M supervisor E A)
    (k : A → M supervisor E B) (R : A → supervisor → Prop) sv w :
  triple P m R → keeps (λ _, True) sv_evidence m →
  (∀ a sv1 w1, sv_inv sv1 w1 → sv_evidence sv1 w1 → kills_justified (trace w1) → R a sv1 →
    wp (k a) (λ _ _ w', kills_justified (trace w')) sv1 w1) →
  sv_inv sv w → sv_evidence sv w → kills_justified (trace w) → P sv →
  wp (bind m k) (λ _ _ w', kills_justified (trace w')) sv w.
Proof.
  intros Ht Hm Hk Hi He Hko HP. wp_step.
  eapply wp_mono; [apply wp_and; [by apply Ht|by apply Hm]|].
  intros o sv1 w1 [[(Hi1 & _) Ho] [He1 (_ & _ & Hko1)]].
  destruct o as [a|e| | |]; simpl; try done; try by apply Hko1. apply Hk; auto.
Qed.
End supervisor.
