(* ===== verification/Idempotence.v ===== *)
(** Reloading twice: a reload that follows a successful reload of the same
    configuration changes nothing and calls nothing but the log. *)
From S2P Require Import Prelude Utils Bytes Data Platform Monad Sim Logging.
From S2P Require Import Signalfd Control Service Registry Handlers Reload.
Local Open Scope Z_scope.
Local Open Scope svlopp_scope.

(** The registry agrees with a configuration: every service has its
    configuration, up to the spelling of paths, or is on its way out, and no
    name is missing. *)
Definition agrees (configs : gmap string service_config) (reg : service_registry) : Prop :=
  (∀ k svc, services_map reg !! k = Some svc →
     match configs !! s_name svc with
     | Some cfg => s_config svc ≡ cfg
     | None => s_pending_action svc = ServicePendingAction.Remove ∧
               state_is_stopping (s_state svc) = true
     end) ∧
  ∀ n, is_Some (configs !! n) → ∃ k svc, services_map reg !! k = Some svc ∧ s_name svc = n.

Lemma reload_result_agrees configs evs svc svc' :
  reload_result configs evs svc (Some svc') →
  match configs !! s_name svc' with
  | Some cfg => s_config svc' ≡ cfg
  | None => s_pending_action svc' = ServicePendingAction.Remove ∧
            state_is_stopping (s_state svc') = true
  end.
Proof.
  intros Hres. rewrite (reload_result_name _ _ _ _ Hres). unfold reload_result in Hres.
  destruct (configs !! s_name svc) as [cfg|].
  - case_bool_decide as Hc; [by injection Hres as ->|].
    destruct Hres as (argv & envp & _ & Hres). unfold restarted in Hres. simpl in Hres.
    destruct (s_state svc); decompose_ctx; by simplify_eq.
  - unfold dropped in Hres. destruct (s_state svc) as [r|p|p d] eqn:Hst; [done|..];
      decompose_ctx; simplify_eq; simpl; by rewrite ?Hst.
Qed.

Lemma reconciled_agrees configs gen evs reg reg' :
  reconciled configs gen evs reg reg' → agrees configs reg'.
Proof.
  intros Hrec. split; [|intros n; by eapply reconciled_names].
  destruct Hrec as (Hold & _ & Hnew). intros k svc Hk.
  destruct (Hnew k svc Hk) as [[svc0 Hk0]|(_ & cfg & Hcfg & _ & Hc & _)].
  - specialize (Hold k svc0 Hk0). rewrite Hk in Hold. by eapply reload_result_agrees.
  - by rewrite Hcfg, Hc.
Qed.

Section again.
Context {K : Type} `{!Platform K} `{!PlatformLaws K}.

(** Nothing was called but the log. *)
Abbreviation idle := (only (λ ev, log_event ev = true)).

(** [m], from the state [s], leaves it as it is and is idle. *)
Definition idles {S E} (m : @M K S E unit) (s : S) : Prop :=
  ∀ w : world K, wp m (λ o s' w', o = Ok tt ∧ s' = s ∧ idle w w') s w.

Lemma idles_for_each {S E A} (f : A → @M K S E unit) l s :
  (∀ x, x ∈ l → idles (f x) s) → idles (for_each l f) s.
Proof.
  induction l as [|x l IH]; intros Hf w; simpl; [by apply wp_ret|].
  wp_step. eapply wp_mono; [apply Hf; by left|]. intros o s1 w1 (-> & -> & Hw). simpl.
  eapply wp_mono; [apply IH; intros y Hy; apply Hf; by right|].
  intros o s2 w2 (-> & -> & Hw2). split_and!; [done|done|by etrans].
Qed.

Lemma idles_on_registry {E} (m : @M K service_registry E unit) reg gen :
  idles m reg → idles (on_registry m) (reg, gen).
Proof.
  intros Hm w. unfold on_registry. wp_step. eapply wp_mono; [apply Hm|].
  by intros o reg' w' (-> & -> & Hw).
Qed.

Lemma idle_says level msg (w w' : world K) : says level msg w w' → idle w w'.
Proof. intros [(_ & _ & Hevs) _]. exact Hevs. Qed.

Context (configs : gmap string service_config) (reg : service_registry).
Hypothesis Hagrees : agrees configs reg.

Lemma idles_drop k svc :
  services_map reg !! k = Some svc → idles (drop_service configs (s_name svc) k) reg.
Proof.
  intros Hk w. destruct Hagrees as [Hall _]. specialize (Hall k svc Hk).
  unfold drop_service, service_mut. case_bool_decide as Hc; [|by wp_step].
  rewrite Hc in Hall. destruct Hall as [Hpend Hst]. wp_steps. rewrite Hk.
  destruct (s_state svc) as [r|p|p d] eqn:Hs; try done. wp_step. apply wp_svlogg.
  intros w' Hw%idle_says. wp_step. eapply wp_on_service; [done|]. wp_steps.
  assert (Hsame : set_pending_action ServicePendingAction.Remove svc = svc).
  { destruct svc. simpl in *. by rewrite Hpend. }
  by rewrite Hsame, update_service_id.
Qed.

Lemma idles_apply gen ids sigset n cfg :
  ids_of reg ids → configs !! n = Some cfg → idles (apply_config ids sigset n cfg) (reg, gen).
Proof.
  intros Hids Hcfg. destruct Hagrees as [Hall Hnames].
  destruct (Hnames n (mk_is_Some _ _ Hcfg)) as (k & svc & Hk & Hname).
  unfold apply_config. rewrite (proj2 (Hids n k)) by eauto. apply idles_on_registry.
  intros w. unfold change_service, service_mut. wp_steps. rewrite Hk.
  specialize (Hall k svc Hk). rewrite Hname, Hcfg in Hall.
  rewrite bool_decide_false by (intros Hne; by apply Hne). by wp_step.
Qed.

Lemma reconcile_idles gen sigset (w : world K) :
  reg_inv gen reg w →
  wp (reconcile configs sigset) (λ o st w', o = Ok tt ∧ st = (reg, gen) ∧ idle w w') (reg, gen) w.
Proof.
  intros Hi. unfold reconcile, on_registry at 1. wp_steps. eapply wp_mono.
  { apply wp_and.
    - apply (wp_service_ids gen reg w (λ o reg' _, ∃ ids, o = Ok ids ∧ reg' = reg ∧ ids_of reg ids));
        [done|]. intros ids w' Hids _. by exists ids.
    - assert (Hmoves : moves idle (service_ids : @M K _ io_error _))
        by (unfold service_ids, services; moving). apply Hmoves. }
  intros o reg' w1 [(ids & -> & -> & Hids) Hw1]. cbn [fst snd]. wp_steps. apply wp_in_order.
  intros names w2 Hnames _ Htr2. wp_step. wp_step. eapply wp_mono; [apply idles_on_registry, idles_for_each|].
  { intros [n k] Hin. rewrite Hnames in Hin. apply elem_of_map_to_list in Hin.
    apply Hids in Hin as (svc & Hk & <-). by apply idles_drop. }
  intros o st w3 (-> & -> & Hw3). wp_steps. apply wp_in_order. intros entries w4 Hentries _ Htr4.
  eapply wp_mono; [apply idles_for_each|].
  { intros [n cfg] Hin. rewrite Hentries in Hin. apply elem_of_map_to_list in Hin.
    by apply idles_apply. }
  intros o st w5 (-> & -> & Hw5). split_and!; [done|done|].
  assert (Heq : ∀ v v' : world K, trace v' = trace v → idle v v').
  { intros v v' Hv. exists []. by rewrite Hv, app_nil_r. }
  etrans; [exact Hw1|]. etrans; [by apply Heq|]. etrans; [exact Hw3|]. etrans; [by apply Heq|done].
Qed.
End again.

(** * The property *)

Section properties.
Context {K : Type} `{!Platform K} `{!PlatformLaws K}.

(** C14.  Reloading twice is reloading once.  After a reload that succeeded,
    in any later world where the registry is as it left it and the file
    still has the text it read, a second reload succeeds as well and is
    equivalent to doing nothing: the registry with its pids and the id
    generator are exactly as they were, and after the read the only calls
    are those of log messages, so nothing is started, stopped or signalled.
    This holds for the services on their way out, too. *)
Theorem reload_idempotent path sigset gen reg (w : world K) :
  reg_inv gen reg w → 0 ≤ gen ≤ u64_max →
  wp (reload_services path sigset) (λ o st _, o = Ok tt → ∃ txt,
    ∀ w1, reg_inv st.2 st.1 w1 → (handle (SReadToString path) (kst w1)).1 = ROk txt →
      wp (reload_services path sigset) (λ o' st' w', o' = Ok tt ∧ st' = st ∧
        ∃ evs, trace w' = trace w1 ++ Ev (SReadToString path) (ROk txt) :: evs ∧
          Forall (λ ev, log_event ev = true) evs) st w1) (reg, gen) w.
Proof.
  intros Hi Hg. eapply wp_mono; [by apply wp_reload_services|].
  intros o [reg1 gen1] w' [_ Hpost] ->. destruct Hpost as (txt & configs & _ & Htxt & Hrec).
  exists txt. intros w1 Hi1 Hread. apply reconciled_agrees in Hrec.
  unfold reload_services, from_config_file. wp_step. wp_step. apply wp_sys. intros r k Hk.
  assert (Hle : world_calm w1 (extend w1 k (Ev (SReadToString path) r))) by by apply world_calm_sys.
  rewrite Hk in Hread. simpl in Hread. subst r. wp_steps. apply wp_ret. wp_steps. rewrite Htxt. apply wp_ret.
  eapply wp_mono; [apply (reconcile_idles configs reg1 Hrec)|].
  { eapply reg_inv_world; [apply Hle|done]. }
  intros o' st' w3 (-> & -> & evs & Htr3 & Hevs). split_and!; [done|done|].
  exists evs. split; [by rewrite Htr3; simpl; rewrite <- app_assoc|done].
Qed.
End properties.

(** The running service was dropped; the second reload finds it stopping. *)
Lemma reload_idempotent_witness :
  let svc := sim_svc (Running 100) ServicePendingAction.None in
  let w := sim_reload_world "" svc in
  (let '(o, st, w1) := reload_services "services.toml" 0 (sim_reg svc, 1) w in
   let '(o', st', w2) := reload_services "services.toml" 0 st w1 in
   o = Ok tt ∧ kills w1 = [(100, SIGTERM)] ∧
   (s_pending_action <$> services_map st.1 !! 0) = Some ServicePendingAction.Remove ∧
   o' = Ok tt ∧ st' = st ∧ kills w2 = [(100, SIGTERM)]) ∧
  wp (reload_services "services.toml" 0) (λ o st _, o = Ok tt → ∃ txt,
    ∀ w1, reg_inv st.2 st.1 w1 → (handle (SReadToString "services.toml") (kst w1)).1 = ROk txt →
      wp (reload_services "services.toml" 0) (λ o' st' _, o' = Ok tt ∧ st' = st) st w1)
    (sim_reg svc, 1) w.
Proof.
  cbv zeta. split; [vm_compute; done|].
  eapply wp_mono; [apply (reload_idempotent "services.toml" 0)|].
  - apply sim_reload_inv. by intros p [= <-].
  - unfold u64_max. lia.
  - intros o st w1 Ho Hok. destruct (Ho Hok) as [txt Hagain]. exists txt. intros w2 Hi Hread.
    eapply wp_mono; [by apply Hagain|]. by intros o' st' w3 (-> & -> & _).
Defined.
