(* ===== verification/Policy.v ===== *)
(** The supervision policy as an abstract machine: what the supervisor does
    to its services, event by event, with none of the ways it does it.

    A [policy] is the state of the machine: whether a shutdown was
    requested, the signals read and not handled yet, the next id, and an
    [entry] per supervised service.  There is no table of pids, no argument
    vector, no log, no file descriptor and no loop.  The rules on one entry
    come first, one relation per kind of input; [reacts] lifts them to the
    machine, whose steps consume the events they react to, and [obeys]
    chains steps.

    The rules see the events of their step, and what they do is justified by
    what the kernel answered there: a service runs under the pid of a fork,
    an end was asked for by the stop signal of its configuration, and what is
    due to a service is only left undone when one of its calls failed. *)
From S2P Require Import Prelude Utils Bytes Data Platform Monad Signalfd Control Service.
Local Open Scope Z_scope.

(** * Entries *)

(** The process of a service: none, alive, or asked to end. *)
Inductive phase : Type :=
| Down (reason : service_stop_reason)
| Up (p : Z)
| Ending (p : Z).

Record entry : Type := Entry {
  e_name : string;
  e_config : service_config;
  e_phase : phase;
  e_pending : service_pending_action
}.

Definition in_phase (ph : phase) (e : entry) : entry :=
  Entry (e_name e) (e_config e) ph (e_pending e).
Definition pending (a : service_pending_action) (e : entry) : entry :=
  Entry (e_name e) (e_config e) (e_phase e) a.
Definition configured (cfg : service_config) (e : entry) : entry :=
  Entry (e_name e) cfg (e_phase e) (e_pending e).

Abbreviation no_action := ServicePendingAction.None.
Abbreviation to_restart := ServicePendingAction.Restart.
Abbreviation to_remove := ServicePendingAction.Remove.

(** ** The end of a process *)

(** A crash signal is a crash, whoever asked for the end; an end that was
    asked for is a termination; any other is told by its status. *)
Definition end_reason (asked : bool) (er : exit_reason) : service_stop_reason :=
  match er with
  | Signaled sig =>
      if is_crash_signal sig then Crashed sig
      else if asked then SupervisorTerminated er else Killed sig
  | Exited code =>
      if asked then SupervisorTerminated er
      else if bool_decide (code = 0) then Success else Error code
  end.

Definition on_end (p : Z) (er : exit_reason) (e : entry) : entry :=
  match e_phase e with
  | Up q => if bool_decide (q = p) then in_phase (Down (end_reason false er)) e else e
  | Ending q => if bool_decide (q = p) then in_phase (Down (end_reason true er)) e else e
  | Down _ => e
  end.

(** ** The timer *)

(** What is due to a service that is down: its pending action, or else its
    fallback if it did not end on request. *)
Inductive due (e : entry) : service_pending_action → Prop :=
| due_pending : e_pending e ≠ no_action → due e (e_pending e)
| due_fallback r :
    e_pending e = no_action → e_phase e = Down r →
    r ≠ NeverStarted → (∀ er, r ≠ SupervisorTerminated er) →
    due e (cfg_fallback_pending_action (e_config e))
| due_nothing r :
    e_pending e = no_action → e_phase e = Down r →
    r = NeverStarted ∨ (∃ er, r = SupervisorTerminated er) → due e no_action.

Inductive on_tick (evs : list event) (e : entry) : option entry → Prop :=
| tick_alive : (∀ r, e_phase e ≠ Down r) → on_tick evs e (Some e)
| tick_idle r :
    e_phase e = Down r → due e no_action → on_tick evs e (Some (pending no_action e))
| tick_remove r : e_phase e = Down r → due e to_remove → on_tick evs e None
| tick_restart r p :
    e_phase e = Down r → due e to_restart → 0 < p → did_fork p evs →
    on_tick evs e (Some (in_phase (Up p) (pending no_action e)))
| tick_restart_failed r :
    e_phase e = Down r → due e to_restart → start_refused (e_config e) evs →
    on_tick evs e (Some (pending no_action e)).

(** ** Control commands *)

(** A command that there is nothing to do for. *)
Inductive moot (e : entry) : control_op → Prop :=
| moot_stop : (∀ p, e_phase e ≠ Up p) → moot e ControlOp.Stop
| moot_start : (∀ r, e_phase e ≠ Down r) → moot e ControlOp.Start
| moot_restart p : e_phase e = Ending p → moot e ControlOp.Restart
| moot_pending op : op ≠ ControlOp.Stop → e_pending e ≠ no_action → moot e op.

Inductive on_command (evs : list event) (e : entry) : control_op → entry → Prop :=
| command_moot op : moot e op → on_command evs e op e
| command_stop p :
    e_phase e = Up p → stop_answered (e_config e) p (ROk tt) evs →
    on_command evs e ControlOp.Stop (in_phase (Ending p) e)
| command_stop_failed p err :
    e_phase e = Up p → stop_answered (e_config e) p (RErr err) evs →
    on_command evs e ControlOp.Stop e
| command_start op r p :
    op ≠ ControlOp.Stop → e_phase e = Down r → e_pending e = no_action →
    0 < p → did_fork p evs → on_command evs e op (in_phase (Up p) e)
| command_start_failed op r :
    op ≠ ControlOp.Stop → e_phase e = Down r → e_pending e = no_action →
    start_refused (e_config e) evs → on_command evs e op e
| command_restart p :
    e_phase e = Up p → e_pending e = no_action →
    stop_answered (e_config e) p (ROk tt) evs →
    on_command evs e ControlOp.Restart (in_phase (Ending p) (pending to_restart e))
| command_restart_failed p err :
    e_phase e = Up p → e_pending e = no_action →
    stop_answered (e_config e) p (RErr err) evs →
    on_command evs e ControlOp.Restart (pending to_restart e).

(** ** Shutdown *)

Inductive on_shutdown (evs : list event) (e : entry) : option entry → Prop :=
| shutdown_keep : (∀ p, e_phase e ≠ Up p) → on_shutdown evs e (Some e)
| shutdown_stop p :
    e_phase e = Up p → stop_answered (e_config e) p (ROk tt) evs →
    on_shutdown evs e (Some (in_phase (Ending p) e))
| shutdown_stop_failed p err :
    e_phase e = Up p → stop_answered (e_config e) p (RErr err) evs →
    on_shutdown evs e (Some e).

(** ** The initial start *)

Inductive on_start (evs : list event) (e : entry) : option entry → Prop :=
| start_up p : 0 < p → did_fork p evs → on_start evs e (Some (in_phase (Up p) e))
| start_failed : start_refused (e_config e) evs → on_start evs e (Some e).

(** ** Reloads *)

(** A service stays as it is if its configuration is equal to the new one;
    this is the equality [≡] of configurations, for which the spelling of a
    path does not count.  A service that changes is started, or asked to end,
    with its new configuration; one that goes is asked to end with the one it
    had. *)
Section reload_rules.
Context (configs : gmap string service_config) (evs : list event).

Inductive on_reload (e : entry) : option entry → Prop :=
| reload_drop r :
    configs !! e_name e = None → e_phase e = Down r → on_reload e None
| reload_remove p :
    configs !! e_name e = None → e_phase e = Up p →
    stop_answered (e_config e) p (ROk tt) evs →
    on_reload e (Some (in_phase (Ending p) (pending to_remove e)))
| reload_remove_ending p :
    configs !! e_name e = None → e_phase e = Ending p →
    on_reload e (Some (pending to_remove e))
| reload_same cfg :
    configs !! e_name e = Some cfg → e_config e ≡ cfg → on_reload e (Some e)
| reload_start cfg r p :
    configs !! e_name e = Some cfg → ¬ e_config e ≡ cfg → e_phase e = Down r →
    0 < p → did_fork p evs →
    on_reload e (Some (in_phase (Up p) (configured cfg e)))
| reload_restart cfg p :
    configs !! e_name e = Some cfg → ¬ e_config e ≡ cfg → e_phase e = Up p →
    stop_answered cfg p (ROk tt) evs →
    on_reload e (Some (in_phase (Ending p) (pending to_restart (configured cfg e))))
| reload_restart_ending cfg p :
    configs !! e_name e = Some cfg → ¬ e_config e ≡ cfg → e_phase e = Ending p →
    on_reload e (Some (pending to_restart (configured cfg e))).

(** A reload that failed on the way. *)
Inductive on_partial_reload (e : entry) : option entry → Prop :=
| partial_done res : on_reload e res → on_partial_reload e res
| partial_untouched : on_partial_reload e (Some e)
| partial_remove p err :
    configs !! e_name e = None → e_phase e = Up p →
    stop_answered (e_config e) p (RErr err) evs →
    on_partial_reload e (Some (pending to_remove e))
| partial_start cfg r :
    configs !! e_name e = Some cfg → ¬ e_config e ≡ cfg → e_phase e = Down r →
    start_refused cfg evs →
    on_partial_reload e (Some (configured cfg e))
| partial_restart cfg p err :
    configs !! e_name e = Some cfg → ¬ e_config e ≡ cfg → e_phase e = Up p →
    stop_answered cfg p (RErr err) evs →
    on_partial_reload e (Some (pending to_restart (configured cfg e))).
End reload_rules.

(** * The machine *)

Record policy : Type := Policy {
  p_closing : bool;
  p_signals : list Z;
  p_next_id : Z;
  p_entries : gmap Z entry
}.

Definition with_signals (l : list Z) (pl : policy) : policy :=
  Policy (p_closing pl) l (p_next_id pl) (p_entries pl).
Definition with_entries (es : gmap Z entry) (pl : policy) : policy :=
  Policy (p_closing pl) (p_signals pl) (p_next_id pl) es.

(** Every entry follows a rule, and there is no new one. *)
Definition each (rule : entry → option entry → Prop) (es es' : gmap Z entry) : Prop :=
  ∀ k, match es !! k with
       | Some e => rule e (es' !! k)
       | None => es' !! k = None
       end.

(** The new entries of a reload are running services of the configuration
    under ids that were never used. *)
Definition grown (configs : gmap string service_config) (evs : list event) (next next' : Z)
    (es es' : gmap Z entry) : Prop :=
  next ≤ next' ∧
  ∀ k e, es' !! k = Some e → es !! k = None →
    next ≤ k < next' ∧ configs !! e_name e = Some (e_config e) ∧ e_pending e = no_action ∧
    ∃ p, 0 < p ∧ did_fork p evs ∧ e_phase e = Up p.

Definition reloaded (configs : gmap string service_config) (evs : list event) (next next' : Z)
    (es es' : gmap Z entry) : Prop :=
  (∀ k e, es !! k = Some e → on_reload configs evs e (es' !! k)) ∧
  grown configs evs next next' es es' ∧
  ∀ n, is_Some (configs !! n) → ∃ k e, es' !! k = Some e ∧ e_name e = n.

Definition partly_reloaded (configs : gmap string service_config) (evs : list event)
    (next next' : Z) (es es' : gmap Z entry) : Prop :=
  reload_refused configs next' evs ∧
  (∀ k e, es !! k = Some e → on_partial_reload configs evs e (es' !! k)) ∧
  grown configs evs next next' es es'.

(** The entries of a configuration, before anything is started. *)
Definition installed (configs : gmap string service_config) (es : gmap Z entry) : Prop :=
  (∀ k e, es !! k = Some e →
     configs !! e_name e = Some (e_config e) ∧ e_phase e = Down NeverStarted ∧
     e_pending e = no_action) ∧
  (∀ k1 k2 e1 e2, es !! k1 = Some e1 → es !! k2 = Some e2 → e_name e1 = e_name e2 → k1 = k2) ∧
  ∀ n, is_Some (configs !! n) → ∃ k e, es !! k = Some e ∧ e_name e = n.

(** The events that tell the policy nothing: everything but what the
    supervisor reads, and the ends of its children. *)
Definition inert (ev : event) : Prop :=
  match ev with
  | Ev op r =>
      match op in sysop A return A → Prop with
      | SReadToString _ => λ _, False
      | SRead _ _ => λ r, match r with ROk _ => False | RErr _ => True end
      | SWait => λ r, match r with ROk (Some _) => False | _ => True end
      | _ => λ _, True
      end r
  end.

Section machine.
Context {K : Type} `{!Platform K}.
(** The descriptors of the signals, the timer and the control FIFO, and the
    path of the configuration. *)
Context (sfd tfd pfd : Z) (path : string).

(** [wait] reports a status of the process [p]. *)
Definition reported_end (p st : Z) (es : gmap Z entry) : gmap Z entry :=
  match exit_reason_of st with Some er => on_end p er <$> es | None => es end.

Definition command_rule (evs : list event) (cmd : control_command) (es es' : gmap Z entry) : Prop :=
  match es !! cmd_service_id cmd with
  | Some e => ∃ e', on_command evs e (cmd_op cmd) e' ∧ es' = <[cmd_service_id cmd := e']> es
  | None => es' = es
  end.

(** A signal to which there is nothing to do, or nothing any more. *)
Definition ignorable (closing : bool) (signo : Z) : Prop :=
  signo = SIGCHLD ∨ signo ∉ [SIGHUP; SIGINT; SIGTERM] ∨ closing = true.

Inductive reacts : policy → list event → policy → Prop :=
| re_inert pl evs : Forall inert evs → reacts pl evs pl
| re_end pl p st :
    reacts pl [Ev SWait (ROk (Some (p, st)))] (with_entries (reported_end p st (p_entries pl)) pl)
(* the signals *)
| re_batch pl cap infos :
    p_signals pl = [] → Forall (λ i : siginfo, length i = siginfo_size) infos →
    reacts pl [Ev (SRead sfd cap) (ROk (concat infos))]
      (with_signals ((λ i, cast_signed (siginfo_signal i)) <$> infos) pl)
| re_bad_batch pl cap bs :
    (length bs `mod` siginfo_size ≠ 0)%nat → reacts pl [Ev (SRead sfd cap) (ROk bs)] pl
| re_ignore pl signo rest :
    p_signals pl = signo :: rest → ignorable (p_closing pl) signo →
    reacts pl [] (with_signals rest pl)
| re_shutdown next es es' signo rest evs :
    signo = SIGINT ∨ signo = SIGTERM → Forall inert evs → each (on_shutdown evs) es es' →
    reacts (Policy false (signo :: rest) next es) evs (Policy true rest next es')
| re_reload next next' es es' rest txt configs evs :
    toml_from_str txt = ROk configs → Forall inert evs →
    reloaded configs evs next next' es es' →
    reacts (Policy false (SIGHUP :: rest) next es)
      (Ev (SReadToString path) (ROk txt) :: evs) (Policy false rest next' es')
| re_reload_failed next next' es es' rest txt configs evs :
    toml_from_str txt = ROk configs → Forall inert evs →
    partly_reloaded configs evs next next' es es' →
    reacts (Policy false (SIGHUP :: rest) next es)
      (Ev (SReadToString path) (ROk txt) :: evs) (Policy false rest next' es')
| re_reload_unread next es rest r :
    (∀ txt configs, r = ROk txt → toml_from_str txt ≠ ROk configs) →
    reacts (Policy false (SIGHUP :: rest) next es)
      [Ev (SReadToString path) r] (Policy false rest next es)
(* the timer *)
| re_tick pl es' cap bs evs :
    length bs = 8%nat → Forall inert evs → each (on_tick evs) (p_entries pl) es' →
    reacts pl (Ev (SRead tfd cap) (ROk bs) :: evs) (with_entries es' pl)
| re_bad_tick pl cap bs :
    length bs ≠ 8%nat → reacts pl [Ev (SRead tfd cap) (ROk bs)] pl
(* the control FIFO *)
| re_command pl es' cap cmd evs :
    command_wf cmd → Forall inert evs → command_rule evs cmd (p_entries pl) es' →
    reacts pl (Ev (SRead pfd cap) (ROk (encode_command cmd)) :: evs) (with_entries es' pl)
| re_bad_command pl cap bs :
    (∀ cmd, command_wf cmd → bs ≠ encode_command cmd) →
    reacts pl [Ev (SRead pfd cap) (ROk bs)] pl.

(** Steps in sequence. *)
Inductive obeys : policy → list event → policy → Prop :=
| obeys_nil pl : obeys pl [] pl
| obeys_step pl1 evs1 pl2 evs2 pl3 :
    reacts pl1 evs1 pl2 → obeys pl2 evs2 pl3 → obeys pl1 (evs1 ++ evs2) pl3.

Lemma obeys_one pl evs pl' : reacts pl evs pl' → obeys pl evs pl'.
Proof. intros Hr. rewrite <- (app_nil_r evs). by eapply obeys_step, obeys_nil. Qed.

Lemma obeys_app pl1 evs1 pl2 evs2 pl3 :
  obeys pl1 evs1 pl2 → obeys pl2 evs2 pl3 → obeys pl1 (evs1 ++ evs2) pl3.
Proof.
  induction 1 as [|pl1 evs pl evs' pl' Hr _ IH]; [done|]. intros Hob.
  rewrite <- app_assoc. eapply obeys_step; [done|by apply IH].
Qed.

Lemma obeys_inert pl evs : Forall inert evs → obeys pl evs pl.
Proof. intros Hi. by apply obeys_one, re_inert. Qed.
End machine.
