(* ===== verification/Refinement.v ===== *)
(** The event loop implements the policy of Policy.v: the state of the
    supervisor, seen as a policy, only ever makes the policy's steps, on the
    events of the run. *)
From S2P Require Import Prelude Utils Bytes Data Text Platform Monad Sim Logging Cli.
From S2P Require Import Signalfd Control Service Registry Handlers Reload Status.
From S2P Require Import Ledger Supervisor Startup Policy.
Local Open Scope Z_scope.
Local Open Scope svlopp_scope.

(** * The state of the program as a policy *)

Definition phase_of (st : service_state) : phase :=
  match st with Stopped r => Down r | Running p => Up p | Stopping p _ => Ending p end.

Definition entry_of (svc : service) : entry :=
  Entry (s_name svc) (s_config svc) (phase_of (s_state svc)) (s_pending_action svc).

Definition entries_of (reg : service_registry) : gmap Z entry :=
  entry_of <$> services_map reg.

(** The signals that the loop has read and not handled are its own business:
    they are given aside. *)
Definition policy_of (signals : list Z) (sv : supervisor) : policy :=
  Policy (bool_decide (sv_state sv = SupervisorState.ShutdownRequested)) signals
    (sv_id_gen sv) (entries_of (sv_registry sv)).

(** * The rules, service by service *)

Lemma effective_due svc r :
  s_state svc = Stopped r →
  due (entry_of svc) (effective_action r (s_pending_action svc) (fallback_pending_action svc)).
Proof.
  intros Hst.
  assert (Hdown : e_phase (entry_of svc) = Down r) by (simpl; by rewrite Hst).
  unfold effective_action. destruct (s_pending_action svc) eqn:Hp.
  - destruct r; simpl;
      first [ apply (due_fallback (entry_of svc) _ Hp Hdown); done
            | apply (due_nothing (entry_of svc) _ Hp Hdown); eauto ].
  - rewrite <- Hp. apply (due_pending (entry_of svc)). simpl. by rewrite Hp.
  - rewrite <- Hp. apply (due_pending (entry_of svc)). simpl. by rewrite Hp.
Qed.

Lemma tick_rule evs svc res :
  tick_result evs svc res → on_tick evs (entry_of svc) (entry_of <$> res).
Proof.
  unfold tick_result. destruct (s_state svc) as [r|p|p d] eqn:Hst.
  - pose proof (effective_due svc r Hst) as Hdue.
    assert (Hdown : e_phase (entry_of svc) = Down r) by (simpl; by rewrite Hst).
    destruct (effective_action r _ _); [intros ->|intros [[-> Href]|(p & Hp & Hf & ->)]|intros ->];
      simpl; [by eapply tick_idle|by eapply tick_restart_failed|by eapply tick_restart|].
    by eapply tick_remove.
  - intros ->. apply tick_alive. simpl. by rewrite Hst.
  - intros ->. apply tick_alive. simpl. by rewrite Hst.
Qed.

Lemma shutdown_rule evs svc res :
  stop_result evs svc res → on_shutdown evs (entry_of svc) (entry_of <$> res).
Proof.
  unfold stop_result. destruct (s_state svc) as [r|p|p d] eqn:Hst.
  - intros ->. apply shutdown_keep. simpl. by rewrite Hst.
  - intros [(d & Ha & ->)|(e & Ha & ->)];
      [apply (shutdown_stop _ (entry_of svc) p)|apply (shutdown_stop_failed _ (entry_of svc) p e)];
      simpl; by rewrite ?Hst.
  - intros ->. apply shutdown_keep. simpl. by rewrite Hst.
Qed.

Lemma start_rule evs svc res :
  start_result evs svc res → on_start evs (entry_of svc) (entry_of <$> res).
Proof.
  intros [[-> Href]|(p & Hp & Hf & ->)]; [by apply start_failed|].
  by apply (start_up _ (entry_of svc)).
Qed.

Lemma reload_rule configs evs svc res :
  reload_result configs evs svc res →
  on_reload configs evs (entry_of svc) (entry_of <$> res).
Proof.
  unfold reload_result. destruct (configs !! s_name svc) as [cfg|] eqn:Hcfg.
  - case_bool_decide as Heq.
    { intros ->. by apply (reload_same configs _ (entry_of svc) cfg). }
    intros (argv & envp & _ & Hres). unfold restarted in Hres. simpl in Hres.
    destruct (s_state svc) as [r|p|p d] eqn:Hst; decompose_ctx; subst.
    + by apply (reload_start configs _ (entry_of svc) cfg r); simpl; rewrite ?Hst.
    + by apply (reload_restart configs _ (entry_of svc) cfg p); simpl; rewrite ?Hst.
    + by apply (reload_restart_ending configs _ (entry_of svc) cfg p); simpl; rewrite ?Hst.
  - unfold dropped. destruct (s_state svc) as [r|p|p d] eqn:Hst; intros; decompose_ctx; subst.
    + by apply (reload_drop configs _ (entry_of svc) r); simpl; rewrite ?Hst.
    + by apply (reload_remove configs _ (entry_of svc) p); simpl; rewrite ?Hst.
    + by apply (reload_remove_ending configs _ (entry_of svc) p); simpl; rewrite ?Hst.
Qed.

Lemma partial_rule configs evs svc res :
  reload_partial configs evs svc res →
  on_partial_reload configs evs (entry_of svc) (entry_of <$> res).
Proof.
  intros [->|[Hres|Hres]]; [apply partial_untouched|by apply partial_done, reload_rule|].
  destruct (configs !! s_name svc) as [cfg|] eqn:Hcfg.
  - destruct Hres as [Hne [[_ [->|(argv & _ & ->)]]|(argv & envp & _ & Hfail)]];
      [apply partial_untouched..|].
    destruct Hfail as [(Hst & Href & ->)|(p & e & Hst & Ha & ->)]; simpl in *.
    + unfold is_stopped in Hst. simpl in Hst. destruct (s_state svc) as [r|p|p d] eqn:Hs; try done.
      by apply (partial_start configs _ (entry_of svc) cfg r); simpl; rewrite ?Hs.
    + by apply (partial_restart configs _ (entry_of svc) cfg p e); simpl; rewrite ?Hst.
  - destruct Hres as (p & e & Hst & Ha & ->).
    by apply (partial_remove configs _ (entry_of svc) p e); simpl; rewrite ?Hst.
Qed.

Section control_rules.
Context {K : Type} `{!Platform K} `{!PlatformLaws K}.
Implicit Types (reg : service_registry) (w : world K).

(** A stop after a message: its signal is answered, or refused. *)
Lemma said_then_stopped level msg svc p w w1 (o : outcome io_error unit) svc' w' :
  s_state svc = Running p → says level msg w w1 → stop_post svc w1 o svc' w' →
  (stop_answered (s_config svc) p (ROk tt) (events w w') ∧
     ∃ d, svc' = set_state (Stopping p d) svc) ∨
  ∃ e, stop_answered (s_config svc) p (RErr e) (events w w') ∧ svc' = svc.
Proof.
  intros Hst [Hw _]%says_calm [Hle Hpost]. rewrite Hst in Hpost.
  assert (Hsub : events w1 w' ⊆ events w w') by (apply events_sub; [apply Hw|apply Hle|done]).
  destruct o as [[]|[e| |]| | |]; try done.
  - destruct Hpost as (t & _ & -> & Htr). left. split; [|by eexists].
    apply Hsub. rewrite (events_app _ _ _ Htr). by left.
  - destruct Hpost as [-> Htr]. right. exists e. split; [|done].
    apply Hsub. rewrite (events_app _ _ _ Htr). by left.
Qed.

Lemma control_rule op k svc reg w o reg' w' :
  services_map reg !! k = Some svc → control_effect op k svc reg w o reg' w' →
  ∃ e', on_command (events w w') (entry_of svc) op e' ∧
    entries_of reg' = <[k := e']> (entries_of reg).
Proof.
  intros Hk.
  assert (Hsame : <[k := entry_of svc]> (entries_of reg) = entries_of reg).
  { apply insert_id. unfold entries_of. by rewrite lookup_fmap, Hk. }
  assert (Hinsert : ∀ svc', entries_of (update_service k svc' reg) =
    <[k := entry_of svc']> (entries_of reg)) by (intros svc'; apply fmap_insert).
  assert (Hmoot : moot (entry_of svc) op → o = Ok tt ∧ reg' = reg ∧ w' = w →
    ∃ e', on_command (events w w') (entry_of svc) op e' ∧
      entries_of reg' = <[k := e']> (entries_of reg)).
  { intros Hm (_ & -> & _). exists (entry_of svc). by split; [apply command_moot|]. }
  assert (Hstart : ∀ r, op ≠ ControlOp.Stop → s_state svc = Stopped r →
    s_pending_action svc = no_action → start_registered_post k svc reg w o reg' w' →
    ∃ e', on_command (events w w') (entry_of svc) op e' ∧
      entries_of reg' = <[k := e']> (entries_of reg)).
  { intros r Hop Hst Hp [_ Ho]. assert (Hd : e_phase (entry_of svc) = Down r) by (simpl; by rewrite Hst).
    destruct o as [[]|e| | |]; try done.
    - destruct Ho as (p & ? & ? & ->). exists (in_phase (Up p) (entry_of svc)).
      split; [by eapply command_start|apply Hinsert].
    - destruct Ho as [-> ?]. exists (entry_of svc). by split; [eapply command_start_failed|]. }
  unfold control_effect.
  destruct op, (s_state svc) as [r|p|p d] eqn:Hst, (s_pending_action svc) eqn:Hpend;
    try (by apply (Hstart r));
    try (apply Hmoot; first
      [ by apply moot_stop; simpl; rewrite Hst | by apply moot_start; simpl; rewrite Hst
      | by apply (moot_restart _ p); simpl; rewrite Hst
      | apply moot_pending; [done|by simpl; rewrite Hpend] ]);
    intros (w1 & svc' & Hw & Hpost & ->);
    eapply said_then_stopped in Hpost as [[Ha [d ->]]|(e & Ha & ->)]; try done.
  all: rewrite Hinsert; eexists; (split; [|reflexivity]).
  all: first
    [ by apply (command_stop _ (entry_of svc) p); simpl; rewrite ?Hst
    | by apply (command_stop_failed _ (entry_of svc) p e); simpl; rewrite ?Hst
    | by apply (command_restart _ (entry_of svc) p); simpl; rewrite ?Hst
    | by apply (command_restart_failed _ (entry_of svc) p e); simpl; rewrite ?Hst ].
Qed.
End control_rules.

(** The reasons of the code are those of the policy. *)
Lemma end_reason_of er st :
  from_exit_reason_and_service_state er st = end_reason (state_is_stopping st) er.
Proof. by destruct er. Qed.

Section ends.
Context {K : Type} `{!Platform K}.

Lemma reap_of_end p st svc :
  entry_of (reap_of [(p, st)] svc) =
    match exit_reason_of st with Some er => on_end p er (entry_of svc) | None => entry_of svc end.
Proof.
  unfold reap_of, first_exit, on_end, pid. simpl.
  destruct (s_state svc) as [r|q|q d] eqn:Hst, (exit_reason_of st) as [er|]; simpl;
    rewrite ?Hst; simpl; try done; rewrite (bool_decide_ext (p = q) (q = p)) by done;
    case_bool_decide; simpl; rewrite ?Hst; try done; unfold set_state, in_phase, entry_of; simpl;
    by rewrite end_reason_of.
Qed.

Lemma reap_entries p st (m : gmap Z service) :
  entry_of <$> (reap_of [(p, st)] <$> m) = reported_end p st (entry_of <$> m).
Proof.
  unfold reported_end. apply map_eq. intros k.
  destruct (exit_reason_of st) as [er|] eqn:Her; rewrite !lookup_fmap;
    destruct (m !! k) as [svc|]; simpl; try done; by rewrite reap_of_end, Her.
Qed.
End ends.

(** * Calls that tell the policy nothing *)

Section inertia.
Context {K : Type} `{!Platform K} `{!PlatformLaws K}.
Abbreviation M := (@M K).
Abbreviation inertly m := (moves (only inert) m).

(** A call all whose results are inert. *)
Definition silent {A} (op : sysop A) : bool :=
  match op with SReadToString _ | SRead _ _ | SWait => false | _ => true end.

Lemma inertly_sys {S E A} (op : sysop A) :
  silent op = true → inertly (sys op : M S E A).
Proof. intros Hop. apply moves_only_sys. intros r. by destruct op. Qed.
Lemma inertly_on_service {E A} k (m : M service E A) : inertly m → inertly (on_service k m).
Proof. apply moves_on_service, _. Qed.
Lemma inertly_svlogg {S E} level msg : inertly (svlogg level msg : M S E unit).
Proof.
  apply moves_svlogg; [apply _|]. intros A op w r k Hop _. apply only_one. by destruct op.
Qed.
Lemma inertly_child_exec {E A} sigset devnull_fd log_fd :
  inertly (child_exec sigset devnull_fd log_fd : M service E A).
Proof. intros svc w. apply wp_child_exec. Qed.
#[local] Hint Resolve inertly_sys inertly_svlogg inertly_child_exec : svlopp.
#[local] Hint Extern 1 (silent _ = true) => reflexivity : svlopp.
#[local] Ltac inertly :=
  repeat first [ progress moving | apply inertly_on_service ].

Lemma inertly_start_service sigset : inertly (start_service sigset : M _ _ unit).
Proof. unfold start_service, fork_service. inertly. Qed.
Lemma inertly_stop_service : inertly (stop_service : M _ _ unit).
Proof. unfold stop_service. inertly. Qed.
Lemma inertly_running_pid {E} : inertly (running_pid : M service E Z).
Proof. unfold running_pid. inertly. Qed.
#[local] Hint Resolve inertly_start_service inertly_stop_service inertly_running_pid : svlopp.

Lemma inertly_try_start {E} ok_text err_text k sigset :
  inertly (try_start ok_text err_text k sigset : M _ E unit).
Proof. unfold try_start. inertly. Qed.
#[local] Hint Resolve inertly_try_start : svlopp.

Lemma inertly_service_keys {E} : inertly (service_keys : M _ E (list Z)).
Proof. unfold service_keys, services. inertly. Qed.
#[local] Hint Resolve inertly_service_keys : svlopp.

Lemma inertly_apply_control_op k op sigset : inertly (apply_control_op k op sigset : M _ _ unit).
Proof. unfold apply_control_op, start_requested, start_borrowed. inertly. Qed.
Lemma inertly_handle_tick {E} now sigset : inertly (handle_tick now sigset : M _ E unit).
Proof.
  unfold handle_tick, tick_entry, tick_service, force_kill_service_process. inertly.
Qed.
Lemma inertly_stop_all {E} : inertly (stop_all : M _ E unit).
Proof. unfold stop_all, stop_entry. inertly. Qed.
Lemma inertly_start_all {E} sigset : inertly (start_all sigset : M _ E unit).
Proof. unfold start_all. inertly. Qed.

Lemma inertly_write_all {S} bound fd buf : inertly (write_all bound fd buf : M S _ unit).
Proof. revert buf. induction bound as [|bound IH]; intros buf; destruct buf; simpl; inertly. Qed.
#[local] Hint Resolve inertly_write_all : svlopp.
Lemma inertly_flush {E} bound path : inertly (flush_status_file bound path : M _ E unit).
Proof. unfold flush_status_file, format_status, services, write_status_file. inertly. Qed.

Lemma inertly_build_svc_envp {S} cfg : inertly (build_svc_envp cfg : M S _ _).
Proof. unfold build_svc_envp. inertly. Qed.
#[local] Hint Resolve inertly_build_svc_envp : svlopp.
Lemma inertly_service_new {S} id name cfg : inertly (service_new id name cfg : M S _ _).
Proof. unfold service_new. inertly. Qed.
#[local] Hint Resolve inertly_service_new : svlopp.

Lemma inertly_change_service sigset n k cfg :
  inertly (change_service sigset n k cfg : M _ _ unit).
Proof. unfold change_service, update_config, restart_changed, start_borrowed. inertly. Qed.
Lemma inertly_add_service sigset n cfg : inertly (add_service sigset n cfg : M _ _ unit).
Proof. unfold add_service, next_id, on_registry. inertly. Qed.
#[local] Hint Resolve inertly_change_service inertly_add_service : svlopp.

Lemma inertly_reconcile configs sigset : inertly (reconcile configs sigset : M _ _ unit).
Proof.
  unfold reconcile, on_registry, service_ids, services, drop_service, apply_config, on_registry.
  inertly.
Qed.

(** The events of the SIGCHLD handler are waits or inert. *)
Definition reaping (ev : event) : Prop := wait_of ev = None → inert ev.

Lemma reaping_handle_sigchld bound : moves (only reaping) (handle_sigchld bound : M _ _ unit).
Proof.
  induction bound as [|bound IH]; simpl; [moving|].
  apply moves_bind; [apply _|apply moves_only_sys|intros r].
  { by intros [[[p st]|]|e]. }
  moving. apply moves_handle_status; [apply _|].
  intros A op w r' k Hop _. apply only_one. intros _. by destruct op.
Qed.
End inertia.

(** * Computations that obey the policy *)

Section acts.
Context {K : Type} `{!Platform K} `{!PlatformLaws K} (res : resources).
Abbreviation M := (@M K).
Implicit Types (sv : supervisor) (w : world K) (q : list Z).

(** The machine for the descriptors and the configuration of a run. *)
Definition run_obeys : policy → list event → policy → Prop :=
  obeys (r_sfd res) (r_tfd res) (r_pfd res) (r_config_path res).

(** The steps between two states of the supervisor. *)
Definition stepped q sv w q' sv' w' : Prop :=
  ∃ evs, trace w' = trace w ++ evs ∧ run_obeys (policy_of q sv) evs (policy_of q' sv').

(** [m], from signals and a state in [P], keeps the invariant and obeys the
    policy however it ends; a result is in [Q]. *)
Definition acts {A} (P : list Z → supervisor → Prop) (m : M supervisor io_error A)
    (Q : A → list Z → supervisor → Prop) : Prop :=
  ∀ q sv w, sv_inv sv w → P q sv → wp m (λ o sv' w', sv_inv sv' w' ∧
    ∃ q', stepped q sv w q' sv' w' ∧ ∀ a, o = Ok a → Q a q' sv') sv w.

Lemma stepped_inert q sv w sv' w' :
  only inert w w' → policy_of q sv' = policy_of q sv → stepped q sv w q sv' w'.
Proof.
  intros (evs & Htr & Hevs) Heq. exists evs. split; [done|]. rewrite Heq. by apply obeys_inert.
Qed.
Lemma stepped_trans q1 sv1 w1 q2 sv2 w2 q3 sv3 w3 :
  stepped q1 sv1 w1 q2 sv2 w2 → stepped q2 sv2 w2 q3 sv3 w3 → stepped q1 sv1 w1 q3 sv3 w3.
Proof.
  intros (evs & Ht & Ho) (evs' & Ht' & Ho'). exists (evs ++ evs').
  split; [by rewrite Ht', Ht, app_assoc|by eapply obeys_app].
Qed.

Lemma acts_ret {A} (P : list Z → supervisor → Prop) (a : A) :
  acts P (ret a) (λ a' q sv, a' = a ∧ P q sv).
Proof.
  intros q sv w Hi HP. apply wp_ret. split; [done|]. exists q.
  split; [by apply stepped_inert|]. by intros ? [= <-].
Qed.
Lemma acts_throw {A} (P : list Z → supervisor → Prop) e (Q : A → list Z → supervisor → Prop) :
  acts P (throw e) Q.
Proof. intros q sv w Hi HP. apply wp_throw. split; [done|]. exists q. by split; [apply stepped_inert|]. Qed.
Lemma acts_fuel {A} (P : list Z → supervisor → Prop) (Q : A → list Z → supervisor → Prop) :
  acts P out_of_fuel Q.
Proof. intros q sv w Hi HP. split; [done|]. exists q. by split; [apply stepped_inert|]. Qed.
Lemma acts_panic {A} (P : list Z → supervisor → Prop) msg (Q : A → list Z → supervisor → Prop) :
  acts P (panic msg) Q.
Proof. intros q sv w Hi HP. split; [done|]. exists q. by split; [apply stepped_inert|]. Qed.
Lemma acts_get (P : list Z → supervisor → Prop) :
  acts P get (λ a q sv, a = sv ∧ P q sv).
Proof.
  intros q sv w Hi HP. apply wp_get. split; [done|]. exists q.
  split; [by apply stepped_inert|]. by intros ? [= <-].
Qed.

Lemma acts_bind {A B} (P : list Z → supervisor → Prop) (m : M supervisor io_error A)
    (k : A → M supervisor io_error B) (R : A → list Z → supervisor → Prop)
    (Q : B → list Z → supervisor → Prop) :
  acts P m R → (∀ a, acts (R a) (k a) Q) → acts P (bind m k) Q.
Proof.
  intros Hm Hk q sv w Hi HP. apply wp_bind. eapply wp_mono; [by apply Hm|].
  intros o sv1 w1 (Hi1 & q1 & Hst & Ho).
  destruct o as [a|e| | |]; simpl; try done; try (split; [done|]; by exists q1).
  eapply wp_mono; [apply (Hk a q1); [done|by apply Ho]|].
  intros o sv2 w2 (Hi2 & q2 & Hst2 & Ho2). split; [done|]. exists q2.
  split; [by eapply stepped_trans|done].
Qed.

Lemma acts_conseq {A} (P P' : list Z → supervisor → Prop) (m : M supervisor io_error A)
    (Q Q' : A → list Z → supervisor → Prop) :
  acts P m Q → (∀ q sv, P' q sv → P q sv) → (∀ a q sv, Q a q sv → Q' a q sv) → acts P' m Q'.
Proof.
  intros Hm HP HQ q sv w Hi HP'. eapply wp_mono; [apply (Hm q); auto|].
  intros o sv' w' (Hi' & q' & Hst & Ho). split; [done|]. exists q'. eauto.
Qed.

Lemma acts_catch {A} (P : list Z → supervisor → Prop) (m : M supervisor io_error A)
    (Q : list Z → supervisor → Prop) :
  (∀ q sv w, sv_inv sv w → P q sv → wp m (λ o sv' w', sv_inv sv' w' ∧
    ∃ q', stepped q sv w q' sv' w' ∧ Q q' sv') sv w) →
  acts P (catch m) (λ _, Q).
Proof.
  intros Hm q sv w Hi HP. apply wp_catch. eapply wp_mono; [by apply Hm|].
  intros o sv' w' (Hi' & q' & Hst & HQ). destruct o; try done; (split; [done|]); by exists q'.
Qed.

(** A computation that changes nothing the policy sees. *)
Lemma acts_inert {A} (P : list Z → supervisor → Prop) (m : M supervisor io_error A) :
  moves (only inert) m → (∀ sv w, wp m (λ _ sv' w', sv' = sv ∧ world_calm w w') sv w) →
  acts P m (λ _, P).
Proof.
  intros Hm Hpure q sv w Hi HP. eapply wp_mono; [apply wp_and; [apply Hm|apply Hpure]|].
  intros o sv' w' (Hin & -> & Hw). split; [by apply (advances_calm sv w w' Hi Hw)|].
  exists q. split; [by apply stepped_inert|done].
Qed.

Lemma acts_quiet {A} (P : list Z → supervisor → Prop) (m : M supervisor io_error A) :
  moves (only inert) m → quietly true m → acts P m (λ _, P).
Proof.
  intros Hm Hq. apply acts_inert; [done|]. intros sv w. eapply wp_mono; [apply Hq|].
  intros o sv' w' (Hs & Hw & _). by rewrite Hs.
Qed.

Lemma acts_svlogg (P : list Z → supervisor → Prop) level msg :
  acts P (svlogg level msg) (λ _, P).
Proof. apply acts_quiet; [apply inertly_svlogg|apply quietly_svlogg]. Qed.

Lemma set_registry_same sv : set_sv_registry (sv_registry sv) sv = sv.
Proof. by destruct sv. Qed.

Lemma acts_flush (P : list Z → supervisor → Prop) bound path :
  acts P (on_sv_registry (flush_status_file bound path)) (λ _, P).
Proof.
  apply acts_inert; [apply moves_zoom, inertly_flush|].
  intros sv w. apply wp_zoom. eapply wp_mono; [apply wp_flush_status_file|].
  intros o reg' w' (-> & Hw & _). by rewrite set_registry_same.
Qed.

(** A loop that a [break] can leave: [I] relates what is left to handle with
    the queue of the policy. *)
Lemma acts_for_break {X} (I : list X → list Z → Prop) (l : list X)
    (body : X → M supervisor io_error flow) :
  (∀ x rest, acts (λ q _, I (x :: rest) q) (body x) (λ c q _, c = Continue → I rest q)) →
  acts (λ q _, I l q) (for_break l body) (λ c q _, c = Continue → I [] q).
Proof.
  intros Hbody. induction l as [|x l IH]; simpl.
  - eapply acts_conseq; [apply acts_ret|by intros ?? HP; exact HP|]. by intros ? q sv [_ ?].
  - eapply acts_bind; [apply Hbody|]. intros [|].
    + eapply acts_conseq; [apply IH|by intros q sv HI; apply HI|done].
    + eapply acts_conseq; [apply acts_ret|by intros ?? HP; exact HP|]. by intros ? ? ? [-> _].
Qed.

(** ** The parts that do something *)

(** [acts], after a step. *)
Lemma acts_after {A} (P : list Z → supervisor → Prop) (m : M supervisor io_error A)
    (Q : A → list Z → supervisor → Prop) q sv w q1 sv1 w1 :
  acts P m Q → stepped q sv w q1 sv1 w1 → sv_inv sv1 w1 → P q1 sv1 →
  wp m (λ o sv' w', sv_inv sv' w' ∧
    ∃ q', stepped q sv w q' sv' w' ∧ ∀ a, o = Ok a → Q a q' sv') sv1 w1.
Proof.
  intros Hm Hst Hi HP. eapply wp_mono; [by apply (Hm q1)|].
  intros o sv' w' (Hi' & q' & Hst' & Ho). split; [done|]. exists q'.
  split; [by eapply stepped_trans|done].
Qed.

(** The end of an arm. *)
Lemma acts_flush_continue bound path :
  acts (λ q _, q = []) (on_sv_registry (flush_status_file bound path) ;;! ret Continue)
    (λ c q _, c = Continue → q = []).
Proof.
  eapply acts_bind; [apply acts_flush|]. intros [].
  eapply acts_conseq; [apply acts_ret|by intros ?? HP; exact HP|]. by intros c q sv [_ ->].
Qed.

(** Services that follow a rule are entries that do. *)
Lemma each_services (R : service → option service → Prop) (rule : entry → option entry → Prop)
    (reg reg' : service_registry) :
  (∀ svc r, R svc r → rule (entry_of svc) (entry_of <$> r)) →
  (∀ k, match services_map reg !! k with
        | Some svc => R svc (services_map reg' !! k)
        | None => services_map reg' !! k = None
        end) →
  each rule (entries_of reg) (entries_of reg').
Proof.
  intros Hrule Hall k. unfold entries_of. rewrite !lookup_fmap. specialize (Hall k).
  destruct (services_map reg !! k) as [svc|]; simpl; [by apply Hrule|by rewrite Hall].
Qed.

(** *** The timer *)

Lemma acts_handle_tfd bound :
  acts (λ q _, q = []) (handle_tfd bound res) (λ c q _, c = Continue → q = []).
Proof.
  intros q sv w Hi ->. unfold handle_tfd, read_timerfd. wp_step. wp_step.
  apply wp_sys_try; [|intros e k Hk; split; [|exists []; split; [|done]]]; last first.
  { apply stepped_inert; [by apply only_one|done]. }
  { eapply (advances_calm sv w); [done|by apply world_calm_sys]. }
  intros bs k Hk. set (ev := Ev (SRead (r_tfd res) 8) (ROk bs)). wp_step.
  assert (Hw := world_calm_sys (SRead (r_tfd res) 8) w _ _ eq_refl Hk).
  pose proof (advances_calm _ _ _ Hi Hw) as (Hi1 & _).
  case_bool_decide as Hlen; wp_step; last first.
  { split; [done|]. exists []. split; [|done]. exists [ev]. split; [done|].
    by apply obeys_one, re_bad_tick. }
  wp_step. apply wp_sys. intros now k2 Hk2. wp_step. wp_step. unfold on_sv_registry at 1. wp_step.
  pose proof (advances_calm _ _ _ Hi1 (world_calm_sys SNow _ _ _ eq_refl Hk2)) as (Hi2 & _).
  eapply wp_mono; [apply wp_and; [apply wp_handle_tick, Hi2|apply inertly_handle_tick]|].
  intros o reg' w' [(-> & Hsafe & _ & Hres) (evs & Htr & Hevs)]. wp_step.
  eapply acts_after; [apply acts_flush_continue| |by eapply (advances_registry sv _ (Ok tt))|done].
  exists ([ev] ++ Ev SNow now :: evs). split; [rewrite Htr; simpl; by rewrite <- !app_assoc|].
  apply obeys_one, (re_tick _ _ _ _ (policy_of [] sv) (entries_of reg')); [done|by constructor|].
  eapply each_services; [apply tick_rule|]. intros k'. specialize (Hres k').
  rewrite (events_app _ _ _ Htr) in Hres. simpl.
  destruct (services_map (sv_registry sv) !! k'); [|done].
  eapply tick_result_mono; [|done]. by intros ev' ?; right.
Qed.

(** *** The control FIFO *)

Lemma command_of_frame cmd :
  command_wf cmd → command_of_read (ROk (encode_command cmd)) = Ok (Some cmd).
Proof.
  intros Hwf. pose proof (length_encode_command cmd) as Hlen.
  pose proof (parse_frame_encode cmd Hwf) as Hparse.
  unfold command_of_read. destruct (encode_command cmd) as [|b bs]; [done|].
  by rewrite bool_decide_true, Hparse.
Qed.

Lemma command_of_read_some bs cmd :
  Forall is_byte bs → command_of_read (ROk bs) = Ok (Some cmd) →
  bs = encode_command cmd ∧ command_wf cmd.
Proof.
  intros Hb. unfold command_of_read. destruct bs as [|b bs]; [done|].
  case_bool_decide as Hlen; [|done]. destruct (parse_frame (b :: bs)) as [c|] eqn:Hp; [|done].
  intros [= ->]. destruct (encode_parse_frame _ _ Hlen Hb Hp) as [<- ?]. done.
Qed.

(** A read that is no command. *)
Lemma stepped_no_command sv w w' r :
  trace w' = trace w ++ [Ev (SRead (r_pfd res) WIRE_COMMAND_SIZE) r] →
  (∀ cmd, command_of_read r ≠ Ok (Some cmd)) → stepped [] sv w [] sv w'.
Proof.
  intros Htr Hr. eexists. split; [done|]. apply obeys_one. destruct r as [bs|e].
  - apply re_bad_command. intros cmd Hwf ->. by apply (Hr cmd), command_of_frame.
  - by apply re_inert, Forall_singleton.
Qed.

(** A command is applied. *)
Lemma wp_command sv w w1 cmd :
  sv_inv sv w1 → command_wf cmd →
  trace w1 = trace w ++
    [Ev (SRead (r_pfd res) WIRE_COMMAND_SIZE) (ROk (encode_command cmd))] →
  wp (on_sv_registry (apply_control_op (cmd_service_id cmd) (cmd_op cmd) (original_sigset res)))
    (λ _ sv' w', sv_inv sv' w' ∧ stepped [] sv w [] sv' w') sv w1.
Proof.
  intros Hi Hwf Htr. unfold on_sv_registry. wp_step.
  eapply wp_mono; [apply wp_and; [apply wp_apply_control_op, Hi|apply inertly_apply_control_op]|].
  intros o reg' w' [[Hsafe Heff] (evs & Htr' & Hevs)].
  split; [by eapply (advances_registry sv)|].
  eexists (_ :: evs). split; [by rewrite Htr', Htr, <- app_assoc|].
  apply obeys_one, (re_command _ _ _ _ (policy_of [] sv) (entries_of reg')); [done|done|].
  rewrite <- (events_app _ _ _ Htr').
  unfold command_rule. simpl. unfold entries_of at 1. rewrite lookup_fmap.
  destruct (services_map (sv_registry sv) !! cmd_service_id cmd) as [svc|] eqn:Hk; simpl.
  - by eapply control_rule.
  - by destruct Heff as (_ & -> & _).
Qed.

Lemma acts_handle_pfd bound :
  acts (λ q _, q = []) (handle_pfd bound res) (λ c q _, c = Continue → q = []).
Proof.
  intros q sv w Hi ->. unfold handle_pfd. wp_step. wp_step.
  eapply wp_mono; [apply wp_read_control_command|].
  intros o sv1 w1 (-> & Hw & r & Htr & -> & Hfits).
  pose proof (advances_calm _ _ _ Hi Hw) as (Hi1 & _).
  assert (Hnone : (∀ cmd, command_of_read r ≠ Ok (Some cmd)) → stepped [] sv w [] sv w1).
  { by apply stepped_no_command. }
  destruct (command_of_read r) as [[cmd|]|[e|e]| | |] eqn:Hr; simpl;
    try done; try (assert (Hst : stepped [] sv w [] sv w1) by by apply Hnone);
    try (split; [done|]; by exists []).
  - assert (Hcmd : r = ROk (encode_command cmd) ∧ command_wf cmd).
    { destruct r as [bs|e]; [|by unfold command_of_read in Hr; case_bool_decide].
      destruct (Hfits bs eq_refl) as [_ Hb].
      by destruct (command_of_read_some _ _ Hb Hr) as [<- ?]. }
    destruct Hcmd as [-> Hwf]. wp_step. wp_step.
    eapply wp_mono; [by apply (wp_command sv w)|]. intros o sv' w' [Hi' Hst].
    destruct o as [[]|e| | |]; simpl; try done; try (split; [done|]; by exists []);
      (eapply (acts_after (λ q _, q = [])); [|done..]);
      (eapply (acts_bind _ _ _ (λ _ q _, q = [])); [|intros ?; apply acts_flush_continue]);
      [|apply acts_svlogg].
    eapply acts_conseq; [apply acts_ret|by intros ?? HP; exact HP|by intros ? q ? [_ ?]].
  - eapply (acts_after (λ q _, q = [])); [|done..].
    eapply acts_bind; [apply acts_svlogg|]. intros [].
    eapply acts_conseq; [apply acts_ret|by intros ?? HP; exact HP|by intros ? q ? [_ ?]].
Qed.

(** *** The ends of the children *)

Lemma wait_of_inv ev p st :
  wait_of ev = Some (p, st) → ev = Ev SWait (ROk (Some (p, st))).
Proof. destruct ev as [A op r]. by destruct op; simpl; intros; simplify_eq; repeat case_match; simplify_eq. Qed.

Lemma obeys_reaping evs pl (m : gmap Z service) :
  Forall reaping evs → p_entries pl = entry_of <$> m →
  run_obeys pl evs (with_entries (entry_of <$> (reap_of (waits evs) <$> m)) pl).
Proof.
  revert pl m. induction evs as [|ev evs IH]; intros pl m Hevs Hpl.
  - assert (Hid : entry_of <$> (reap_of [] <$> m) = p_entries pl).
    { rewrite Hpl, <- map_fmap_compose. apply map_fmap_ext. intros k svc _. simpl.
      by rewrite reap_of_nil. }
    simpl. rewrite Hid. destruct pl. apply obeys_nil.
  - apply Forall_cons in Hevs as [Hev Hevs]. change (ev :: evs) with ([ev] ++ evs).
    unfold waits. rewrite omap_app. fold (waits evs).
    destruct (wait_of ev) as [[p st]|] eqn:Hwait.
    + apply wait_of_inv in Hwait as ->. eapply obeys_step; [apply re_end|].
      change (omap wait_of [_]) with [(p, st)].
      assert (Hcons : reap_of ([(p, st)] ++ waits evs) <$> m =
        reap_of (waits evs) <$> (reap_of [(p, st)] <$> m)).
      { rewrite <- map_fmap_compose. apply map_fmap_ext. intros k svc _. apply reap_of_cons. }
      rewrite Hcons.
      apply (IH (with_entries (reported_end p st (p_entries pl)) pl)); [done|].
      simpl. by rewrite reap_entries, Hpl.
    + assert (Hnil : omap wait_of [ev] = []) by (simpl; by rewrite Hwait).
      rewrite Hnil. eapply obeys_step; [|by apply IH]. apply re_inert, Forall_singleton.
      by apply Hev.
Qed.

(** A signal to ignore. *)
Lemma stepped_ignore signo rest sv w w' :
  trace w' = trace w →
  ignorable (bool_decide (sv_state sv = SupervisorState.ShutdownRequested)) signo →
  stepped (signo :: rest) sv w rest sv w'.
Proof.
  intros Htr Hign. exists []. split; [by rewrite app_nil_r|].
  by apply obeys_one, (re_ignore _ _ _ _ (policy_of (signo :: rest) sv) signo rest).
Qed.

Lemma acts_sigchld bound rest :
  acts (λ q _, q = SIGCHLD :: rest) (on_sv_registry (handle_sigchld bound))
    (λ _ q _, q = rest).
Proof.
  intros q sv w Hi ->. unfold on_sv_registry. wp_step.
  eapply wp_mono; [apply wp_and; [apply wp_handle_sigchld, Hi|apply reaping_handle_sigchld]|].
  intros o reg' w' [[Hsafe (evs0 & Htr0 & Hserv)] (evs & Htr & Hevs)].
  assert (evs0 = evs) as -> by (rewrite Htr0 in Htr; by apply app_inv_head in Htr).
  split; [by eapply (advances_registry sv)|]. exists rest. split; [|done].
  eapply stepped_trans; [|by apply stepped_ignore; [reflexivity|left]].
  exists evs. split; [done|]. unfold policy_of, entries_of. simpl. rewrite Hserv.
  by apply (obeys_reaping evs (policy_of (SIGCHLD :: rest) sv)).
Qed.

(** *** The requests *)

Lemma acts_request signo rest :
  signo = SIGINT ∨ signo = SIGTERM →
  acts (λ q sv, q = signo :: rest ∧ sv_state sv = SupervisorState.Running)
    (modify (set_sv_state SupervisorState.ShutdownRequested) ;;! on_sv_registry stop_all)
    (λ _ q _, q = rest).
Proof.
  intros Hsig q sv w Hi [-> Hst]. wp_steps. unfold on_sv_registry. wp_step. simpl.
  eapply wp_mono; [apply wp_and; [apply wp_stop_all, Hi|apply inertly_stop_all]|].
  intros o reg' w' [(-> & Hsafe & _ & Hres) (evs & Htr & Hevs)].
  split; [by eapply (advances_registry sv _ (Ok tt)) in Hsafe as [? _]|]. exists rest.
  split; [|done]. exists evs. split; [done|]. unfold policy_of. simpl. rewrite Hst. simpl.
  apply obeys_one, re_shutdown; [done|done|].
  rewrite (events_app _ _ _ Htr) in Hres. eapply each_services, Hres. apply shutdown_rule.
Qed.

(** The entries of a reconciled registry. *)
Lemma grown_services configs evs gen gen' reg reg' (w w' : world K) :
  reg_inv gen reg w → reg_inv gen' reg' w' → gen ≤ gen' →
  (∀ k svc, services_map reg' !! k = Some svc →
    is_Some (services_map reg !! k) ∨
    gen ≤ k ∧ ∃ cfg, configs !! s_name svc = Some cfg ∧ added (s_name svc) cfg evs svc) →
  grown configs evs gen gen' (entries_of reg) (entries_of reg').
Proof.
  intros Hi Hi' Hle Hnew. split; [done|]. intros k e. unfold entries_of. rewrite !lookup_fmap.
  destruct (services_map reg' !! k) as [svc|] eqn:Hk; [|done]. intros [= <-] Hnone.
  destruct (Hnew k svc Hk) as [[svc0 Hk0]|(Hge & cfg & Hcfg & _ & Hc & _ & Hpend & p & Hp & Hf & Hst)].
  { by rewrite Hk0 in Hnone. }
  destruct (reg_inv_service _ _ _ _ _ Hi' Hk) as (_ & Hlt & _). simpl.
  split_and!; [lia|lia|by rewrite Hcfg, Hc|done|]. exists p. by rewrite Hst.
Qed.

Lemma reloaded_services configs evs gen gen' reg reg' (w w' : world K) :
  reg_inv gen reg w → reg_inv gen' reg' w' → gen ≤ gen' → reconciled configs gen evs reg reg' →
  reloaded configs evs gen gen' (entries_of reg) (entries_of reg').
Proof.
  intros Hi Hi' Hle (Hold & Hmade & Hnew). split_and!; [|by eapply grown_services|].
  - intros k e. unfold entries_of. rewrite !lookup_fmap.
    destruct (services_map reg !! k) as [svc|] eqn:Hk; [|done]. intros [= <-].
    by apply reload_rule, Hold.
  - intros n Hn. destruct (reconciled_names configs gen evs reg reg' n) as (k & svc & Hk & Hname);
      [by split_and!|done|].
    exists k, (entry_of svc). unfold entries_of. by rewrite lookup_fmap, Hk.
Qed.

Lemma partly_reloaded_services configs evs gen gen' reg reg' (w w' : world K) :
  reg_inv gen reg w → reg_inv gen' reg' w' → gen ≤ gen' →
  reload_refused configs gen' evs → unfinished configs gen evs reg reg' →
  partly_reloaded configs evs gen gen' (entries_of reg) (entries_of reg').
Proof.
  intros Hi Hi' Hle Hwhy (Hold & Hnew). split_and!; [done| |by eapply grown_services].
  intros k e. unfold entries_of. rewrite !lookup_fmap.
  destruct (services_map reg !! k) as [svc|] eqn:Hk; [|done]. intros [= <-].
  by apply partial_rule, Hold.
Qed.

Lemma set_services_same sv : set_sv_services (sv_registry sv, sv_id_gen sv) sv = sv.
Proof. by destruct sv. Qed.

Lemma acts_reload rest :
  acts (λ q sv, q = SIGHUP :: rest ∧ sv_state sv = SupervisorState.Running)
    (catch (on_sv_services (reload_services (r_config_path res) (original_sigset res))))
    (λ _ q _, q = rest).
Proof.
  apply acts_catch. intros q sv w Hi [-> Hst]. unfold on_sv_services. wp_step.
  unfold reload_services. wp_step. eapply wp_mono; [apply wp_from_config_file|].
  intros o st w1 (-> & Hw & Ho). pose proof (advances_calm _ _ _ Hi Hw) as (Hi1 & _).
  assert (Hnow : policy_of (SIGHUP :: rest) sv =
    Policy false (SIGHUP :: rest) (sv_id_gen sv) (entries_of (sv_registry sv))).
  { unfold policy_of. by rewrite Hst. }
  destruct o as [configs|e| | |]; simpl; try done; last first.
  { destruct Ho as (r & Htr & Hr). rewrite (set_services_same sv).
    split; [done|]. exists rest. split; [|done]. eexists. split; [done|].
    rewrite Hnow. unfold policy_of. rewrite Hst. apply obeys_one, re_reload_unread. eauto. }
  destruct Ho as (Hcfgs & txt & Htxt & Htr). pose proof Hi1 as (Hreg & Hg & Hb).
  pose proof Hi as (Hreg0 & _).
  eapply wp_mono; [apply wp_and; [by apply wp_reconcile|apply inertly_reconcile]|].
  intros o st w' [[Hsafe Hpost] (evs & Htr' & Hevs)].
  pose proof (advances_reload _ _ _ _ _ Hi1 Hsafe) as (Hi' & _).
  pose proof Hsafe as [(Hreg' & _) [Hle _]].
  assert (Hstep : ∀ pl, reacts (r_sfd res) (r_tfd res) (r_pfd res) (r_config_path res)
      (policy_of (SIGHUP :: rest) sv) (Ev (SReadToString (r_config_path res)) (ROk txt) :: evs) pl →
      pl = policy_of rest (set_sv_services st sv) →
    stepped (SIGHUP :: rest) sv w rest (set_sv_services st sv) w').
  { intros pl Hr ->. eexists. split; [|by apply obeys_one]. by rewrite Htr', Htr, <- app_assoc. }
  assert (Hthen : Policy false rest st.2 (entries_of st.1) =
    policy_of rest (set_sv_services st sv)) by (unfold policy_of; simpl; by rewrite Hst).
  split; [done|]. exists rest. split; [|done].
  rewrite (events_app _ _ _ Htr') in Hpost. rewrite Hnow in Hstep. destruct o as [[]|e| | |]; try done; (eapply Hstep; [|exact Hthen]).
  - eapply re_reload; [done|done|]. by eapply (reloaded_services _ _ _ _ _ _ w1 w').
  - eapply re_reload_failed; [done|done|]. destruct Hpost.
    by eapply (partly_reloaded_services _ _ _ _ _ _ w1 w').
Qed.

(** *** One signal *)

(** The rest of a sequence leaves the queue alone. *)
Lemma acts_end {A} (P : list Z → Prop) (a : A) : acts (λ q _, P q) (ret a) (λ _ q _, P q).
Proof. eapply acts_conseq; [apply acts_ret|by intros ?? HP; exact HP|by intros ? q ? [_ ?]]. Qed.

Lemma acts_break_outer (P : list Z → Prop) : acts (λ q _, P q) break_outer (λ _ q _, P q).
Proof. eapply acts_bind; [apply acts_svlogg|]. intros []. apply acts_end. Qed.

Lemma acts_ignore signo rest :
  acts (λ q sv, q = signo :: rest ∧
      ignorable (bool_decide (sv_state sv = SupervisorState.ShutdownRequested)) signo)
    (ret tt) (λ _ q _, q = rest).
Proof.
  intros q sv w Hi [-> Hign]. apply wp_ret. split; [done|]. exists rest.
  split; [by apply stepped_ignore|done].
Qed.

Lemma acts_hup rest :
  acts (λ q _, q = SIGHUP :: rest) (handle_hup res SIGHUP) (λ _ q _, q = rest).
Proof.
  unfold handle_hup. eapply acts_bind; [apply acts_get|]. intros sv0.
  rewrite (bool_decide_true (SIGHUP = SIGHUP)) by done. destruct (sv_state sv0) eqn:Hst; simpl.
  - eapply acts_bind; [apply acts_svlogg|]. intros [].
    eapply (acts_bind _ _ _ (λ _ q _, q = rest)).
    + eapply acts_conseq; [apply (acts_reload rest)| |by intros ? ? ? H; exact H].
      by intros q sv [-> ->].
    + intros [x|e]; apply acts_svlogg.
  - eapply acts_conseq; [apply (acts_ignore SIGHUP)| |by intros ? ? ? H; exact H].
    intros q sv [-> ->]. split; [done|]. rewrite Hst. by right; right.
Qed.

Lemma acts_chld bound rest :
  acts (λ q _, q = SIGCHLD :: rest) (handle_chld bound SIGCHLD) (λ _ q _, q = rest).
Proof.
  unfold handle_chld. rewrite bool_decide_true by done.
  eapply acts_bind; [apply acts_sigchld|]. intros ?.
  eapply acts_bind; [apply acts_get|]. intros sv0.
  apply (acts_conseq (λ q _, q = rest) _ _ (λ _ q _, q = rest)); [|by intros q sv [_ ?]|done].
  destruct (_ && _); [apply acts_break_outer|apply acts_end].
Qed.

Lemma acts_term signo rest :
  signo = SIGINT ∨ signo = SIGTERM →
  acts (λ q _, q = signo :: rest) (handle_term signo) (λ _ q _, q = rest).
Proof.
  intros Hsig. unfold handle_term.
  assert (Hreq : bool_decide (signo = SIGINT) || bool_decide (signo = SIGTERM) = true).
  { by destruct Hsig; subst. }
  rewrite Hreq. eapply acts_bind; [apply acts_get|]. intros sv0.
  eapply (acts_bind _ _ _ (λ _ q _, q = rest)).
  - destruct (sv_state sv0) eqn:Hst; simpl.
    + eapply acts_bind; [apply acts_svlogg|]. intros [].
      eapply acts_conseq; [apply (acts_request signo rest Hsig)| |by intros ? ? ? H; exact H].
      by intros q sv [-> ->].
    + eapply acts_conseq; [apply (acts_ignore signo)| |by intros ? ? ? H; exact H].
      intros q sv [-> ->]. split; [done|]. rewrite Hst. by right; right.
  - intros []. eapply acts_bind; [apply acts_get|]. intros sv1.
    apply (acts_conseq (λ q _, q = rest) _ _ (λ _ q _, q = rest)); [|by intros q sv [_ ?]|done].
    destruct (all_stopped _); [apply acts_break_outer|apply acts_end].
Qed.

Lemma acts_ext {A} P (m m' : M supervisor io_error A) Q :
  (∀ sv w, m' sv w = m sv w) → acts P m Q → acts P m' Q.
Proof. intros Heq Hm q sv w Hi HP. specialize (Hm q sv w Hi HP). unfold wp in *. by rewrite Heq. Qed.

(** The tests of the loop body exclude each other. *)
Lemma acts_handle_signal bound signo rest :
  acts (λ q _, q = signo :: rest) (handle_signal bound res signo)
    (λ c q _, c = Continue → q = rest).
Proof.
  destruct (decide (signo = SIGHUP)) as [->|Hhup];
    [|destruct (decide (signo = SIGCHLD)) as [->|Hchld];
      [|destruct (decide (signo = SIGINT ∨ signo = SIGTERM)) as [Hterm|Hother]]].
  - apply acts_ext with (handle_hup res SIGHUP ;;! ret Continue); [done|].
    eapply acts_bind; [apply acts_hup|]. intros [].
    eapply acts_conseq; [apply acts_end|by intros ? ? H; exact H|by intros ? ? ? H _].
  - apply acts_ext with (handle_chld bound SIGCHLD).
    { intros sv w. unfold handle_signal, bind at 1 2. simpl.
      by destruct (handle_chld bound SIGCHLD sv w) as [[[[]| | | |] ?] ?]. }
    eapply acts_conseq; [apply acts_chld|by intros ? ? H; exact H|by intros ? ? ? H _].
  - apply acts_ext with (handle_term signo); [by destruct Hterm as [-> | ->]|].
    eapply acts_conseq; [by apply acts_term|by intros ? ? H; exact H|by intros ? ? ? H _].
  - apply acts_ext with (ret tt ;;! ret Continue).
    { intros sv w. unfold handle_signal, handle_hup, handle_chld, handle_term, bind, get, ret.
      rewrite !(bool_decide_false (signo = _)) by naive_solver. done. }
    eapply (acts_bind _ _ _ (λ _ q _, q = rest)).
    { eapply acts_conseq; [apply (acts_ignore signo rest)| |by intros ? ? ? H; exact H].
      intros q sv ->. split; [done|]. right. left. set_solver. }
    intros []. eapply acts_conseq; [apply acts_end|by intros ? ? H; exact H|by intros ? ? ? H _].
Qed.

(** ** The arms and the loop *)

Lemma siginfos_sized n (buf : list Z) :
  (n * siginfo_size ≤ length buf)%nat →
  Forall (λ i : siginfo, length i = siginfo_size) (siginfos n buf).
Proof.
  intros Hlen. apply Forall_fmap, Forall_seq. intros i Hi. simpl.
  rewrite length_take, length_drop. unfold siginfo_size in *. lia.
Qed.

Lemma acts_batch :
  acts (λ q _, q = []) (zoom sv_siginfo_buf set_sv_buf (read_signalfd_batch (r_sfd res)))
    (λ n q sv, (n ≤ SIGINFO_BUF_LEN)%nat ∧
      q = (λ i, cast_signed (siginfo_signal i)) <$> siginfos n (sv_siginfo_buf sv)).
Proof.
  intros q sv w Hi ->. wp_step. pose proof Hi as (_ & _ & Hb).
  eapply wp_mono.
  { apply wp_and; [apply (wp_read_signalfd_batch _ SIGINFO_BUF_LEN); [|apply Hb]|
      apply wp_batch_bytes, Hb]. unfold SIGINFO_BUF_LEN. lia. }
  intros o buf' w' [(Hw & Hlen & r & Htr & Hr) Hbytes].
  destruct (advances_calm sv w w' Hi Hw) as ((Hreg & Hg & _) & _).
  split; [by split; [|split]|]. destruct r as [bs|e].
  - destruct o as [n|e| | |]; try done.
    + destruct Hr as [Hn Hbs]. eexists. split; [|by intros ? [= <-]].
      eexists. split; [done|]. apply obeys_one. rewrite <- Hbs.
      apply (re_batch _ _ _ _ (policy_of [] sv)); [done|]. apply siginfos_sized.
      rewrite Hlen. apply Nat.mul_le_mono_r, Hn.
    + exists []. split; [|done]. eexists. split; [done|]. apply obeys_one. apply (re_bad_batch _ _ _ _ (policy_of [] sv)), Hr.
  - destruct Hr as [-> ->]. exists []. split.
    + eexists. split; [done|]. by apply obeys_inert, Forall_singleton.
    + case_bool_decide; [|done]. intros n [= <-]. split; [lia|done].
Qed.

Lemma acts_handle_sfd bound :
  acts (λ q _, q = []) (handle_sfd bound res) (λ c q _, c = Continue → q = []).
Proof.
  unfold handle_sfd. eapply acts_bind; [apply acts_batch|]. intros n.
  eapply acts_bind; [apply acts_get|]. intros sv0. case_bool_decide; [|apply acts_panic].
  eapply acts_bind.
  - eapply acts_conseq; [| |intros ? ? ? Hc; exact Hc].
    + apply (acts_for_break (λ l q, q = (λ i, cast_signed (siginfo_signal i)) <$> l)).
      intros i l. apply acts_handle_signal.
    + by intros q sv [-> [_ Hq]].
  - intros [|].
    + eapply acts_conseq; [apply acts_flush_continue|by intros q sv ->; auto|done].
    + eapply acts_conseq; [apply (acts_ret (λ _ _, True))|done|by intros ? ? ? [-> _]].
Qed.

Lemma acts_handle_event bound data :
  acts (λ q _, q = []) (handle_event bound res data) (λ c q _, c = Continue → q = []).
Proof.
  unfold handle_event. case_bool_decide; [apply acts_handle_sfd|].
  case_bool_decide; [apply acts_handle_tfd|]. case_bool_decide; [apply acts_handle_pfd|].
  eapply acts_bind; [apply acts_svlogg|]. intros [].
  eapply acts_conseq; [apply (acts_end (λ q, q = []))|done|done].
Qed.

Lemma acts_run_loop fuel bound :
  acts (λ q _, q = []) (run_loop fuel bound res) (λ _ _ _, True).
Proof.
  induction fuel as [|fuel IH]; simpl; [apply acts_fuel|].
  eapply acts_bind.
  { apply (acts_quiet (λ q _, q = [])); [|auto with svlopp].
    apply moves_sys_try; [apply _|]. by apply inertly_sys. }
  intros events. eapply acts_bind.
  { apply (acts_for_break (λ _ q, q = [])). intros data _. apply acts_handle_event. }
  intros [|].
  - eapply acts_conseq; [exact IH|by intros q sv ->|done].
  - eapply acts_conseq; [apply (acts_ret (λ _ _, True))|done|done].
Qed.
End acts.

(** * The start, and the whole run *)

Section start.
Context {K : Type} `{!Platform K} `{!PlatformLaws K}.
Abbreviation M := (@M K).
Implicit Types (sv : supervisor) (w : world K).

(** What a read of a text file gave. *)
Definition text_read (ev : event) : option string :=
  match ev with
  | Ev op r =>
      match op in sysop A return A → option string with
      | SReadToString _ => λ r, match r with ROk txt => Some txt | RErr _ => None end
      | _ => λ _, None
      end r
  end.

Lemma inertly_load_service name cfg : moves (only inert) (load_service name cfg : M _ _ unit).
Proof.
  unfold load_service, next_id, on_registry.
  repeat first [ progress moving | apply inertly_service_new ].
Qed.

Lemma calmly_sys {S E A} (op : sysop A) :
  calm op = true → moves world_calm (sys op : M S E A).
Proof. intros Hop. apply moves_sys. intros w r k. by apply world_calm_sys. Qed.
Lemma calmly_order {S E A} (l : list A) : moves world_calm (in_order l : M S E (list A)).
Proof. intros s w. apply wp_in_order. intros l' w' _ Hw _. exact Hw. Qed.
#[local] Hint Resolve calmly_sys calmly_order : svlopp.
Lemma calmly_load_service name cfg : moves world_calm (load_service name cfg : M _ _ unit).
Proof. unfold load_service, next_id, on_registry, service_new, build_svc_envp. moving. Qed.
#[local] Hint Resolve inertly_load_service calmly_load_service : svlopp.

(** The calls of the initial load: one read of the configuration, and
    nothing that forks, waits or kills. *)
Lemma load_services_events path (st : reload_state) w :
  wp (load_services path) (λ o _ w', world_calm w w' ∧
    ∀ u, o = Ok u → ∃ txt evs, Forall inert evs ∧
      trace w' = trace w ++ Ev (SReadToString path) (ROk txt) :: evs) st w.
Proof.
  unfold load_services. wp_step. eapply wp_mono; [apply wp_from_config_file|].
  intros o st1 w1 (-> & Hw & Ho). destruct o as [configs|e| | |]; simpl; try done.
  destruct Ho as (_ & txt & _ & Htr).
  set (m := let! entries := in_order (map_to_list configs) in _).
  assert (Hin : moves (only inert) m).
  { unfold m. moving. }
  assert (Hcalm : moves world_calm m) by (unfold m; moving).
  eapply wp_mono; [apply wp_and; [apply Hin|apply Hcalm]|].
  intros o st' w' [(evs & Htr' & Hevs) Hw']. split; [by etrans|]. intros u _.
  exists txt, evs. split; [done|]. by rewrite Htr', Htr, <- app_assoc.
Qed.

Lemma installed_services configs gen reg w :
  reg_inv gen reg w → loaded (map_to_list configs) reg → installed configs (entries_of reg).
Proof.
  intros [Hwf _] [Hall Hmade]. unfold entries_of. split_and!.
  - intros k e. rewrite lookup_fmap. destruct (services_map reg !! k) as [svc|] eqn:Hk; [|done].
    intros [= <-]. destruct (Hall k svc Hk) as [Hin%elem_of_map_to_list (_ & Hst & Hpend)].
    simpl. by rewrite Hst.
  - intros k1 k2 e1 e2. rewrite !lookup_fmap.
    destruct (services_map reg !! k1) as [s1|] eqn:Hk1; [|done]. intros [= <-].
    destruct (services_map reg !! k2) as [s2|] eqn:Hk2; [|done]. intros [= <-].
    by apply (wf_names _ _ Hwf).
  - intros n [cfg Hcfg]. destruct (Hmade n cfg) as (k & svc & Hk & Hname & _);
      [by apply elem_of_map_to_list|].
    exists k, (entry_of svc). by rewrite lookup_fmap, Hk.
Qed.

Lemma records_wp {S E A} (s : S) (m : M S E A) Q w :
  records s m Q → wp m (λ o s' w', ∀ a, o = Ok a →
    ∃ evs, trace w' = trace w ++ evs ∧ Q a s' evs) s w.
Proof. intros Hm. specialize (Hm w). unfold wp. destruct (m s w) as [[[] ?] ?]; eauto. Qed.

(** [run] once the services are registered: it starts them, and then obeys. *)
Lemma wp_started_loop fuel bound res sv w :
  sv_inv sv w → all_stopped (sv_registry sv) = true →
  wp (on_sv_registry (start_all (original_sigset res)) ;;!
      on_sv_registry (flush_status_file bound (r_status_path res)) ;;!
      svlogg LogLevel.Info "supervisor started. Ctrl+C to exit" ;;!
      run_loop fuel bound res)
    (λ _ sv' w', ∃ es start_evs evs q,
      trace w' = trace w ++ start_evs ++ evs ∧ Forall inert start_evs ∧
      each (on_start start_evs) (entries_of (sv_registry sv)) es ∧
      run_obeys res (Policy (p_closing (policy_of [] sv)) [] (sv_id_gen sv) es) evs
        (policy_of q sv')) sv w.
Proof.
  intros Hi Hall%bool_decide_eq_true. wp_step. unfold on_sv_registry at 1. wp_step.
  eapply wp_mono; [apply wp_and; [apply wp_start_all; [apply Hi|done]|apply inertly_start_all]|].
  intros o reg' w1 [(-> & Hsafe & _ & Hres) (start_evs & Htr & Hstart)]. wp_step.
  assert (Hi1 : sv_inv (set_sv_registry reg' sv) w1) by by eapply (advances_registry sv _ (Ok tt)).
  eapply wp_mono.
  { eapply (acts_after res (λ q _, q = []) _ (λ _ _ _, True) []).
    - eapply acts_bind; [apply acts_flush|]. intros [].
      eapply acts_bind; [apply acts_svlogg|]. intros []. apply acts_run_loop.
    - by apply stepped_inert.
    - done.
    - done. }
  intros o sv' w' (_ & q & (evs & Htr' & Hob) & _).
  exists (entries_of reg'), start_evs, evs, q. split_and!; [|done| |done].
  - by rewrite Htr', Htr, <- app_assoc.
  - rewrite (events_app _ _ _ Htr) in Hres. eapply each_services, Hres. apply start_rule.
Qed.
End start.
