(* ===== verification/Convergence.v ===== *)
(** What lasts of a reload: the services keep to the configuration that was
    read until another one is, whatever the event loop does in between.

    The predicates are about one service at a time, so they are proved for
    one move of one entry of the abstract policy, lifted to its steps, and
    carried to the program by the refinement. *)
From S2P Require Import Prelude Utils Bytes Data Platform Monad Sim Signalfd Control Service.
From S2P Require Import Registry Handlers Reload Supervisor Policy Refinement.
Local Open Scope Z_scope.
Local Open Scope svlopp_scope.

(** * The moves of one entry *)

(** No text file was read among the events. *)
Definition no_text (evs : list event) : Prop := Forall (λ ev, text_read ev = None) evs.

Section moves.
Context {K : Type} `{!Platform K}.

(** The end of the process [p] is among the statuses that were delivered. *)
Definition ended (p : Z) (evs : list event) : Prop :=
  ∃ st er, (p, st) ∈ waits evs ∧ exit_reason_of st = Some er.

(** What one step does to an entry, if it does not read a configuration. *)
Inductive moved (evs : list event) (e : entry) : option entry → Prop :=
| moved_not : moved evs e (Some e)
| moved_end p er : ended p evs → moved evs e (Some (on_end p er e))
| moved_tick evs' r : on_tick evs' e r → moved evs e r
| moved_command evs' op e' : on_command evs' e op e' → moved evs e (Some e')
| moved_shutdown evs' r : on_shutdown evs' e r → moved evs e r.

Lemma each_same evs es : each (moved evs) es es.
Proof. intros k. destruct (es !! k); [apply moved_not|done]. Qed.

Lemma each_of (rule : entry → option entry → Prop) evs es es' :
  (∀ e r, rule e r → moved evs e r) → each rule es es' → each (moved evs) es es'.
Proof. intros Hr Heach k. specialize (Heach k). destruct (es !! k); auto. Qed.

Lemma moved_reported p st es : each (moved [Ev SWait (ROk (Some (p, st)))]) es (reported_end p st es).
Proof.
  unfold reported_end. destruct (exit_reason_of st) as [er|] eqn:Her; [|apply each_same].
  intros k. rewrite lookup_fmap. destruct (es !! k) as [e|]; [|done].
  apply moved_end. exists st, er. split; [by left|done].
Qed.

Lemma moved_commanded evs evs' cmd es es' : command_rule evs' cmd es es' → each (moved evs) es es'.
Proof.
  unfold command_rule. destruct (es !! cmd_service_id cmd) as [e|] eqn:He; [|intros ->; apply each_same].
  intros (e' & Hcmd & ->) k. destruct (decide (k = cmd_service_id cmd)) as [->|Hk].
  - rewrite He, lookup_insert_eq. by eapply moved_command.
  - rewrite lookup_insert_ne by done. apply each_same.
Qed.

(** Every step of the machine that reads no text moves each entry. *)
Lemma reacts_moved sfd tfd pfd path pl evs pl' :
  reacts sfd tfd pfd path pl evs pl' → no_text evs →
  each (moved evs) (p_entries pl) (p_entries pl').
Proof.
  destruct 1; intros Hno; simpl; try apply each_same; try (by apply Forall_cons in Hno as [? _]).
  - apply moved_reported.
  - eapply each_of; [intros e r; apply moved_shutdown|done].
  - eapply each_of; [intros e r; apply moved_tick|done].
  - by eapply moved_commanded.
Qed.

Lemma no_text_app evs evs' : no_text (evs ++ evs') ↔ no_text evs ∧ no_text evs'.
Proof. apply Forall_app. Qed.

Lemma ended_app p evs evs' : ended p (evs ++ evs') ↔ ended p evs ∨ ended p evs'.
Proof.
  unfold ended, waits. rewrite omap_app. split.
  - intros (st & er & [Hin|Hin]%elem_of_app & ?); [left|right]; by exists st, er.
  - intros [(st & er & Hin & ?)|(st & er & Hin & ?)]; exists st, er;
      (split; [apply elem_of_app; auto|done]).
Qed.
End moves.

(** * What the moves keep *)

(** The entry is the one of a configured service, or on its way out. *)
Definition settled (configs : gmap string service_config) (e : entry) : Prop :=
  (∃ cfg, configs !! e_name e = Some cfg ∧ e_config e ≡ cfg) ∨
  configs !! e_name e = None ∧ e_pending e = to_remove.

(** The process [p] is alive, and [a] is to be done when it ends. *)
Definition awaits (p : Z) (cfg : service_config) (a : service_pending_action) (e : entry) : Prop :=
  (e_phase e = Up p ∨ e_phase e = Ending p) ∧ e_config e = cfg ∧ e_pending e = a ∧ a ≠ no_action.

Lemma due_of e a : due e a → e_pending e ≠ no_action → a = e_pending e.
Proof. by destruct 1. Qed.

Lemma on_end_same p er e :
  e_name (on_end p er e) = e_name e ∧ e_config (on_end p er e) = e_config e ∧
  e_pending (on_end p er e) = e_pending e.
Proof. unfold on_end. destruct (e_phase e); try case_bool_decide; done. Qed.

Section kept.
Context {K : Type} `{!Platform K}.

Lemma settled_moved configs evs e e' :
  moved evs e (Some e') → settled configs e → settled configs e'.
Proof.
  assert (Hsame : ∀ e1 e2, e_name e2 = e_name e1 → e_config e2 = e_config e1 →
    e_pending e2 = e_pending e1 → settled configs e1 → settled configs e2).
  { intros e1 e2 Hn Hc Hp. unfold settled. by rewrite Hn, Hc, Hp. }
  intros Hm [Hset|[Hnone Hrem]].
  - left. inversion Hm as [|p er Hend|evs' r Ht|evs' op e1 Hc|evs' r Hs]; subst; [done|..].
    + by destruct (on_end_same p er e) as (-> & -> & _).
    + inversion Ht; by subst.
    + inversion Hc; by subst.
    + inversion Hs; by subst.
  - assert (Hno : e_pending e ≠ no_action) by by rewrite Hrem.
    inversion Hm as [|p er Hend|evs' r Ht|evs' op e1 Hc|evs' r Hs]; subst; [by right|..].
    + destruct (on_end_same p er e) as (Hn & Hc & Hp). by eapply Hsame; [..|right].
    + inversion Ht as [| r Hd Hdue| r Hd Hdue|r p Hd Hdue|r Hd Hdue]; subst; [by right|..];
        pose proof (due_of _ _ Hdue Hno) as Heq; by rewrite Hrem in Heq.
    + inversion Hc; subst; try done; by right.
    + inversion Hs; subst; by right.
Qed.

Lemma awaits_moved p cfg a evs e r :
  moved evs e r → ¬ ended p evs → awaits p cfg a e → ∃ e', r = Some e' ∧ awaits p cfg a e'.
Proof.
  intros Hm Hend (Hph & Hcfg & Hpend & Ha).
  assert (Halive : ∀ r', e_phase e ≠ Down r') by (intros r'; destruct Hph; congruence).
  destruct Hm as [|q er Hq|evs' r Ht|evs' op e1 Hc|evs' r Hs];
    [|assert (q ≠ p) by (by intros ->)|destruct Ht|destruct Hc|destruct Hs];
    try (exfalso; naive_solver congruence); (eexists; split; [done|]);
    unfold awaits; simpl; try (by split_and!);
    destruct Hph as [Hph|Hph]; simplify_eq; unfold on_end; rewrite ?Hph;
    rewrite ?bool_decide_false by done; split_and!; first [by auto|right; congruence].
Qed.

Context (sfd tfd pfd : Z) (path : string).

(** Both last over any steps that read no text. *)
Lemma obeys_settled configs pl evs pl' :
  obeys sfd tfd pfd path pl evs pl' → no_text evs →
  map_Forall (λ _, settled configs) (p_entries pl) →
  map_Forall (λ _, settled configs) (p_entries pl').
Proof.
  induction 1 as [|pl evs pl1 evs' pl' Hr _ IH]; [done|]. intros [Hno Hno']%no_text_app Hall.
  apply IH; [done|]. intros k e' He'. pose proof (reacts_moved _ _ _ _ _ _ _ Hr Hno k) as Hm.
  destruct (p_entries pl !! k) as [e|] eqn:He; [|congruence]. rewrite He' in Hm.
  eapply settled_moved; [done|by eapply Hall].
Qed.

Lemma obeys_awaits p cfg a k pl evs pl' e :
  obeys sfd tfd pfd path pl evs pl' → no_text evs → ¬ ended p evs →
  p_entries pl !! k = Some e → awaits p cfg a e →
  ∃ e', p_entries pl' !! k = Some e' ∧ awaits p cfg a e'.
Proof.
  intros Hob. revert e. induction Hob as [|pl evs pl1 evs' pl' Hr _ IH]; [by eauto|].
  intros e [Hno Hno']%no_text_app Hend He Haw. rewrite ended_app in Hend.
  pose proof (reacts_moved _ _ _ _ _ _ _ Hr Hno k) as Hm. rewrite He in Hm.
  destruct (awaits_moved p cfg a _ _ _ Hm) as (e' & He' & Haw'); [tauto|done|].
  eapply IH; [done|tauto|exact He'|exact Haw'].
Qed.
End kept.

(** * The services *)

(** [settled] for a service. *)
Definition conforms (configs : gmap string service_config) (svc : service) : Prop :=
  (∃ cfg, configs !! s_name svc = Some cfg ∧ s_config svc ≡ cfg) ∨
  configs !! s_name svc = None ∧ s_pending_action svc = ServicePendingAction.Remove.

Lemma settled_services configs reg :
  map_Forall (λ _, conforms configs) (services_map reg) ↔
  map_Forall (λ _, settled configs) (entries_of reg).
Proof. unfold entries_of. by rewrite map_Forall_fmap. Qed.

(** A successful reload leaves only services that conform to it. *)
Lemma reload_conforms configs evs svc svc' :
  reload_result configs evs svc (Some svc') → conforms configs svc'.
Proof.
  unfold reload_result, conforms. destruct (configs !! s_name svc) as [cfg|] eqn:Hcfg.
  - case_bool_decide as Heq; [intros [= ->]; left; by exists cfg|].
    intros (argv & envp & _ & Hres). left. exists cfg. unfold restarted in Hres. simpl in Hres.
    destruct (s_state svc); decompose_ctx; simplify_eq; done.
  - unfold dropped. intros Hres. right.
    destruct (s_state svc); decompose_ctx; simplify_eq; done.
Qed.

Lemma reconciled_conforms configs gen evs reg reg' :
  reconciled configs gen evs reg reg' → map_Forall (λ _, conforms configs) (services_map reg').
Proof.
  intros (Hold & _ & Hnew) k svc' Hk. destruct (Hnew k svc' Hk) as [[svc Hsvc]|(_ & cfg & Hcfg & _ & Hc & _)].
  - specialize (Hold k svc Hsvc). rewrite Hk in Hold. by eapply reload_conforms.
  - left. exists cfg. by rewrite Hcfg, Hc.
Qed.

Section program.
Context {K : Type} `{!Platform K} `{!PlatformLaws K}.
Abbreviation M := (@M K).

(** A tick leaves no stopped service with an action to do. *)
Lemma tick_conforms configs evs svc svc' :
  tick_result evs svc (Some svc') → conforms configs svc →
  conforms configs svc' ∧
  (is_stopped svc' = true → s_pending_action svc' = ServicePendingAction.None).
Proof.
  intros Ht Hc. split.
  - eapply (settled_moved configs [] (entry_of svc) (entry_of svc')); [|exact Hc].
    apply (moved_tick _ _ evs). by apply (tick_rule evs svc (Some svc')).
  - unfold tick_result, is_stopped in *. destruct (s_state svc) as [r|p|p d] eqn:Hst.
    + destruct (effective_action _ _ _); [by intros; simplify_eq| |done].
      destruct Ht as [[Ht _]|(p & _ & _ & Ht)]; by simplify_eq.
    + simplify_eq. by rewrite Hst.
    + simplify_eq. by rewrite Hst.
Qed.

Lemma wp_tick_conforms {E} configs gen now sigset reg (w : world K) :
  reg_inv gen reg w → map_Forall (λ _, conforms configs) (services_map reg) →
  wp (handle_tick now sigset : M _ E unit) (λ _ reg' _, ∀ k svc, services_map reg' !! k = Some svc →
    conforms configs svc ∧
    (is_stopped svc = true → s_pending_action svc = ServicePendingAction.None)) reg w.
Proof.
  intros Hi Hall. eapply wp_mono; [by apply wp_handle_tick|].
  intros o reg' w' (_ & _ & _ & Hres) k svc' Hk. specialize (Hres k). rewrite Hk in Hres.
  destruct (services_map reg !! k) as [svc|] eqn:Hsvc; [|done].
  eapply tick_conforms; [done|by eapply Hall].
Qed.

(** The loop, from services that conform to a configuration. *)
Lemma wp_loop_conforms configs fuel bound res sv (w : world K) :
  sv_inv sv w → map_Forall (λ _, conforms configs) (services_map (sv_registry sv)) →
  wp (run_loop fuel bound res) (λ _ sv' w', sv_inv sv' w' ∧
    ∃ evs, trace w' = trace w ++ evs ∧ (no_text evs →
      map_Forall (λ _, conforms configs) (services_map (sv_registry sv')) ∧
      ∀ k svc p, services_map (sv_registry sv) !! k = Some svc → pid svc = Some p →
        s_pending_action svc ≠ ServicePendingAction.None → ¬ ended p evs →
        ∃ svc', services_map (sv_registry sv') !! k = Some svc' ∧ pid svc' = Some p ∧
          s_pending_action svc' = s_pending_action svc ∧ s_config svc' = s_config svc)) sv w.
Proof.
  intros Hi Hall%settled_services. eapply wp_mono; [by apply (acts_run_loop res fuel bound [] sv)|].
  intros o sv' w' (Hi' & q & (evs & Htr & Hob) & _). split; [done|]. exists evs.
  split; [done|]. intros Hno. split; [by apply settled_services, (obeys_settled _ _ _ _ configs _ _ _ Hob)|].
  intros k svc p Hk Hpid Hpend Hend.
  destruct (obeys_awaits _ _ _ _ p (s_config svc) (s_pending_action svc) k _ _ _ (entry_of svc) Hob)
    as (e' & He' & Haw); [done|done| | |].
  - simpl. unfold entries_of. by rewrite lookup_fmap, Hk.
  - unfold pid in Hpid. split; [|by split_and!]. simpl.
    destruct (s_state svc); simplify_eq/=; auto.
  - simpl in He'. unfold entries_of in He'. rewrite lookup_fmap in He'.
    destruct (services_map (sv_registry sv') !! k) as [svc'|] eqn:Hk'; [|done].
    injection He' as <-. exists svc'. destruct Haw as (Hph & Hc & Hp & _). split_and!; try done.
    unfold pid. simpl in Hph. by destruct (s_state svc'), Hph; simplify_eq/=.
Qed.

(** C13.  A successful reload lasts.  After it, and until a file is read
    again, whatever signals, statuses, ticks and control commands the loop
    handles and for any number of iterations: every service in the registry
    is one of the new configuration, with a configuration equal to the one it
    has there (paths are compared by their components, as the program does),
    or is marked for removal; a service that was marked, for removal or for
    a restart, is still marked as long as its process lives; and the next
    timer tick leaves no service that has ended and still waits for its
    action.  So what a reload did not do at once (its services were still
    running) is done when their processes end, however long they take. *)
Theorem reload_takes_hold path sigset sv (w : world K) :
  sv_inv sv w →
  wp (on_sv_services (reload_services path sigset)) (λ o sv1 w1, o = Ok tt →
    ∃ txt configs, (trace w ++ [Ev (SReadToString path) (ROk txt)]) `prefix_of` trace w1 ∧
      toml_from_str txt = ROk configs ∧
      (∀ n, is_Some (configs !! n) →
        ∃ k svc, services_map (sv_registry sv1) !! k = Some svc ∧ s_name svc = n) ∧
      ∀ fuel bound res,
        wp (run_loop fuel bound res) (λ _ sv2 w2, ∃ evs, trace w2 = trace w1 ++ evs ∧
          (no_text evs →
            map_Forall (λ _, conforms configs) (services_map (sv_registry sv2)) ∧
            (∀ k svc p, services_map (sv_registry sv1) !! k = Some svc → pid svc = Some p →
              s_pending_action svc ≠ ServicePendingAction.None → ¬ ended p evs →
              ∃ svc2, services_map (sv_registry sv2) !! k = Some svc2 ∧ pid svc2 = Some p ∧
                s_pending_action svc2 = s_pending_action svc ∧ s_config svc2 = s_config svc) ∧
            ∀ now, wp (handle_tick now sigset : M _ io_error unit) (λ _ reg3 _, ∀ k svc,
              services_map reg3 !! k = Some svc → conforms configs svc ∧
              (is_stopped svc = true → s_pending_action svc = ServicePendingAction.None))
              (sv_registry sv2) w2)) sv1 w1) sv w.
Proof.
  intros Hi. unfold on_sv_services. pose proof Hi as (Hr & Hg & _).
  wp_step. eapply wp_mono; [by apply wp_reload_services|].
  intros o st w1 [Hsafe Ho] ->. pose proof (advances_reload _ _ _ _ _ Hi Hsafe) as (Hi1 & _).
  destruct Ho as (txt & configs & Htr & Htxt & Hrec). exists txt, configs. split_and!.
  - done.
  - done.
  - intros n. by eapply reconciled_names.
  - intros fuel bound res. eapply wp_mono.
    { apply (wp_loop_conforms configs); [done|]. by eapply reconciled_conforms. }
    intros o sv2 w2 (Hi2 & evs & Htr2 & Hkept). exists evs. split; [done|].
    intros [Hall Haw]%Hkept. split; [done|]. split; [done|].
    intros now. eapply wp_tick_conforms; [apply Hi2|done].
Qed.
End program.

(** The program of a running service changes: it is asked to end, and waits
    for its restart. *)
Lemma reload_takes_hold_witness :
  let sv := sim_sv SupervisorState.Running (sim_svc (Running 100) ServicePendingAction.None) in
  let w := sim_reload_world "a'" (sim_svc (Running 100) ServicePendingAction.None) in
  let '(o, sv1, w1) := on_sv_services (reload_services "services.toml" 0) sv w in
  o = Ok tt ∧
  (s_pending_action <$> services_map (sv_registry sv1) !! 0) = Some ServicePendingAction.Restart ∧
  wp (run_loop 2 5 sim_res) (λ _ sv2 w2, ∃ evs, trace w2 = trace w1 ++ evs ∧ (no_text evs →
    map_Forall (λ _, conforms {["a" := sim_service "pause" ServicePendingAction.None]})
      (services_map (sv_registry sv2)))) sv1 w1.
Proof.
  cbv zeta.
  pose proof (reload_takes_hold "services.toml" 0
    (sim_sv SupervisorState.Running (sim_svc (Running 100) ServicePendingAction.None))
    (sim_reload_world "a'" (sim_svc (Running 100) ServicePendingAction.None))) as Hlast.
  destruct (on_sv_services (reload_services "services.toml" 0) _ _) as [[o sv1] w1] eqn:Hrun.
  unfold wp in Hlast at 1. rewrite Hrun in Hlast. vm_compute in Hrun.
  assert (Ho : o = Ok tt) by congruence. rewrite Ho in Hlast.
  destruct Hlast as (txt & configs & [more Htr] & Htxt & _ & Hloop); [|done|].
  { apply sim_sv_inv, sim_reload_inv. by intros p [= <-]. }
  split; [done|]. split; [by injection Hrun as _ <- _|].
  eapply wp_mono; [apply (Hloop 2%nat 5%nat sim_res)|].
  intros o2 sv2 w2 (evs & Hevs & Hkept). exists evs. split; [done|]. intros [Hall _]%Hkept.
  assert (Hread : trace w1 !! 1%nat ≫= text_read = Some txt) by by rewrite Htr.
  assert (txt = "a'") as -> by (injection Hrun as _ _ <-; vm_compute in Hread; congruence).
  injection Htxt as <-. exact Hall.
Defined.
