(* ===== verification/Shutdown.v ===== *)
(** The end of a shutdown: the loop is left as soon as a shutdown was
    requested and the last child has been reaped, and not before. *)
From S2P Require Import Prelude Utils Bytes Data Text Platform Monad Sim Logging Cli.
From S2P Require Import Signalfd Control Service Registry Ledger Handlers Reload Status.
From S2P Require Import Supervisor Policy Refinement.
Local Open Scope Z_scope.
Local Open Scope svlopp_scope.

(** * Rounds of the loop *)

Section rounds.
Context {K : Type} `{!Platform K}.
Abbreviation M := (@M K).

(** One round of the loop: the events of one [epoll_wait]. *)
Definition round (bound : nat) (res : resources) : M supervisor io_error flow :=
  let! events := sys_try (SEpollWait (r_epfd res) EVENTS_BUF_LEN) in
  for_break events (handle_event bound res).

(** At most [n] rounds. *)
Fixpoint rounds (n bound : nat) (res : resources) : M supervisor io_error flow :=
  match n with
  | O => ret Continue
  | S n' =>
      let! c := round bound res in
      match c with BreakOuter => ret BreakOuter | Continue => rounds n' bound res end
  end.

(** The loop makes rounds until one breaks it. *)
Lemma run_loop_rounds n m bound res sv w :
  run_loop (n + m) bound res sv w =
    (let! c := rounds n bound res in
     match c with BreakOuter => ret tt | Continue => run_loop m bound res end) sv w.
Proof.
  revert sv w. induction n as [|n IH]; intros sv w; [done|].
  change (run_loop (S n + m) bound res) with
    (let! events := sys_try (SEpollWait (r_epfd res) EVENTS_BUF_LEN) in
     let! c := for_break events (handle_event bound res) in
     match c with BreakOuter => ret tt | Continue => run_loop (n + m) bound res end).
  change (rounds (S n) bound res) with
    (let! c := round bound res in
     match c with BreakOuter => ret BreakOuter | Continue => rounds n bound res end).
  unfold round, bind. destruct (sys_try _ sv w) as [[[events|e| | |p] sv1] w1]; try done.
  by destruct (for_break _ _ sv1 w1) as [[[[]|e| | |p] sv2] w2].
Qed.
End rounds.

(** * What goes on while it shuts down *)

(** Some service is not stopped. *)
Definition alive (reg : service_registry) : Prop :=
  ∃ k e, entries_of reg !! k = Some e ∧ ∀ r, e_phase e ≠ Down r.

Lemma all_stopped_alive reg : all_stopped reg = false ↔ alive reg.
Proof.
  unfold all_stopped. rewrite bool_decide_eq_false. split.
  - intros (k & svc & Hk & Hs)%map_not_Forall; [|solve_decision]. exists k, (entry_of svc).
    unfold entries_of. rewrite lookup_fmap, Hk. split; [done|]. intros r. unfold is_stopped in Hs.
    simpl. by destruct (s_state svc).
  - intros (k & e & Hk & He) Hall. unfold entries_of in Hk. rewrite lookup_fmap in Hk.
    destruct (services_map reg !! k) as [svc|] eqn:Hsvc; [|done]. injection Hk as <-.
    specialize (Hall k svc Hsvc). unfold is_stopped in Hall. simpl in He.
    by destruct (s_state svc) as [r| |]; [destruct (He r)|..].
Qed.

(** The rules that do not end a process. *)
Lemma tick_alive_all evs reg reg' :
  each (on_tick evs) (entries_of reg) (entries_of reg') → alive reg → alive reg'.
Proof.
  intros Hall (k & e & Hk & He). specialize (Hall k). rewrite Hk in Hall. exists k, e.
  split; [|done]. inversion Hall as [| | |r p Hd|r Hd]; [done|..]; by destruct (He r).
Qed.

Lemma command_alive evs reg reg' k op e e' :
  entries_of reg !! k = Some e → on_command evs e op e' →
  entries_of reg' = <[k := e']> (entries_of reg) → alive reg → alive reg'.
Proof.
  intros Hk Hcmd Hreg (k1 & e1 & Hk1 & He1). destruct (decide (k1 = k)) as [->|Hne].
  - assert (e1 = e) as -> by congruence. exists k, e'. rewrite Hreg, lookup_insert_eq.
    split; [done|]. intros r. inversion Hcmd; subst; simpl; done || apply He1 || naive_solver.
  - exists k1, e1. by rewrite Hreg, lookup_insert_ne.
Qed.

Section lingering.
Context {K : Type} `{!Platform K} `{!PlatformLaws K}.
Abbreviation M := (@M K).
Implicit Types (sv : supervisor) (w : world K).

(** While it shuts down, the supervisor has something to wait for. *)
Definition waiting sv : Prop :=
  sv_state sv = SupervisorState.ShutdownRequested → alive (sv_registry sv).

Definition going_on (c : flow) sv : Prop := c = Continue → waiting sv.

Lemma waiting_continue : triple waiting (ret Continue : M supervisor io_error flow) going_on.
Proof. apply triple_ret. by intros sv H _. Qed.
Lemma waiting_break P : triple P (ret BreakOuter : M supervisor io_error flow) going_on.
Proof. apply triple_ret. by intros sv _ [=]. Qed.

Lemma triple_keep_flush {E} P bound path :
  triple (E:=E) P (on_sv_registry (flush_status_file bound path)) (λ _ sv, P sv).
Proof.
  apply triple_registry. intros sv w Hi HP. eapply wp_mono; [apply wp_flush_status_file|].
  intros o reg' w' (-> & [Hle _] & Ho & _). split; [|by rewrite set_registry_same].
  by apply safe_world.
Qed.

Lemma waiting_flush_continue bound path :
  triple waiting (on_sv_registry (flush_status_file bound path) ;;! ret Continue :
    M supervisor io_error flow) going_on.
Proof.
  eapply triple_bind; [apply triple_keep_flush|]. intros ?. apply waiting_continue.
Qed.

Lemma waiting_tick {E} now sigset :
  triple (E:=E) waiting (on_sv_registry (handle_tick now sigset)) (λ _, waiting).
Proof.
  apply triple_registry. intros sv w Hi HJ. eapply wp_mono; [by apply wp_handle_tick|].
  intros o reg' w' (_ & Hsafe & _ & Hres). split; [done|]. intros _ _ Hst.
  eapply tick_alive_all, HJ, Hst. eapply each_services, Hres. apply tick_rule.
Qed.

Lemma waiting_control k op sigset :
  triple waiting (catch (on_sv_registry (apply_control_op k op sigset)) : M _ io_error _)
    (λ _, waiting).
Proof.
  intros sv w Hi HJ. apply wp_catch. unfold on_sv_registry. wp_step. pose proof Hi as (Hreg & _).
  eapply wp_mono; [by apply wp_apply_control_op|]. intros o reg' w' [Hsafe Heff].
  assert (Hadv : advances sv w (set_sv_registry reg' sv) w') by by eapply advances_registry.
  assert (Hwait : waiting (set_sv_registry reg' sv)).
  { intros Hst. specialize (HJ Hst). simpl.
    destruct (services_map (sv_registry sv) !! k) as [svc|] eqn:Hk; [|by destruct Heff as (_ & -> & _)].
    destruct (control_rule _ _ _ _ _ _ _ _ Hk Heff) as (e' & Hcmd & Hreg').
    eapply command_alive; [|done..]. unfold entries_of. by rewrite lookup_fmap, Hk. }
  destruct Hsafe as (_ & _ & _ & Hno). destruct o as [|e|msg| |]; try done. by destruct (Hno msg).
Qed.

Lemma waiting_reload res :
  triple (λ sv, sv_state sv = SupervisorState.Running)
    (catch (on_sv_services (reload_services (r_config_path res) (original_sigset res))) :
      M _ io_error _)
    (λ _ sv, sv_state sv = SupervisorState.Running).
Proof.
  intros sv w Hi Hst. apply wp_catch. unfold on_sv_services. wp_step.
  pose proof Hi as (Hreg & Hg & _). eapply wp_mono; [by apply wp_reload_services|].
  intros o st w' [Hsafe Ho].
  assert (Hadv : advances sv w (set_sv_services st sv) w') by by eapply advances_reload.
  by destruct o.
Qed.

Lemma waiting_hup res signo : triple waiting (handle_hup res signo) (λ _, waiting).
Proof.
  unfold handle_hup. eapply triple_bind; [apply triple_get|]. intros sv0.
  destruct (_ && _) eqn:Hc; [|by apply triple_ret; intros sv [_ ?]].
  apply andb_true_iff in Hc as [_ Hst%bool_decide_eq_true]. apply triple_say.
  eapply triple_bind.
  { eapply triple_conseq; [apply waiting_reload|by intros sv [-> _]|intros a sv H; exact H]. }
  intros r. eapply (triple_conseq (λ sv, sv_state sv = SupervisorState.Running) _ _
    (λ _ sv, sv_state sv = SupervisorState.Running)); [|done|].
  - destruct r; apply triple_svlogg.
  - intros ? sv Hrun Hreq. congruence.
Qed.

Lemma waiting_chld bound signo : triple waiting (handle_chld bound signo) going_on.
Proof.
  unfold handle_chld. case_bool_decide; [|apply waiting_continue].
  eapply triple_bind.
  { eapply (triple_conseq (λ _, True)); [apply triple_handle_sigchld|done|done]. }
  intros ?. eapply triple_bind; [apply triple_get|]. intros sv0.
  destruct (_ && _) eqn:Hc; [apply triple_say, waiting_break|apply triple_ret].
  intros sv [-> _] _ Hst. apply all_stopped_alive. by rewrite bool_decide_true in Hc.
Qed.

Lemma waiting_term signo : triple waiting (handle_term signo) going_on.
Proof.
  unfold handle_term. destruct (_ || _); [|apply waiting_continue].
  eapply triple_bind; [apply triple_get|]. intros sv0.
  eapply triple_bind.
  { eapply triple_conseq; [apply (triple_request sv0)|by intros sv [-> _]|intros a sv H; exact H]. }
  intros []. eapply triple_bind; [apply triple_get|]. intros sv1.
  destruct (all_stopped (sv_registry sv1)) eqn:Hall;
    [apply triple_say, waiting_break|apply triple_ret].
  intros sv [-> _] _ _. by apply all_stopped_alive.
Qed.

Lemma waiting_handle_signal bound res signo :
  triple waiting (handle_signal bound res signo) going_on.
Proof.
  unfold handle_signal. eapply triple_bind; [apply waiting_hup|]. intros [].
  eapply triple_bind; [apply waiting_chld|]. intros [|].
  - eapply triple_conseq; [apply waiting_term|by intros sv H; apply H|done].
  - apply waiting_break.
Qed.

Lemma waiting_for_break {A} (l : list A) (f : A → M supervisor io_error flow) :
  (∀ x, triple waiting (f x) going_on) → triple waiting (for_break l f) going_on.
Proof.
  intros Hf. induction l as [|x l IH]; simpl; [apply waiting_continue|].
  eapply triple_bind; [apply Hf|]. intros [|]; [|apply waiting_break].
  eapply triple_conseq; [apply IH|by intros sv H; apply H|done].
Qed.

Lemma waiting_batch fd :
  triple waiting (zoom sv_siginfo_buf set_sv_buf (read_signalfd_batch fd))
    (λ n sv, (n ≤ SIGINFO_BUF_LEN)%nat ∧ waiting sv).
Proof.
  intros sv w Hi HJ. eapply wp_mono.
  { apply wp_and; [by apply triple_batch|].
    apply (wp_zoom _ _ _ (λ _ sv' _, waiting sv')). unfold wp.
    by destruct (read_signalfd_batch fd (sv_siginfo_buf sv) w) as [[[] ?] ?]. }
  intros o sv' w' [[Hadv Ho] Hw]. split; [done|]. by destruct o.
Qed.

Lemma waiting_handle_sfd bound res : triple waiting (handle_sfd bound res) going_on.
Proof.
  unfold handle_sfd. eapply triple_bind; [apply waiting_batch|]. intros n.
  eapply triple_bind; [apply triple_get|]. intros sv0.
  case_bool_decide as Hn; [|by intros sv w _ (_ & ? & _)].
  eapply (triple_conseq waiting); [|by intros sv (_ & _ & H)|by intros a sv H; exact H].
  eapply triple_bind; [apply waiting_for_break; intros info; apply waiting_handle_signal|].
  intros [|]; [|apply waiting_break].
  eapply triple_conseq; [apply waiting_flush_continue|by intros sv H; apply H|done].
Qed.

Lemma waiting_handle_tfd bound res : triple waiting (handle_tfd bound res) going_on.
Proof.
  unfold handle_tfd, read_timerfd. eapply triple_bind.
  { eapply triple_bind; [by apply (triple_sys_try waiting)|]. intros buf.
    instantiate (1 := λ _, waiting). case_bool_decide; [by apply triple_ret|apply triple_throw]. }
  intros ?. eapply triple_bind; [by apply (triple_sys waiting)|]. intros now.
  eapply triple_bind; [apply waiting_tick|]. intros ?. apply waiting_flush_continue.
Qed.

Lemma waiting_read_control fd :
  triple waiting (catch (read_control_command fd) : M _ io_error _) (λ _, waiting).
Proof.
  intros sv w Hi HJ. apply wp_catch. eapply wp_mono; [apply wp_read_control_command|].
  intros o sv' w' (-> & Hw & r & _ & -> & _).
  assert (Hadv := advances_calm _ _ _ Hi Hw).
  unfold command_of_read. by repeat case_match.
Qed.

Lemma waiting_handle_pfd bound res : triple waiting (handle_pfd bound res) going_on.
Proof.
  unfold handle_pfd. eapply triple_bind; [apply waiting_read_control|].
  intros [[cmd|]|[e|e]]; [|apply waiting_continue|apply triple_throw|apply triple_say, waiting_continue].
  eapply triple_bind; [apply waiting_control|]. intros applied.
  eapply triple_bind; [|intros ?; apply waiting_flush_continue].
  destruct applied; [by apply (triple_ret waiting)|apply triple_svlogg].
Qed.

Lemma waiting_rounds n bound res : triple waiting (rounds n bound res) going_on.
Proof.
  induction n as [|n IH]; simpl; [apply waiting_continue|].
  eapply triple_bind; [|intros [|]; [|apply waiting_break]].
  - eapply triple_bind; [by apply (triple_sys_try waiting)|]. intros events.
    apply waiting_for_break. intros data. unfold handle_event.
    case_bool_decide; [apply waiting_handle_sfd|]. case_bool_decide; [apply waiting_handle_tfd|].
    case_bool_decide; [apply waiting_handle_pfd|apply triple_say, waiting_continue].
  - eapply triple_conseq; [exact IH|by intros sv H; apply H|done].
Qed.

(** A break comes with a finished shutdown. *)
Lemma finished_rounds n bound res : triple (λ _, True) (rounds n bound res) flow_post.
Proof.
  induction n as [|n IH]; simpl; [by apply triple_ret|].
  eapply (triple_bind _ _ _ flow_post); [|intros [|]; [exact IH|by apply triple_ret]].
  eapply triple_bind; [by apply triple_sys_try|]. intros events.
  eapply triple_conseq; [apply (triple_for_break (λ _, True) finished)|done|by intros [|]].
  intros data. eapply triple_conseq; [apply triple_handle_event|done|by intros [|]].
Qed.

(** ** Children and services *)

Lemma alive_unreaped gen reg w : reg_inv gen reg w → alive reg ↔ ∃ p, unreaped p (trace w).
Proof.
  intros (Hwf & _ & Hled). unfold ledger_of in Hled.
  assert (Hpids : ∀ p, unreaped p (trace w) ↔ is_Some (pids_map reg !! p)).
  { intros p. rewrite <- ledger_unreaped, <- elem_of_dom. by rewrite Hled. }
  split.
  - intros (k & e & Hk & He). unfold entries_of in Hk. rewrite lookup_fmap in Hk.
    destruct (services_map reg !! k) as [svc|] eqn:Hsvc; [|done]. injection Hk as <-. simpl in He.
    destruct (pid svc) as [p|] eqn:Hp.
    + exists p. apply Hpids. exists k. apply (wf_pids _ _ Hwf). eauto.
    + unfold pid in Hp. by destruct (s_state svc) as [r| |]; [destruct (He r)|..].
  - intros [p [k Hk]%Hpids]. apply (wf_pids _ _ Hwf) in Hk as (svc & Hk & Hp).
    exists k, (entry_of svc). unfold entries_of. rewrite lookup_fmap, Hk. split; [done|].
    intros r. unfold pid in Hp. simpl. by destruct (s_state svc).
Qed.

(** C7.  A shutdown ends.  After any number of rounds of the loop that were
    made without an error, the loop has been left exactly when a shutdown
    was requested and no child is left unreaped: the supervisor never
    lingers after its last child was reaped, and never leaves before.
    [run_loop] is then back with success, and has otherwise exactly the
    rest of its rounds to make. *)
Theorem shutdown_ends_loop n m bound res sv w :
  sv_inv sv w → sv_state sv = SupervisorState.Running →
  let '(o, sv', w') := rounds n bound res sv w in
  ∀ c, o = Ok c →
    (c = BreakOuter ↔
       sv_state sv' = SupervisorState.ShutdownRequested ∧ ∀ p, ¬ unreaped p (trace w')) ∧
    run_loop (n + m) bound res sv w =
      match c with
      | BreakOuter => (Ok tt, sv', w')
      | Continue => run_loop m bound res sv' w'
      end.
Proof.
  intros Hi Hst. pose proof (run_loop_rounds n m bound res sv w) as Hloop.
  assert (Hwait : waiting sv) by (intros Hreq; congruence).
  pose proof (waiting_rounds n bound res sv w Hi Hwait) as Hgo.
  pose proof (finished_rounds n bound res sv w Hi I) as Hfin. unfold wp in Hgo, Hfin.
  rewrite Hloop. unfold bind. destruct (rounds n bound res sv w) as [[o sv'] w'].
  intros c ->. destruct Hgo as [((Hreg & _) & _) Hgo], Hfin as [_ Hfin].
  pose proof (alive_unreaped _ _ _ Hreg) as Halive. split; [|by destruct c].
  destruct c; simpl in *.
  - split; [done|]. intros [Hreq Hnone]. exfalso.
    destruct (proj1 Halive (Hgo eq_refl Hreq)) as [p Hp]. by apply (Hnone p).
  - split; [intros _|done]. destruct Hfin as [Hreq Hall]. split; [done|].
    intros p Hp. assert (Hal : alive (sv_registry sv')) by (apply Halive; by exists p).
    apply all_stopped_alive in Hal. congruence.
Qed.
End lingering.

(** * An instance on the simulated platform *)

(** A running service; SIGTERM arrives, then SIGCHLD with its end. *)
Definition sim_ending : world sim :=
  World (sim_set_epolls [ROk [ID_SFD]; ROk [ID_SFD]]
    (sim_set_reads [ROk (SIGTERM :: replicate 127 0); ROk (SIGCHLD :: replicate 127 0)]
      (sim_set_statuses [(100, SIGTERM)] (sim_set_children [100] sim_init))))
    [Ev SFork (100, 0)] 3.

Lemma shutdown_ends_loop_witness :
  let sv := sim_sv SupervisorState.Running (sim_svc (Running 100) ServicePendingAction.None) in
  (rounds 1 5 sim_res sv sim_ending).1.1 = Ok Continue ∧
  (rounds 2 5 sim_res sv sim_ending).1.1 = Ok BreakOuter ∧
  ∃ sv' w', run_loop 7 5 sim_res sv sim_ending = (Ok tt, sv', w').
Proof.
  cbv zeta. split; [vm_compute; reflexivity|]. split; [vm_compute; reflexivity|].
  assert (Hi : sv_inv (sim_sv SupervisorState.Running
    (sim_svc (Running 100) ServicePendingAction.None)) sim_ending).
  { apply sim_sv_inv, (sim_reg_inv (Running 100)). by intros p [= <-]. }
  pose proof (shutdown_ends_loop 2 5 5 sim_res _ sim_ending Hi eq_refl) as Hend.
  destruct (rounds 2 5 sim_res _ sim_ending) as [[o sv'] w'] eqn:Hrounds.
  exists sv', w'. vm_compute in Hrounds. 
  assert (Ho : o = Ok BreakOuter) by congruence.
  destruct (Hend _ Ho) as [_ Hloop]. exact Hloop.
Defined.
