(* ===== verification/Images.v ===== *)
(** What the children execute: the image of every child comes from the
    configurations that were read.  [guards] is a third invariant pass over
    the program, which unlike weakest preconditions looks at the child's side
    of the forks. *)
From S2P Require Import Prelude Utils Bytes Data Text Platform Monad Sim Logging Cli.
From S2P Require Import Signalfd Control Service Registry Handlers Reload Status.
From S2P Require Import Supervisor Startup Deadlines.
Local Open Scope Z_scope.
Local Open Scope svlopp_scope.

(** * Where a service's vectors come from *)

Section armed.
Context {K : Type} `{!Platform K}.

(** The configuration of a service was read, and its two vectors were built
    from configurations that were read. *)
Definition armed (svc : service) (evs : list event) : Prop :=
  config_read (s_config svc) evs ∧
  (∃ cfg, config_read cfg evs ∧ s_argv svc = command cfg :: args cfg) ∧
  ∃ cfg, config_read cfg evs ∧ environment_of cfg (s_envp svc).

Definition registry_armed (reg : service_registry) (evs : list event) : Prop :=
  map_Forall (λ _ svc, armed svc evs) (services_map reg).

(** A fact about the past stays true. *)
Class Lasting (F : list event → Prop) : Prop :=
  lasting evs evs' : F evs → F (evs ++ evs').

#[global] Instance lasting_const (P : Prop) : Lasting (λ _, P).
Proof. by intros evs evs'. Qed.
#[global] Instance lasting_read cfg : Lasting (config_read cfg).
Proof. intros evs evs'. apply config_read_app. Qed.
#[global] Instance lasting_and F G : Lasting F → Lasting G → Lasting (λ evs, F evs ∧ G evs).
Proof. intros HF HG evs evs' [??]. split; [by apply HF|by apply HG]. Qed.
#[global] Instance lasting_armed svc : Lasting (armed svc).
Proof.
  intros evs evs' (Hc & (c1 & Hc1 & ?) & c2 & Hc2 & ?). split_and!;
    [by apply lasting|exists c1|exists c2]; (split; [by apply lasting|done]).
Qed.
#[global] Instance lasting_registry reg : Lasting (registry_armed reg).
Proof. intros evs evs' Hreg k svc Hk. by apply lasting, (Hreg k). Qed.

(** * Guarded computations *)

(** The last fork returned 0 in this process, which made the setup of an
    armed service and then executed its image. *)
Definition executes (svc : service) (evs : list event) (file : string) (argv : list string)
    (envp : option (list string)) : Prop :=
  ∃ parent e since sigset devnull_fd log_fd,
    evs = parent ++ Ev SFork (0, e) :: since ∧ armed svc parent ∧
    calls since = setup_plan svc sigset devnull_fd log_fd ++ [exec_call svc] ∧
    head (s_argv svc) = Some file ∧ argv = s_argv svc ∧ envp = s_envp svc.

Definition lawful_end (p : process_end) (evs : list event) : Prop :=
  match p with
  | ProcExec file argv envp => ∃ svc, executes svc evs file argv envp
  | _ => True
  end.

Abbreviation M := (@M K).

(** [m], under the fact [F], keeps [I] however it ends, executes only images
    of armed services, and its result is in [Q]. *)
Definition guards {S E A} (F : list event → Prop) (I : S → list event → Prop) (m : M S E A)
    (Q : A → list event → Prop) : Prop :=
  ∀ s w, F (trace w) → I s (trace w) →
    let '(o, s', w') := m s w in
    trace w `prefix_of` trace w' ∧
    match o with
    | Gone p => lawful_end p (trace w')
    | Ok a => I s' (trace w') ∧ Q a (trace w')
    | _ => I s' (trace w')
    end.

Abbreviation guarded F I m := (guards F I m (λ _ _, True)).

Section rules.
Context (F : list event → Prop) `{HF : !Lasting F}.
Context {S : Type} (I : S → list event → Prop) `{HI : !∀ s, Lasting (I s)}.

Lemma guarded_ret {E A} (a : A) : guarded F I (ret a : M S E A).
Proof. by intros s w. Qed.
Lemma guarded_throw {E A} (e : E) : guarded F I (throw e : M S E A).
Proof. by intros s w. Qed.
Lemma guarded_panic {E A} msg : guarded F I (panic msg : M S E A).
Proof. by intros s w. Qed.
Lemma guarded_fuel {E A} : guarded F I (out_of_fuel : M S E A).
Proof. by intros s w. Qed.
Lemma guarded_exit {E A} c : guarded F I (gone (ProcExit c) : M S E A).
Proof. by intros s w. Qed.
Lemma guarded_die {E A} msg : guarded F I (gone (ProcPanic msg) : M S E A).
Proof. by intros s w. Qed.
Lemma guarded_get {E} : guarded F I (get : M S E S).
Proof. by intros s w. Qed.
Lemma guarded_modify {E} f :
  (∀ s evs, F evs → I s evs → I (f s) evs) → guarded F I (modify f : M S E unit).
Proof. intros Hf s w HFw Hi. split; [done|]. split; [by apply Hf|done]. Qed.
Lemma guarded_lift {E A} (r : result E A) : guarded F I (lift r : M S E A).
Proof. intros s w. by destruct r. Qed.
Lemma guarded_expect {E A} (o : option A) msg : guarded F I (expect o msg : M S E A).
Proof. intros s w. by destruct o. Qed.
Lemma guarded_sys {E A} (op : sysop A) : guarded F I (sys op : M S E A).
Proof.
  intros s w HFw Hi. unfold sys. destruct (handle op (kst w)) as [r k].
  split; [by apply prefix_app_r|]. split; [by apply HI|done].
Qed.

Lemma guards_ret {E A} (a : A) (Q : A → list event → Prop) :
  (∀ s evs, F evs → I s evs → Q a evs) → guards F I (ret a : M S E A) Q.
Proof. intros HQ s w HFw Hi. split; [done|]. split; [done|by eapply HQ]. Qed.
Lemma guards_lift {E A} (r : result E A) : guards F I (lift r : M S E A) (λ a _, r = ROk a).
Proof. intros s w. by destruct r. Qed.

Lemma guards_bind {E A B} (m : M S E A) (k : A → M S E B) R Q :
  guards F I m R → (∀ a, guards (λ evs, F evs ∧ R a evs) I (k a) Q) → guards F I (bind m k) Q.
Proof.
  intros Hm Hk s w HFw Hi. specialize (Hm s w HFw Hi). unfold bind.
  destruct (m s w) as [[[a|e| | |p] s1] w1]; try done. destruct Hm as [Htr [Hi1 HR]].
  assert (HF1 : F (trace w1)) by (destruct Htr as [evs ->]; by apply HF).
  specialize (Hk a s1 w1 (conj HF1 HR) Hi1). destruct (k a s1 w1) as [[o s2] w2].
  split; [by etrans; [|apply Hk]|apply Hk].
Qed.
Lemma guarded_bind {E A B} (m : M S E A) (k : A → M S E B) Q :
  guarded F I m → (∀ a, guards F I (k a) Q) → guards F I (bind m k) Q.
Proof.
  intros Hm Hk. eapply guards_bind; [exact Hm|]. intros a s w [HFw _]. by apply Hk.
Qed.
Lemma guarded_catch {E F' A} (m : M S E A) :
  guarded F I m → guarded F I (catch m : M S F' (result E A)).
Proof.
  intros Hm s w HFw Hi. specialize (Hm s w HFw Hi). unfold catch.
  destruct (m s w) as [[[] ?] ?]; tauto.
Qed.
Lemma guarded_for_each {E A} (l : list A) (f : A → M S E unit) :
  (∀ x, x ∈ l → guarded F I (f x)) → guarded F I (for_each l f).
Proof.
  induction l as [|x l IH]; intros Hf; simpl; [apply guarded_ret|].
  apply guarded_bind; [apply Hf; by left|]. intros _. apply IH. intros y Hy. apply Hf. by right.
Qed.
Lemma guarded_for_break {E A} (l : list A) (f : A → M S E flow) :
  (∀ x, guarded F I (f x)) → guarded F I (for_break l f).
Proof.
  intros Hf. induction l as [|x l IH]; simpl; [apply guarded_ret|].
  apply guarded_bind; [apply Hf|]. intros [|]; [done|apply guarded_ret].
Qed.
Lemma guarded_zoom {T E A} (J : T → list event → Prop) (g : S → T) (p : T → S → S) (m : M T E A) :
  (∀ s evs, I s evs → J (g s) evs) →
  (∀ s t evs, I s evs → J t evs → I (p t s) evs) →
  guarded F J m → guarded F I (zoom g p m).
Proof.
  intros Hg Hp Hm s w HFw Hi. specialize (Hm (g s) w HFw (Hg _ _ Hi)). unfold zoom.
  destruct (m (g s) w) as [[o t] w']. destruct Hm as [Htr Ho]. split; [done|].
  assert (Hi' : I s (trace w')) by (destruct Htr as [evs ->]; by apply HI).
  destruct o; try (by apply Hp); [|done]. split; [by apply Hp; [|apply Ho]|done].
Qed.
(** A local variable with an invariant of its own. *)
Lemma guards_with_local {T E A} (J : T → list event → Prop) (t : T) (m : M T E A) :
  (∀ evs, F evs → J t evs) → guarded F J m →
  guards F I (with_local t m : M S E (A * T)) (λ r, J r.2).
Proof.
  intros Ht Hm s w HFw Hi. specialize (Hm t w HFw (Ht _ HFw)). unfold with_local.
  destruct (m t w) as [[o t'] w']. destruct Hm as [Htr Ho]. split; [done|].
  assert (Hi' : I s (trace w')) by (destruct Htr as [evs ->]; by apply HI).
  destruct o; try done. split; [done|apply Ho].
Qed.
Lemma guarded_with_local {T E A} (t : T) (m : M T E A) :
  guarded F (λ _ _, True) m → guarded F I (with_local t m : M S E (A * T)).
Proof. by apply (guards_with_local (λ _ _, True)). Qed.
Lemma guards_fact {E A} (G : list event → Prop) (m : M S E A) Q :
  (∀ evs, F evs → G evs) → guards G I m Q → guards F I m Q.
Proof. intros HG Hm s w HFw. by apply Hm, HG. Qed.
End rules.
End armed.

Notation guarded F I m := (guards F I m (λ _ _, True)).

#[export] Hint Resolve guarded_die guarded_ret guarded_throw guarded_panic guarded_fuel guarded_exit guarded_get
  guarded_lift guarded_expect guarded_sys : svlopp.

(** Follow the structure of a computation. *)
Ltac guarding :=
  repeat first
    [ solve [eauto with svlopp typeclass_instances]
    | match goal with
      | |- guards _ _ (bind _ _) _ => apply guarded_bind; [apply _| |intros ?]
      | |- guards _ _ (catch _) _ => apply guarded_catch
      | |- guards _ _ (with_local _ _) _ => apply guarded_with_local; [apply _|]
      | |- guards _ _ (sys_try _) _ => apply guarded_bind; [apply _| |intros ?]
      | |- guards _ _ (sys_cvt _) _ => apply guarded_bind; [apply _| |intros ?]
      | |- guards _ _ (for_each _ _) _ => apply guarded_for_each; [apply _|intros ? ?]
      | |- guards _ _ (for_break _ _) _ => apply guarded_for_break; [apply _|intros ?]
      | |- guards _ (λ _ _, True) (modify _) _ => apply guarded_modify; done
      | |- guards _ _ (match ?x with _ => _ end) _ => destruct x
      end ].

(** * The program *)

Section program.
Context {K : Type} `{!Platform K} `{!PlatformLaws K}.
Abbreviation M := (@M K).
Context (F : list event → Prop) `{HF : !Lasting F}.

Lemma guarded_svlogg {S E} (I : S → list event → Prop) `{HI : !∀ s, Lasting (I s)} level msg :
  guarded F I (svlogg level msg : M S E unit).
Proof.
  unfold svlogg, log_inner, timestamp, eprintln.
  apply guarded_bind; [apply _|by intros s w|]. intros max. guarding.
Qed.
#[local] Hint Resolve guarded_svlogg : svlopp.

(** ** One service *)

Lemma guarded_fork_service sigset devnull_fd log_fd :
  guarded F armed (fork_service sigset devnull_fd log_fd : M service io_error unit).
Proof.
  intros svc w HFw Hi. unfold fork_service, bind at 1, sys.
  destruct (handle SFork (kst w)) as [[raw e] k].
  assert (Htr : trace w `prefix_of` trace (extend w k (Ev SFork (raw, e)))) by by apply prefix_app_r.
  assert (Hi' : armed svc (trace (extend w k (Ev SFork (raw, e))))) by by apply lasting.
  case_bool_decide as Hraw; [|by case_bool_decide]. subst raw.
  destruct (child_exec_ends (E:=io_error) (A:=unit) svc sigset devnull_fd log_fd
    (extend w k (Ev SFork (0, e)))) as (p & w' & since & Heq & Htr' & Hend).
  rewrite Heq. split; [etrans; [exact Htr|rewrite Htr'; by apply prefix_app_r]|].
  destruct p as [c|file argv envp|msg]; [done| |done].
  destruct Hend as (Hmade%exec_made_calls & Hfile & -> & ->). exists svc, (trace w), e, since, sigset, devnull_fd, log_fd.
  split_and!; try done. rewrite Htr'. simpl. by rewrite <- app_assoc.
Qed.
#[local] Hint Resolve guarded_fork_service : svlopp.

Lemma guarded_start_service sigset : guarded F armed (start_service sigset).
Proof. unfold start_service. guarding. Qed.
Lemma guarded_running_pid {E} : guarded F armed (running_pid : M service E Z).
Proof. unfold running_pid. guarding. Qed.
Lemma guarded_state {E} st : guarded F armed (modify (set_state st) : M service E unit).
Proof. by apply guarded_modify. Qed.
Lemma guarded_pending {E} a : guarded F armed (modify (set_pending_action a) : M service E unit).
Proof. by apply guarded_modify. Qed.
#[local] Hint Resolve guarded_start_service guarded_running_pid guarded_state guarded_pending : svlopp.
Lemma guarded_stop_service : guarded F armed stop_service.
Proof. unfold stop_service. guarding. Qed.
Lemma guarded_reap_service p er : guarded F armed (reap_service p er).
Proof. unfold reap_service. guarding. Qed.
#[local] Hint Resolve guarded_stop_service guarded_reap_service : svlopp.

(** ** The registry *)

Lemma guards_on_service {E A} k (m : M service E A) :
  guarded F armed m → guarded F registry_armed (on_service k m).
Proof.
  intros Hm reg w HFw Hi. unfold on_service, service_mut.
  destruct (services_map reg !! k) as [svc|] eqn:Hk; [|done].
  specialize (Hm svc w HFw (Hi k svc Hk)). destruct (m svc w) as [[o svc'] w'].
  destruct Hm as [Htr Ho]. split; [done|].
  assert (Hi' : registry_armed reg (trace w')) by (destruct Htr as [evs ->]; by apply lasting).
  destruct o; try (by apply map_Forall_insert_2); [|done].
  split; [apply map_Forall_insert_2; [apply Ho|done]|done].
Qed.
Lemma guarded_register_pid {E} p k :
  guarded F registry_armed (modify (register_pid p k) : M _ E unit).
Proof. by apply guarded_modify. Qed.
Lemma guarded_remove_service {E} k :
  guarded F registry_armed (modify (remove_service k) : M _ E unit).
Proof. apply guarded_modify. intros reg evs _ Hi. by apply map_Forall_delete. Qed.
#[local] Hint Resolve guarded_register_pid guarded_remove_service : svlopp.

Lemma guarded_services {E} : guarded F registry_armed (services : M _ E (list (Z * service))).
Proof. unfold services. intros reg w _ Hi. unfold bind, get, in_order. by destruct (order _ (kst w)). Qed.
Lemma guarded_in_order {S E A} (I : S → list event → Prop) (l : list A) :
  guards F I (in_order l : M S E (list A)) (λ l' _, l' ≡ₚ l).
Proof.
  intros s w _ Hi. unfold in_order. pose proof (order_perm l (kst w)) as Hp.
  destruct (order l (kst w)) as [l' k]. done.
Qed.
Lemma guarded_order {S E A} (I : S → list event → Prop) (l : list A) :
  guarded F I (in_order l : M S E (list A)).
Proof. intros s w _ Hi. unfold in_order. by destruct (order l (kst w)). Qed.
#[local] Hint Resolve guarded_services guarded_order : svlopp.
#[local] Ltac guarded := repeat first [ progress guarding | apply guards_on_service ].

Lemma guarded_service_keys {E} : guarded F registry_armed (service_keys : M _ E (list Z)).
Proof. unfold service_keys. guarded. Qed.
Lemma guarded_start_borrowed k sigset : guarded F registry_armed (start_borrowed k sigset).
Proof. unfold start_borrowed. guarded. Qed.
Lemma guarded_try_start {E} ok_text err_text k sigset :
  guarded F registry_armed (try_start ok_text err_text k sigset : M _ E unit).
Proof. unfold try_start. guarded. Qed.
#[local] Hint Resolve guarded_service_keys guarded_start_borrowed guarded_try_start : svlopp.

Lemma guarded_apply_control_op k op sigset :
  guarded F registry_armed (apply_control_op k op sigset).
Proof. unfold apply_control_op, start_requested. guarded. Qed.
Lemma guarded_start_all {E} sigset : guarded F registry_armed (start_all sigset : M _ E unit).
Proof. unfold start_all. guarded. Qed.
Lemma guarded_stop_all {E} : guarded F registry_armed (stop_all : M _ E unit).
Proof. unfold stop_all, stop_entry. guarded. Qed.
Lemma guards_get {E} : guards F registry_armed (get : M _ E _) registry_armed.
Proof. by intros reg w. Qed.

Lemma guarded_handle_status p status : guarded F registry_armed (handle_status p status).
Proof.
  unfold handle_status, from_wait_status. apply guarded_bind; [apply _|guarded|].
  intros [er|]; [|guarded]. eapply guards_bind; [apply _|apply guards_get|]. intros reg.
  apply guarded_bind; [apply _| |].
  - apply guarded_modify. intros reg0 evs [_ Hreg] _. unfold take_by_pid.
    by destruct (pids_map reg !! p).
  - intros []. apply (guards_fact _ _ F); [by intros evs [? _]|]. guarded.
Qed.
#[local] Hint Resolve guarded_handle_status : svlopp.

Lemma guarded_handle_sigchld bound : guarded F registry_armed (handle_sigchld bound).
Proof. induction bound as [|bound IH]; simpl; guarded. Qed.

Lemma guarded_handle_tick {E} now sigset : guarded F registry_armed (handle_tick now sigset : M _ E unit).
Proof.
  unfold handle_tick, tick_entry, tick_service, force_kill_service_process. guarded.
  by apply guarded_modify.
Qed.

Lemma guarded_write_all {S} (I : S → list event → Prop) `{HI : !∀ s, Lasting (I s)} bound fd buf :
  guarded F I (write_all bound fd buf).
Proof. revert buf. induction bound as [|bound IH]; intros buf; destruct buf; simpl; guarded. Qed.
#[local] Hint Resolve guarded_write_all : svlopp.
Lemma guarded_flush {E} bound path : guarded F registry_armed (flush_status_file bound path : M _ E unit).
Proof. unfold flush_status_file, format_status, write_status_file. guarded. Qed.
End program.

#[local] Hint Resolve guarded_svlogg guarded_start_service guarded_running_pid guarded_pending
  guarded_stop_service guarded_register_pid guarded_remove_service guarded_services guarded_order
  guarded_start_borrowed guarded_apply_control_op guarded_start_all guarded_stop_all
  guarded_handle_sigchld guarded_handle_tick guarded_flush : svlopp.
#[local] Ltac guarded := repeat first [ progress guarding | apply guards_on_service ].

(** ** From configurations to vectors *)

Section vectors.
Context {K : Type} `{!Platform K} `{!PlatformLaws K}.
Abbreviation M := (@M K).
Context (F : list event → Prop) `{HF : !Lasting F}.

Lemma guards_build_svc_envp {S} (I : S → list event → Prop) `{HI : !∀ s, Lasting (I s)} cfg :
  guards F I (build_svc_envp cfg : M S io_error _) (λ envp _, environment_of cfg envp).
Proof.
  unfold build_svc_envp, environment_of. destruct (env cfg) as [vars|]; [|by apply guards_ret].
  eapply guards_bind; [apply _|apply guarded_in_order|]. intros entries.
  eapply guards_bind; [apply _|apply guards_lift|]. intros l. apply guards_ret.
  intros _ evs [[_ Hp] Hl%cstrings_new_is] _. by exists entries.
Qed.
End vectors.

Section services.
Context {K : Type} `{!Platform K} `{!PlatformLaws K}.
Abbreviation M := (@M K).
Context (F : list event → Prop) `{HF : !Lasting F}.

Context (cfg : service_config) (Hread : ∀ evs, F evs → config_read cfg evs).

Lemma guards_service_new {S} (I : S → list event → Prop) `{HI : !∀ s, Lasting (I s)} id name :
  guards F I (service_new id name cfg : M S io_error service) armed.
Proof.
  unfold service_new. eapply guards_bind; [apply _|apply guards_lift|]. intros argv.
  eapply guards_bind; [apply _|apply guards_build_svc_envp; apply _|]. intros envp.
  apply guards_ret. intros s evs [[HFe Hargv%build_svc_argv_is] Henvp] _.
  apply Hread in HFe. split; [done|]. split; by exists cfg.
Qed.

Lemma guarded_update_config : guarded F armed (update_config cfg).
Proof.
  unfold update_config. eapply guards_bind; [apply _|apply guards_lift|]. intros argv.
  apply guarded_bind; [apply _| |intros []].
  { apply guarded_modify. intros svc evs [HFe Hargv%build_svc_argv_is] (Hc & _ & Henv).
    apply Hread in HFe. split; [done|]. split; [by exists cfg|done]. }
  eapply guards_bind; [apply _|apply guards_build_svc_envp; apply _|]. intros envp.
  apply guarded_bind; [apply _| |intros []]; apply guarded_modify.
  - intros svc evs [[HFe _] Henvp] (Hc & Hargv & _). apply Hread in HFe.
    split; [done|]. split; [done|by exists cfg].
  - intros svc evs [[HFe _] _] (_ & Hargv & Henv). apply Hread in HFe. by split.
Qed.

(** ** Reloads *)

Definition reload_armed (st : reload_state) (evs : list event) : Prop := registry_armed st.1 evs.
#[global] Instance lasting_reload st : Lasting (reload_armed st).
Proof. apply lasting_registry. Qed.

Lemma guarded_on_registry {E A} (m : M service_registry E A) :
  guarded F registry_armed m → guarded F reload_armed (on_registry m).
Proof. by apply guarded_zoom; [apply _| |]. Qed.

Lemma guarded_next_id : guarded F reload_armed
  (next_id snd (λ gen st, (st.1, gen)) : M reload_state io_error Z).
Proof.
  unfold next_id. apply (guarded_zoom _ _ (λ _ _, True)); [done|done|]. guarded.
Qed.

Lemma guarded_change_service sigset n k :
  guarded F registry_armed (change_service sigset n k cfg).
Proof.
  unfold change_service, restart_changed. guarded. apply guarded_update_config.
Qed.

Lemma guarded_add_service sigset n : guarded F reload_armed (add_service sigset n cfg).
Proof.
  unfold add_service. apply guarded_bind; [apply _|apply guarded_svlogg; apply _|]. intros _.
  apply guarded_bind; [apply _|apply guarded_next_id|]. intros id.
  eapply guards_bind; [apply _|apply guards_service_new; apply _|]. intros svc.
  eapply guards_bind; [apply _|apply (guards_with_local _ _ armed); [by intros evs [_ ?]|guarded]|].
  intros [p svc']. apply guarded_bind; [apply _|apply guarded_svlogg; apply _|]. intros _.
  apply (guarded_zoom _ _ registry_armed); [done|done|].
  apply guarded_bind; [apply _| |intros []; apply guarded_register_pid].
  apply guarded_modify. intros reg evs [_ Hsvc] Hreg. by apply map_Forall_insert_2.
Qed.

Lemma guarded_apply_config ids sigset n : guarded F reload_armed (apply_config ids sigset n cfg).
Proof.
  unfold apply_config. destruct (ids !! n); [|apply guarded_add_service].
  apply guarded_on_registry, guarded_change_service.
Qed.

Lemma guarded_load_service n : guarded F reload_armed (load_service n cfg).
Proof.
  unfold load_service. apply guarded_bind; [apply _|apply guarded_next_id|]. intros id.
  eapply guards_bind; [apply _|apply guards_service_new; apply _|]. intros svc.
  apply (guarded_zoom _ _ registry_armed); [done|done|].
  apply guarded_modify. intros reg evs [_ Hsvc] Hreg. by apply map_Forall_insert_2.
Qed.
End services.

#[local] Hint Resolve guarded_service_keys guarded_next_id : svlopp.

Section configurations.
Context {K : Type} `{!Platform K} `{!PlatformLaws K}.
Abbreviation M := (@M K).

(** Every configuration of a file was read. *)
Definition known (configs : gmap string service_config) (evs : list event) : Prop :=
  ∀ n cfg, configs !! n = Some cfg → config_read cfg evs.
#[global] Instance lasting_known configs : Lasting (known configs).
Proof. intros evs evs' Hk n cfg Hcfg. by eapply lasting, Hk. Qed.

Lemma guards_sys F {S E A} (I : S → list event → Prop) `{HI : !∀ s, Lasting (I s)} (op : sysop A) :
  guards F I (sys op : M S E A) (λ r evs, Ev op r ∈ evs).
Proof.
  intros s w _ Hi. unfold sys. destruct (handle op (kst w)) as [r k].
  split; [by apply prefix_app_r|]. split; [by apply HI|]. apply elem_of_app. right.
  by apply list_elem_of_singleton.
Qed.

Lemma guards_from_config_file {S} F `{HF : !Lasting F} (I : S → list event → Prop)
    `{HI : !∀ s, Lasting (I s)} path :
  guards F I (from_config_file path : M S io_error _) known.
Proof.
  intros s w HFw Hi.
  pose proof (wp_from_config_file path s w) as Hwp.
  assert (Hguard : guarded F I (from_config_file path : M S io_error _))
    by (unfold from_config_file; guarded).
  specialize (Hguard s w HFw Hi). unfold wp in Hwp.
  destruct (from_config_file path s w) as [[o s'] w']. destruct Hguard as [Htr Ho].
  split; [done|]. destruct o as [configs|e| | |p]; try done. split; [apply Ho|].
  destruct Hwp as (_ & _ & _ & txt & Htxt & Hread). intros n cfg Hcfg.
  exists path, txt, configs, n. rewrite Hread. split; [|done]. apply elem_of_app. right.
  by apply list_elem_of_singleton.
Qed.

(** A loop over the entries of a file. *)
Lemma guarded_entries {E} configs (f : string → service_config → M reload_state E unit) :
  (∀ n cfg, guarded (config_read cfg) reload_armed (f n cfg)) →
  guarded (known configs) reload_armed
    (let! entries := in_order (map_to_list configs) in for_each entries (λ e, f e.1 e.2)).
Proof.
  intros Hf. eapply guards_bind; [apply _|apply guarded_in_order|]. intros entries s w [Hk Hp] Hi.
  apply (guarded_for_each (known configs) reload_armed); [|done|done].
  intros [n cfg] Hin. eapply guards_fact; [|apply Hf]. intros evs Hevs. apply (Hevs n).
  rewrite Hp in Hin. by apply elem_of_map_to_list in Hin.
Qed.

Lemma guarded_reload_services F `{HF : !Lasting F} path sigset :
  guarded F reload_armed (reload_services path sigset).
Proof.
  unfold reload_services. eapply guards_bind; [apply _|apply guards_from_config_file; apply _|].
  intros configs. apply (guards_fact _ _ (known configs)); [by intros evs [_ ?]|].
  unfold reconcile. apply guarded_bind; [apply _| |intros ids].
  { apply guarded_on_registry. unfold service_ids. guarded. }
  apply guarded_bind; [apply _|guarded|]. intros names.
  apply guarded_bind; [apply _| |intros []].
  { apply guarded_on_registry. unfold drop_service. guarded. }
  apply guarded_entries. intros n cfg. by apply guarded_apply_config; [apply _|].
Qed.

Lemma guarded_load_services F `{HF : !Lasting F} path :
  guarded F reload_armed (load_services path).
Proof.
  unfold load_services. eapply guards_bind; [apply _|apply guards_from_config_file; apply _|].
  intros configs. apply (guards_fact _ _ (known configs)); [by intros evs [_ ?]|].
  apply guarded_entries. intros n cfg. by apply guarded_load_service; [apply _|].
Qed.
End configurations.
#[local] Hint Resolve guarded_reload_services guarded_load_services : svlopp.

(** ** The supervisor *)

Section supervisor.
Context {K : Type} `{!Platform K} `{!PlatformLaws K}.
Abbreviation M := (@M K).

Definition sv_armed (sv : supervisor) (evs : list event) : Prop := registry_armed (sv_registry sv) evs.
#[global] Instance lasting_sv sv : Lasting (sv_armed sv).
Proof. apply lasting_registry. Qed.
Abbreviation always := (λ _ : list event, True).

Lemma guarded_on_sv {E A} (m : M service_registry E A) :
  guarded always registry_armed m → guarded always sv_armed (on_sv_registry m).
Proof. by apply guarded_zoom; [apply _| |]. Qed.
Lemma guarded_on_services {E A} (m : M reload_state E A) :
  guarded always reload_armed m → guarded always sv_armed (on_sv_services m).
Proof. by apply guarded_zoom; [apply _| |]. Qed.
Lemma guarded_batch fd :
  guarded always sv_armed (zoom sv_siginfo_buf set_sv_buf (read_signalfd_batch fd)).
Proof.
  apply (guarded_zoom _ _ (λ _ _, True)); [done|done|]. unfold read_signalfd_batch. guarded.
Qed.
Lemma guarded_set_state {E} st : guarded always sv_armed (modify (set_sv_state st) : M _ E unit).
Proof. by apply guarded_modify. Qed.
#[local] Hint Resolve guarded_on_sv guarded_on_services guarded_batch guarded_set_state : svlopp.

Lemma guarded_handle_event bound res data : guarded always sv_armed (handle_event bound res data).
Proof.
  unfold handle_event, handle_sfd, handle_tfd, handle_pfd, handle_signal, handle_hup, handle_chld,
    handle_term, break_outer, read_timerfd, read_control_command. guarded.
Qed.
#[local] Hint Resolve guarded_handle_event : svlopp.

Lemma guarded_run_loop fuel bound res : guarded always sv_armed (run_loop fuel bound res).
Proof. induction fuel as [|fuel IH]; simpl; guarded. Qed.
#[local] Hint Resolve guarded_run_loop : svlopp.

Lemma guarded_setup args : guarded always sv_armed (setup args).
Proof.
  unfold setup, sigset_current, sigset_empty, sigset_add, block_thread_signals,
    create_control_fifo, signalfd, create_timerfd_1s_periodic. guarded.
Qed.
#[local] Hint Resolve guarded_setup : svlopp.

Lemma guarded_run fuel bound args : guarded always sv_armed (run fuel bound args).
Proof. unfold run. guarded. Qed.
End supervisor.
