(* ===== verification/Typing.v ===== *)
(** The ranges of the program's own types.

    The model keeps integers as [Z] and C strings as strings; this file says
    which of them the Rust types allow ([u64] ids, [i32] pids, [CString]s,
    [Instant]s, exit codes and signal numbers) and derives from the
    supervisor's invariant and the life cycle that every value the
    supervisor keeps is one. *)
From S2P Require Import Prelude Utils Bytes Data Platform Monad Signalfd Service Registry.
From S2P Require Import Supervisor.
Local Open Scope Z_scope.

(** * The types *)

Definition is_pid (p : Z) : Prop := 0 < p < 2 ^ 31.

(** A [ServiceState] but for its pid. *)
Definition state_ranged (st : service_state) : Prop :=
  match st with
  | Stopped r => stop_reason_typed r
  | Running _ => True
  | Stopping _ d => is_instant d
  end.

Record service_typed (svc : service) : Prop := {
  ty_id : is_u64 (s_id svc);
  ty_config : config_wf (s_config svc);
  ty_argv : argv_wf (s_argv svc);
  ty_envp : envp_wf (s_envp svc);
  ty_state : state_ranged (s_state svc);
  ty_pid p : pid svc = Some p → is_pid p
}.

(** Also: the maps are keyed by what they say, and no pid or id in them
    dangles. *)
Record registry_typed (reg : service_registry) : Prop := {
  ty_services k svc : services_map reg !! k = Some svc → s_id svc = k ∧ service_typed svc;
  ty_pids p k : pids_map reg !! p = Some k →
    is_pid p ∧ ∃ svc, services_map reg !! k = Some svc ∧ pid svc = Some p
}.

Record supervisor_typed (sv : supervisor) : Prop := {
  ty_registry : registry_typed (sv_registry sv);
  ty_id_gen : is_u64 (sv_id_gen sv);
  ty_fresh k : is_Some (services_map (sv_registry sv) !! k) → k < sv_id_gen sv;
  ty_buffer : buffer_wf SIGINFO_BUF_LEN (sv_siginfo_buf sv)
}.

(** * Preservation *)

Definition state_ranged_at (st : option service_state) : Prop :=
  match st with Some st => state_ranged st | None => True end.

(** Every step of the life cycle keeps a state in range. *)
Lemma lifecycle_ranged st st' : lifecycle st st' → state_ranged_at st → state_ranged_at st'.
Proof. destruct 1; simpl; try done. intros _. by apply stop_reason_of_exit. Qed.

Lemma lifecycles_ranged st st' :
  rtc lifecycle st st' → state_ranged_at st → state_ranged_at st'.
Proof. induction 1; eauto using lifecycle_ranged. Qed.

Lemma evolved_ranged reg reg' k svc :
  evolves reg reg' → state_ranged_at (state_at reg k) →
  services_map reg' !! k = Some svc → state_ranged (s_state svc).
Proof.
  intros Hev Hst Hk. specialize (lifecycles_ranged _ _ (Hev k) Hst). unfold state_at.
  by rewrite Hk.
Qed.

Section typing.
Context {K : Type} `{!Platform K} `{!PlatformLaws K}.

Lemma reg_inv_pids gen reg (w : world K) p k :
  reg_inv gen reg w → pids_map reg !! p = Some k → is_pid p.
Proof. intros (_ & Hc & _) Hp. eapply children_range, Hc, elem_of_dom_2, Hp. Qed.

(** What the supervisor's invariant and the life cycle since a registry in
    range give. *)
Lemma sv_typed reg sv (w : world K) :
  sv_inv sv w → evolves reg (sv_registry sv) → (∀ k, state_ranged_at (state_at reg k)) →
  supervisor_typed sv.
Proof.
  intros (Hi & Hg & Hb) Hev Hreg. split; [|done| |done].
  - split.
    + intros k svc Hk. destruct (reg_inv_service _ _ _ _ _ Hi Hk) as (<- & ? & ? & ? & ?).
      split; [done|]. split; try done; [unfold is_u64; lia|by eapply evolved_ranged|].
      intros p Hp. destruct (reg_inv_pid _ _ _ _ _ _ Hi Hk Hp) as (Hpk & _).
      by eapply reg_inv_pids.
    + intros p k Hp. split; [by eapply reg_inv_pids|]. destruct Hi as [Hwf _].
      by apply (wf_pids _ _ Hwf).
  - intros k [svc Hk]. by destruct (reg_inv_service _ _ _ _ _ Hi Hk) as (_ & [? ?] & _).
Qed.
End typing.
