(* ===== verification/Run.v ===== *)
(** [run] of main.rs as a whole. *)
From S2P Require Import Prelude Utils Bytes Data Text Platform Monad Sim Logging Cli.
From S2P Require Import Signalfd Control Service Registry Ledger Handlers Reload Status.
From S2P Require Import Supervisor Fuel Startup Exits Deadlines Policy Refinement.
From S2P Require Import Images Typing.
Local Open Scope Z_scope.
Local Open Scope svlopp_scope.

Lemma all_stopped_no_pids gen reg :
  registry_wf gen reg → all_stopped reg = true → pids_map reg = ∅.
Proof.
  intros Hwf Hall%bool_decide_eq_true. apply map_empty. intros p.
  destruct (pids_map reg !! p) as [k|] eqn:Hp; [|done]. exfalso.
  apply (wf_pids _ _ Hwf) in Hp as (svc & Hk & Hpid). apply Hall in Hk.
  unfold is_stopped, pid in *. by destruct (s_state svc).
Qed.


Section run.
Context {K : Type} `{!Platform K} `{!PlatformLaws K}.

Lemma triple_setup args :
  triple (λ sv, sv = supervisor_new) (setup args) (λ _ sv, sv = supervisor_new).
Proof.
  intros sv w Hi ->. eapply wp_mono; [apply quietly_setup|].
  intros o sv' w' (Hs & Hw & Ho). rewrite Hs by done.
  split; [by apply advances_calm|by destruct o].
Qed.

Lemma triple_load_services path :
  triple (λ sv, sv = supervisor_new) (on_sv_services (load_services path))
    (λ _ sv, all_stopped (sv_registry sv) = true).
Proof.
  intros sv w Hi ->. apply wp_zoom. pose proof Hi as (Hr & _).
  eapply wp_mono; [apply (wp_load_services path 0 registry_new); [done..|]|].
  { unfold u64_max. lia. }
  intros o st w' [Hs Ho]. split.
  - apply (advances_reload (A:=unit) supervisor_new w (Ok tt) st w' Hi Hs).
  - destruct o as [[]|e| | |]; try done. destruct Ho as (txt & configs & _ & _ & [Hall _] & _).
    apply bool_decide_eq_true. intros k svc Hk. destruct (Hall k svc Hk) as [_ (_ & Hst & _)].
    unfold is_stopped. by rewrite Hst.
Qed.

Lemma triple_start_all sigset :
  triple (E:=io_error) (λ sv, all_stopped (sv_registry sv) = true)
    (on_sv_registry (start_all sigset)) (λ _ _, True).
Proof.
  apply triple_registry. intros sv w Hi Hall%bool_decide_eq_true.
  eapply wp_mono; [by apply wp_start_all|]. by intros o reg' w' (-> & Hsafe & _).
Qed.

Lemma triple_run fuel bound args :
  triple (λ sv, sv = supervisor_new) (run fuel bound args) (λ _, finished).
Proof.
  unfold run. eapply triple_bind; [apply triple_setup|]. intros res.
  eapply triple_bind; [apply triple_load_services|]. intros [].
  eapply triple_bind; [apply triple_start_all|]. intros [].
  eapply triple_bind; [apply triple_flush|]. intros []. apply triple_say, triple_run_loop.
Qed.

(** C1.  The supervisor is safe for its whole life: on any platform that
    keeps its documented behaviour, for any command line, configuration
    file, signals, timer ticks and control bytes, and for any number of
    iterations, [run] never panics; at its end, however it ended, the
    registry's invariant holds, every entry went through the life cycle
    from its creation, the ids stayed in range; and when [run] returns
    success a shutdown was requested, every service is stopped, no pid is
    left registered and no child is left unreaped. *)
Theorem run_safe fuel bound args (w : world K) :
  trace w = [] →
  wp (run fuel bound args) (λ o sv w',
    (∀ msg, o ≠ Panic msg) ∧ sv_inv sv w' ∧ evolves registry_new (sv_registry sv) ∧
    (o = Ok tt →
      sv_state sv = SupervisorState.ShutdownRequested ∧
      (∀ k svc, services_map (sv_registry sv) !! k = Some svc → is_stopped svc = true) ∧
      pids_map (sv_registry sv) = ∅ ∧ ∀ p, ¬ unreaped p (trace w'))) supervisor_new w.
Proof.
  intros Hw. eapply wp_mono.
  { apply triple_run; [|done]. apply sv_inv_new. unfold ledger_of. by rewrite Hw. }
  intros o sv w' [(Hi & Hev & _) Ho]. split_and!; [by intros msg ->|done|done|].
  intros ->. destruct Ho as [Hst Hall], Hi as ((Hwf & _ & Hl) & _).
  pose proof (all_stopped_no_pids _ _ Hwf Hall) as Hempty. split_and!; [done| |done|].
  - by apply bool_decide_eq_true in Hall.
  - intros p. rewrite <- ledger_unreaped. unfold ledger_of in Hl.
    rewrite Hl, Hempty, dom_empty. simpl. set_solver.
Qed.

(** C3.  Signals reach only the supervisor's own children: whatever
    happens, each [kill_process] that [run] ever makes (a stop signal or a
    SIGKILL) is aimed at a process that was forked by the supervisor
    before and whose end [wait] has not reported in between; a pid that
    the kernel may have given to another process is never signalled. *)
Theorem run_kills_own_children fuel bound args (w : world K) :
  trace w = [] →
  wp (run fuel bound args) (λ _ _ w', ∀ before p sig r since,
    trace w' = before ++ Ev (SKill p sig) r :: since → unreaped p before) supervisor_new w.
Proof.
  intros Hw. eapply wp_mono.
  { apply triple_run; [|done]. apply sv_inv_new. unfold ledger_of. by rewrite Hw. }
  intros o sv w' [(((_ & _ & Hled) & _) & _) _]. apply ledger_targets.
  unfold ledger_of in Hled. by rewrite Hled.
Qed.

(** C5.  No child is lost and no dead one is kept: at the end of [run],
    however it ended, the pids of [pids_map] are exactly the processes
    that were forked and whose end was not reported, and each belongs to
    exactly the service that runs under it. *)
Theorem run_tracks_children fuel bound args (w : world K) :
  trace w = [] →
  wp (run fuel bound args) (λ _ sv w', ∀ p,
    (unreaped p (trace w') ↔ is_Some (pids_map (sv_registry sv) !! p)) ∧
    ∀ k, pids_map (sv_registry sv) !! p = Some k ↔
      ∃ svc, services_map (sv_registry sv) !! k = Some svc ∧ pid svc = Some p)
    supervisor_new w.
Proof.
  intros Hw. eapply wp_mono.
  { apply triple_run; [|done]. apply sv_inv_new. unfold ledger_of. by rewrite Hw. }
  intros o sv w' [(((Hwf & _ & Hled) & _) & _) _] p. split; [|apply (wf_pids _ _ Hwf)].
  rewrite <- ledger_unreaped, <- elem_of_dom. unfold ledger_of in Hled. by rewrite Hled.
Qed.

(** C6.  [run] is type safe: at its end, however it ended and after any
    number of iterations, everything the supervisor keeps is in the range of
    its Rust type, although the model lets it be any integer or string.  The
    ids are [u64] below the generator's next one and each is the key of its
    service; the pids are positive [i32] and lead to the service that runs
    under them; the kill deadlines are [Instant]s, so no addition on the
    clock overflowed; the stop reasons have the codes and signals they are
    given for; the argument vectors are not empty, and they and the
    environments hold C strings; the timeouts, user and group ids have their
    widths; and the signal buffer is bytes of whole items. *)
Theorem run_well_typed fuel bound args (w : world K) :
  trace w = [] →
  wp (run fuel bound args) (λ _ sv _, supervisor_typed sv) supervisor_new w.
Proof.
  intros Hw. eapply wp_mono.
  { apply triple_run; [|done]. apply sv_inv_new. unfold ledger_of. by rewrite Hw. }
  intros o sv w' [(Hi & Hev & _) _]. by eapply sv_typed.
Qed.

Lemma run_punctual fuel bound args (w : world K) :
  trace w = [] →
  wp (run fuel bound args) (λ _ _ w', kills_justified (trace w')) supervisor_new w.
Proof.
  intros Hw. unfold run.
  eapply (punctual_first (λ sv, sv = supervisor_new)); [apply triple_setup|apply keeps_setup| |..].
  - intros res sv1 w1 Hi1 He1 Hko1 ->.
    eapply punctual_first; [apply triple_load_services|apply keeps_load| |done..].
    intros [] sv2 w2 Hi2 He2 Hko2 Hst.
    eapply punctual_first; [apply triple_start_all|apply keeps_start| |done..].
    intros [] sv3 w3 Hi3 He3 Hko3 _.
    assert (Hrest : punctual (on_sv_registry (flush_status_file bound (r_status_path res)) ;;!
      svlogg LogLevel.Info "supervisor started. Ctrl+C to exit" ;;! run_loop fuel bound res)).
    { apply punctual_bind; [apply punctual_flush|]. intros _.
      apply punctual_bind; [apply punctual_svlogg|]. intros _. apply punctual_run_loop. }
    eapply wp_mono; [by apply Hrest|]. by intros o sv' w' (_ & _ & ?).
  - apply sv_inv_new. unfold ledger_of. by rewrite Hw.
  - by apply map_Forall_empty.
  - rewrite Hw. split; [intros before ev since Heq|intros before p st since Heq]; by destruct before.
  - done.
Qed.

(** C4.  No process is killed early.  Whenever [run] sends SIGKILL to a
    process [p], the stop signal that the configuration of a service asks
    for had been delivered to [p] before, the clock had been read right
    after it, and before the SIGKILL the clock had shown an instant at
    least the stop timeout of that configuration later.  The configuration
    came from the configuration file, and [p] is still the
    process that got the stop signal: no other was forked under that pid
    since.  Whenever [run] signals a process group [p], the signal is
    SIGKILL, [p] is a child that [run] forked and had not reaped before, and
    the call right before was the [wait] that reported its end: the members
    of the group that are killed without notice are orphans. *)
Theorem run_kills_after_timeout fuel bound args (w : world K) :
  trace w = [] →
  wp (run fuel bound args) (λ _ _ w',
    (∀ evs p r rest, trace w' = evs ++ Ev (SKill p SIGKILL) r :: rest →
      ∃ cfg before stopped since now,
        evs = before ++ Ev (SKill p (signal_of_stop_signal (cfg_stop_signal cfg))) (ROk tt) ::
                        Ev SNow stopped :: since ∧
        config_read cfg before ∧ unforked p since ∧ Ev SNow now ∈ evs ∧
        stopped + duration_from_millis (stop_timeout_ms cfg) ≤ now) ∧
    (∀ evs p sig r rest, trace w' = evs ++ Ev (SKillPg p sig) r :: rest →
      sig = SIGKILL ∧ ∃ before st, evs = before ++ [Ev SWait (ROk (Some (p, st)))] ∧
        ws_final st = true ∧ unreaped p before)) supervisor_new w.
Proof.
  intros Hw. eapply wp_mono; [by apply run_punctual|]. intros o sv w' Hko. split.
  - intros evs p r rest Heq.
    destruct (proj1 (proj1 Hko evs _ rest Heq) p eq_refl) as (d & now & Hsent & Hnow & Hle).
    destruct Hsent as (cfg & before & t & since & -> & Hc & Hu & ->).
    by exists cfg, before, t, since, now.
  - intros evs p sig r rest Heq. exact (proj2 (proj1 Hko evs _ rest Heq) p sig eq_refl).
Qed.


(** The ends of [run] in the terms of the process. *)
Lemma run_ends fuel bound args (w : world K) :
  ledger_of w = (∅, true) →
  let '(o, _, w') := run fuel bound args supervisor_new w in
  match o with
  | Ok _ => ledger_of w' = (∅, true)
  | Gone p => ∃ sigset, left_early sigset p w'
  | Panic _ => False
  | _ => True
  end.
Proof.
  intros Hled. pose proof (run_leaves fuel bound args w) as Hleave.
  pose proof (triple_run fuel bound args supervisor_new w (sv_inv_new w Hled) eq_refl) as Hrun.
  unfold wp in Hrun. destruct (run fuel bound args supervisor_new w) as [[o sv] w'].
  destruct o as [[]|e| | |p]; try done; [|by destruct Hrun|].
  - destruct Hrun as [(((Hwf & _ & Hl) & _) & _) [_ Hall]]. unfold ledger_of in *.
    by rewrite Hl, (all_stopped_no_pids _ _ Hwf Hall), dom_empty_L.
  - destruct Hleave as [(e & [=] & _)|(res & _ & _ & _ & _ & Hp)]. by eexists.
Qed.

(** C8.  [run] sets everything up before it makes a process.  If a call of
    the setup fails, [run] returns that failure and has forked nothing;
    otherwise its trace starts with the whole setup, whose calls build on
    each other's answers ([setup_events]: the four signals are blocked, and
    the signalfd reads exactly them).  And [run] is left otherwise than by
    returning only in a forked child, which ended on the plan of
    [child_exec] for some service, under the signal mask that svlopp itself
    was started with, or when a log message could not be printed. *)
Theorem run_sets_up_first fuel bound args (w : world K) :
  trace w = [] →
  let '(o, _, w') := run fuel bound args supervisor_new w in
  (∃ e, o = Err e ∧ kills w' = [] ∧ ∀ p, ¬ unreaped p (trace w')) ∨
  ∃ res evs rest, trace w' = evs ++ rest ∧ setup_events args res evs ∧
    match o with
    | Gone p => ended_as_child (original_sigset res) p w' ∨ stderr_lost p w'
    | _ => True
    end.
Proof.
  intros Hw. pose proof (run_leaves fuel bound args w) as Hrun.
  destruct (run fuel bound args supervisor_new w) as [[o sv] w']. rewrite Hw in Hrun.
  destruct Hrun as [(e & -> & (_ & _ & Hled) & Hk)|?]; [left|by right].
  exists e. split_and!; [done|rewrite Hk; unfold kills; by rewrite Hw|].
  intros p. rewrite <- ledger_unreaped. unfold ledger_of in Hled. rewrite Hled, Hw. set_solver.
Qed.

(** C2.  [run] refines the supervision policy.  Unless it fails before it
    has forked anything, its trace is the setup, the read of the
    configuration, the start of what the configuration lists, and events
    on which the supervisor obeys the policy: however the run ends and
    whenever, the state it is in is the one that the policy's own steps
    lead to, on exactly these events, from the entries of the configuration
    started once.  The policy leaves undone what is due to a service only
    where one of the calls made for it was refused among these events, and
    every process it knows of came from one of their forks. *)
Theorem run_refines_policy fuel bound args (w : world K) :
  trace w = [] →
  wp (run fuel bound args) (λ o sv w',
    (∃ e, o = Err e ∧ ∀ p, ¬ unreaped p (trace w')) ∨
    ∃ res setup_evs txt configs load_evs start_evs evs es0 es1 q,
      trace w' = setup_evs ++
        Ev (SReadToString (config_path args)) (ROk txt) :: load_evs ++ start_evs ++ evs ∧
      setup_events args res setup_evs ∧ toml_from_str txt = ROk configs ∧
      Forall inert load_evs ∧ Forall inert start_evs ∧ installed configs es0 ∧ each (on_start start_evs) es0 es1 ∧
      obeys (r_sfd res) (r_tfd res) (r_pfd res) (config_path args)
        (Policy false [] (Z.of_nat (size configs)) es1) evs (policy_of q sv)) supervisor_new w.
Proof.
  intros Hw. unfold run. wp_step.
  assert (Hled : ledger_of w = (∅, true)) by (unfold ledger_of; by rewrite Hw).
  assert (Hnone : ∀ w', world_calm w w' → ∀ p, ¬ unreaped p (trace w')).
  { intros w' [(_ & _ & Hl) _] p. rewrite <- ledger_unreaped. unfold ledger_of in *.
    rewrite Hl, Hled. set_solver. }
  eapply wp_mono.
  { apply wp_and; [apply (quietly_setup (K:=K) true args)|apply records_wp, setup_records]. }
  intros o sv1 w1 [(Hs & Hw1 & Hsettled) Hset]. specialize (Hs eq_refl) as ->.
  destruct o as [res|e| | |]; simpl; try done; [|left; by exists e; eauto].
  destruct (Hset res eq_refl) as (setup_evs & Htr1 & _ & Hset'). wp_step.
  pose proof (sv_inv_new w Hled) as Hi0.
  pose proof (advances_calm _ _ _ Hi0 Hw1) as (Hi1 & _).
  unfold on_sv_services. wp_step.
  eapply wp_mono.
  { apply wp_and; [apply (wp_load_services _ 0 registry_new); [apply Hi1|done|]|
      apply load_services_events]. unfold u64_max. lia. }
  intros o st w2 [[Hsafe Hload] [Hw2 Hevs]].
  pose proof (advances_reload (A:=unit) _ _ (Ok tt) _ _ Hi1 Hsafe) as (Hi2 & _).
  destruct o as [[]|e| | |]; simpl; try done;
    [|left; exists e; split; [done|]; apply Hnone; by etrans].
  destruct Hload as (txt & configs & [rest Hpre] & Htxt & Hloaded & Hgen).
  destruct (Hevs tt eq_refl) as (txt' & load_evs & Hin & Htr2). rewrite Htr2 in Hpre.
  rewrite <- app_assoc in Hpre. apply app_inv_head in Hpre.
  assert (txt' = txt) as -> by (apply (f_equal (λ l, head l ≫= text_read)) in Hpre; by injection Hpre).
  eapply wp_mono; [apply wp_started_loop; [done|]|].
  { apply bool_decide_eq_true. intros k svc Hk. destruct Hloaded as [Hall _].
    destruct (Hall k svc Hk) as [_ (_ & Hst & _)]. unfold is_stopped. by rewrite Hst. }
  intros o sv' w' (es & start_evs & evs & q & Htr & Hstart & Heach & Hob). right.
  exists res, setup_evs, txt, configs, load_evs, start_evs, evs.
  exists (entries_of st.1), es, q. split_and!; try done.
  - rewrite Htr, Htr2, Htr1, Hw. simpl. by rewrite <- !app_assoc.
  - eapply installed_services; [apply Hi2|done].
  - unfold run_obeys in Hob. simpl in Hob. rewrite Hgen in Hob.
    destruct Hset' as (_ & _ & _ & _ & _ & _ & _ & _ & _ & <-). exact Hob.
Qed.
(** C9.  A child of [run] executes what the configuration asks for and
    nothing else.  Whenever the process of [run] is replaced by another
    image, it is a child just forked, its calls since the fork are the
    setup of a service whose configuration was read before, and then the
    exec; the program and its arguments are the command line of a
    configuration that was read, and its environment is the one of a
    configuration that was read (it is not always the same one: after an
    update that failed half-way the vectors come from two). *)
Theorem run_executes_configured fuel bound args (w : world K) :
  trace w = [] →
  let '(o, _, w') := run fuel bound args supervisor_new w in
  ∀ file argv envp, o = Gone (ProcExec file argv envp) →
  ∃ svc cfg cfg' parent e since sigset devnull_fd log_fd,
    trace w' = parent ++ Ev SFork (0, e) :: since ∧
    calls since = setup_plan svc sigset devnull_fd log_fd ++ [exec_call svc] ∧
    config_read (s_config svc) parent ∧ config_read cfg parent ∧ config_read cfg' parent ∧
    file = command cfg ∧ argv = command cfg :: Data.args cfg ∧ argv = s_argv svc ∧
    environment_of cfg' envp ∧ envp = s_envp svc.
Proof.
  intros Hw. pose proof (guarded_run fuel bound args supervisor_new w I) as Hrun.
  assert (Hempty : sv_armed supervisor_new (trace w)) by by apply map_Forall_empty.
  specialize (Hrun Hempty). destruct (run fuel bound args supervisor_new w) as [[o sv] w'].
  intros file argv envp ->. destruct Hrun as [_ (svc & Hexec)].
  destruct Hexec as (parent & e & since & sigset & devnull_fd & log_fd & Hex).
  destruct Hex as (Htr & (Hc & (cfg & Hcfg & Hargv) & cfg' & Hcfg' & Henv) & Hcalls & Hhead & -> & ->).
  exists svc, cfg, cfg', parent, e, since, sigset, devnull_fd, log_fd.
  rewrite Hargv in Hhead. injection Hhead as <-. by split_and!.
Qed.

(** ** The ends of [main] *)

(** [Q] holds of the way [m] ends, whichever it is. *)
Definition ends {S E A} (Q : outcome E A → world K → Prop) (m : M S E A) (s : S)
    (w : world K) : Prop :=
  let '(o, _, w') := m s w in Q o w'.

Lemma ends_svlogg {S E A} Q level msg (k : M S E A) s w :
  (∀ p w', stderr_lost p w' → Q (Gone p) w') →
  (∀ w', ledger_of w' = ledger_of w → ends Q k s w') → ends Q (svlogg level msg ;;! k) s w.
Proof.
  intros Hlost Hk. pose proof (svlogg_cases (E:=E) level msg s w) as Hlog.
  assert (Hwp := wp_svlogg (E:=E) level msg s w (λ _ _ w', ledger_of w' = ledger_of w)).
  unfold ends, bind, wp in *. destruct (svlogg level msg s w) as [[o s'] w'].
  destruct Hlog as (-> & _ & Ho). destruct o as [[]|?| | |p]; try done.
  - apply Hk, Hwp. intros w1 [(_ & _ & Hl) _]%says_calm. done.
  - apply Hlost, Ho.
Qed.

Lemma ends_sys {S E A B} Q (op : sysop B) (k : B → M S E A) s w :
  calm op = true → (∀ r w', ledger_of w' = ledger_of w → ends Q (k r) s w') →
  ends Q (bind (sys op) k) s w.
Proof.
  intros Hop Hk. unfold ends, bind, sys. destruct (handle op (kst w)) as [r k'] eqn:Hh.
  apply Hk. by destruct (world_calm_sys op w r k' Hop Hh) as [(_ & _ & ?) _].
Qed.

(** The two ways the removal of the run directory is reported. *)
Lemma ends_report {S E A} Q (b : bool) args e (k : M S E A) s w :
  (∀ p w', stderr_lost p w' → Q (Gone p) w') →
  (∀ w', ledger_of w' = ledger_of w → ends Q k s w') →
  ends Q ((if b then ret tt else remove_failed args e) ;;! k) s w.
Proof. intros Hlost Hk. destruct b; [by apply Hk|]. by apply ends_svlogg. Qed.

Definition main_end {E A} (o : outcome E A) (w' : world K) : Prop :=
  match o with
  | OutOfFuel => True
  | Gone p => (∃ sigset, ended_as_child sigset p w') ∨ stderr_lost p w' ∨ p = ProcExit 1 ∨
              p = ProcExit 0 ∧ ∀ q, ¬ unreaped q (trace w')
  | _ => False
  end.

Lemma main_lost {E A} p (w : world K) : stderr_lost p w → main_end (E:=E) (A:=A) (Gone p) w.
Proof. by right; left. Qed.

(** The end of [main], after [run]. *)
Lemma main_cleanup_ends {S E A} args (code : Z) (s : S) (w : world K) :
  (code = 0 → ledger_of w = (∅, true)) → code = 0 ∨ code = 1 →
  ends main_end
    (let! removed := sys (SRemoveDirAll (run_dir args)) in
     match removed with ROk _ => ret tt | RErr e => remove_failed args e end ;;!
     gone (ProcExit code) : M S E A) s w.
Proof.
  intros Hled Hcode. apply ends_sys; [done|]. intros r w1 Hw1.
  assert (Hgone : ∀ w', ledger_of w' = ledger_of w1 →
    ends main_end (gone (ProcExit code) : M S E A) s w').
  { intros w' Hw'. right. right. destruct Hcode as [-> | ->]; [right|by left].
    split; [done|]. intros q. rewrite <- ledger_unreaped. unfold ledger_of in *.
    rewrite Hw', Hw1, Hled by done. set_solver. }
  destruct r as [[]|e]; [by apply Hgone|].
  apply (ends_report _ false); [apply main_lost|done].
Qed.

Lemma main_finish_ends {S E A} args r (s : S) (w : world K) :
  (∀ x, r = ROk x → ledger_of w = (∅, true)) →
  ends main_end (main_finish args r : M S E A) s w.
Proof.
  intros Hled. destruct r as [x|e]; [apply (main_cleanup_ends args 0); eauto|].
  set (k := λ code : Z, let! removed := sys (SRemoveDirAll (run_dir args)) in
    match removed with ROk _ => ret tt | RErr e => remove_failed args e end ;;!
    gone (ProcExit code) : M S E A).
  assert (Hk : ends main_end (svlogg LogLevel.Error (io_error_text e) ;;! k 1) s w).
  { apply ends_svlogg; [apply main_lost|]. intros w' _. by apply main_cleanup_ends; [|right]. }
  revert Hk. unfold main_finish, ends, bind. by destruct (svlogg _ _ s w) as [[[] ?] ?].
Qed.

Lemma main_serve_ends {S E A} fuel bound args (s : S) (w : world K) :
  ledger_of w = (∅, true) → ends main_end (main_serve fuel bound args : M S E A) s w.
Proof.
  intros Hw. apply ends_sys; [done|]. intros made w1 Hw1.
  destruct made as [[]|e];
    [|apply ends_svlogg; [apply main_lost|]; intros; by right; right; left].
  apply ends_svlogg; [apply main_lost|]. intros w2 Hw2.
  assert (Hled : ledger_of w2 = (∅, true)) by congruence.
  pose proof (run_ends fuel bound args w2 Hled) as Hrun.
  unfold ends, bind at 1, catch, with_local.
  destruct (run fuel bound args supervisor_new w2) as [[o sv] w3].
  destruct o as [[]|e| | |p]; try done; try (by apply main_finish_ends).
  destruct Hrun as (sigset & [Hc|Hp]); [left; by exists sigset|by apply main_lost].
Qed.

(** [main] on a command line that was accepted. *)
Lemma main_accepted_ends {S E A} fuel bound args (s : S) (w : world K) :
  ledger_of w = (∅, true) →
  ends main_end (main_with fuel bound args : M S E A) s w.
Proof.
  intros Hw. unfold main_with, ends, bind at 1. simpl.
  apply (ends_sys main_end (SRemoveDirAll (run_dir args)) (λ removed,
    match removed with
    | ROk _ => ret tt
    | RErr e => if bool_decide (e = OsError ENOENT) then ret tt else remove_failed args e
    end ;;! main_serve fuel bound args) s
    (World (kst w) (trace w) (LogLevel.to_u8 (cli_log_level args)))); [done|].
  intros removed w1 Hw1.
  assert (Hrest : ∀ w2, ledger_of w2 = ledger_of w1 →
    ends main_end (main_serve fuel bound args : M S E A) s w2).
  { intros w2 Hw2. apply main_serve_ends. rewrite Hw2, Hw1. exact Hw. }
  destruct removed as [[]|e]; [by apply Hrest|]. apply ends_report; [apply main_lost|done].
Qed.

(** C36.  [main] never returns.  It panics only when an argument that the
    command line is read up to is not Unicode, before it did or printed
    anything.  Otherwise its process goes on supervising, or it is a forked
    child that ended on its plan, or it ends because a line could not be
    printed, or it ends itself with exit code 1, or with exit code 0; exit
    code 0 means that no process the supervisor ever forked was left
    unreaped. *)
Theorem main_exits {S E A} fuel bound argv (s : S) (w : world K) :
  trace w = [] →
  let '(o, _, w') := (main fuel bound argv : M S E A) s w in
  match o with
  | OutOfFuel => True
  | Panic _ => w' = w ∧ ¬ unicode argv
  | Gone p => (∃ sigset, ended_as_child sigset p w') ∨ stderr_lost p w' ∨ p = ProcExit 1 ∨
              p = ProcExit 0 ∧ ∀ q, ¬ unreaped q (trace w')
  | _ => False
  end.
Proof.
  intros Hw. assert (Hled : ledger_of w = (∅, true)) by (unfold ledger_of; by rewrite Hw).
  unfold main, bind at 1.
  destruct (parse_cases (S:=S) (E:=E) argv s w)
    as [(_ & _ & args & _ & _ & _ & _ & ->)|[(p & w' & -> & [->|Hp])|[-> Hbad]]].
  - pose proof (main_accepted_ends (E:=E) (A:=A) fuel bound args s w Hled) as Hend.
    unfold ends in Hend. by destruct (main_with fuel bound args s w) as [[[] ?] ?].
  - by right; right; left.
  - by right; left.
  - split; [done|]. destruct Hbad as (before & bad & after & -> & _ & Hb).
    intros [_ [Hbad _]%Forall_cons]%Forall_app. congruence.
Qed.

(** The fuel of the model decides nothing.  With more fuel, for the
    main loop and for the loops over [wait] and [write], [main] makes the
    same calls with the same answers and goes on from where it was cut:
    its trace begins with the trace of the run with less; and a run that
    ended by itself ends in exactly the same way, in the same state and
    world.  So the theorems that hold for any fuel speak of every beginning
    of the one endless run. *)
Lemma fuel_only_cuts {S E A} fuel fuel' bound bound' argv (s : S) (w : world K) :
  (fuel ≤ fuel')%nat → (bound ≤ bound')%nat →
  trace (main (E:=E) (A:=A) fuel bound argv s w).2 `prefix_of`
    trace (main (E:=E) (A:=A) fuel' bound' argv s w).2 ∧
  ((main (E:=E) (A:=A) fuel bound argv s w).1.1 ≠ OutOfFuel →
   main (E:=E) (A:=A) fuel' bound' argv s w = main fuel bound argv s w).
Proof.
  intros Hf Hb. pose proof (approx_main (S:=S) (E:=E) (A:=A) fuel fuel' bound bound' argv Hf Hb s w) as Hm.
  destruct (main fuel bound argv s w) as [[o s1] w1], (main fuel' bound' argv s w) as [[o' s2] w2].
  destruct Hm as [Ht [[-> Hcut]|(-> & -> & ->)]]; done.
Qed.
End run.

(** * Scenarios on the simulated platform *)

Definition sim_world (k : sim) : world sim := World k [] 3.
Definition sim_siginfo (sig : Z) : list Z := sig :: replicate 127 0.

Definition sim_args : cli_args := CliArgs "services.toml" "/run/svlopp" LogLevel.Info.

(** One configured service; SIGTERM arrives, then its SIGCHLD, the service
    having died of SIGTERM. *)
Definition sim_shutdown : sim :=
  sim_set_config "a" (sim_set_epolls [ROk [ID_SFD]; ROk [ID_SFD]]
    (sim_set_reads [ROk (sim_siginfo SIGTERM); ROk (sim_siginfo SIGCHLD)]
      (sim_set_statuses [(100, SIGTERM)] sim_init))).

Example run_shutdown :
  let '(o, sv, w) := run 3 3 sim_args supervisor_new (sim_world sim_shutdown) in
  o = Ok tt ∧ pids_map (sv_registry sv) = ∅ ∧
  (s_state <$> services_map (sv_registry sv) !! 0) =
    Some (Stopped (SupervisorTerminated (Signaled SIGTERM))) ∧
  kills w = [(100, SIGTERM)] ∧ waits (trace w) = [(100, SIGTERM)].
Proof. vm_compute. done. Qed.

Lemma run_safe_witness :
  trace (sim_world sim_shutdown) = [] ∧
  wp (run 3 3 sim_args) (λ o sv w',
    (∀ msg, o ≠ Panic msg) ∧ sv_inv sv w' ∧ evolves registry_new (sv_registry sv) ∧
    (o = Ok tt →
      sv_state sv = SupervisorState.ShutdownRequested ∧
      (∀ k svc, services_map (sv_registry sv) !! k = Some svc → is_stopped svc = true) ∧
      pids_map (sv_registry sv) = ∅ ∧ ∀ p, ¬ unreaped p (trace w')))
    supervisor_new (sim_world sim_shutdown).
Proof. split; [reflexivity|]. apply (run_safe 3 3 sim_args). reflexivity. Defined.

Lemma run_kills_own_children_witness :
  wp (run 3 3 sim_args) (λ _ _ w', ∀ before p sig r since,
    trace w' = before ++ Ev (SKill p sig) r :: since → unreaped p before)
    supervisor_new (sim_world sim_shutdown).
Proof. apply (run_kills_own_children 3 3 sim_args). reflexivity. Defined.

Lemma run_tracks_children_witness :
  wp (run 3 3 sim_args) (λ _ sv w', ∀ p,
    (unreaped p (trace w') ↔ is_Some (pids_map (sv_registry sv) !! p)) ∧
    ∀ k, pids_map (sv_registry sv) !! p = Some k ↔
      ∃ svc, services_map (sv_registry sv) !! k = Some svc ∧ pid svc = Some p)
    supervisor_new (sim_world sim_shutdown).
Proof. apply (run_tracks_children 3 3 sim_args). reflexivity. Defined.

Lemma run_well_typed_witness :
  let w := sim_world sim_shutdown in
  (s_state <$> services_map (sv_registry (run 3 3 sim_args supervisor_new w).1.2) !! 0) =
    Some (Stopped (SupervisorTerminated (Signaled 15))) ∧
  wp (run 3 3 sim_args) (λ _ sv _, supervisor_typed sv) supervisor_new w.
Proof.
  cbv zeta. split; [vm_compute; reflexivity|]. apply (run_well_typed 3 3 sim_args). reflexivity.
Defined.

Lemma run_refines_policy_witness :
  let w := sim_world sim_shutdown in
  (run 3 3 sim_args supervisor_new w).1.1 = Ok tt ∧
  wp (run 3 3 sim_args) (λ o sv _, o = Ok tt →
    ∃ res configs es0 es1 start_evs evs q,
      installed configs es0 ∧ each (on_start start_evs) es0 es1 ∧
      obeys (r_sfd res) (r_tfd res) (r_pfd res) "services.toml" (Policy false [] (Z.of_nat (size configs)) es1) evs
        (policy_of q sv)) supervisor_new w.
Proof.
  cbv zeta. split; [vm_compute; reflexivity|].
  eapply wp_mono; [apply (run_refines_policy 3 3 sim_args); reflexivity|].
  intros o sv w' [(e & -> & _)|Hrun] Ho; [done|].
  destruct Hrun as (res & s & txt & configs & l & st & evs & es0 & es1 & q & H). decompose_ctx.
  by exists res, configs, es0, es1, st, evs, q.
Defined.

(** A service that ignores its stop signal: it is killed by the first tick
    after its timeout of five seconds, the second one here. *)
Definition sim_stubborn : sim :=
  sim_set_config "a" (sim_set_epolls [ROk [ID_SFD]; ROk [ID_TFD]; ROk [ID_TFD]]
    (sim_set_reads [ROk (sim_siginfo SIGTERM); ROk (le_encode 8 1); ROk (le_encode 8 1)]
      sim_init)).

Example run_kills_stubborn :
  kills (run 2 3 sim_args supervisor_new (sim_world sim_stubborn)).2 = [(100, SIGTERM)] ∧
  kills (run 3 3 sim_args supervisor_new (sim_world sim_stubborn)).2 =
    [(100, SIGTERM); (100, SIGKILL)].
Proof. vm_compute. done. Qed.

Lemma run_kills_after_timeout_witness :
  wp (run 3 3 sim_args) (λ _ _ w',
    (∀ evs p r rest, trace w' = evs ++ Ev (SKill p SIGKILL) r :: rest →
      ∃ cfg before stopped since now,
        evs = before ++ Ev (SKill p (signal_of_stop_signal (cfg_stop_signal cfg))) (ROk tt) ::
                        Ev SNow stopped :: since ∧
        config_read cfg before ∧ unforked p since ∧ Ev SNow now ∈ evs ∧
        stopped + duration_from_millis (stop_timeout_ms cfg) ≤ now) ∧
    (∀ evs p sig r rest, trace w' = evs ++ Ev (SKillPg p sig) r :: rest →
      sig = SIGKILL ∧ ∃ before st, evs = before ++ [Ev SWait (ROk (Some (p, st)))] ∧
        ws_final st = true ∧ unreaped p before))
    supervisor_new (sim_world sim_stubborn).
Proof. apply (run_kills_after_timeout 3 3 sim_args). reflexivity. Defined.


Definition sim_argv : list string := ["svlopp"; "--run-dir"; "/tmp/run"; "services.toml"].

Example main_shutdown :
  (main 3 3 sim_argv tt (sim_world sim_shutdown) : outcome unit unit * _ * _).1.1 = Gone (ProcExit 0).
Proof. vm_compute. reflexivity. Qed.

Lemma main_exits_witness :
  let '(o, _, w') := main (S:=unit) (E:=unit) (A:=unit) 3 3 sim_argv tt (sim_world sim_shutdown) in
  match o with
  | OutOfFuel => True
  | Panic _ => w' = sim_world sim_shutdown ∧ ¬ unicode sim_argv
  | Gone p => (∃ sigset, ended_as_child sigset p w') ∨ stderr_lost p w' ∨ p = ProcExit 1 ∨
              p = ProcExit 0 ∧ ∀ q, ¬ unreaped q (trace w')
  | _ => False
  end.
Proof.
  pose proof (main_exits (S:=unit) (E:=unit) (A:=unit) 3 3 sim_argv tt
    (sim_world sim_shutdown) eq_refl) as Hmain. exact Hmain.
Defined.

(** One round of the loop is not enough, three are, and more change nothing. *)
Example more_fuel :
  let run_of n := main (S:=unit) (E:=unit) (A:=unit) n 3 sim_argv tt (sim_world sim_shutdown) in
  (run_of 1%nat).1.1 = OutOfFuel ∧ (run_of 3%nat).1.1 = Gone (ProcExit 0) ∧
  trace (run_of 1%nat).2 `prefix_of` trace (run_of 3%nat).2 ∧ run_of 9%nat = run_of 3%nat.
Proof.
  cbv zeta. split; [vm_compute; reflexivity|]. split; [vm_compute; reflexivity|]. split.
  - apply (fuel_only_cuts 1 3 3 3); lia.
  - apply (fuel_only_cuts 3 9 3 3); [lia..|vm_compute; discriminate].
Qed.

(** The same scenario in the child of the initial start: fork returned 0. *)
Definition sim_child_view : sim := sim_set_in_child true sim_shutdown.

Example run_in_the_child :
  (run 3 3 sim_args supervisor_new (sim_world sim_child_view)).1.1 =
    Gone (ProcExec "sleep" ["sleep"; "10"] None).
Proof. vm_compute. reflexivity. Qed.

Lemma run_sets_up_first_witness :
  let '(o, _, w') := run 3 3 sim_args supervisor_new (sim_world sim_child_view) in
  (∃ e, o = Err e ∧ kills w' = [] ∧ ∀ p, ¬ unreaped p (trace w')) ∨
  ∃ res evs rest, trace w' = evs ++ rest ∧ setup_events sim_args res evs ∧
    match o with
    | Gone p => ended_as_child (original_sigset res) p w' ∨ stderr_lost p w'
    | _ => True
    end.
Proof.
  pose proof (run_sets_up_first 3 3 sim_args (sim_world sim_child_view) eq_refl) as Hrun.
  exact Hrun.
Defined.

Lemma run_executes_configured_witness :
  let '(o, _, w') := run 3 3 sim_args supervisor_new (sim_world sim_child_view) in
  ∀ file argv envp, o = Gone (ProcExec file argv envp) →
  ∃ cfg, config_read cfg (trace w') ∧ file = command cfg ∧ argv = command cfg :: Data.args cfg.
Proof.
  pose proof (run_executes_configured 3 3 sim_args (sim_world sim_child_view) eq_refl) as Hrun.
  destruct (run 3 3 sim_args supervisor_new (sim_world sim_child_view)) as [[o sv] w'].
  intros file argv envp Ho. specialize (Hrun file argv envp Ho).
  destruct Hrun as (svc & cfg & cfg' & parent & e & since & sigset & fd & log & Htr & Hrun).
  decompose_ctx. exists cfg. split; [|done]. rewrite Htr. by apply config_read_app.
Defined.
